(** * Central Lakes Cup: scoring engine and time normaliser

    A shallow embedding of [js/scoring.js] (the [Scoring] object), of
    [js/xmlParser.js] (the time handling, [checkStatus], [parseTime] and
    [processRacerTimes], and the reader of the competitors,
    [getElementText], [deriveGenderFromName] and [parseCompetitors]) and of
    the event functions of [js/app.js] ([stripGenderFromName] and
    [getEventRacers]), followed by the properties of the specification
    that concern them and by further properties of the code.

    Conventions of the embedding.
    - JavaScript objects that are mutated through references (the racer
      records) live in a store, a list indexed by reference; an array of
      racers is a list of references.  Two references are the same object
      exactly when they are equal, and [{...racer}] appends a new object.
    - Strings are strings of 7-bit ASCII characters.
    - A number that holds a time in milliseconds is a [number]: NaN, an
      infinity or an integer.  The fractions that occur inside [parseTime]
      before [Math.round] are kept as exact rationals ([float]); IEEE-754
      rounding of the last binary digit is not modelled, overflow to an
      infinity is.  Places, points and counts are integers.
    - [Array.prototype.sort] is a stable sort; for a comparator that is
      consistent on the array every engine returns the list computed here.
    - An object literal used as a dictionary is the list of its own
      properties in insertion order; [Object.values] lists array indices
      first, and the properties inherited from [Object.prototype] are
      visible to a read.
    - A function that can end in a TypeError returns the store together
      with an optional result, [None] for the exception.
    - A parsed XML document is a tree of elements and texts; a type
      selector finds the elements of that name in document order.  A
      [Set] of strings is the list of its elements in insertion order. *)

From Stdlib Require Import ZArith QArith Qround String Ascii List Lia Bool.
From stdpp Require Import base list sorting.

Local Open Scope Z_scope.

(** ** JavaScript primitives *)

Module JS.

(** *** Strings *)

Definition is_upper (c : ascii) : bool :=
  let n := nat_of_ascii c in (65 <=? n)%nat && (n <=? 90)%nat.

Definition is_lower (c : ascii) : bool :=
  let n := nat_of_ascii c in (97 <=? n)%nat && (n <=? 122)%nat.

(** WhiteSpace and LineTerminator code points below 128:
    TAB, LF, VT, FF, CR and SP. *)
Definition is_white (c : ascii) : bool :=
  let n := nat_of_ascii c in ((9 <=? n)%nat && (n <=? 13)%nat) || (n =? 32)%nat.

Definition lower_char (c : ascii) : ascii :=
  if is_upper c then ascii_of_nat (nat_of_ascii c + 32) else c.

Definition upper_char (c : ascii) : ascii :=
  if is_lower c then ascii_of_nat (nat_of_ascii c - 32) else c.

Fixpoint map_string (f : ascii -> ascii) (s : string) : string :=
  match s with
  | EmptyString => EmptyString
  | String c s' => String (f c) (map_string f s')
  end.

Definition toLowerCase : string -> string := map_string lower_char.
Definition toUpperCase : string -> string := map_string upper_char.

Fixpoint trimStart (s : string) : string :=
  match s with
  | EmptyString => EmptyString
  | String c s' => if is_white c then trimStart s' else s
  end.

(** [trimEnd] keeps a character when it is not white space or when
    something remains after it. *)
Fixpoint trimEnd (s : string) : string :=
  match s with
  | EmptyString => EmptyString
  | String c s' =>
      match trimEnd s' with
      | EmptyString => if is_white c then EmptyString else String c EmptyString
      | t => String c t
      end
  end.

Definition trim (s : string) : string := trimEnd (trimStart s).

Fixpoint startsWith (p s : string) : bool :=
  match p, s with
  | EmptyString, _ => true
  | String _ _, EmptyString => false
  | String a p', String b s' => Ascii.eqb a b && startsWith p' s'
  end.

(** [includes s sub] is [s.includes(sub)]. *)
Fixpoint includes (s sub : string) : bool :=
  startsWith sub s ||
  match s with
  | EmptyString => false
  | String _ s' => includes s' sub
  end.

(** [split sep s] is [s.split(sep)] for a one-character separator. *)
Fixpoint split (sep : ascii) (s : string) : list string :=
  match s with
  | EmptyString => [EmptyString]
  | String c s' =>
      if Ascii.eqb c sep then EmptyString :: split sep s'
      else match split sep s' with
           | [] => [String c EmptyString]
           | p :: ps => String c p :: ps
           end
  end.

(** *** Numbers *)

(** Integral number values. *)
Inductive number : Type :=
| NaN
| NegInf
| Fin (z : Z)
| PosInf.

(** Number values with a fraction, as they occur before [Math.round]. *)
Inductive float : Type :=
| FNaN
| FNegInf
| FFin (q : Q)
| FPosInf.

(** A magnitude from [2^1024 - 2^970] on rounds to an infinity. *)
Definition overflow_bound : Z := 2 ^ 1024 - 2 ^ 970.

Definition fnorm (q : Q) : float :=
  if Qle_bool (inject_Z overflow_bound) q then FPosInf
  else if Qle_bool q (inject_Z (- overflow_bound)) then FNegInf
  else FFin q.

Definition norm (z : Z) : number :=
  if overflow_bound <=? z then PosInf
  else if z <=? - overflow_bound then NegInf
  else Fin z.

Definition Qsign (q : Q) : Z := Z.sgn (Qnum q).

(** [x * y]. *)
Definition fmul (x y : float) : float :=
  match x, y with
  | FNaN, _ | _, FNaN => FNaN
  | FFin a, FFin b => fnorm (a * b)
  | FFin a, FPosInf | FPosInf, FFin a =>
      match Qsign a with 0 => FNaN | Zpos _ => FPosInf | Zneg _ => FNegInf end
  | FFin a, FNegInf | FNegInf, FFin a =>
      match Qsign a with 0 => FNaN | Zpos _ => FNegInf | Zneg _ => FPosInf end
  | FPosInf, FPosInf | FNegInf, FNegInf => FPosInf
  | FPosInf, FNegInf | FNegInf, FPosInf => FNegInf
  end.

(** [x + y]. *)
Definition fadd (x y : float) : float :=
  match x, y with
  | FNaN, _ | _, FNaN => FNaN
  | FFin a, FFin b => fnorm (a + b)
  | FPosInf, FNegInf | FNegInf, FPosInf => FNaN
  | FPosInf, _ | _, FPosInf => FPosInf
  | FNegInf, _ | _, FNegInf => FNegInf
  end.

Definition fint (z : Z) : float := FFin (inject_Z z).

(** [Math.round x]: the integer nearest to [x], halves going up. *)
Definition Math_round (x : float) : number :=
  match x with
  | FNaN => NaN
  | FNegInf => NegInf
  | FPosInf => PosInf
  | FFin q => Fin (Qfloor (q + (1 # 2)))
  end.

(** [x + y] on integral numbers. *)
Definition add (x y : number) : number :=
  match x, y with
  | NaN, _ | _, NaN => NaN
  | Fin a, Fin b => norm (a + b)
  | PosInf, NegInf | NegInf, PosInf => NaN
  | PosInf, _ | _, PosInf => PosInf
  | NegInf, _ | _, NegInf => NegInf
  end.

(** [x - y] on integral numbers. *)
Definition sub (x y : number) : number :=
  match x, y with
  | NaN, _ | _, NaN => NaN
  | Fin a, Fin b => norm (a - b)
  | PosInf, PosInf | NegInf, NegInf => NaN
  | PosInf, _ | _, NegInf => PosInf
  | NegInf, _ | _, PosInf => NegInf
  end.

(** [x === y] on numbers: NaN differs from itself. *)
Definition strict_eq (x y : number) : bool :=
  match x, y with
  | Fin a, Fin b => a =? b
  | PosInf, PosInf | NegInf, NegInf => true
  | _, _ => false
  end.

(** [x > 0]. *)
Definition positive (x : number) : bool :=
  match x with
  | Fin z => 0 <? z
  | PosInf => true
  | _ => false
  end.

(** *** parseInt and parseFloat *)

Definition is_digit (c : ascii) : bool :=
  let n := nat_of_ascii c in (48 <=? n)%nat && (n <=? 57)%nat.

Definition digit_value (c : ascii) : Z := Z.of_nat (nat_of_ascii c - 48).

Definition hex_value (c : ascii) : option Z :=
  let n := nat_of_ascii c in
  if (48 <=? n)%nat && (n <=? 57)%nat then Some (Z.of_nat (n - 48))
  else if (65 <=? n)%nat && (n <=? 70)%nat then Some (Z.of_nat (n - 55))
  else if (97 <=? n)%nat && (n <=? 102)%nat then Some (Z.of_nat (n - 87))
  else None.

(** The longest prefix of decimal digits: its value read after the
    accumulator [acc], the number of digits, and the rest. *)
Fixpoint digits (acc : Z) (s : string) : Z * nat * string :=
  match s with
  | String c s' =>
      if is_digit c then
        let '(v, n, r) := digits (10 * acc + digit_value c) s' in (v, S n, r)
      else (acc, O, s)
  | EmptyString => (acc, O, s)
  end.

Fixpoint hex_digits (acc : Z) (s : string) : Z * nat * string :=
  match s with
  | String c s' =>
      match hex_value c with
      | Some d => let '(v, n, r) := hex_digits (16 * acc + d) s' in (v, S n, r)
      | None => (acc, O, s)
      end
  | EmptyString => (acc, O, s)
  end.

(** An optional sign: [true] for a minus. *)
Definition sign (s : string) : bool * string :=
  match s with
  | String "-" s' => (true, s')
  | String "+" s' => (false, s')
  | _ => (false, s)
  end.

Definition signed (neg : bool) (z : Z) : Z := if neg then - z else z.

(** [parseInt(s)] without a radix. *)
Definition parseInt (s : string) : float :=
  let '(neg, s1) := sign (trimStart s) in
  let '(v, n, _) :=
    if startsWith "0x" s1 || startsWith "0X" s1
    then hex_digits 0 (String.substring 2 (String.length s1 - 2) s1)
    else digits 0 s1 in
  match n with
  | O => FNaN
  | S _ => fnorm (inject_Z (signed neg v))
  end.

(** An exponent part [e], [E] followed by a signed integer; an incomplete
    one is not part of the literal. *)
Definition exponent (s : string) : Z :=
  match s with
  | String c s' =>
      if Ascii.eqb c "e" || Ascii.eqb c "E" then
        let '(neg, s2) := sign s' in
        let '(v, n, _) := digits 0 s2 in
        match n with O => 0 | S _ => signed neg v end
      else 0
  | EmptyString => 0
  end.

(** The value [m * 10 ^ d]. *)
Definition decimal (m d : Z) : Q :=
  if 0 <=? d then inject_Z (m * 10 ^ d)
  else Qmake m (Z.to_pos (10 ^ (- d))).

(** [parseFloat(s)]: the longest prefix that is a decimal literal. *)
Definition parseFloat (s : string) : float :=
  let '(neg, s1) := sign (trimStart s) in
  if startsWith "Infinity" s1 then (if neg then FNegInf else FPosInf)
  else
    let '(i, ni, s2) := digits 0 s1 in
    let '(m, nf, s3) :=
      match s2 with
      | String "." s2' =>
          let '(m, nf, s3) := digits i s2' in
          match ni, nf with
          | O, O => (i, O, s2)
          | _, _ => (m, nf, s3)
          end
      | _ => (i, O, s2)
      end in
    match ni, nf with
    | O, O => FNaN
    | _, _ => fnorm (decimal (signed neg m) (exponent s3 - Z.of_nat nf))
    end.

(** *** Arrays *)

(** Insertion of [x] in front of a sorted list: [x] moves past [y] only
    when the comparator is positive on [(x, y)]. *)
Fixpoint insert {A} (cmp : A -> A -> number) (x : A) (l : list A) : list A :=
  match l with
  | [] => [x]
  | y :: l' => if positive (cmp x y) then y :: insert cmp x l' else x :: l
  end.

(** [l.sort(cmp)]: stable insertion sort. *)
Definition sort {A} (cmp : A -> A -> number) (l : list A) : list A :=
  foldr (insert cmp) [] l.

(** [l.forEach((x, index) => ...)], the loop state threaded through the
    callback. *)
Fixpoint forEach_from {St A} (body : St -> A -> nat -> St) (i : nat) (l : list A) (s : St) : St :=
  match l with
  | [] => s
  | x :: l' => forEach_from body (S i) l' (body s x i)
  end.

Definition forEach {St A} (body : St -> A -> nat -> St) (l : list A) (s : St) : St :=
  forEach_from body 0 l s.

(** [l.slice(0, -1)]. *)
Definition slice_but_last {A} (l : list A) : list A := take (length l - 1) l.

(** *** Objects used as dictionaries *)

(** The own properties of an object literal [{}] filled by assignment, in
    insertion order. *)
Definition object (V : Type) : Type := list (string * V).

Fixpoint own {V} (k : string) (o : object V) : option V :=
  match o with
  | [] => None
  | (k', v) :: o' => if String.eqb k k' then Some v else own k o'
  end.

Fixpoint replace {V} (k : string) (v : V) (o : object V) : object V :=
  match o with
  | [] => []
  | (k', v') :: o' =>
      if String.eqb k k' then (k', v) :: o' else (k', v') :: replace k v o'
  end.

(** Property names that every object inherits from [Object.prototype];
    reading one of them on [{}] yields a function or the prototype, not
    [undefined]. *)
Definition inheritedNames : list string :=
  ["constructor"; "hasOwnProperty"; "isPrototypeOf"; "propertyIsEnumerable";
   "toLocaleString"; "toString"; "valueOf"; "__proto__";
   "__defineGetter__"; "__defineSetter__"; "__lookupGetter__";
   "__lookupSetter__"]%string.

Definition inherited (k : string) : bool := existsb (String.eqb k) inheritedNames.

(** The idiom
    [if (!o[k]) { o[k] = init; }  o[k].list.push(x);]
    with [f] the effect of the push on the entry.  For an inherited name
    the test finds a truthy value, no entry is made, and the push fails on
    an undefined list: a TypeError, [None]. *)
Definition upsert {V} (k : string) (init : V) (f : V -> V) (o : object V)
  : option (object V) :=
  match own k o with
  | Some v => Some (replace k (f v) o)
  | None => if inherited k then None else Some (o ++ [(k, f init)])
  end.

(** A key is an array index when it is the canonical decimal form of an
    integer in [0, 2^32 - 2]. *)
Definition arrayIndex (k : string) : option Z :=
  match k with
  | EmptyString => None
  | String c k' =>
      let '(v, _, r) := digits 0 k in
      if String.eqb r "" && (negb (Ascii.eqb c "0") || String.eqb k' "")
         && (v <? 2 ^ 32 - 1)
      then Some v else None
  end.

Definition is_index {V} (e : string * V) : bool :=
  match arrayIndex (fst e) with Some _ => true | None => false end.

Definition index_cmp {V} (a b : string * V) : number :=
  match arrayIndex (fst a), arrayIndex (fst b) with
  | Some x, Some y => Fin (x - y)
  | _, _ => Fin 0
  end.

(** Own property order: array indices ascending, then the other keys in
    insertion order. *)
Definition entries {V} (o : object V) : object V :=
  sort index_cmp (filter (fun e => is_index e = true) o)
  ++ filter (fun e => is_index e = false) o.

(** [Object.values(o)]. *)
Definition values {V} (o : object V) : list V := map snd (entries o).

End JS.

Import JS.
Local Open Scope string_scope.

(** ** js/xmlParser.js: the time normaliser *)

Module XMLParser.

(** One [Time] element of a competitor, as [parseCompetitors] stores it;
    all three texts come from [getElementText], which yields the empty
    string for a missing element. *)
Record timeEntry : Type := mkTime {
  course : string;
  runIndex : Z;
  time : string;
  status : string
}.

Inductive Status : Type := OK | DNF | DSQ.

Definition Status_eqb (a b : Status) : bool :=
  match a, b with
  | OK, OK | DNF, DNF | DSQ, DSQ => true
  | _, _ => false
  end.

(** [checkStatus(timeStr, statusCode)]. *)
Definition checkStatus (timeStr statusCode : string) : Status :=
  if String.eqb timeStr "DNF" || String.eqb timeStr "DNS" then DNF
  else if String.eqb timeStr "DSQ" || String.eqb timeStr "DQ" then DSQ
  else if String.eqb statusCode "2" then DNF
  else if String.eqb statusCode "3" then DSQ
  else OK.

(** [parseTime(timeStr)]; [None] is null.  With four parts or more no
    branch assigns [totalMs], which keeps its initial 0. *)
Definition parseTime (timeStr : string) : option number :=
  if String.eqb timeStr "" || String.eqb timeStr "DNF" || String.eqb timeStr "DNS"
     || String.eqb timeStr "DSQ" || String.eqb timeStr "DQ"
  then None
  else
    let parts := split ":" (trim timeStr) in
    let totalMs :=
      match parts with
      | [p0] => fmul (parseFloat p0) (fint 1000)
      | [p0; p1] =>
          fadd (fmul (fmul (parseInt p0) (fint 60)) (fint 1000))
               (fmul (parseFloat p1) (fint 1000))
      | [p0; p1; p2] =>
          fadd (fadd (fmul (fmul (parseInt p0) (fint 3600)) (fint 1000))
                     (fmul (fmul (parseInt p1) (fint 60)) (fint 1000)))
               (fmul (parseFloat p2) (fint 1000))
      | _ => fint 0
      end in
    Some (Math_round totalMs).

(** The result object of [processRacerTimes]. *)
Record processed : Type := mkProcessed {
  p_run1 : option number;
  p_run2 : option number;
  p_totalTime : option number;
  p_status : Status;
  p_dnf : bool;
  p_dsq : bool
}.

(** The local variables [run1], [run2], [dnf], [dsq], [status] of
    [processRacerTimes]. *)
Record acc : Type := mkAcc {
  a_run1 : option number;
  a_run2 : option number;
  a_dnf : bool;
  a_dsq : bool;
  a_status : Status
}.

Definition acc0 : acc := mkAcc None None false false OK.

(** The status part of one iteration, shared by both loops. *)
Definition note_status (a : acc) (timeStatus : Status) : acc :=
  match timeStatus with
  | DNF => mkAcc (a_run1 a) (a_run2 a) true (a_dsq a) DNF
  | DSQ => mkAcc (a_run1 a) (a_run2 a) (a_dnf a) true DSQ
  | OK => a
  end.

Definition set_run1 (a : acc) (v : option number) : acc :=
  mkAcc v (a_run2 a) (a_dnf a) (a_dsq a) (a_status a).

Definition set_run2 (a : acc) (v : option number) : acc :=
  mkAcc (a_run1 a) v (a_dnf a) (a_dsq a) (a_status a).

(** [courseNum === k] for [courseNum = parseInt(t.course)]. *)
Definition float_is (x : float) (k : Z) : bool :=
  match x with
  | FFin q => Qeq_bool q (inject_Z k)
  | _ => false
  end.

(** Body of the loop of a dual-course race: the course number selects
    the run. *)
Definition step_dual (a : acc) (t : timeEntry) : acc :=
  let courseNum := parseInt (course t) in
  let timeVal := parseTime (time t) in
  let timeStatus := checkStatus (time t) (status t) in
  let a := note_status a timeStatus in
  if float_is courseNum 0 then set_run1 a timeVal
  else if float_is courseNum 1 then set_run2 a timeVal
  else a.

(** Body of the loop of a single-course race: the position of the
    [Time] element selects the run. *)
Definition step_single (a : acc) (t : timeEntry) : acc :=
  let timeVal := parseTime (time t) in
  let timeStatus := checkStatus (time t) (status t) in
  let a := note_status a timeStatus in
  if (runIndex t =? 0)%Z then set_run1 a timeVal
  else if (runIndex t =? 1)%Z then set_run2 a timeVal
  else a.

(** [processRacerTimes(times, raceType)]. *)
Definition processRacerTimes (times : list timeEntry) (raceType : Z) : processed :=
  let a :=
    if (raceType =? 1)%Z then foldl step_dual acc0 times
    else foldl step_single acc0 times in
  let totalTime :=
    if negb (a_dnf a) && negb (a_dsq a) then
      match a_run1 a with
      | Some r1 =>
          match a_run2 a with
          | Some r2 => Some (add r1 r2)
          | None => Some r1
          end
      | None => None
      end
    else None in
  mkProcessed (a_run1 a) (a_run2 a) totalTime (a_status a) (a_dnf a) (a_dsq a).

End XMLParser.
Import XMLParser.

(** ** js/scoring.js *)

Module Scoring.

(** *** Racer records and the store *)

(** The properties a racer has when [parseCompetitors] returns it.
    [None] for [class] and [team] stands for null or undefined. *)
Record racerInfo : Type := mkInfo {
  bib : string;
  firstName : string;
  lastName : string;
  class : option string;
  team : option string;
  gender : string;
  times : list timeEntry;
  run1 : option number;
  run2 : option number;
  totalTime : option number;
  status : Status;
  dnf : bool;
  dsq : bool
}.

(** A place is absent until a scoring pass assigns it, then null or a
    number. *)
Inductive place_value : Type :=
| Undefined
| Null
| Place (n : Z).

(** The properties the scoring passes attach; [None] is an absent
    property, and [isScoring] is absent or true. *)
Record scoring : Type := mkScoring {
  run1Rank : option Z;
  run2Rank : option Z;
  place : place_value;
  points : option Z;
  fieldSize : option Z;
  run1Count : option Z;
  run2Count : option Z;
  teamPlace : place_value;
  teamPoints : option Z;
  teamFieldSize : option Z;
  isScoring : bool
}.

Record racer : Type := mkRacer {
  info : racerInfo;
  derived : scoring
}.

Definition unscored : scoring :=
  mkScoring None None Undefined None None None None Undefined None None false.

Definition set_run1Rank (v : option Z) (d : scoring) : scoring :=
  mkScoring v (run2Rank d) (place d) (points d) (fieldSize d) (run1Count d)
    (run2Count d) (teamPlace d) (teamPoints d) (teamFieldSize d) (isScoring d).
Definition set_run2Rank (v : option Z) (d : scoring) : scoring :=
  mkScoring (run1Rank d) v (place d) (points d) (fieldSize d) (run1Count d)
    (run2Count d) (teamPlace d) (teamPoints d) (teamFieldSize d) (isScoring d).
Definition set_place (v : place_value) (d : scoring) : scoring :=
  mkScoring (run1Rank d) (run2Rank d) v (points d) (fieldSize d) (run1Count d)
    (run2Count d) (teamPlace d) (teamPoints d) (teamFieldSize d) (isScoring d).
Definition set_points (v : option Z) (d : scoring) : scoring :=
  mkScoring (run1Rank d) (run2Rank d) (place d) v (fieldSize d) (run1Count d)
    (run2Count d) (teamPlace d) (teamPoints d) (teamFieldSize d) (isScoring d).
Definition set_fieldSize (v : option Z) (d : scoring) : scoring :=
  mkScoring (run1Rank d) (run2Rank d) (place d) (points d) v (run1Count d)
    (run2Count d) (teamPlace d) (teamPoints d) (teamFieldSize d) (isScoring d).
Definition set_run1Count (v : option Z) (d : scoring) : scoring :=
  mkScoring (run1Rank d) (run2Rank d) (place d) (points d) (fieldSize d) v
    (run2Count d) (teamPlace d) (teamPoints d) (teamFieldSize d) (isScoring d).
Definition set_run2Count (v : option Z) (d : scoring) : scoring :=
  mkScoring (run1Rank d) (run2Rank d) (place d) (points d) (fieldSize d)
    (run1Count d) v (teamPlace d) (teamPoints d) (teamFieldSize d) (isScoring d).
Definition set_teamPlace (v : place_value) (d : scoring) : scoring :=
  mkScoring (run1Rank d) (run2Rank d) (place d) (points d) (fieldSize d)
    (run1Count d) (run2Count d) v (teamPoints d) (teamFieldSize d) (isScoring d).
Definition set_teamPoints (v : option Z) (d : scoring) : scoring :=
  mkScoring (run1Rank d) (run2Rank d) (place d) (points d) (fieldSize d)
    (run1Count d) (run2Count d) (teamPlace d) v (teamFieldSize d) (isScoring d).
Definition set_teamFieldSize (v : option Z) (d : scoring) : scoring :=
  mkScoring (run1Rank d) (run2Rank d) (place d) (points d) (fieldSize d)
    (run1Count d) (run2Count d) (teamPlace d) (teamPoints d) v (isScoring d).
Definition set_isScoring (v : bool) (d : scoring) : scoring :=
  mkScoring (run1Rank d) (run2Rank d) (place d) (points d) (fieldSize d)
    (run1Count d) (run2Count d) (teamPlace d) (teamPoints d) (teamFieldSize d) v.

(** The store of racer objects; a reference is an index into it. *)
Abbreviation store := (list racer) (only parsing).
Abbreviation ref := nat (only parsing).

Definition blank : racer :=
  mkRacer (mkInfo "" "" "" None None "" [] None None None OK false false) unscored.

#[export] Instance racer_inhabited : Inhabited racer := populate blank.

(** [get s l] dereferences [l]. *)
Definition get (s : store) (l : ref) : racer := s !!! l.

(** An assignment [l.field = v], with [f] the setter of the field. *)
Definition write (f : scoring -> scoring) (l : ref) (s : store) : store :=
  alter (fun r => mkRacer (info r) (f (derived r))) l s.

(** [{...racer}]: a new object with the same properties. *)
Definition copy (s : store) (l : ref) : store * ref :=
  ((s ++ [get s l])%list, length s).

(** *** Small helpers of the comparisons *)

(** [ToNumber]: null counts as 0. *)
Definition num (t : option number) : number :=
  match t with Some n => n | None => Fin 0 end.

(** [a === b] for two values that are null or numbers. *)
Definition time_eq (a b : option number) : bool :=
  match a, b with
  | Some x, Some y => strict_eq x y
  | None, None => true
  | _, _ => false
  end.

Definition not_null {A} (t : option A) : bool :=
  match t with Some _ => true | None => false end.

(** *** The scoring functions *)

Definition SCORING_TEAMS : list string :=
  ["St Cloud Breakaways"; "Lakes Area"; "Brainerd"; "Annandale"; "Detroit Lakes"].

(** [isScoringTeam(team)]. *)
Definition isScoringTeam (team : option string) : bool :=
  match team with
  | None => false
  | Some EmptyString => false
  | Some t0 =>
      let normalizedTeam := trim (toLowerCase t0) in
      existsb (fun t =>
                 includes normalizedTeam (toLowerCase t)
                 || includes (toLowerCase t) normalizedTeam)
              SCORING_TEAMS
  end.

(** [getPointsForPlace(place, fieldSize)]. *)
Definition getPointsForPlace (place fieldSize : Z) : Z :=
  if (place <=? 0)%Z || (fieldSize <? place)%Z then 0%Z
  else (fieldSize - place + 1)%Z.

(** [matchesClass(racerClass, filterClass)]. *)
Definition matchesClass (racerClass : option string) (filterClass : string) : bool :=
  match racerClass with
  | None => false
  | Some EmptyString => false
  | Some c =>
      let normalized := trim (toUpperCase c) in
      let filter := trim (toUpperCase filterClass) in
      if String.eqb filter "VARSITY" then
        String.eqb normalized "V" || String.eqb normalized "VM"
        || String.eqb normalized "VF" || String.eqb normalized "VARSITY"
      else if String.eqb filter "JV" then
        String.eqb normalized "JV" || String.eqb normalized "JVM"
        || String.eqb normalized "JVF"
      else String.eqb normalized filter
  end.

(** One of the two ranking loops of [calculateRunRankings]; [runOf] is
    the run time ranked and [rankOf], [setRank] its rank property.  The
    loop state is the store and the variable [run1Rank] or [run2Rank]. *)
Definition rankRun (runOf : racerInfo -> option number)
    (rankOf : scoring -> option Z) (setRank : option Z -> scoring -> scoring)
    (genderRacers : list ref) (s : store) : store * Z :=
  let runRacers :=
    sort (fun a b => sub (num (runOf (info (get s a)))) (num (runOf (info (get s b)))))
         (filter (fun r => not_null (runOf (info (get s r))) = true) genderRacers) in
  let s' :=
    fst (forEach (fun (st : store * Z) racer index =>
           let '(s, runRank) := st in
           let prev := runRacers !!! (index - 1)%nat in
           let s :=
             if (0 <? index)%nat
                && time_eq (runOf (info (get s racer))) (runOf (info (get s prev)))
             then write (setRank (rankOf (derived (get s prev)))) racer s
             else write (setRank (Some runRank)) racer s in
           (s, (Z.of_nat index + 2)%Z))
         runRacers (s, 1%Z)) in
  (s', Z.of_nat (length runRacers)).

(** [calculateRunRankings(racers, gender)]; the result is the pair
    [(run1Count, run2Count)]. *)
Definition calculateRunRankings (s : store) (racers : list ref) (gender_ : string)
  : store * (Z * Z) :=
  let genderRacers :=
    filter (fun r => String.eqb (gender (info (get s r))) gender_ = true) racers in
  let '(s, run1Count) := rankRun run1 run1Rank set_run1Rank genderRacers s in
  let '(s, run2Count) := rankRun run2 run2Rank set_run2Rank genderRacers s in
  (s, (run1Count, run2Count)).

Definition finished (r : racer) : bool :=
  not_null (totalTime (info r)) && negb (dnf (info r)) && negb (dsq (info r)).

Definition notFinished (r : racer) : bool :=
  negb (not_null (totalTime (info r))) || dnf (info r) || dsq (info r).

Definition byTotalTime (s : store) (a b : ref) : number :=
  sub (num (totalTime (info (get s a)))) (num (totalTime (info (get s b)))).

(** Body of the loop that gives the scoring finishers their places. *)
Definition placeFinisher (scoringFinishers : list ref) (genderFieldSize : Z)
    (runCounts : Z * Z) (st : store * Z) (racer : ref) (index : nat) : store * Z :=
  let '(s, currentPlace) := st in
  let prev := scoringFinishers !!! (index - 1)%nat in
  let s :=
    if (0 <? index)%nat
       && time_eq (totalTime (info (get s racer))) (totalTime (info (get s prev)))
    then
      let s := write (set_place (place (derived (get s prev)))) racer s in
      write (set_points (points (derived (get s prev)))) racer s
    else
      let s := write (set_place (Place currentPlace)) racer s in
      write (set_points (Some (getPointsForPlace currentPlace genderFieldSize))) racer s in
  let s := write (set_fieldSize (Some genderFieldSize)) racer s in
  let s := write (set_run1Count (Some (fst runCounts))) racer s in
  let s := write (set_run2Count (Some (snd runCounts))) racer s in
  (s, (Z.of_nat index + 2)%Z).

(** Body of the two loops over the racers that do not score. *)
Definition placeNone (genderFieldSize : Z) (runCounts : Z * Z)
    (s : store) (racer : ref) (index : nat) : store :=
  let s := write (set_place Null) racer s in
  let s := write (set_points (Some 0%Z)) racer s in
  let s := write (set_fieldSize (Some genderFieldSize)) racer s in
  let s := write (set_run1Count (Some (fst runCounts))) racer s in
  write (set_run2Count (Some (snd runCounts))) racer s.

(** The comparator of the final sort of [calculateIndividualResults]. *)
Definition byPlace (s : store) (a b : ref) : number :=
  match place (derived (get s a)), place (derived (get s b)) with
  | Null, Null => Fin 0
  | Null, _ => Fin 1
  | _, Null => Fin (-1)
  | Place x, Place y => Fin (x - y)
  | _, _ => NaN
  end.

(** [calculateIndividualResults(racers, gender, raceClass = null)]. *)
Definition calculateIndividualResults (s : store) (racers : list ref)
    (gender_ : string) (raceClass : option string) : store * list ref :=
  let scoringTeamRacers :=
    filter (fun r => String.eqb (gender (info (get s r))) gender_
                     && isScoringTeam (team (info (get s r))) = true) racers in
  let genderFieldSize := Z.of_nat (length scoringTeamRacers) in
  let genderRacers :=
    filter (fun r => String.eqb (gender (info (get s r))) gender_ = true) racers in
  let '(s, runCounts) := calculateRunRankings s racers gender_ in
  let scoringFinishers :=
    filter (fun r => finished (get s r) = true) scoringTeamRacers in
  let scoringNonFinishers :=
    filter (fun r => notFinished (get s r) = true) scoringTeamRacers in
  let scoringFinishers := sort (byTotalTime s) scoringFinishers in
  let s :=
    fst (forEach (placeFinisher scoringFinishers genderFieldSize runCounts)
                 scoringFinishers (s, 1%Z)) in
  let s := forEach (placeNone genderFieldSize runCounts) scoringNonFinishers s in
  let nonScoringRacers :=
    filter (fun r => isScoringTeam (team (info (get s r))) = false) genderRacers in
  let s := forEach (placeNone genderFieldSize runCounts) nonScoringRacers s in
  let results := (scoringFinishers ++ scoringNonFinishers ++ nonScoringRacers)%list in
  let results := sort (byPlace s) results in
  let results :=
    match raceClass with
    | Some (String c0 c) =>
        filter (fun r => matchesClass (class (info (get s r))) (String c0 c) = true) results
    | _ => results
    end in
  (s, results).

(** *** Team standings of one race *)

(** A team object of [calculateTeamStandings].  [t_scoringRacers] is
    absent (here empty) until the team is scored, [t_place] is absent
    until the teams are ranked. *)
Record team_t : Type := mkTeam {
  t_name : string;
  t_racers : list ref;
  t_totalPoints : Z;
  t_scoringRacers : list ref;
  t_place : option Z
}.

(** [x || 0] for a point count that may be absent. *)
Definition orZero (x : option Z) : Z := default 0%Z x.

(** [x > 0] for a point count that may be absent. *)
Definition isPositive (x : option Z) : bool :=
  match x with Some z => (0 <? z)%Z | None => false end.

(** Body of the loop that gives the finishers of the class their team
    places. *)
Definition teamPlaceFinisher (finishers : list ref) (classFieldSize : Z)
    (st : store * Z) (racer : ref) (index : nat) : store * Z :=
  let '(s, currentPlace) := st in
  let prev := finishers !!! (index - 1)%nat in
  let s :=
    if (0 <? index)%nat
       && time_eq (totalTime (info (get s racer))) (totalTime (info (get s prev)))
    then
      let s := write (set_teamPlace (teamPlace (derived (get s prev)))) racer s in
      write (set_teamPoints (teamPoints (derived (get s prev)))) racer s
    else
      let s := write (set_teamPlace (Place currentPlace)) racer s in
      write (set_teamPoints (Some (getPointsForPlace currentPlace classFieldSize))) racer s in
  let s := write (set_teamFieldSize (Some classFieldSize)) racer s in
  (s, (Z.of_nat index + 2)%Z).

Definition teamPlaceNone (classFieldSize : Z) (s : store) (racer : ref) (index : nat)
  : store :=
  let s := write (set_teamPlace Null) racer s in
  let s := write (set_teamPoints (Some 0%Z)) racer s in
  write (set_teamFieldSize (Some classFieldSize)) racer s.

(** Body of the grouping loop; [None] once a TypeError was thrown. *)
Definition groupRacer (s : store) (teams : option (object team_t)) (racer : ref)
    (index : nat) : option (object team_t) :=
  match teams with
  | None => None
  | Some teams =>
      match team (info (get s racer)) with
      | Some (String c0 c) =>
          let key := String c0 c in
          upsert key (mkTeam key [] 0%Z [] None)
            (fun t => mkTeam (t_name t) (t_racers t ++ [racer])%list
                        (t_totalPoints t) (t_scoringRacers t) (t_place t))
            teams
      | _ => Some teams
      end
  end.

Definition byTeamPoints (s : store) (a b : ref) : number :=
  Fin (orZero (teamPoints (derived (get s b))) - orZero (teamPoints (derived (get s a)))).

(** Body of the loop that scores the teams: the store and the teams
    scored so far. *)
Definition scoreTeam (topN : nat) (st : store * list team_t) (t : team_t) (index : nat)
  : store * list team_t :=
  let '(s, scored) := st in
  let racers := sort (byTeamPoints s) (t_racers t) in
  let scoringRacers :=
    take topN (filter (fun r => isPositive (teamPoints (derived (get s r))) = true) racers) in
  let s := forEach (fun s r _ => write (set_isScoring true) r s) scoringRacers s in
  let totalPoints :=
    foldl (fun sum r => (sum + orZero (teamPoints (derived (get s r))))%Z) 0%Z scoringRacers in
  (s, (scored ++ [mkTeam (t_name t) racers totalPoints scoringRacers (t_place t)])%list).

Definition byTeamTotal (a b : team_t) : number :=
  Fin (t_totalPoints b - t_totalPoints a).

(** [calculateTeamStandings(racers, gender, raceClass, topN = 4)]: the
    store when the call ends and the standings, or [None] when it ends in
    a TypeError. *)
Definition calculateTeamStandings (s : store) (racers : list ref) (gender_ : string)
    (raceClass : string) (topN : nat) : store * option (list team_t) :=
  let filtered :=
    filter (fun r => String.eqb (gender (info (get s r))) gender_
                     && matchesClass (class (info (get s r))) raceClass = true) racers in
  let classFieldSize := Z.of_nat (length filtered) in
  let finishers :=
    sort (byTotalTime s) (filter (fun r => finished (get s r) = true) filtered) in
  let s :=
    fst (forEach (teamPlaceFinisher finishers classFieldSize) finishers (s, 1%Z)) in
  let nonFinishers := filter (fun r => notFinished (get s r) = true) filtered in
  let s := forEach (teamPlaceNone classFieldSize) nonFinishers s in
  match forEach (groupRacer s) (finishers ++ nonFinishers)%list (Some []) with
  | None => (s, None)
  | Some teams =>
      let '(s, scored) := forEach (scoreTeam topN) (values teams) (s, []) in
      let standings := sort byTeamTotal scored in
      (s, Some (imap (fun index t =>
                        mkTeam (t_name t) (t_racers t) (t_totalPoints t)
                          (t_scoringRacers t) (Some (Z.of_nat index + 1)%Z))
                     standings))
  end.

(** *** Season standings *)

Record race : Type := mkRace {
  racers : list ref
}.

Record event : Type := mkEvent {
  name : string;
  date : string;
  races : list race
}.

(** One row of [eventResults]; team rows have no [fieldSize]. *)
Record eventResult : Type := mkEventResult {
  eventName : string;
  eventDate : string;
  e_points : Z;
  e_place : place_value;
  e_fieldSize : option Z
}.

(** The identity properties of an entry of [individualTotals]. *)
Record athlete : Type := mkAthlete {
  a_firstName : string;
  a_lastName : string;
  a_team : option string;
  a_gender : string;
  a_class : option string
}.

(** An entry of [teamTotals] ([I] is the team name) or of
    [individualTotals] ([I] is [athlete]) when the standings are
    returned; [place] is absent until the entries are ranked. *)
Record seasonEntry (I : Type) : Type := mkEntry {
  ident : I;
  eventResults : list eventResult;
  totalPoints : Z;
  countedResults : list eventResult;
  droppedResult : option eventResult;
  eventCount : Z;
  totalEventsInSeason : Z;
  place_ : option Z
}.

Arguments mkEntry {I}.
Arguments ident {I}.
Arguments eventResults {I}.
Arguments totalPoints {I}.
Arguments countedResults {I}.
Arguments droppedResult {I}.
Arguments eventCount {I}.
Arguments totalEventsInSeason {I}.
Arguments place_ {I}.

Record seasonStandings : Type := mkSeason {
  teams : list (seasonEntry string);
  individuals : list (seasonEntry athlete);
  season_eventCount : Z;
  countedEvents : Z
}.

(** The template literal that keys [individualTotals]. *)
Definition individualKey (r : racerInfo) : string :=
  trim (firstName r) ++ "_" ++ trim (lastName r) ++ "_"
  ++ match team r with Some t => t | None => "null" end.

(** Body of the loop that accumulates the individual points of an event.
    Every racer that the loop visits has its points assigned
    ([copied_results_have_points] below); a racer without is passed over. *)
Definition addIndividual (s : store) (ev : event)
    (totals : option (object (athlete * list eventResult))) (racer : ref) (index : nat)
  : option (object (athlete * list eventResult)) :=
  match totals with
  | None => None
  | Some totals =>
      let r := get s racer in
      match points (derived r) with
      | None => Some totals
      | Some p =>
          if (p =? 0)%Z then Some totals
          else
            upsert (individualKey (info r))
              (mkAthlete (trim (firstName (info r))) (trim (lastName (info r)))
                 (team (info r)) (gender (info r)) (class (info r)), [])
              (fun e => (fst e,
                         (snd e ++ [mkEventResult (name ev) (date ev) p
                                     (place (derived r)) (fieldSize (derived r))])%list))
              totals
      end
  end.

(** Body of the loop that accumulates the team points of an event. *)
Definition addTeam (ev : event) (totals : option (object (string * list eventResult)))
    (t : team_t) (index : nat) : option (object (string * list eventResult)) :=
  match totals with
  | None => None
  | Some totals =>
      upsert (t_name t) (t_name t, [])
        (fun e => (fst e,
                   (snd e ++ [mkEventResult (name ev) (date ev) (t_totalPoints t)
                               (match t_place t with Some n => Place n | None => Undefined end)
                               None])%list))
        totals
  end.

Definition byPointsDesc (a b : eventResult) : number :=
  Fin (e_points b - e_points a).

Definition sumPoints (l : list eventResult) : Z :=
  foldl (fun sum r => (sum + e_points r)%Z) 0%Z l.

(** Totals with drop, the body of the two loops over [teamTotals] and
    [individualTotals]. *)
Definition withDrop {I} (totalEvents : Z) (e : I * list eventResult) : seasonEntry I :=
  let sorted := sort byPointsDesc (snd e) in
  let shouldDrop :=
    (totalEvents <=? Z.of_nat (length sorted))%Z && (1 <? totalEvents)%Z in
  let counted := if shouldDrop then slice_but_last sorted else sorted in
  mkEntry (fst e) (snd e) (sumPoints counted) counted
    (if shouldDrop then last sorted else None)
    (Z.of_nat (length sorted)) totalEvents None.

Definition byTotalDesc {I} (a b : seasonEntry I) : number :=
  Fin (totalPoints b - totalPoints a).

(** Sort and rank. *)
Definition rank {I} (l : list (seasonEntry I)) : list (seasonEntry I) :=
  imap (fun index e =>
          mkEntry (ident e) (eventResults e) (totalPoints e) (countedResults e)
            (droppedResult e) (eventCount e) (totalEventsInSeason e)
            (Some (Z.of_nat index + 1)%Z))
       (sort byTotalDesc l).

(** The accumulators [teamTotals] and [individualTotals]. *)
Record seasonTotals : Type := mkTotals {
  teamTotals : object (string * list eventResult);
  individualTotals : object (athlete * list eventResult)
}.

(** [allRacers]: a copy of every racer of every race of the event. *)
Definition copyRacers (s : store) (ev : event) : store * list ref :=
  forEach (fun st rc _ =>
             forEach (fun (st : store * list ref) racer _ =>
                        let '(s, l) := copy (fst st) racer in
                        (s, (snd st ++ [l])%list))
                     (racers rc) st)
          (races ev) (s, []).

(** Body of the loop over the events: the store and the accumulators,
    [None] once a TypeError was thrown. *)
Definition processEvent (gender_ : string) (raceClass : option string)
    (st : store * option seasonTotals) (ev : event) (index : nat)
  : store * option seasonTotals :=
  match snd st with
  | None => st
  | Some totals =>
      let '(s, allRacers) := copyRacers (fst st) ev in
      let '(s, individualResults) :=
        calculateIndividualResults s allRacers gender_ raceClass in
      match forEach (addIndividual s ev) individualResults
                    (Some (individualTotals totals)) with
      | None => (s, None)
      | Some individualTotals =>
          let effectiveClass :=
            match raceClass with
            | Some (String c0 c) => String c0 c
            | _ => "Varsity"
            end in
          match calculateTeamStandings s allRacers gender_ effectiveClass 4 with
          | (s, None) => (s, None)
          | (s, Some teamStandings) =>
              match forEach (addTeam ev) teamStandings (Some (teamTotals totals)) with
              | None => (s, None)
              | Some teamTotals => (s, Some (mkTotals teamTotals individualTotals))
              end
          end
      end
  end.

(** [calculateSeasonStandings(events, gender, raceClass = null)]: the
    store when the call ends and the standings, or [None] when it ends in
    a TypeError. *)
Definition calculateSeasonStandings (s : store) (events : list event)
    (gender_ : string) (raceClass : option string) : store * option seasonStandings :=
  match forEach (processEvent gender_ raceClass) events (s, Some (mkTotals [] [])) with
  | (s, None) => (s, None)
  | (s, Some totals) =>
      let totalEvents := Z.of_nat (length events) in
      let teamStandings :=
        rank (map (withDrop totalEvents) (values (teamTotals totals))) in
      let individualStandings :=
        rank (map (withDrop totalEvents) (values (individualTotals totals))) in
      let eventCount := Z.of_nat (length events) in
      (s, Some (mkSeason teamStandings individualStandings eventCount
                  (if (1 <? eventCount)%Z then (eventCount - 1)%Z else eventCount)))
  end.

(** *** Classes and divisions *)

(** [getClassCategory(racerClass)]; [None] is null. *)
Definition getClassCategory (racerClass : option string) : option string :=
  match racerClass with
  | None => None
  | Some EmptyString => None
  | Some c =>
      let normalized := trim (toUpperCase c) in
      if String.eqb normalized "V" || String.eqb normalized "VM"
         || String.eqb normalized "VF" || String.eqb normalized "VARSITY"
      then Some "Varsity"
      else if String.eqb normalized "JV" || String.eqb normalized "JVM"
              || String.eqb normalized "JVF"
      then Some "JV"
      else None
  end.

Record division : Type := mkDivision {
  d_gender : string;
  d_class : string;
  d_label : string
}.

(** [getDivisions()]. *)
Definition getDivisions : list division :=
  [mkDivision "M" "Varsity" "Boys Varsity"; mkDivision "F" "Varsity" "Girls Varsity";
   mkDivision "M" "JV" "Boys JV"; mkDivision "F" "JV" "Girls JV"]%list.

End Scoring.

Import Scoring.
Local Open Scope list_scope.

(** ** The document that the parser reads *)

Module DOM.

(** An XML document as [DOMParser] builds it: elements with their local
    name and their child nodes, and text.  Attributes, comments and
    processing instructions are left out; [xmlParser.js] reads none of
    them. *)
#[warnings="-register-all"]
Inductive node : Type :=
| Text (data : string)
| Element (tagName : string) (childNodes : list node).

(** [n.textContent]: the texts below [n], in document order. *)
Fixpoint textContent (n : node) : string :=
  match n with
  | Text data => data
  | Element _ childNodes =>
      (fix go (l : list node) : string :=
         match l with
         | [] => EmptyString
         | x :: l' => (textContent x ++ go l')%string
         end) childNodes
  end.

(** The elements below [n], in document order. *)
Fixpoint descendants (n : node) : list node :=
  match n with
  | Text _ => []
  | Element _ childNodes =>
      (fix go (l : list node) : list node :=
         match l with
         | [] => []
         | x :: l' =>
             ((match x with Element _ _ => [x] | Text _ => [] end)
              ++ descendants x ++ go l')%list
         end) childNodes
  end.

(** The type selector [tag] matches [n]. *)
Definition matches (tag : string) (n : node) : bool :=
  match n with
  | Element t _ => String.eqb t tag
  | Text _ => false
  end.

(** [parent.querySelectorAll(tag)] and [parent.querySelector(tag)] on
    an element: its descendants that match. *)
Definition querySelectorAll (parent : node) (tag : string) : list node :=
  filter (fun n => matches tag n = true) (descendants parent).

Definition querySelector (parent : node) (tag : string) : option node :=
  head (querySelectorAll parent tag).

(** The same on the document whose root element is [root]: the root
    itself can match. *)
Definition documentQueryAll (root : node) (tag : string) : list node :=
  filter (fun n => matches tag n = true) (root :: descendants root).

Definition documentQuery (root : node) (tag : string) : option node :=
  head (documentQueryAll root tag).

End DOM.

(** ** js/xmlParser.js: reading the competitors *)

Module XMLReader.
Import DOM.

(** [getElementText(parent, tagName)]; [None] is a null parent. *)
Definition getElementText (parent : option node) (tagName : string) : string :=
  match parent with
  | None => ""
  | Some p =>
      match querySelector p tagName with
      | Some el => trim (textContent el)
      | None => ""
      end
  end.

(** [deriveGenderFromName(xml)]; [None] is null. *)
Definition deriveGenderFromName (xml : node) : option string :=
  let header := documentQuery xml "Header" in
  let name := getElementText header "Header1" in
  let nameLower := toLowerCase name in
  if includes nameLower "boys" then Some "M"
  else if includes nameLower "girls" then Some "F"
  else None.

(** The loop over the [Time] elements of a competitor: [racer.times]. *)
Definition timeEntries (timeElements : list node) : list timeEntry :=
  fst (forEach (fun (st : list timeEntry * Z) time (_ : nat) =>
                  let '(times, runIndex) := st in
                  let course := getElementText (Some time) "Course" in
                  let result := getElementText (Some time) "Result" in
                  let status := getElementText (Some time) "Status" in
                  ((times ++ [mkTime course runIndex result status])%list,
                   (runIndex + 1)%Z))
               timeElements ([], 0%Z)).

(** The gender of a competitor: the [Gender] element, else the letter
    that ends the class, else the gender of the race name. *)
Definition competitorGender (comp : node) (rawClass : string) (raceGender : option string)
  : string :=
  let gender := getElementText (Some comp) "Gender" in
  let gender :=
    match gender, rawClass with
    | EmptyString, String _ _ =>
        let upperClass := toUpperCase rawClass in
        if String.eqb upperClass "VM" || String.eqb upperClass "JVM" then "M"
        else if String.eqb upperClass "VF" || String.eqb upperClass "JVF" then "F"
        else gender
    | _, _ => gender
    end in
  match gender, raceGender with
  | EmptyString, Some (String c g) => String c g
  | _, _ => gender
  end.

(** [parseCompetitors(xml, raceType)]: the racer objects, new and not yet
    scored, in document order. *)
Definition parseCompetitors (xml : node) (raceType : Z) : list racer :=
  let compElements := documentQueryAll xml "Comp" in
  let raceGender := deriveGenderFromName xml in
  map (fun comp =>
         let rawClass := getElementText (Some comp) "Class" in
         let gender := competitorGender comp rawClass raceGender in
         let times := timeEntries (querySelectorAll comp "Time") in
         let processedTimes := processRacerTimes times raceType in
         mkRacer
           (mkInfo (getElementText (Some comp) "Bib")
              (trim (getElementText (Some comp) "FirstName"))
              (trim (getElementText (Some comp) "LastName"))
              (Some rawClass)
              (Some (getElementText (Some comp) "Team"))
              gender times
              (p_run1 processedTimes) (p_run2 processedTimes)
              (p_totalTime processedTimes) (p_status processedTimes)
              (p_dnf processedTimes) (p_dsq processedTimes))
           unscored)
      compElements.

End XMLReader.

Import DOM XMLReader.

(** ** js/app.js: events *)

Module App.

(** The word [w], in lower case, at the start of [s] whatever the case
    of its letters: the rest of [s] after it. *)
Fixpoint matchWord (w s : string) : option string :=
  match w, s with
  | EmptyString, _ => Some s
  | String a w', String b s' =>
      if Ascii.eqb a (lower_char b) then matchWord w' s' else None
  | String _ _, EmptyString => None
  end.

(** A match of [/^word\s+/i]: the rest of [s] after the word and the
    white space that follows it. *)
Definition afterWord (w s : string) : option string :=
  match matchWord w s with
  | Some (String c rest) =>
      if is_white c then Some (trimStart (String c rest)) else None
  | _ => None
  end.

(** [stripGenderFromName(name)]:
    [name.replace(/^(Boys|Girls)\s+/i, '').trim()], an empty name as it
    is. *)
Definition stripGenderFromName (name : string) : string :=
  match name with
  | EmptyString => name
  | _ =>
      trim (match afterWord "boys" name with
            | Some rest => rest
            | None =>
                match afterWord "girls" name with
                | Some rest => rest
                | None => name
                end
            end)
  end.

(** The template literal that keys the racers of an event; a null team
    is written [null].  (The team of a parsed racer is a string.) *)
Definition racerKey (r : racerInfo) : string :=
  bib r ++ "_" ++ firstName r ++ "_" ++ lastName r ++ "_"
  ++ match team r with Some t => t | None => "null" end.

(** [getEventRacers(event)]; the loop state is [allRacers] and the keys
    of the set [seen], in the order they were added. *)
Definition getEventRacers (s : store) (ev : event) : list ref :=
  fst (forEach (fun st rc (_ : nat) =>
                  forEach (fun (st : list ref * list string) racer (_ : nat) =>
                             let '(allRacers, seen) := st in
                             let key := racerKey (info (get s racer)) in
                             if existsb (String.eqb key) seen then st
                             else ((allRacers ++ [racer])%list, (seen ++ [key])%list))
                          (racers rc) st)
               (races ev) ([], [])).

End App.
Import App.

(** * Vocabulary of the statements *)

(** ** Order *)

(** [gt cmp x y]: the comparator asks for [y] before [x]. *)
Definition gt {A} (cmp : A -> A -> number) (x y : A) : bool := positive (cmp x y).

(** A list is in order for [cmp] when no element asks to come before its
    predecessor. *)
Definition inOrder {A} (cmp : A -> A -> number) : list A -> Prop :=
  Sorted (fun x y => gt cmp x y = false).

(** Descending order of a list of numbers. *)
Definition descending : list Z -> Prop := Sorted (fun a b => (b <= a)%Z).

(** ** The store *)

(** Readers of the properties of the racer behind a reference. *)
Definition placeOf (s : store) (l : ref) : place_value := place (derived (get s l)).
Definition pointsOf (s : store) (l : ref) : option Z := points (derived (get s l)).
Definition fieldSizeOf (s : store) (l : ref) : option Z := fieldSize (derived (get s l)).
Definition timeOf (s : store) (l : ref) : option number := totalTime (info (get s l)).
Definition genderOf (s : store) (l : ref) : string := gender (info (get s l)).
Definition teamOf (s : store) (l : ref) : option string := team (info (get s l)).

(** [only_writes L s s']: from [s] to [s'] only scoring properties of the
    racers in [L] were assigned; no object was created, and the parsed
    properties of every racer are as before. *)
Definition only_writes (L : list ref) (s s' : store) : Prop :=
  length s' = length s
  /\ (forall l, info (get s' l) = info (get s l))
  /\ (forall l, l ∉ L -> s' !! l = s !! l).

(** [unchanged s s']: every object of [s] is in [s'] as it was; [s'] may
    hold more objects. *)
Definition unchanged (s s' : store) : Prop :=
  forall l r, s !! l = Some r -> s' !! l = Some r.

(** The properties that every loop of [calculateIndividualResults] assigns
    to a racer whose place is null. *)
Definition unplaced (r : racer) : Prop :=
  place (derived r) = Null /\ points (derived r) = Some 0%Z.

(** The field size is attached. *)
Definition hasFieldSize (fs : Z) (r : racer) : Prop :=
  fieldSize (derived r) = Some fs.

(** ** Individual scoring *)

(** The local arrays of [calculateIndividualResults], read in the store
    the function is called in: [scoringTeamRacers], [genderRacers], the
    sorted [scoringFinishers], [scoringNonFinishers] and
    [nonScoringRacers]. *)
Definition scoringTeamRacers (s : store) (racers : list ref) (g : string) : list ref :=
  filter (fun r => String.eqb (genderOf s r) g && isScoringTeam (teamOf s r) = true) racers.

Definition genderRacers (s : store) (racers : list ref) (g : string) : list ref :=
  filter (fun r => String.eqb (genderOf s r) g = true) racers.

Definition scoringFinishers (s : store) (racers : list ref) (g : string) : list ref :=
  sort (byTotalTime s)
       (filter (fun r => finished (get s r) = true) (scoringTeamRacers s racers g)).

Definition scoringNonFinishers (s : store) (racers : list ref) (g : string) : list ref :=
  filter (fun r => notFinished (get s r) = true) (scoringTeamRacers s racers g).

Definition nonScoringRacers (s : store) (racers : list ref) (g : string) : list ref :=
  filter (fun r => isScoringTeam (teamOf s r) = false) (genderRacers s racers g).

(** The display filter on the class. *)
Definition classFilter (s : store) (raceClass : option string) (l : list ref) : list ref :=
  match raceClass with
  | Some (String c0 c) =>
      filter (fun r => matchesClass (class (info (get s r))) (String c0 c) = true) l
  | _ => l
  end.

(** The total time of a racer in milliseconds, when it is an integer. *)
Definition msOf (s : store) (l : ref) : Z :=
  match timeOf s l with Some (Fin z) => z | _ => 0%Z end.

(** Every total time of the racers is null or an integer. *)
Definition finiteTimes (s : store) (racers : list ref) : Prop :=
  forall l, l ∈ racers -> timeOf s l = None \/ exists z, timeOf s l = Some (Fin z).

(** The tie rule, read in the store [s'] that
    [calculateIndividualResults] returns, for the racer [l] at index [i]
    of the sorted finishers [F]. *)
Definition tieRule (s s' : store) (F : list ref) (fs : Z) (i : nat) (l : ref) : Prop :=
  let prev := F !!! (i - 1)%nat in
  if (0 <? i)%nat && time_eq (timeOf s l) (timeOf s prev)
  then placeOf s' l = placeOf s' prev /\ pointsOf s' l = pointsOf s' prev
  else placeOf s' l = Place (Z.of_nat i + 1)
       /\ pointsOf s' l = Some (getPointsForPlace (Z.of_nat i + 1) fs).

(** The state of the place loop after the first [n] finishers: the
    variable [currentPlace], what was written, and the tie rule so far. *)
Definition placedUpTo (F : list ref) (fs : Z) (s : store) (n : nat)
    (st : store * Z) : Prop :=
  snd st = (Z.of_nat n + 1)%Z
  /\ only_writes (take n F) s (fst st)
  /\ forall i l, (i < n)%nat -> F !! i = Some l ->
       let prev := F !!! (i - 1)%nat in
       if (0 <? i)%nat && time_eq (timeOf s l) (timeOf s prev)
       then placeOf (fst st) l = placeOf (fst st) prev
            /\ pointsOf (fst st) l = pointsOf (fst st) prev
       else placeOf (fst st) l = Place (Z.of_nat i + 1)
            /\ pointsOf (fst st) l = Some (getPointsForPlace (Z.of_nat i + 1) fs).

(** A string that consists of white space only. *)
Fixpoint onlyWhite (t : string) : bool :=
  match t with
  | EmptyString => true
  | String c t' => is_white c && onlyWhite t'
  end.

(** ** The time normaliser *)

(** The tokens that [checkStatus] and [parseTime] know as markers. *)
Definition markers : list string := ["DNF"; "DNS"; "DSQ"; "DQ"].

(** Modelled from the spec: the time string grammar of section 4.1,
    [SS.ss], [MM:SS.ss] or [HH:MM:SS.ss].  One to three parts between
    colons, each a run of decimal digits, the last with an optional
    fraction. *)
Definition allDigits (p : string) : bool :=
  match digits 0 p with
  | (_, S _, EmptyString) => true
  | _ => false
  end.

Definition secondsPart (p : string) : bool :=
  match digits 0 p with
  | (_, S _, EmptyString) => true
  | (_, S _, String "." f) => allDigits f
  | _ => false
  end.

Definition spec_timeGrammar (token : string) : bool :=
  match split ":" token with
  | [ss] => secondsPart ss
  | [mm; ss] => allDigits mm && secondsPart ss
  | [hh; mm; ss] => allDigits hh && allDigits mm && secondsPart ss
  | _ => false
  end.

(** ** Season standings *)

(** The total points, listed in the order of the standings. *)
Definition totalsOf {I} (l : list (seasonEntry I)) : list Z := map totalPoints l.

(** The drop rule for one entry of a season of [n] events, in terms of
    the properties of the entry: [eventResults] holds the rows in the order
    of the events, [countedResults] the rows that count. *)
Definition dropRule {I} (n : Z) (e : seasonEntry I) : Prop :=
  let rows := eventResults e in
  eventCount e = Z.of_nat (length rows)
  /\ totalEventsInSeason e = n
  /\ exists sorted,
       sorted ≡ₚ rows
       /\ descending (map e_points sorted)
       /\ if (n <=? Z.of_nat (length rows))%Z && (1 <? n)%Z
          then exists d,
                 droppedResult e = Some d
                 /\ sorted = countedResults e ++ [d]
                 /\ totalPoints e = (sumPoints rows - e_points d)%Z
                 /\ (forall r, r ∈ rows -> (e_points d <= e_points r)%Z)
                 /\ exists before after,
                      rows = before ++ d :: after
                      /\ forall r, r ∈ after -> (e_points d < e_points r)%Z
          else droppedResult e = None
               /\ countedResults e = sorted
               /\ totalPoints e = sumPoints rows.

(** A string without the separator of the accumulation key. *)
Fixpoint noUnderscore (t : string) : bool :=
  match t with
  | EmptyString => true
  | String c t' => negb (Ascii.eqb c "_") && noUnderscore t'
  end.

(** The rows accumulated under the key [k]. *)
Definition rowsOf {I} (k : string) (o : object (I * list eventResult)) : list eventResult :=
  match own k o with
  | Some e => snd e
  | None => []
  end.

(** The racer has points assigned, and not 0. *)
Definition scoresPoints (s : store) (l : ref) : bool :=
  match pointsOf s l with
  | Some p => negb (p =? 0)%Z
  | None => false
  end.

(** The row that the racer [l] contributes for the event [ev]. *)
Definition rowFor (s : store) (ev : event) (l : ref) : eventResult :=
  mkEventResult (name ev) (date ev) (default 0%Z (pointsOf s l)) (placeOf s l)
    (fieldSizeOf s l).

(** A racer whose team, if it has one, is not the name of a property
    that objects inherit. *)
Definition safeTeam (r : racer) : Prop :=
  forall t, team (info r) = Some t -> inherited t = false.

(** The racers of the events are objects of the store with safe teams. *)
Definition safeEvents (s : store) (events : list event) : Prop :=
  forall ev rc l, ev ∈ events -> rc ∈ races ev -> l ∈ racers rc ->
    (l < length s)%nat /\ safeTeam (get s l).

(** The rest of a string after each of its underscores. *)
Fixpoint afterUnderscore (n : string) : list string :=
  match n with
  | EmptyString => []
  | String c n' => (if Ascii.eqb c "_" then [n'] else []) ++ afterUnderscore n'
  end.

(** ** Racers, stores and seasons of the examples *)

(** The racer object that [parseCompetitors] builds from the texts of a
    [Comp] element, the gender already resolved. *)
Definition parsedRacer (bib firstName lastName rawClass team gender : string)
    (times : list timeEntry) (raceType : Z) : racer :=
  let processedTimes := processRacerTimes times raceType in
  mkRacer
    (mkInfo bib (trim firstName) (trim lastName) (Some rawClass) (Some team) gender
       times (p_run1 processedTimes) (p_run2 processedTimes)
       (p_totalTime processedTimes) (p_status processedTimes)
       (p_dnf processedTimes) (p_dsq processedTimes))
    unscored.

(** A racer of a one-run race with the given time token. *)
Definition oneRun (firstName team gender token : string) : racer :=
  parsedRacer "0" firstName "Racer" "V" team gender [mkTime "" 0 token "1"] 0.

(** A racer of a two-run race on one course with the given tokens and
    status codes. *)
Definition twoRuns (firstName team gender token1 code1 token2 code2 : string) : racer :=
  parsedRacer "0" firstName "Racer" "V" team gender
    [mkTime "" 0 token1 code1; mkTime "" 1 token2 code2] 0.

(** A racer of a one-run race with the given names. *)
Definition namedRacer (firstName lastName team token : string) : racer :=
  parsedRacer "0" firstName lastName "V" team "M" [mkTime "" 0 token "1"] 0.

(** Four finishers of an allow-listed team, 63.00, 61.00, 62.00 and 61.00
    seconds, and the season of the one event they raced. *)
Definition tieExample : store :=
  [oneRun "A" "Brainerd" "M" "63.00"; oneRun "B" "Brainerd" "M" "61.00";
   oneRun "C" "Brainerd" "M" "1:02.00"; oneRun "D" "Brainerd" "M" "61.00"].

Definition tieSeason : list event :=
  [mkEvent "Opener" "2024-01-05" [mkRace [0; 1; 2; 3]%nat]].

(** Ten boys of a one-run race, six of them from allow-listed teams. *)
Definition fieldExample : store :=
  [oneRun "A" "Brainerd" "M" "58.10"; oneRun "B" "Alexandria" "M" "57.00";
   oneRun "C" "Lakes Area" "M" "59.30"; oneRun "D" "Bemidji" "M" "60.20";
   oneRun "E" "Annandale" "M" "DNF"; oneRun "F" "Moorhead" "M" "61.00";
   oneRun "G" "Detroit Lakes" "M" "1:01.50"; oneRun "H" "Willmar" "M" "DSQ";
   oneRun "I" "St Cloud Breakaways Ski Team" "M" "58.10";
   oneRun "J" "brainerd" "M" "62.75"].

(** A racer with two numeric run times whose second entry has status
    code 2, and a finisher. *)
Definition dnfExample : store :=
  [twoRuns "A" "Brainerd" "M" "30.00" "1" "31.00" "2"; oneRun "B" "Brainerd" "M" "70.00"].

(** A racer whose only time token has four parts, next to a finisher. *)
Definition fourPartExample : store :=
  [oneRun "A" "Brainerd" "M" "1:2:3:4"; oneRun "B" "Brainerd" "M" "45.00"].

(** A racer whose only time token is no number at all. *)
Definition wordExample : store := [oneRun "C" "Brainerd" "M" "abc"].

(** A racer whose second run has no time token, next to a finisher. *)
Definition missingRunExample : store :=
  [twoRuns "D" "Brainerd" "M" "50.00" "1" "" "1"; oneRun "B" "Brainerd" "M" "45.00"].

(** A racer without any time token, next to a finisher. *)
Definition noTimeExample : store :=
  [oneRun "E" "Brainerd" "M" ""; oneRun "B" "Brainerd" "M" "45.00"].

(** A racer whose team is two spaces, next to a faster racer of a team
    that is not allow-listed. *)
Definition blankTeamExample : store :=
  [oneRun "A" "  " "M" "45.00"; oneRun "B" "Alexandria" "M" "40.00"].

(** Two racers of two allow-listed teams with the same time, and the
    season of the one event they raced. *)
Definition deadHeatExample : store :=
  [oneRun "A" "Brainerd" "M" "50.00"; oneRun "B" "Annandale" "M" "50.00"].

Definition deadHeatSeason : list event :=
  [mkEvent "Opener" "2024-01-05" [mkRace [0; 1]%nat]].

(** A season of five events: racer 0 starts in all five, racer 1 misses
    the third. *)
Definition fiveEventStore : store :=
  [oneRun "A" "Brainerd" "M" "50.00"; oneRun "B" "Annandale" "M" "55.00"].

Definition fiveEventSeason : list event :=
  [mkEvent "E1" "2024-01-05" [mkRace [0; 1]%nat];
   mkEvent "E2" "2024-01-12" [mkRace [0; 1]%nat];
   mkEvent "E3" "2024-01-19" [mkRace [0]%nat];
   mkEvent "E4" "2024-01-26" [mkRace [0; 1]%nat];
   mkEvent "E5" "2024-02-02" [mkRace [0; 1]%nat]].

(** Two seasons of two events with one racer each.  In the first the
    two racers differ in a space after the team, in the second in the
    place of an underscore. *)
Definition spaceStore : store :=
  [namedRacer "Ann" "Lee" "Brainerd" "50.00"; namedRacer "Ann" "Lee" "Brainerd " "50.00"].

Definition underscoreStore : store :=
  [namedRacer "Ann_Mae" "Lee" "Brainerd" "50.00";
   namedRacer "Ann" "Mae_Lee" "Brainerd" "50.00"].

Definition twoEventSeason : list event :=
  [mkEvent "E1" "2024-01-05" [mkRace [0]%nat];
   mkEvent "E2" "2024-01-12" [mkRace [1]%nat]].

(** * Vocabulary of the further properties *)

(** ** Ranking *)

(** The value of a time in milliseconds, when it is an integer. *)
Definition ms (t : option number) : Z :=
  match t with Some (Fin z) => z | _ => 0%Z end.

(** [below k t]: the time [k] is an integer smaller than [t]. *)
Definition below (t : Z) (k : option number) : bool :=
  match k with Some (Fin z) => (z <? t)%Z | _ => false end.

(** The number of racers of [L] whose time is an integer smaller than [t]. *)
Definition fasterThan (key : ref -> option number) (t : Z) (L : list ref) : Z :=
  Z.of_nat (length (filter (fun l => below t (key l) = true) L)).

(** The rule of a ranking loop over the sorted list [F], read in the store
    [s'] it leaves, for the first [n] racers: a racer whose time [key]
    equals its predecessor's has the predecessor's value, any other racer
    the value [fresh] of its index + 1. *)
Definition ranked (F : list ref) {V} (valueOf : racer -> V) (fresh : Z -> V)
    (key : racerInfo -> option number) (s s' : store) (n : nat) : Prop :=
  forall i l, (i < n)%nat -> F !! i = Some l ->
    valueOf (get s' l)
    = if (0 <? i)%nat
         && time_eq (key (info (get s l))) (key (info (get s (F !!! (i - 1)%nat))))
      then valueOf (get s' (F !!! (i - 1)%nat)) else fresh (Z.of_nat i + 1)%Z.

(** The racers that a ranking loop of [calculateRunRankings] visits. *)
Definition runRacers (runOf : racerInfo -> option number) (s : store)
    (genderRacers : list ref) : list ref :=
  sort (fun a b => sub (num (runOf (info (get s a)))) (num (runOf (info (get s b)))))
       (filter (fun r => not_null (runOf (info (get s r))) = true) genderRacers).

(** A time that is null or an integer. *)
Definition finite (k : option number) : Prop :=
  k = None \/ exists z, k = Some (Fin z).

(** Both run times of every racer are null or integers. *)
Definition finiteRuns (s : store) (racers : list ref) : Prop :=
  forall l, l ∈ racers ->
    finite (run1 (info (get s l))) /\ finite (run2 (info (get s l))).

(** ** Team scoring *)

(** The local arrays of [calculateTeamStandings], read in the store the
    function is called in: [filtered], the sorted [finishers] and
    [nonFinishers]. *)
Definition classRacers (s : store) (racers : list ref) (g rc : string) : list ref :=
  filter (fun r => String.eqb (genderOf s r) g
                   && matchesClass (class (info (get s r))) rc = true) racers.

Definition classFinishers (s : store) (racers : list ref) (g rc : string) : list ref :=
  sort (byTotalTime s) (filter (fun r => finished (get s r) = true) (classRacers s racers g rc)).

Definition classNonFinishers (s : store) (racers : list ref) (g rc : string) : list ref :=
  filter (fun r => notFinished (get s r) = true) (classRacers s racers g rc).

(** Readers of the team scoring properties. *)
Definition teamPlaceOf (s : store) (l : ref) : place_value := teamPlace (derived (get s l)).
Definition teamPointsOf (s : store) (l : ref) : option Z := teamPoints (derived (get s l)).
Definition teamFieldSizeOf (s : store) (l : ref) : option Z :=
  teamFieldSize (derived (get s l)).

(** The last step of [calculateTeamStandings]: the places of the sorted
    teams. *)
Definition withPlaces (standings : list team_t) : list team_t :=
  imap (fun index t =>
          mkTeam (t_name t) (t_racers t) (t_totalPoints t) (t_scoringRacers t)
            (Some (Z.of_nat index + 1)%Z))
       standings.

(** The racers of [L] whose team is [k]. *)
Definition teamIs (k : string) (t : option string) : bool :=
  match t with Some t' => String.eqb t' k | None => false end.

Definition teamMembers (s : store) (k : string) (L : list ref) : list ref :=
  filter (fun r => teamIs k (teamOf s r) = true) L.

(** The team object that the grouping loop holds under the key [k] after
    the racers [L]. *)
Definition groupOf (s : store) (k : string) (L : list ref) : option team_t :=
  match k, teamMembers s k L with
  | EmptyString, _ => None
  | _, [] => None
  | _, m => Some (mkTeam k m 0%Z [] None)
  end.

(** [r.teamPoints || 0] and the sum of the team points of a list of
    racers. *)
Definition teamScore (s : store) (r : ref) : Z := orZero (teamPointsOf s r).

Definition sumTeamPoints (s : store) (L : list ref) : Z :=
  foldl (fun sum r => (sum + teamScore s r)%Z) 0%Z L.

(** The team object that the scoring loop makes of [t], read in the
    store [s]: its racers best first, the first [topN] of them with
    positive team points, and the sum of their team points. *)
Definition scoredTeam (s : store) (topN : nat) (t : team_t) : team_t :=
  let racers := sort (byTeamPoints s) (t_racers t) in
  let scoringRacers :=
    take topN (filter (fun r => isPositive (teamPointsOf s r) = true) racers) in
  mkTeam (t_name t) racers (sumTeamPoints s scoringRacers) scoringRacers (t_place t).

(** The properties that individual scoring assigns, and those that team
    scoring assigns. *)
Definition individualPart (d : scoring) :=
  (run1Rank d, run2Rank d, place d, points d, fieldSize d, run1Count d, run2Count d).

Definition teamPart (d : scoring) :=
  (teamPlace d, teamPoints d, teamFieldSize d, isScoring d).

(** Seven racers of a one-run race, five of one team and two of another;
    the last did not finish.  With them the standings that
    [calculateTeamStandings] returns. *)
Definition teamExample : store :=
  [oneRun "A" "Brainerd" "M" "50.00"; oneRun "B" "Brainerd" "M" "51.00";
   oneRun "C" "Annandale" "M" "52.00"; oneRun "D" "Brainerd" "M" "53.00";
   oneRun "E" "Brainerd" "M" "54.00"; oneRun "F" "Brainerd" "M" "55.00";
   oneRun "G" "Annandale" "M" "DNF"].

Definition teamExampleStandings : list team_t :=
  [mkTeam "Brainerd" [0; 1; 3; 4; 5]%nat 20 [0; 1; 3; 4]%nat (Some 1%Z);
   mkTeam "Annandale" [2; 6]%nat 5 [2]%nat (Some 2%Z)].

(** ** The time normaliser, further *)

(** The status of one time entry. *)
Definition entryStatus (t : timeEntry) : Status :=
  checkStatus (time t) (XMLParser.status t).

(** The status of the last entry that is not OK, or OK. *)
Definition lastStatus (times : list timeEntry) : Status :=
  default OK (last (filter (fun st => Status_eqb st OK = false) (map entryStatus times))).

(** The number that a string of decimal digits denotes. *)
Fixpoint numeral_from (acc : Z) (p : string) : Z :=
  match p with
  | EmptyString => acc
  | String c p' => numeral_from (10 * acc + digit_value c) p'
  end.

Definition numeral (p : string) : Z := numeral_from 0 p.

(** A string of decimal digits only. *)
Fixpoint digitsOnly (p : string) : bool :=
  match p with
  | EmptyString => true
  | String c p' => is_digit c && digitsOnly p'
  end.

(** The thousandths that the fraction digits [f], at most three, denote. *)
Definition thousandths (f : string) : Z :=
  (numeral f * 10 ^ (3 - Z.of_nat (String.length f)))%Z.

(** A string in which the character [c] does not occur. *)
Fixpoint without (c : ascii) (s : string) : bool :=
  match s with
  | EmptyString => true
  | String a s' => negb (Ascii.eqb a c) && without c s'
  end.

(** A seconds part as it stands in a token: it starts with a digit, does
    not end in white space and holds no colon. *)
Definition plainSeconds (sec : string) : Prop :=
  match sec with
  | String c _ => is_digit c = true /\ trimEnd sec = sec /\ without ":" sec = true
  | EmptyString => False
  end.

(** ** The competitors of a document *)

(** The time entries of a list of [Time] elements, numbered from [k]. *)
Fixpoint entriesFrom (k : Z) (timeElements : list node) : list timeEntry :=
  match timeElements with
  | [] => []
  | time :: rest =>
      mkTime (getElementText (Some time) "Course") k
        (getElementText (Some time) "Result") (getElementText (Some time) "Status")
      :: entriesFrom (k + 1)%Z rest
  end.

(** The run time that the [n]-th [Time] element holds, null without
    such an element. *)
Definition resultOf (timeElements : list node) (n : nat) : option number :=
  match timeElements !! n with
  | Some time => parseTime (getElementText (Some time) "Result")
  | None => None
  end.

(** Three [Time] elements of one competitor, and a document with two
    competitors: a girl by her class in a race named for boys, and a
    racer whose gender is that of the race name. *)
Definition timeElement (course result status : string) : node :=
  Element "Time" [Element "Course" [Text course]; Element "Result" [Text result];
                  Element "Status" [Text status]].

Definition exampleTimeElements : list node :=
  [timeElement "0" "31.20" "1"; timeElement "0" "30.80" "1"; timeElement "0" "29.00" "1"].

Definition exampleDocument : node :=
  Element "Race"
    [Element "Header" [Element "Header1" [Text "Boys Varsity Slalom"]];
     Element "Comp"
       ([Element "Bib" [Text "12"]; Element "FirstName" [Text " Ann "];
         Element "LastName" [Text "Lee"]; Element "Class" [Text "VF"];
         Element "Team" [Text " Brainerd "]] ++ exampleTimeElements);
     Element "Comp"
       [Element "Bib" [Text "7"]; Element "FirstName" [Text "Bo"];
        Element "LastName" [Text "Ray"]; Element "Class" [Text "V"];
        Element "Team" [Text "Annandale"]; timeElement "0" "DNF" "2"]].

(** ** The racers of an event *)

(** All racers of all races of an event, in order. *)
Definition eventRacers (ev : event) : list ref := concat (map racers (races ev)).

(** The key of the racer behind a reference. *)
Definition keyOf (s : store) (l : ref) : string := racerKey (info (get s l)).

(** ** The rows of the season standings *)

(** The event that a row is for, and the name and date of an event. *)
Definition rowEvent (row : eventResult) : string * string := (eventName row, eventDate row).
Definition eventId (ev : event) : string * string := (name ev, date ev).

(** The row that the team [t] contributes for the event [ev]. *)
Definition teamRowFor (ev : event) (t : team_t) : eventResult :=
  mkEventResult (name ev) (date ev) (t_totalPoints t)
    (match t_place t with Some n => Place n | None => Undefined end) None.

(** [raceClass || 'Varsity']. *)
Definition effectiveClass (raceClass : option string) : string :=
  match raceClass with
  | Some (String c0 c) => String c0 c
  | _ => "Varsity"
  end.

(** A row of a team: a place from 1 on, points that are not negative,
    no field size. *)
Definition teamRow (row : eventResult) : Prop :=
  e_fieldSize row = None /\ (0 <= e_points row)%Z
  /\ exists n, e_place row = Place n /\ (1 <= n)%Z.

(** A row of an individual: a place within the field, and the points of
    that place. *)
Definition individualRow (row : eventResult) : Prop :=
  exists p fs, e_place row = Place p /\ e_fieldSize row = Some fs
               /\ (1 <= p <= fs)%Z /\ e_points row = (fs - p + 1)%Z.

(** The display filter lets the class through. *)
Definition classShown (raceClass : option string) (cl : option string) : Prop :=
  match raceClass with
  | Some (String c0 c) => matchesClass cl (String c0 c) = true
  | _ => True
  end.

(** An athlete of the season standings for the gender [g] and the class
    filter [raceClass]: of the gender, of a scoring team, shown by the
    filter, with trimmed names. *)
Definition seasonAthlete (g : string) (raceClass : option string) (a : athlete) : Prop :=
  a_gender a = g /\ isScoringTeam (a_team a) = true
  /\ classShown raceClass (a_class a)
  /\ trim (a_firstName a) = a_firstName a /\ trim (a_lastName a) = a_lastName a.

(** The entries of [teamTotals] after the events [done_]. *)
Definition teamEntries (done_ : list event) (tt : object (string * list eventResult)) : Prop :=
  NoDup (map fst tt)
  /\ forall k v, own k tt = Some v ->
       fst v = k /\ k <> "" /\ snd v <> []
       /\ map rowEvent (snd v) `sublist_of` map eventId done_
       /\ Forall teamRow (snd v).

(** An entry of [individualTotals] in a season of the events [events]. *)
Definition individualEntry (g : string) (c : option string) (events : list event)
    (v : athlete * list eventResult) : Prop :=
  seasonAthlete g c (fst v) /\ snd v <> []
  /\ Forall (fun row => individualRow row
                        /\ exists ev, ev ∈ events /\ rowEvent row = eventId ev) (snd v).

(** ** The runs of a dual-course race *)

(** The course number of a time entry is [k]. *)
Definition onCourse (k : Z) (t : timeEntry) : bool := float_is (parseInt (course t)) k.

(** The time of the last entry on the course [k], null without one. *)
Definition lastOnCourse (k : Z) (times : list timeEntry) : option number :=
  match last (filter (fun t => onCourse k t = true) times) with
  | Some t => parseTime (time t)
  | None => None
  end.

(** Time entries of a dual-course race: one run on course 1, then two on
    course 0. *)
Definition dualExample : list timeEntry :=
  [mkTime "1" 0 "30.00" "1"; mkTime "0" 1 "31.00" "1"; mkTime "0" 2 "32.50" "1"].

(** ** The drop rule, by rows and by events *)








(** * Properties *)

(** ** JavaScript primitives *)

Lemma startsWith_spec p s : startsWith p s = true <-> exists post, s = (p ++ post)%string.
Proof.
  revert s. induction p as [|a p IH]; intros s; simpl.
  - split; [intros _; by exists s | done].
  - destruct s as [|b s].
    + split; [done | intros [post H]; discriminate].
    + rewrite andb_true_iff, Ascii.eqb_eq, IH. split.
      * intros [-> [post ->]]. by exists post.
      * intros [post [= -> ->]]. split; [done|]. by exists post.
Qed.

(** [includes] is the substring test. *)
Lemma includes_spec s sub :
  includes s sub = true <-> exists pre post, s = (pre ++ sub ++ post)%string.
Proof.
  induction s as [|c s IH].
  - simpl. rewrite orb_false_r, startsWith_spec. split.
    + intros [post ->]. by exists ""%string, post.
    + intros ([|a pre] & post & H); [by exists post | discriminate].
  - cbn [includes]. rewrite orb_true_iff, startsWith_spec, IH. split.
    + intros [[post ->]|(pre & post & ->)].
      * by exists ""%string, post.
      * by exists (String c pre), post.
    + intros ([|a pre] & post & H).
      * left. by exists post.
      * right. injection H as -> ->. by exists pre, post.
Qed.

(** The formats named in the source, and two tokens with white space and
    with trailing text. *)
Example parseTime_formats :
  parseTime "32.06" = Some (Fin 32060) /\ parseTime "83.45" = Some (Fin 83450)
  /\ parseTime "1:23.45" = Some (Fin 83450)
  /\ parseTime "1:23:45.67" = Some (Fin 5025670)
  /\ parseTime " 45.1 " = Some (Fin 45100) /\ parseTime "12abc" = Some (Fin 12000).
Proof. by vm_compute. Qed.

Example parseFloat_literals :
  parseFloat "  -1.5e2x" = FFin (-150) /\ parseFloat ".5" = FFin (5 # 10)
  /\ parseFloat "5." = FFin 5 /\ parseFloat "1e" = FFin 1
  /\ parseFloat "." = FNaN /\ parseFloat "abc" = FNaN
  /\ parseFloat "-Infinity" = FNegInf /\ parseFloat "1e400" = FPosInf.
Proof. by vm_compute. Qed.

Example parseInt_literals :
  parseInt "12abc" = FFin 12 /\ parseInt "0x1f" = FFin 31 /\ parseInt " -7" = FFin (-7)
  /\ parseInt "" = FNaN /\ parseInt "0x" = FNaN.
Proof. by vm_compute. Qed.

Example object_values_order :
  values [("b", 1); ("10", 2); ("2", 3); ("a", 4)]%Z = [3; 2; 1; 4]%Z.
Proof. by vm_compute. Qed.

(** ** Loops and sorting *)

Section Loops.
Context {St A : Type}.
Implicit Types (body : St -> A -> nat -> St) (l : list A) (s : St).

Lemma forEach_from_app body i l1 l2 s :
  forEach_from body i (l1 ++ l2) s
  = forEach_from body (i + length l1) l2 (forEach_from body i l1 s).
Proof.
  revert i s. induction l1 as [|x l1 IH]; intros i s; simpl.
  - by rewrite Nat.add_0_r.
  - rewrite IH. f_equal. lia.
Qed.

Lemma forEach_snoc body l x s :
  forEach body (l ++ [x]) s = body (forEach body l s) x (length l).
Proof. unfold forEach. by rewrite forEach_from_app. Qed.

(** A property that every iteration preserves holds when the loop ends. *)
Lemma forEach_from_invariant (P : St -> Prop) body i l s :
  P s -> (forall s x j, x ∈ l -> P s -> P (body s x j)) ->
  P (forEach_from body i l s).
Proof.
  revert i s. induction l as [|x l IH]; intros i s Hs Hstep; simpl; [done|].
  apply IH.
  - apply Hstep; [left | done].
  - intros s' y j Hy. apply Hstep. by right.
Qed.

Lemma forEach_invariant (P : St -> Prop) body l s :
  P s -> (forall s x j, x ∈ l -> P s -> P (body s x j)) ->
  P (forEach body l s).
Proof. apply forEach_from_invariant. Qed.
End Loops.

Section Sorting.
Context {A : Type} (cmp : A -> A -> number).
Implicit Types (x y : A) (l : list A).

Lemma insert_perm x l : JS.insert cmp x l ≡ₚ x :: l.
Proof.
  induction l as [|y l IH]; simpl; [done|].
  destruct (positive (cmp x y)); [|done].
  rewrite IH. apply Permutation_swap.
Qed.

Lemma sort_perm l : sort cmp l ≡ₚ l.
Proof.
  induction l as [|x l IH]; simpl; [done|].
  unfold sort in *. simpl. by rewrite insert_perm, IH.
Qed.

Lemma elem_of_sort x l : x ∈ sort cmp l <-> x ∈ l.
Proof. by rewrite sort_perm. Qed.

Lemma length_sort l : length (sort cmp l) = length l.
Proof. by rewrite sort_perm. Qed.

Lemma NoDup_sort l : NoDup l -> NoDup (sort cmp l).
Proof. by rewrite sort_perm. Qed.

Lemma insert_inOrder x l :
  (forall y, y ∈ l -> gt cmp x y = true -> gt cmp y x = false) ->
  inOrder cmp l -> inOrder cmp (JS.insert cmp x l).
Proof.
  intros Hasym Hl. induction Hl as [|y l Hl IH Hhd]; simpl.
  - repeat constructor.
  - fold (gt cmp x y). destruct (gt cmp x y) eqn:Hxy.
    + constructor.
      * apply IH. intros z Hz. apply Hasym. by right.
      * destruct Hhd as [|z l Hyz]; simpl.
        -- constructor. apply Hasym; [left | done].
        -- fold (gt cmp x z). destruct (gt cmp x z); constructor; [done|].
           apply Hasym; [left | done].
    + constructor; [by constructor | by constructor].
Qed.

(** The sorted list is in order as soon as the comparator is
    antisymmetric on the elements. *)
Lemma sort_inOrder l :
  (forall x y, x ∈ l -> y ∈ l -> gt cmp x y = true -> gt cmp y x = false) ->
  inOrder cmp (sort cmp l).
Proof.
  induction l as [|x l IH]; intros Hasym.
  - constructor.
  - change (sort cmp (x :: l)) with (JS.insert cmp x (sort cmp l)).
    apply insert_inOrder.
    + intros y Hy. apply Hasym; [left | right; by apply elem_of_sort].
    + apply IH. intros y z Hy Hz. apply Hasym; by right.
Qed.

(** Stability: a list that is in order is left as it is. *)
Lemma sort_inOrder_id l : inOrder cmp l -> sort cmp l = l.
Proof.
  induction 1 as [|x l Hl IH Hhd]; [done|].
  change (sort cmp (x :: l)) with (JS.insert cmp x (sort cmp l)).
  rewrite IH. destruct Hhd as [|y l Hxy]; simpl; [done|].
  fold (gt cmp x y). by rewrite Hxy.
Qed.
End Sorting.

(** ** The store *)

Lemma length_write f l s : length (write f l s) = length s.
Proof. apply length_alter. Qed.

Lemma lookup_write_ne f l l' s : l <> l' -> write f l s !! l' = s !! l'.
Proof. apply list_lookup_alter_ne. Qed.

Lemma info_write f l l' s : info (get (write f l s) l') = info (get s l').
Proof.
  unfold get, write. rewrite list_lookup_total_alter.
  case_decide as H; [|done]. by destruct H as [-> _].
Qed.

Lemma only_writes_refl L s : only_writes L s s.
Proof. by repeat split. Qed.

Lemma only_writes_trans L s1 s2 s3 :
  only_writes L s1 s2 -> only_writes L s2 s3 -> only_writes L s1 s3.
Proof.
  intros (Hl1 & Hi1 & Ho1) (Hl2 & Hi2 & Ho2). repeat split.
  - congruence.
  - intros l. by rewrite Hi2.
  - intros l Hl. by rewrite Ho2, Ho1.
Qed.

Lemma only_writes_mono L L' s s' :
  (forall l, l ∈ L -> l ∈ L') -> only_writes L s s' -> only_writes L' s s'.
Proof. intros Hsub (Hl & Hi & Ho). repeat split; [done..|]. intros l Hn. apply Ho. auto. Qed.

Lemma write_only_writes L f l s : l ∈ L -> only_writes L s (write f l s).
Proof.
  intros Hl. repeat split.
  - apply length_write.
  - intros l'. apply info_write.
  - intros l' Hn. apply lookup_write_ne. intros ->. done.
Qed.

Lemma only_writes_get L s s' l : only_writes L s s' -> l ∉ L -> get s' l = get s l.
Proof.
  intros (_ & _ & Ho) Hn. unfold get. rewrite !list_lookup_total_alt. by rewrite Ho.
Qed.

(** A loop whose iterations assign only to racers of [L]. *)
Lemma forEach_only_writes {St A} (proj : St -> store) (body : St -> A -> nat -> St)
    (l : list A) (L : list ref) (st : St) :
  (forall st x i, x ∈ l -> only_writes L (proj st) (proj (body st x i))) ->
  only_writes L (proj st) (proj (forEach body l st)).
Proof.
  intros Hbody.
  apply (forEach_invariant (fun st' => only_writes L (proj st) (proj st'))).
  - apply only_writes_refl.
  - intros st' x j Hx Hst'. eapply only_writes_trans; [done|]. by apply Hbody.
Qed.

Ltac writes :=
  repeat first
    [ apply only_writes_refl
    | eapply only_writes_trans; [|apply write_only_writes; assumption] ].

(** ** What each scoring function writes *)

Lemma rankRun_only_writes runOf rankOf setRank gr s :
  only_writes gr s (fst (rankRun runOf rankOf setRank gr s)).
Proof.
  unfold rankRun. simpl.
  apply (forEach_only_writes fst). intros [s' k] x i Hx. simpl.
  apply elem_of_sort, list_elem_of_filter in Hx as [_ Hx].
  destruct (_ && _); writes.
Qed.

Lemma calculateRunRankings_only_writes s racers g :
  only_writes (genderRacers s racers g) s (fst (calculateRunRankings s racers g)).
Proof.
  unfold calculateRunRankings.
  pose proof (rankRun_only_writes run1 run1Rank set_run1Rank (genderRacers s racers g) s) as H1.
  unfold genderRacers, genderOf in *.
  destruct (rankRun run1 run1Rank set_run1Rank _ s) as [s1 c1]. simpl in H1.
  match goal with |- context [rankRun run2 run2Rank set_run2Rank ?gr s1] =>
    pose proof (rankRun_only_writes run2 run2Rank set_run2Rank gr s1) as H2;
    destruct (rankRun run2 run2Rank set_run2Rank gr s1) as [s2 c2] end.
  simpl in *. by eapply only_writes_trans.
Qed.

Lemma placeFinisher_only_writes F fs rc st x i :
  only_writes [x] (fst st) (fst (placeFinisher F fs rc st x i)).
Proof.
  destruct st as [s k]. unfold placeFinisher. simpl.
  assert (x ∈ [x]) by apply list_elem_of_here.
  destruct (_ && _); simpl; writes.
Qed.

Lemma placeNone_only_writes fs rc s x i :
  only_writes [x] s (placeNone fs rc s x i).
Proof.
  unfold placeNone. assert (x ∈ [x]) by apply list_elem_of_here. writes.
Qed.

Lemma singleton_subset (x : nat) (L : list nat) : x ∈ L -> forall l, l ∈ [x] -> l ∈ L.
Proof. intros Hx l Hl. apply list_elem_of_singleton in Hl. by subst. Qed.

Lemma placeFinishers_only_writes F fs rc s k :
  only_writes F s (fst (forEach (placeFinisher F fs rc) F (s, k))).
Proof.
  apply (forEach_only_writes fst). intros st x i Hx.
  eapply only_writes_mono; [by apply singleton_subset|].
  apply placeFinisher_only_writes.
Qed.

Lemma placeNones_only_writes fs rc L s :
  only_writes L s (forEach (placeNone fs rc) L s).
Proof.
  apply (forEach_only_writes id). intros st x i Hx.
  eapply only_writes_mono; [by apply singleton_subset|].
  apply placeNone_only_writes.
Qed.

(** ** The phases of [calculateIndividualResults] *)

Lemma sort_ext {A} (cmp cmp' : A -> A -> number) l :
  (forall x y, cmp x y = cmp' x y) -> sort cmp l = sort cmp' l.
Proof.
  intros Hext. induction l as [|x l IH]; [done|].
  change (JS.insert cmp x (sort cmp l) = JS.insert cmp' x (sort cmp' l)).
  rewrite IH. generalize (sort cmp' l). intros k.
  induction k as [|y k IHk]; simpl; [done|]. by rewrite Hext, IHk.
Qed.

Lemma finished_info r r' : info r = info r' -> finished r = finished r'.
Proof. unfold finished. by intros ->. Qed.

Lemma notFinished_info r r' : info r = info r' -> notFinished r = notFinished r'.
Proof. unfold notFinished. by intros ->. Qed.

Lemma notFinished_finished r : notFinished r = negb (finished r).
Proof.
  unfold notFinished, finished.
  by destruct (not_null _), (dnf _), (dsq _).
Qed.

Lemma byTotalTime_info s s' :
  (forall l, info (get s' l) = info (get s l)) ->
  forall a b, byTotalTime s' a b = byTotalTime s a b.
Proof. intros Hi a b. unfold byTotalTime. by rewrite !Hi. Qed.

(** The stores between the phases: after the run rankings, after the
    finishers got their places, after the non-finishers, at the end. *)
Lemma individual_phases s racers g c :
  let F := scoringFinishers s racers g in
  let N := scoringNonFinishers s racers g in
  let X := nonScoringRacers s racers g in
  let fs := Z.of_nat (length (scoringTeamRacers s racers g)) in
  exists s1 rc,
    calculateRunRankings s racers g = (s1, rc)
    /\ let s2 := fst (forEach (placeFinisher F fs rc) F (s1, 1%Z)) in
       let s3 := forEach (placeNone fs rc) N s2 in
       let s4 := forEach (placeNone fs rc) X s3 in
       calculateIndividualResults s racers g c
       = (s4, classFilter s4 c (sort (byPlace s4) (F ++ N ++ X))).
Proof.
  intros F N X fs.
  pose proof (calculateRunRankings_only_writes s racers g) as H1.
  destruct (calculateRunRankings s racers g) as [s1 rc] eqn:Hrr.
  exists s1, rc. split; [done|]. simpl in H1. destruct H1 as (_ & Hi1 & _).
  intros s2 s3 s4.
  pose proof (placeFinishers_only_writes F fs rc s1 1%Z) as (_ & Hi2 & _).
  fold s2 in Hi2.
  pose proof (placeNones_only_writes fs rc N s2) as (_ & Hi3 & _).
  fold s3 in Hi3.
  unfold calculateIndividualResults. rewrite Hrr.
  assert (sort (byTotalTime s1)
            (filter (fun r => finished (get s1 r) = true)
               (filter (fun r => String.eqb (gender (info (get s r))) g
                                 && isScoringTeam (team (info (get s r))) = true) racers))
          = F) as ->.
  { unfold F, scoringFinishers. rewrite (sort_ext _ _ _ (byTotalTime_info s s1 Hi1)).
    f_equal. apply list_filter_iff. intros l.
    by rewrite (finished_info (get s1 l) (get s l) (Hi1 l)). }
  assert (filter (fun r => notFinished (get s1 r) = true)
            (filter (fun r => String.eqb (gender (info (get s r))) g
                              && isScoringTeam (team (info (get s r))) = true) racers)
          = N) as ->.
  { unfold N, scoringNonFinishers. apply list_filter_iff. intros l.
    by rewrite (notFinished_info (get s1 l) (get s l) (Hi1 l)). }
  match goal with
  | |- context [filter (fun r => isScoringTeam (team (info (get ?S r))) = false) ?G] =>
      assert (filter (fun r => isScoringTeam (team (info (get S r))) = false) G = X) as ->
  end.
  { unfold X, nonScoringRacers. apply list_filter_iff. intros l. unfold teamOf.
    rewrite <- (Hi1 l), <- (Hi2 l), <- (Hi3 l). reflexivity. }
  reflexivity.
Qed.

(** ** What a loop leaves in a racer *)

Lemma derived_write f x s l :
  derived (get (write f x s) l)
  = if decide (x = l /\ (x < length s)%nat) then f (derived (get s l))
    else derived (get s l).
Proof.
  unfold get, write. rewrite list_lookup_total_alter.
  case_decide as H; [|done]. by destruct H as [-> _].
Qed.

Section LoopEffect.
Context {St A : Type} (proj : St -> store) (body : St -> A -> nat -> St).
Context (Q : racer -> Prop) (l : ref).
Context (at_ : A -> ref).

Hypothesis body_length :
  forall st x i, length (proj (body st x i)) = length (proj st).
Hypothesis body_preserves :
  forall st x i, Q (get (proj st) l) -> Q (get (proj (body st x i)) l).
Hypothesis body_establishes :
  forall st x i, at_ x = l -> (l < length (proj st))%nat ->
                 Q (get (proj (body st x i)) l).

Lemma forEach_from_preserves L i st :
  Q (get (proj st) l) -> Q (get (proj (forEach_from body i L st)) l).
Proof.
  intros HQ.
  apply (forEach_from_invariant (fun st' => Q (get (proj st') l))); [done|].
  intros st' x j _. apply body_preserves.
Qed.

Lemma forEach_from_length L i st :
  length (proj (forEach_from body i L st)) = length (proj st).
Proof.
  apply (forEach_from_invariant (fun st' => length (proj st') = length (proj st)));
    [done|].
  intros st' x j _ <-. apply body_length.
Qed.

(** The racer [l] has [Q] after a loop that visits it. *)
Lemma forEach_from_establishes L i st :
  l ∈ map at_ L -> (l < length (proj st))%nat ->
  Q (get (proj (forEach_from body i L st)) l).
Proof.
  revert i st. induction L as [|x L IH]; intros i st Hin Hlen; simpl in *.
  - by apply elem_of_nil in Hin.
  - destruct (decide (at_ x = l)) as [Hx|Hx].
    + apply forEach_from_preserves. by apply body_establishes.
    + apply IH.
      * apply elem_of_cons in Hin as [Hin|Hin]; [congruence|done].
      * by rewrite body_length.
Qed.
End LoopEffect.

Lemma placeNone_length fs rc s x i : length (placeNone fs rc s x i) = length s.
Proof. unfold placeNone. by rewrite !length_write. Qed.

Lemma placeNone_derived fs rc s x i l :
  derived (get (placeNone fs rc s x i) l)
  = if decide (x = l /\ (x < length s)%nat)
    then set_run2Count (Some (snd rc))
           (set_run1Count (Some (fst rc))
              (set_fieldSize (Some fs)
                 (set_points (Some 0%Z) (set_place Null (derived (get s l))))))
    else derived (get s l).
Proof.
  unfold placeNone. rewrite !derived_write, !length_write.
  by case_decide.
Qed.

Lemma placeFinisher_length F fs rc st x i :
  length (fst (placeFinisher F fs rc st x i)) = length (fst st).
Proof. by destruct (placeFinisher_only_writes F fs rc st x i) as (? & _). Qed.

Lemma placeFinisher_derived F fs rc s k x i l :
  exists v p,
    derived (get (fst (placeFinisher F fs rc (s, k) x i)) l)
    = if decide (x = l /\ (x < length s)%nat)
      then set_run2Count (Some (snd rc))
             (set_run1Count (Some (fst rc))
                (set_fieldSize (Some fs)
                   (set_points p (set_place v (derived (get s l))))))
      else derived (get s l).
Proof.
  unfold placeFinisher. destruct (_ && _); simpl;
    eexists _, _; rewrite !derived_write, !length_write; by case_decide.
Qed.

(** ** The places of the finishers *)

(** One iteration of the place loop, at a racer [x] that exists. *)
Lemma placeFinisher_step F fs rc s k x i :
  (x < length s)%nat ->
  let prev := F !!! (i - 1)%nat in
  let tie := (0 <? i)%nat && time_eq (timeOf s x) (timeOf s prev) in
  let st' := placeFinisher F fs rc (s, k) x i in
  placeOf (fst st') x = (if tie then placeOf s prev else Place k)
  /\ pointsOf (fst st') x
     = (if tie then pointsOf s prev else Some (getPointsForPlace k fs))
  /\ snd st' = (Z.of_nat i + 2)%Z.
Proof.
  intros Hx prev tie st'. subst st'. unfold placeFinisher.
  fold prev. unfold timeOf in tie. fold tie.
  unfold placeOf, pointsOf.
  destruct tie; simpl; rewrite !derived_write, !length_write;
    repeat case_decide; try tauto; simpl; repeat split; try done.
  all: naive_solver.
Qed.

Lemma lookup_total_Some (F : list nat) i l : F !! i = Some l -> F !!! i = l.
Proof. intros H. by apply list_lookup_total_correct. Qed.

Lemma timeOf_only_writes L s s' l : only_writes L s s' -> timeOf s' l = timeOf s l.
Proof. intros (_ & Hi & _). unfold timeOf. by rewrite Hi. Qed.

Lemma placedUpTo_prefix F fs rc s n :
  NoDup F -> Forall (fun l => (l < length s)%nat) F -> (n <= length F)%nat ->
  placedUpTo F fs s n (forEach (placeFinisher F fs rc) (take n F) (s, 1%Z)).
Proof.
  intros Hnd Hval. induction n as [|n IH]; intros Hn.
  - repeat split; simpl. intros; lia.
  - destruct (lookup_lt_is_Some_2 F n) as [x Hx]; [lia|].
    rewrite (take_S_r _ _ _ Hx), forEach_snoc, length_take_le by lia.
    destruct IH as (Hk & Hw & Hch); [lia|].
    destruct (forEach (placeFinisher F fs rc) (take n F) (s, 1%Z)) as [sn kn].
    simpl in Hk, Hw, Hch. subst kn.
    assert (x < length sn)%nat as Hxn.
    { destruct Hw as (-> & _). rewrite Forall_forall in Hval. apply Hval.
      apply list_elem_of_lookup. eauto. }
    pose proof (placeFinisher_step F fs rc sn (Z.of_nat n + 1) x n Hxn) as Hstep.
    pose proof (placeFinisher_only_writes F fs rc (sn, (Z.of_nat n + 1)%Z) x n) as Hwx.
    cbv zeta in Hstep.
    destruct (placeFinisher F fs rc (sn, (Z.of_nat n + 1)%Z) x n) as [s' k'].
    cbn [fst snd] in *. destruct Hstep as (Hpl & Hpt & Hk').
    assert (forall j y, (j < n)%nat -> F !! j = Some y -> get s' y = get sn y) as Hold.
    { intros j y Hj Hy. apply (only_writes_get [x]); [done|].
      rewrite list_elem_of_singleton. intros ->.
      assert (j = n) by (eapply NoDup_lookup; eauto). lia. }
    unfold placedUpTo. cbn [fst snd]. split; [lia|]. split.
    + eapply only_writes_trans.
      * eapply only_writes_mono; [|exact Hw]. intros l.
        rewrite !elem_of_take. intros (j & ? & ?). exists j. split; [done|lia].
      * eapply only_writes_mono; [|exact Hwx]. intros l.
        rewrite list_elem_of_singleton, elem_of_take. intros ->. eauto.
    + intros i l Hi Hl.
      destruct (decide (i = n)) as [->|Hne].
      * assert (l = x) by congruence. subst l.
        rewrite !(timeOf_only_writes _ _ _ _ Hw) in Hpl, Hpt.
        destruct ((0 <? n)%nat && _) eqn:Htie.
        -- apply andb_true_iff in Htie as [Hpos%Nat.ltb_lt _].
           destruct (lookup_lt_is_Some_2 F (n - 1)) as [p Hp]; [lia|].
           rewrite (lookup_total_Some _ _ _ Hp) in *.
           unfold placeOf, pointsOf in *.
           rewrite (Hold (n - 1)%nat p) by (done || lia). done.
        -- split; [done|]. done.
      * assert (i < n)%nat as Hlt by lia.
        specialize (Hch i l Hlt Hl). simpl in Hch.
        unfold placeOf, pointsOf in *.
        rewrite (Hold i l Hlt Hl).
        destruct ((0 <? i)%nat && _) eqn:Htie; [|done].
        apply andb_true_iff in Htie as [Hpos%Nat.ltb_lt _].
        destruct (lookup_lt_is_Some_2 F (i - 1)) as [p Hp]; [lia|].
        rewrite (lookup_total_Some _ _ _ Hp) in *.
        rewrite (Hold (i - 1)%nat p) by (done || lia). done.
Qed.

(** Membership in the local arrays. *)
Lemma elem_of_scoringTeamRacers s racers g l :
  l ∈ scoringTeamRacers s racers g
  <-> l ∈ racers /\ genderOf s l = g /\ isScoringTeam (teamOf s l) = true.
Proof.
  unfold scoringTeamRacers. rewrite list_elem_of_filter, andb_true_iff, String.eqb_eq.
  tauto.
Qed.

Lemma elem_of_genderRacers s racers g l :
  l ∈ genderRacers s racers g <-> l ∈ racers /\ genderOf s l = g.
Proof. unfold genderRacers. rewrite list_elem_of_filter, String.eqb_eq. tauto. Qed.

Lemma elem_of_scoringFinishers s racers g l :
  l ∈ scoringFinishers s racers g
  <-> l ∈ scoringTeamRacers s racers g /\ finished (get s l) = true.
Proof. unfold scoringFinishers. rewrite elem_of_sort, list_elem_of_filter. tauto. Qed.

Lemma elem_of_scoringNonFinishers s racers g l :
  l ∈ scoringNonFinishers s racers g
  <-> l ∈ scoringTeamRacers s racers g /\ finished (get s l) = false.
Proof.
  unfold scoringNonFinishers.
  rewrite list_elem_of_filter, notFinished_finished, negb_true_iff. tauto.
Qed.

Lemma elem_of_nonScoringRacers s racers g l :
  l ∈ nonScoringRacers s racers g
  <-> l ∈ genderRacers s racers g /\ isScoringTeam (teamOf s l) = false.
Proof. unfold nonScoringRacers. rewrite list_elem_of_filter. tauto. Qed.

(** The finishers keep what the place loop gave them: the two later loops
    visit other racers. *)
Lemma finisher_untouched s racers g fs rc s2 l :
  l ∈ scoringFinishers s racers g ->
  get (forEach (placeNone fs rc) (nonScoringRacers s racers g)
         (forEach (placeNone fs rc) (scoringNonFinishers s racers g) s2)) l
  = get s2 l.
Proof.
  intros [[_ [_ Hsc]]%elem_of_scoringTeamRacers Hfin]%elem_of_scoringFinishers.
  rewrite (only_writes_get _ _ _ _ (placeNones_only_writes fs rc _ _)).
  - apply (only_writes_get _ _ _ _ (placeNones_only_writes fs rc _ _)).
    rewrite elem_of_scoringNonFinishers. intros [_ ?]. congruence.
  - rewrite elem_of_nonScoringRacers. intros [_ ?]. congruence.
Qed.

Lemma NoDup_scoringFinishers s racers g :
  NoDup racers -> NoDup (scoringFinishers s racers g).
Proof. intros H. apply NoDup_sort. by do 2 apply NoDup_filter. Qed.

Lemma calculateRunRankings_length s racers g :
  length (fst (calculateRunRankings s racers g)) = length s.
Proof. by destruct (calculateRunRankings_only_writes s racers g) as (? & _). Qed.

Lemma individual_tieRule s racers g c :
  NoDup racers -> Forall (fun l => (l < length s)%nat) racers ->
  let s' := fst (calculateIndividualResults s racers g c) in
  let F := scoringFinishers s racers g in
  let fs := Z.of_nat (length (scoringTeamRacers s racers g)) in
  forall i l, F !! i = Some l -> tieRule s s' F fs i l.
Proof.
  intros Hnd Hval s' F fs i l Hl.
  destruct (individual_phases s racers g c) as (s1 & rc & Hrr & Heq).
  cbv zeta in Heq. subst s'. rewrite Heq. cbn [fst].
  pose proof (calculateRunRankings_only_writes s racers g) as Hw1.
  rewrite Hrr in Hw1. cbn [fst] in Hw1.
  assert (Forall (fun l => (l < length s1)%nat) F) as HvalF.
  { destruct Hw1 as (-> & _). rewrite Forall_forall in *. intros y Hy.
    apply Hval. apply elem_of_scoringFinishers in Hy as [Hy _].
    by apply elem_of_scoringTeamRacers in Hy as [Hy _]. }
  pose proof (placedUpTo_prefix F fs rc s1 (length F)
                (NoDup_scoringFinishers s racers g Hnd) HvalF (le_n _)) as (_ & _ & Hch).
  rewrite firstn_all in Hch.
  specialize (Hch i l (lookup_lt_Some _ _ _ Hl) Hl). cbv zeta in Hch.
  unfold tieRule, placeOf, pointsOf in *.
  rewrite !(timeOf_only_writes _ _ _ _ Hw1) in Hch.
  fold F. rewrite !(finisher_untouched s racers g fs rc _ l)
    by (apply list_elem_of_lookup; eauto).
  destruct ((0 <? i)%nat && _) eqn:Htie; [|done].
  apply andb_true_iff in Htie as [Hpos%Nat.ltb_lt _].
  destruct (lookup_lt_is_Some_2 F (i - 1)) as [p Hp];
    [apply lookup_lt_Some in Hl; lia|].
  rewrite (lookup_total_Some _ _ _ Hp) in *.
  rewrite !(finisher_untouched s racers g fs rc _ p)
    by (apply list_elem_of_lookup; eauto).
  done.
Qed.

Lemma overflow_bound_pos : (0 < overflow_bound)%Z.
Proof. by vm_compute. Qed.

Lemma positive_norm z : positive (norm z) = (0 <? z)%Z.
Proof.
  pose proof overflow_bound_pos. unfold norm.
  destruct (Z.leb_spec overflow_bound z); simpl.
  - symmetry. apply Z.ltb_lt. lia.
  - destruct (Z.leb_spec z (- overflow_bound)); simpl; [|done].
    symmetry. apply Z.ltb_ge. lia.
Qed.

(** From the tie rule: every finisher has a place between 1 and its
    1-based position, and the points of that place. *)
Lemma tieRule_bounds s s' F fs :
  (forall i l, F !! i = Some l -> tieRule s s' F fs i l) ->
  forall i l, F !! i = Some l ->
    exists p, placeOf s' l = Place p /\ (1 <= p <= Z.of_nat i + 1)%Z
              /\ pointsOf s' l = Some (getPointsForPlace p fs).
Proof.
  intros Hrule i. induction i as [|i IH]; intros l Hl.
  - specialize (Hrule _ _ Hl). unfold tieRule in Hrule. simpl in Hrule.
    destruct Hrule as [Hp Hq]. exists 1%Z. repeat split; [done|lia|lia|done].
  - pose proof (Hrule _ _ Hl) as Hr. unfold tieRule in Hr.
    destruct (_ && _).
    + destruct (lookup_lt_is_Some_2 F i) as [p Hp];
        [apply lookup_lt_Some in Hl; lia|].
      replace (S i - 1)%nat with i in Hr by lia.
      rewrite (lookup_total_Some _ _ _ Hp) in Hr.
      destruct (IH _ Hp) as (q & Hq1 & Hq2 & Hq3).
      exists q. destruct Hr as [-> ->]. repeat split; [done|lia|lia|done].
    + destruct Hr as [Hp Hq]. exists (Z.of_nat (S i) + 1)%Z.
      repeat split; [done|lia|lia|done].
Qed.

(** The places do not decrease along the sorted finishers. *)
Lemma tieRule_mono s s' F fs :
  (forall i l, F !! i = Some l -> tieRule s s' F fs i l) ->
  forall i j l l' p p', (i <= j)%nat -> F !! i = Some l -> F !! j = Some l' ->
    placeOf s' l = Place p -> placeOf s' l' = Place p' -> (p <= p')%Z.
Proof.
  intros Hrule i j. induction j as [|j IH]; intros l l' p p' Hij Hl Hl' Hp Hp'.
  - assert (i = 0)%nat as -> by lia. assert (l = l') as -> by congruence.
    assert (p = p') by congruence. lia.
  - destruct (decide (i = S j)) as [->|Hne].
    { assert (l = l') as -> by congruence. assert (p = p') by congruence. lia. }
    destruct (lookup_lt_is_Some_2 F j) as [m Hm];
      [apply lookup_lt_Some in Hl'; lia|].
    destruct (tieRule_bounds s s' F fs Hrule _ _ Hm) as (q & Hq1 & Hq2 & _).
    assert (p <= q)%Z as Hpq by (eapply (IH l m); eauto; lia).
    pose proof (Hrule _ _ Hl') as Hr. unfold tieRule in Hr.
    replace (S j - 1)%nat with j in Hr by lia.
    rewrite (lookup_total_Some _ _ _ Hm) in Hr.
    destruct (_ && _).
    + destruct Hr as [Hr _]. rewrite Hr, Hq1 in Hp'. injection Hp' as <-. done.
    + destruct Hr as [Hr _]. rewrite Hr in Hp'. injection Hp' as <-. lia.
Qed.

(** ** Sorted finishers with integer times *)

Lemma Sorted_members_impl {A} (R R' : relation A) (l : list A) :
  (forall x y, x ∈ l -> y ∈ l -> R x y -> R' x y) -> Sorted R l -> Sorted R' l.
Proof.
  intros Himp Hs. induction Hs as [|x l Hs IH Hhd]; constructor.
  - apply IH. intros y z Hy Hz. apply Himp; by right.
  - destruct Hhd as [|y l Hxy]; constructor.
    apply Himp; [left | right; left | done].
Qed.

Lemma finisher_time s racers g l :
  finiteTimes s racers -> l ∈ scoringFinishers s racers g ->
  timeOf s l = Some (Fin (msOf s l)).
Proof.
  intros Hfin [[Hl _]%elem_of_scoringTeamRacers Hf]%elem_of_scoringFinishers.
  unfold msOf. destruct (Hfin l Hl) as [Hn|[z Hz]].
  - unfold finished, timeOf in *. by rewrite Hn in Hf.
  - by rewrite Hz.
Qed.

Lemma scoringFinishers_sorted s racers g :
  finiteTimes s racers -> Sorted Z.le (map (msOf s) (scoringFinishers s racers g)).
Proof.
  intros Hfin.
  assert (forall x, x ∈ filter (fun r => finished (get s r) = true)
                          (scoringTeamRacers s racers g) ->
                    timeOf s x = Some (Fin (msOf s x))) as Ht.
  { intros x Hx. apply (finisher_time s racers g); [done|].
    unfold scoringFinishers. by apply elem_of_sort. }
  assert (forall x y, x ∈ scoringFinishers s racers g -> y ∈ scoringFinishers s racers g ->
                      gt (byTotalTime s) x y = (0 <? msOf s x - msOf s y)%Z) as Hgt.
  { intros x y Hx Hy. unfold gt, byTotalTime.
    fold (timeOf s x). fold (timeOf s y).
    rewrite (finisher_time s racers g x Hfin Hx), (finisher_time s racers g y Hfin Hy).
    simpl. apply positive_norm. }
  apply (Sorted_fmap _ (fun x y => (msOf s x <= msOf s y)%Z)); [done|].
  apply (Sorted_members_impl (fun x y => gt (byTotalTime s) x y = false)).
  - intros x y Hx Hy. rewrite (Hgt x y Hx Hy). intros H%Z.ltb_ge. lia.
  - apply sort_inOrder. intros x y Hx Hy.
    rewrite <- (elem_of_sort (byTotalTime s)) in Hx, Hy.
    fold (scoringFinishers s racers g) in Hx, Hy.
    rewrite (Hgt x y Hx Hy), (Hgt y x Hy Hx).
    intros H%Z.ltb_lt. apply Z.ltb_ge. lia.
Qed.

Lemma length_scoringFinishers s racers g :
  (length (scoringFinishers s racers g) <= length (scoringTeamRacers s racers g))%nat.
Proof. unfold scoringFinishers. rewrite length_sort. apply length_filter. Qed.

Lemma getPointsForPlace_in_field p fs :
  (1 <= p <= fs)%Z -> getPointsForPlace p fs = (fs - p + 1)%Z.
Proof.
  intros H. unfold getPointsForPlace.
  destruct (Z.leb_spec p 0); [lia|]. destruct (Z.ltb_spec fs p); [lia|]. done.
Qed.

(** ** Racers without a place, and the field size *)

Lemma placeNone_preserves_unplaced fs rc s x i l :
  unplaced (get s l) -> unplaced (get (placeNone fs rc s x i) l).
Proof.
  unfold unplaced. rewrite placeNone_derived. by case_decide.
Qed.

Lemma placeNone_establishes_unplaced fs rc s x i l :
  x = l -> (l < length s)%nat -> unplaced (get (placeNone fs rc s x i) l).
Proof.
  intros -> Hl. unfold unplaced. rewrite placeNone_derived.
  case_decide as H; [done|]. tauto.
Qed.

Lemma placeNones_unplaced fs rc L s l :
  l ∈ L -> (l < length s)%nat -> unplaced (get (forEach (placeNone fs rc) L s) l).
Proof.
  intros Hl Hs.
  apply (forEach_from_establishes id (placeNone fs rc) unplaced l id).
  - intros. apply placeNone_length.
  - intros. by apply placeNone_preserves_unplaced.
  - intros. by apply placeNone_establishes_unplaced.
  - by rewrite map_id.
  - done.
Qed.

Lemma placeNones_keep_unplaced fs rc L s l :
  unplaced (get s l) -> unplaced (get (forEach (placeNone fs rc) L s) l).
Proof.
  apply (forEach_from_preserves id (placeNone fs rc) unplaced l).
  intros. by apply placeNone_preserves_unplaced.
Qed.

Lemma placeNone_preserves_fieldSize fs rc s x i l :
  hasFieldSize fs (get s l) -> hasFieldSize fs (get (placeNone fs rc s x i) l).
Proof. unfold hasFieldSize. rewrite placeNone_derived. by case_decide. Qed.

Lemma placeNones_fieldSize fs rc L s l :
  l ∈ L -> (l < length s)%nat ->
  hasFieldSize fs (get (forEach (placeNone fs rc) L s) l).
Proof.
  intros Hl Hs.
  apply (forEach_from_establishes id (placeNone fs rc) (hasFieldSize fs) l id).
  - intros. apply placeNone_length.
  - intros. by apply placeNone_preserves_fieldSize.
  - intros st x i Hx Hlen. unfold id in *. subst x.
    unfold hasFieldSize. rewrite placeNone_derived.
    case_decide as H; [done|]. simpl in *. tauto.
  - by rewrite map_id.
  - done.
Qed.

Lemma placeNones_keep_fieldSize fs rc L s l :
  hasFieldSize fs (get s l) -> hasFieldSize fs (get (forEach (placeNone fs rc) L s) l).
Proof.
  apply (forEach_from_preserves id (placeNone fs rc) (hasFieldSize fs) l).
  intros. by apply placeNone_preserves_fieldSize.
Qed.

Lemma placeFinishers_fieldSize F fs rc s k l :
  l ∈ F -> (l < length s)%nat ->
  hasFieldSize fs (get (fst (forEach (placeFinisher F fs rc) F (s, k))) l).
Proof.
  intros Hl Hs.
  apply (forEach_from_establishes fst (placeFinisher F fs rc) (hasFieldSize fs) l id).
  - intros. apply placeFinisher_length.
  - intros [s0 k0] x i. unfold hasFieldSize.
    destruct (placeFinisher_derived F fs rc s0 k0 x i l) as (v & p & ->).
    by case_decide.
  - intros [s0 k0] x i Hx Hlen. unfold id in *. subst x. unfold hasFieldSize.
    destruct (placeFinisher_derived F fs rc s0 k0 l i l) as (v & p & ->).
    case_decide as H; [done|]. simpl in *. tauto.
  - by rewrite map_id.
  - done.
Qed.

(** Every racer of the gender is in one of the three local arrays. *)
Lemma gender_racer_cases s racers g l :
  l ∈ genderRacers s racers g ->
  l ∈ scoringFinishers s racers g \/ l ∈ scoringNonFinishers s racers g
  \/ l ∈ nonScoringRacers s racers g.
Proof.
  intros Hl. pose proof Hl as [Hr Hg]%elem_of_genderRacers.
  destruct (isScoringTeam (teamOf s l)) eqn:Hsc.
  - assert (l ∈ scoringTeamRacers s racers g)
      by (by apply elem_of_scoringTeamRacers).
    destruct (finished (get s l)) eqn:Hf.
    + left. by apply elem_of_scoringFinishers.
    + right. left. by apply elem_of_scoringNonFinishers.
  - right. right. by apply elem_of_nonScoringRacers.
Qed.

Lemma individual_length s racers g c :
  length (fst (calculateIndividualResults s racers g c)) = length s.
Proof.
  destruct (individual_phases s racers g c) as (s1 & rc & Hrr & ->). cbn [fst].
  unfold forEach.
  rewrite (forEach_from_length (fun s => s)) by (intros; apply placeNone_length).
  rewrite (forEach_from_length (fun s => s)) by (intros; apply placeNone_length).
  rewrite (forEach_from_length fst) by (intros; apply placeFinisher_length).
  cbn [fst]. pose proof (calculateRunRankings_length s racers g) as H.
  by rewrite Hrr in H.
Qed.

(** The field size is on every racer of the gender when the function
    returns. *)
Lemma individual_fieldSize_attached s racers g c l :
  (l < length s)%nat -> l ∈ genderRacers s racers g ->
  fieldSizeOf (fst (calculateIndividualResults s racers g c)) l
  = Some (Z.of_nat (length (scoringTeamRacers s racers g))).
Proof.
  intros Hl Hg.
  destruct (individual_phases s racers g c) as (s1 & rc & Hrr & ->). cbn [fst].
  pose proof (calculateRunRankings_length s racers g) as H1. rewrite Hrr in H1.
  cbn [fst] in H1.
  set (fs := Z.of_nat (length (scoringTeamRacers s racers g))).
  set (s2 := fst (forEach (placeFinisher (scoringFinishers s racers g) fs rc) _ (s1, 1%Z))).
  assert (length s2 = length s) as H2.
  { unfold s2, forEach.
    rewrite (forEach_from_length fst) by (intros; apply placeFinisher_length).
    done. }
  set (s3 := forEach (placeNone fs rc) (scoringNonFinishers s racers g) s2).
  assert (length s3 = length s) as H3.
  { unfold s3, forEach.
    rewrite (forEach_from_length (fun s => s)) by (intros; apply placeNone_length).
    done. }
  change (hasFieldSize fs (get (forEach (placeNone fs rc) (nonScoringRacers s racers g) s3) l)).
  destruct (gender_racer_cases _ _ _ _ Hg) as [HF|[HN|HX]].
  - apply placeNones_keep_fieldSize, placeNones_keep_fieldSize.
    apply placeFinishers_fieldSize; [done|lia].
  - apply placeNones_keep_fieldSize. apply placeNones_fieldSize; [done|lia].
  - apply placeNones_fieldSize; [done|lia].
Qed.

(** A racer of the gender who did not finish, or whose team is not a
    scoring team, has place null and 0 points when the function returns. *)
Lemma individual_unplaced s racers g c l :
  (l < length s)%nat -> l ∈ genderRacers s racers g ->
  finished (get s l) = false \/ isScoringTeam (teamOf s l) = false ->
  unplaced (get (fst (calculateIndividualResults s racers g c)) l).
Proof.
  intros Hl Hg Hcase.
  destruct (individual_phases s racers g c) as (s1 & rc & Hrr & ->). cbn [fst].
  pose proof (calculateRunRankings_length s racers g) as H1. rewrite Hrr in H1.
  cbn [fst] in H1.
  set (fs := Z.of_nat (length (scoringTeamRacers s racers g))).
  set (s2 := fst (forEach (placeFinisher (scoringFinishers s racers g) fs rc) _ (s1, 1%Z))).
  assert (length s2 = length s) as H2.
  { unfold s2, forEach.
    rewrite (forEach_from_length fst) by (intros; apply placeFinisher_length).
    done. }
  set (s3 := forEach (placeNone fs rc) (scoringNonFinishers s racers g) s2).
  assert (length s3 = length s) as H3.
  { unfold s3, forEach.
    rewrite (forEach_from_length (fun s => s)) by (intros; apply placeNone_length).
    done. }
  destruct (gender_racer_cases _ _ _ _ Hg) as [HF|[HN|HX]].
  - apply elem_of_scoringFinishers in HF as [HF1 HF2].
    apply elem_of_scoringTeamRacers in HF1 as (_ & _ & HF1).
    destruct Hcase; congruence.
  - apply placeNones_keep_unplaced. apply placeNones_unplaced; [done|lia].
  - apply placeNones_unplaced; [done|lia].
Qed.

(** ** What [calculateIndividualResults] writes and returns *)

Lemma scoringTeamRacers_gender s racers g l :
  l ∈ scoringTeamRacers s racers g -> l ∈ genderRacers s racers g.
Proof. rewrite elem_of_scoringTeamRacers, elem_of_genderRacers. tauto. Qed.

(** Only racers of the gender are written. *)
Lemma individual_only_writes s racers g c :
  only_writes (genderRacers s racers g) s (fst (calculateIndividualResults s racers g c)).
Proof.
  destruct (individual_phases s racers g c) as (s1 & rc & Hrr & ->). cbn [fst].
  pose proof (calculateRunRankings_only_writes s racers g) as H1. rewrite Hrr in H1.
  cbn [fst] in H1.
  eapply only_writes_trans; [|eapply only_writes_mono; [|apply placeNones_only_writes]].
  eapply only_writes_trans; [|eapply only_writes_mono; [|apply placeNones_only_writes]].
  eapply only_writes_trans; [exact H1|].
  eapply only_writes_mono; [|apply placeFinishers_only_writes].
  - intros l [Hl _]%elem_of_scoringFinishers. by apply scoringTeamRacers_gender.
  - intros l [Hl _]%elem_of_scoringNonFinishers. by apply scoringTeamRacers_gender.
  - by intros l [Hl _]%elem_of_nonScoringRacers.
Qed.

Lemma individual_info s racers g c l :
  info (get (fst (calculateIndividualResults s racers g c)) l) = info (get s l).
Proof. by destruct (individual_only_writes s racers g c) as (_ & H & _). Qed.

Lemma classFilter_info s s' c L :
  (forall l, info (get s' l) = info (get s l)) -> classFilter s' c L = classFilter s c L.
Proof.
  intros Hi. unfold classFilter. destruct c as [[|c0 c]|]; [done| |done].
  apply list_filter_iff. intros l. by rewrite Hi.
Qed.

Lemma classFilter_perm s c L L' : L ≡ₚ L' -> classFilter s c L ≡ₚ classFilter s c L'.
Proof.
  intros HL. unfold classFilter. destruct c as [[|c0 c]|]; [done| |done].
  by rewrite HL.
Qed.

Lemma elem_of_classFilter s c L l : l ∈ classFilter s c L -> l ∈ L.
Proof.
  unfold classFilter. destruct c as [[|c0 c]|]; [done| |done].
  rewrite list_elem_of_filter. tauto.
Qed.

(** The three local arrays together are the racers of the gender. *)
Lemma local_arrays_perm s racers g :
  scoringFinishers s racers g ++ scoringNonFinishers s racers g
  ++ nonScoringRacers s racers g ≡ₚ genderRacers s racers g.
Proof.
  rewrite app_assoc.
  assert (scoringFinishers s racers g ++ scoringNonFinishers s racers g
          ≡ₚ scoringTeamRacers s racers g) as ->.
  { unfold scoringFinishers, scoringNonFinishers. rewrite sort_perm.
    rewrite (list_filter_iff (fun r => notFinished (get s r) = true)
               (fun r => ~ finished (get s r) = true)).
    - apply filter_app_complement.
    - intros l. rewrite notFinished_finished. by destruct (finished (get s l)). }
  assert (scoringTeamRacers s racers g
          = filter (fun r => isScoringTeam (teamOf s r) = true) (genderRacers s racers g))
    as ->.
  { unfold scoringTeamRacers, genderRacers. rewrite list_filter_filter.
    apply list_filter_iff. intros l. rewrite andb_true_iff. tauto. }
  unfold nonScoringRacers.
  rewrite (list_filter_iff (fun r => isScoringTeam (teamOf s r) = false)
             (fun r => ~ isScoringTeam (teamOf s r) = true)).
  - apply filter_app_complement.
  - intros l. by destruct (isScoringTeam (teamOf s l)).
Qed.

(** The racers returned are the racers of the gender that pass the class
    filter. *)
Lemma individual_results_perm s racers g c :
  snd (calculateIndividualResults s racers g c)
  ≡ₚ classFilter s c (genderRacers s racers g).
Proof.
  pose proof (individual_info s racers g c) as Hi.
  destruct (individual_phases s racers g c) as (s1 & rc & Hrr & Heq).
  cbv zeta in Heq. rewrite Heq in *. cbn [fst snd] in *.
  rewrite (classFilter_info s _ c _ Hi). apply classFilter_perm.
  rewrite sort_perm. apply local_arrays_perm.
Qed.

(** ** C1: tie handling in individual scoring *)

(** C1.  The finishers of the scoring teams, sorted ascending by total
    time, receive skip-rank places: a finisher whose time equals its
    predecessor's has the predecessor's place and points, every other
    finisher has its 0-based index + 1 as place, and the points of a place
    are fieldSize - place + 1.  Four finishers with 61.00, 61.00, 62.00
    and 63.00 seconds in a field of 4 get the places 1, 1, 3, 4 and the
    points 4, 4, 2, 1. *)
Theorem individual_tie_handling (s : store) (racers : list ref) (g : string)
    (c : option string) :
  NoDup racers ->
  Forall (fun l => (l < length s)%nat) racers ->
  finiteTimes s racers ->
  let s' := fst (calculateIndividualResults s racers g c) in
  let F := scoringFinishers s racers g in
  let fs := Z.of_nat (length (scoringTeamRacers s racers g)) in
  Sorted Z.le (map (msOf s) F)
  /\ (forall i l, F !! i = Some l ->
        let prev := F !!! (i - 1)%nat in
        (exists p, placeOf s' l = Place p /\ pointsOf s' l = Some (fs - p + 1)%Z)
        /\ ((0 < i)%nat -> msOf s l = msOf s prev ->
            placeOf s' l = placeOf s' prev /\ pointsOf s' l = pointsOf s' prev)
        /\ (i = 0%nat \/ msOf s l <> msOf s prev ->
            placeOf s' l = Place (Z.of_nat i + 1)))
  /\ (let '(e', res) := calculateIndividualResults tieExample [0; 1; 2; 3]%nat "M" None in
      map (msOf e') res = [61000; 61000; 62000; 63000]%Z
      /\ map (fieldSizeOf e') res = [Some 4; Some 4; Some 4; Some 4]%Z
      /\ map (placeOf e') res = [Place 1; Place 1; Place 3; Place 4]
      /\ map (pointsOf e') res = [Some 4; Some 4; Some 2; Some 1]%Z).
Proof.
  intros Hnd Hval Hfin s' F fs.
  pose proof (individual_tieRule s racers g c Hnd Hval) as Hrule.
  cbv zeta in Hrule. fold s' F fs in Hrule.
  split; [by apply scoringFinishers_sorted|]. split; [|by vm_compute].
  intros i l Hl prev.
  assert (Z.of_nat (length F) <= fs)%Z as HF
    by (pose proof (length_scoringFinishers s racers g); unfold F, fs; lia).
  pose proof (lookup_lt_Some _ _ _ Hl) as Hi.
  assert (l ∈ F) as HlF by (apply list_elem_of_lookup; eauto).
  pose proof (Hrule i l Hl) as Hr. unfold tieRule in Hr. fold prev in Hr.
  rewrite (finisher_time s racers g l Hfin HlF) in Hr.
  split; [|split].
  - destruct (tieRule_bounds s s' F fs Hrule i l Hl) as (p & Hp & Hb & Hq).
    exists p. split; [done|]. rewrite Hq. f_equal.
    apply getPointsForPlace_in_field. lia.
  - intros Hpos Heq.
    destruct (lookup_lt_is_Some_2 F (i - 1)) as [q Hq]; [lia|].
    assert (prev = q) as Hprev by (by apply lookup_total_Some).
    assert (q ∈ F) as HqF by (apply list_elem_of_lookup; eauto).
    rewrite Hprev in *.
    rewrite (finisher_time s racers g q Hfin HqF) in Hr. simpl in Hr.
    rewrite Heq, Z.eqb_refl, andb_true_r in Hr.
    apply Nat.ltb_lt in Hpos. by rewrite Hpos in Hr.
  - intros [->|Hne]; [by destruct Hr|].
    destruct (0 <? i)%nat eqn:Hpos; [|by destruct Hr].
    apply Nat.ltb_lt in Hpos.
    destruct (lookup_lt_is_Some_2 F (i - 1)) as [q Hq]; [lia|].
    assert (prev = q) as Hprev by (by apply lookup_total_Some).
    assert (q ∈ F) as HqF by (apply list_elem_of_lookup; eauto).
    rewrite Hprev in *.
    rewrite (finisher_time s racers g q Hfin HqF) in Hr. simpl in Hr.
    apply Z.eqb_neq in Hne. rewrite Hne in Hr. by destruct Hr.
Qed.

Lemma individual_tie_handling_witness :
  let s := tieExample in
  let racers := [0; 1; 2; 3]%nat in
  let s' := fst (calculateIndividualResults s racers "M" None) in
  let F := scoringFinishers s racers "M" in
  Sorted Z.le (map (msOf s) F)
  /\ F = [1; 3; 2; 0]%nat
  /\ map (placeOf s') F = [Place 1; Place 1; Place 3; Place 4].
Proof.
  intros s racers s' F.
  assert (NoDup racers) as Hnd by compute_done.
  assert (Forall (fun l => (l < length s)%nat) racers) as Hval
    by (repeat constructor).
  assert (finiteTimes s racers) as Hfin.
  { intros l Hl. right. unfold racers in Hl.
    repeat (apply elem_of_cons in Hl as [->|Hl]; [by eexists; vm_compute|]).
    by apply elem_of_nil in Hl. }
  destruct (individual_tie_handling s racers "M" None Hnd Hval Hfin) as (Hs & _ & _).
  split; [exact Hs|]. split; by vm_compute.
Defined.

(** The allow-list match: the normalised team is a substring of an
    allow-listed name in lower case, or the other way round. *)
Lemma isScoringTeam_spec t :
  isScoringTeam (Some t) = true
  <-> t <> ""
      /\ exists a, a ∈ SCORING_TEAMS
                   /\ (includes (trim (toLowerCase t)) (toLowerCase a) = true
                       \/ includes (toLowerCase a) (trim (toLowerCase t)) = true).
Proof.
  unfold isScoringTeam. destruct t as [|c0 t].
  - split; [done | by intros [? _]].
  - rewrite existsb_exists. split.
    + intros (a & Ha & Hm%orb_true_iff). split; [done|]. exists a.
      split; [by apply list_elem_of_In | done].
    + intros (_ & a & Ha & Hm). exists a.
      split; [by apply list_elem_of_In | by apply orb_true_iff].
Qed.

(** ** C2: the field size of individual scoring *)

(** C2.  The field size attached by individual scoring is the number of
    racers of the gender whose team matches the allow-list, not the number
    of racers of the gender.  The racers of the gender from other teams are
    returned too, with place null, 0 points and the same field size.  With
    ten boys, six of them from allow-listed teams, the field size is 6 and
    ten racers are returned. *)
Theorem individual_field_size (s : store) (racers : list ref) (g : string)
    (c : option string) :
  Forall (fun l => (l < length s)%nat) racers ->
  let '(s', res) := calculateIndividualResults s racers g c in
  let fs := Z.of_nat (length (scoringTeamRacers s racers g)) in
  res ≡ₚ classFilter s c (genderRacers s racers g)
  /\ (forall l, l ∈ res -> fieldSizeOf s' l = Some fs)
  /\ (forall l, l ∈ res -> isScoringTeam (teamOf s l) = false ->
                 placeOf s' l = Null /\ pointsOf s' l = Some 0%Z)
  /\ (forall l, l ∈ scoringTeamRacers s racers g
                 <-> l ∈ racers /\ genderOf s l = g
                     /\ exists t a,
                          teamOf s l = Some t /\ t <> "" /\ a ∈ SCORING_TEAMS
                          /\ (includes (trim (toLowerCase t)) (toLowerCase a) = true
                              \/ includes (toLowerCase a) (trim (toLowerCase t)) = true))
  /\ (let '(e', eres) :=
         calculateIndividualResults fieldExample (seq 0 10) "M" None in
       length (genderRacers fieldExample (seq 0 10) "M") = 10%nat
       /\ length eres = 10%nat
       /\ Forall (fun l => fieldSizeOf e' l = Some 6%Z) eres
       /\ map (fun l => (teamOf e' l, placeOf e' l, pointsOf e' l))
               (filter (fun l => isScoringTeam (teamOf e' l) = false) eres)
          = [(Some "Alexandria", Null, Some 0%Z); (Some "Bemidji", Null, Some 0%Z);
             (Some "Moorhead", Null, Some 0%Z); (Some "Willmar", Null, Some 0%Z)]).
Proof.
  intros Hval.
  pose proof (individual_results_perm s racers g c) as Hperm.
  pose proof (fun l => individual_fieldSize_attached s racers g c l) as Hfs.
  pose proof (fun l => individual_unplaced s racers g c l) as Hun.
  destruct (calculateIndividualResults s racers g c) as [s' res].
  cbn [fst snd] in *.
  assert (forall l, l ∈ res -> (l < length s)%nat /\ l ∈ genderRacers s racers g) as Hres.
  { intros l Hl. rewrite Hperm in Hl. apply elem_of_classFilter in Hl.
    split; [|done]. apply elem_of_genderRacers in Hl as [Hl _].
    rewrite Forall_forall in Hval. by apply Hval. }
  split; [done|]. split; [|split; [|split]].
  - intros l Hl. destruct (Hres l Hl). by apply Hfs.
  - intros l Hl Hsc. destruct (Hres l Hl). apply Hun; auto.
  - intros l. rewrite elem_of_scoringTeamRacers.
    destruct (teamOf s l) as [t|] eqn:Ht.
    + rewrite isScoringTeam_spec. split.
      * intros (? & ? & ? & a & ? & ?). repeat split; [done..|]. by exists t, a.
      * intros (? & ? & t' & a & [= <-] & ? & ? & ?). repeat split; [done..|].
        by exists a.
    + split; [by intros (_ & _ & ?) | by intros (_ & _ & t & a & ? & _)].
  - vm_compute. repeat split; repeat constructor.
Qed.

Lemma individual_field_size_witness :
  let '(s', res) := calculateIndividualResults fieldExample (seq 0 10) "M" (Some "Varsity") in
  res ≡ₚ seq 0 10
  /\ (forall l, l ∈ res -> fieldSizeOf s' l = Some 6%Z).
Proof.
  assert (Forall (fun l => (l < length fieldExample)%nat) (seq 0 10)) as Hval
    by (by vm_compute; repeat constructor).
  pose proof (individual_field_size fieldExample (seq 0 10) "M" (Some "Varsity") Hval) as H.
  destruct (calculateIndividualResults fieldExample (seq 0 10) "M" (Some "Varsity"))
    as [s' res].
  destruct H as (Hperm & Hfs & _). split; [exact Hperm | exact Hfs].
Defined.

(** ** C6: the order of the returned list *)

Lemma StronglySorted_lookup {A} (R : relation A) (l : list A) :
  (forall i j x y, (i < j)%nat -> l !! i = Some x -> l !! j = Some y -> R x y) ->
  StronglySorted R l.
Proof.
  induction l as [|a l IH]; intros H; constructor.
  - apply IH. intros i j x y Hij Hx Hy. apply (H (S i) (S j)); [lia|done|done].
  - apply Forall_forall. intros y Hy.
    apply list_elem_of_lookup in Hy as [j Hj]. apply (H 0%nat (S j)); [lia|done|done].
Qed.

Lemma StronglySorted_all {A} (R : relation A) (l : list A) :
  (forall x y, x ∈ l -> y ∈ l -> R x y) -> StronglySorted R l.
Proof.
  intros H. apply StronglySorted_lookup. intros i j x y _ Hx Hy.
  apply H; apply list_elem_of_lookup; eauto.
Qed.

(** The list that the last phase sorts by place is in order already. *)
Lemma results_inOrder s racers g c :
  NoDup racers -> Forall (fun l => (l < length s)%nat) racers ->
  let s' := fst (calculateIndividualResults s racers g c) in
  inOrder (byPlace s')
    (scoringFinishers s racers g ++ scoringNonFinishers s racers g
     ++ nonScoringRacers s racers g).
Proof.
  intros Hnd Hval s'.
  pose proof (individual_tieRule s racers g c Hnd Hval) as Hrule.
  cbv zeta in Hrule. fold s' in Hrule.
  set (F := scoringFinishers s racers g) in *.
  set (fs := Z.of_nat (length (scoringTeamRacers s racers g))) in *.
  assert (forall l, l ∈ scoringNonFinishers s racers g ++ nonScoringRacers s racers g ->
                    placeOf s' l = Null) as Hnull.
  { intros l Hl. apply elem_of_app in Hl as [Hl|Hl].
    - apply elem_of_scoringNonFinishers in Hl as [Hl Hf].
      pose proof (scoringTeamRacers_gender _ _ _ _ Hl) as Hg.
      apply elem_of_scoringTeamRacers in Hl as [Hl _].
      rewrite Forall_forall in Hval.
      by destruct (individual_unplaced s racers g c l (Hval _ Hl) Hg (or_introl Hf)).
    - apply elem_of_nonScoringRacers in Hl as [Hg Hsc].
      pose proof Hg as [Hl _]%elem_of_genderRacers.
      rewrite Forall_forall in Hval.
      by destruct (individual_unplaced s racers g c l (Hval _ Hl) Hg (or_intror Hsc)). }
  apply StronglySorted_Sorted. apply StronglySorted_app_2.
  - intros x y Hx Hy. apply list_elem_of_lookup in Hx as [i Hi].
    destruct (tieRule_bounds s s' F fs Hrule i x Hi) as (p & Hp & _).
    unfold gt, byPlace. fold (placeOf s' x). fold (placeOf s' y).
    by rewrite Hp, (Hnull y Hy).
  - apply StronglySorted_lookup. intros i j x y Hij Hx Hy.
    destruct (tieRule_bounds s s' F fs Hrule i x Hx) as (p & Hp & _).
    destruct (tieRule_bounds s s' F fs Hrule j y Hy) as (q & Hq & _).
    assert (p <= q)%Z by (eapply (tieRule_mono s s' F fs Hrule i j); eauto; lia).
    unfold gt, byPlace. fold (placeOf s' x). fold (placeOf s' y).
    rewrite Hp, Hq. simpl. apply Z.ltb_ge. lia.
  - apply StronglySorted_all. intros x y Hx Hy.
    unfold gt, byPlace. fold (placeOf s' x). fold (placeOf s' y).
    by rewrite (Hnull x Hx), (Hnull y Hy).
Qed.

(** C6.  For distinct racer objects whose total times are null or
    integers, the list returned by individual scoring is: the finishers
    with a place, in ascending place order; then the non-finishers of the
    allow-listed teams; then the racers of the other teams.  Each group is
    in the order it had before: the finishers ascending by time, the two
    other groups as in the input, and the class filter removes racers
    without moving any.  (With a total time that is NaN the comparison of
    times is not an order, and the order of the finishers is left to the
    engine's sort.) *)
Theorem individual_result_order (s : store) (racers : list ref) (g : string)
    (c : option string) :
  NoDup racers ->
  Forall (fun l => (l < length s)%nat) racers ->
  finiteTimes s racers ->
  let '(s', res) := calculateIndividualResults s racers g c in
  let F := scoringFinishers s racers g in
  let N := scoringNonFinishers s racers g in
  let X := nonScoringRacers s racers g in
  res = classFilter s c (F ++ N ++ X)
  /\ Sorted Z.le (map (msOf s) F)
  /\ (forall i j l l', (i <= j)%nat -> F !! i = Some l -> F !! j = Some l' ->
        exists p p', placeOf s' l = Place p /\ placeOf s' l' = Place p' /\ (p <= p')%Z)
  /\ (forall l, l ∈ N ++ X -> placeOf s' l = Null).
Proof.
  intros Hnd Hval Hfin.
  pose proof (scoringFinishers_sorted s racers g Hfin) as Hsorted.
  pose proof (results_inOrder s racers g c Hnd Hval) as Hord.
  pose proof (individual_tieRule s racers g c Hnd Hval) as Hrule.
  pose proof (individual_info s racers g c) as Hi.
  pose proof (fun l => individual_unplaced s racers g c l) as Hun.
  destruct (individual_phases s racers g c) as (s1 & rc & Hrr & Heq).
  cbv zeta in Heq, Hord, Hrule. rewrite Heq in *. cbn [fst snd] in *.
  match goal with
  | H : inOrder (byPlace ?s4) _ |- _ => set (s' := s4) in *
  end.
  split; [|split; [exact Hsorted|split]].
  - rewrite (sort_inOrder_id _ _ Hord). by apply classFilter_info.
  - intros i j l l' Hij Hl Hl'.
    destruct (tieRule_bounds s s' _ _ Hrule i l Hl) as (p & Hp & _).
    destruct (tieRule_bounds s s' _ _ Hrule j l' Hl') as (q & Hq & _).
    exists p, q. split; [done|]. split; [done|].
    eapply (tieRule_mono s s' _ _ Hrule i j); eauto.
  - intros l Hl. rewrite Forall_forall in Hval.
    apply elem_of_app in Hl as [Hl|Hl].
    + apply elem_of_scoringNonFinishers in Hl as [Hl Hf].
      pose proof (scoringTeamRacers_gender _ _ _ _ Hl) as Hg.
      apply elem_of_scoringTeamRacers in Hl as [Hl _].
      by destruct (Hun l (Hval _ Hl) Hg (or_introl Hf)).
    + apply elem_of_nonScoringRacers in Hl as [Hg Hsc].
      pose proof Hg as [Hl _]%elem_of_genderRacers.
      by destruct (Hun l (Hval _ Hl) Hg (or_intror Hsc)).
Qed.

Lemma individual_result_order_witness :
  let '(s', res) := calculateIndividualResults fieldExample (seq 0 10) "M" None in
  res = [0; 8; 2; 6; 9; 4; 1; 3; 5; 7]%nat
  /\ map (placeOf s') res
     = [Place 1; Place 1; Place 3; Place 4; Place 5; Null; Null; Null; Null; Null].
Proof.
  assert (NoDup (seq 0 10)) as Hnd by apply NoDup_seq.
  assert (Forall (fun l => (l < length fieldExample)%nat) (seq 0 10)) as Hval
    by (by vm_compute; repeat constructor).
  assert (finiteTimes fieldExample (seq 0 10)) as Hfin.
  { intros l Hl. cbn [seq] in Hl.
    repeat (apply elem_of_cons in Hl as [->|Hl];
            [first [left; by vm_compute | right; by eexists; vm_compute]|]).
    by apply elem_of_nil in Hl. }
  pose proof (individual_result_order fieldExample (seq 0 10) "M" None Hnd Hval Hfin) as H.
  destruct (calculateIndividualResults fieldExample (seq 0 10) "M" None) as [s' res] eqn:E.
  destruct H as (Hres & _ & _ & _). split; [exact Hres|].
  apply (f_equal fst) in E as Es. apply (f_equal snd) in E. cbn [fst snd] in *.
  subst s' res. by vm_compute.
Defined.

(** ** The time normaliser *)

Ltac in_list := repeat first [apply list_elem_of_here | apply list_elem_of_further].

Lemma checkStatus_not_OK tok code :
  checkStatus tok code <> OK <-> tok ∈ markers \/ code = "2" \/ code = "3".
Proof.
  unfold checkStatus, markers.
  destruct (String.eqb_spec tok "DNF") as [->|H1]; simpl.
  { split; [intros _; left; in_list | done]. }
  destruct (String.eqb_spec tok "DNS") as [->|H2]; simpl.
  { split; [intros _; left; in_list | done]. }
  destruct (String.eqb_spec tok "DSQ") as [->|H3]; simpl.
  { split; [intros _; left; in_list | done]. }
  destruct (String.eqb_spec tok "DQ") as [->|H4]; simpl.
  { split; [intros _; left; in_list | done]. }
  destruct (String.eqb_spec code "2") as [->|H5].
  { split; [intros _; right; by left | done]. }
  destruct (String.eqb_spec code "3") as [->|H6].
  { split; [intros _; right; by right | done]. }
  split; [done|]. intros [H|[H|H]]; [|done|done].
  repeat (apply elem_of_cons in H as [H|H]; [done|]). by apply elem_of_nil in H.
Qed.

Lemma note_status_flags a st :
  (a_dnf (note_status a st) || a_dsq (note_status a st))
  = (a_dnf a || a_dsq a) || negb (Status_eqb st OK).
Proof. destruct st, a as [r1 r2 [] [] ?]; reflexivity. Qed.

Lemma step_dual_flags a t :
  (a_dnf (step_dual a t) || a_dsq (step_dual a t))
  = (a_dnf a || a_dsq a) || negb (Status_eqb (checkStatus (time t) (XMLParser.status t)) OK).
Proof.
  unfold step_dual. rewrite <- note_status_flags.
  by destruct (float_is _ 0); [|destruct (float_is _ 1)].
Qed.

Lemma step_single_flags a t :
  (a_dnf (step_single a t) || a_dsq (step_single a t))
  = (a_dnf a || a_dsq a) || negb (Status_eqb (checkStatus (time t) (XMLParser.status t)) OK).
Proof.
  unfold step_single. rewrite <- note_status_flags.
  by destruct (runIndex t =? 0)%Z; [|destruct (runIndex t =? 1)%Z].
Qed.

Lemma foldl_flags (step : acc -> timeEntry -> acc) times a :
  (forall a t, (a_dnf (step a t) || a_dsq (step a t))
               = (a_dnf a || a_dsq a)
                 || negb (Status_eqb (checkStatus (time t) (XMLParser.status t)) OK)) ->
  (a_dnf (foldl step a times) || a_dsq (foldl step a times))
  = (a_dnf a || a_dsq a)
    || existsb (fun t => negb (Status_eqb (checkStatus (time t) (XMLParser.status t)) OK)) times.
Proof.
  intros Hstep. revert a. induction times as [|t times IH]; intros a; simpl.
  - by rewrite orb_false_r.
  - by rewrite IH, Hstep, orb_assoc.
Qed.

(** A racer is dnf or dsq exactly when one of its time entries has a
    marker or a status code 2 or 3, and then the total time is null. *)
Lemma processRacerTimes_flags times raceType :
  let p := processRacerTimes times raceType in
  (p_dnf p = true \/ p_dsq p = true
   <-> exists t, t ∈ times /\ (time t ∈ markers \/ XMLParser.status t = "2" \/ XMLParser.status t = "3"))
  /\ (p_dnf p = true \/ p_dsq p = true -> p_totalTime p = None).
Proof.
  intros p. split.
  - assert ((p_dnf p || p_dsq p)
            = existsb (fun t => negb (Status_eqb (checkStatus (time t) (XMLParser.status t)) OK))
                      times) as Hfl.
    { unfold p, processRacerTimes. simpl.
      destruct (raceType =? 1)%Z.
      - by rewrite (foldl_flags step_dual times acc0 step_dual_flags).
      - by rewrite (foldl_flags step_single times acc0 step_single_flags). }
    rewrite <- orb_true_iff, Hfl, existsb_exists.
    split.
    + intros (t & Ht & Hst). exists t. split; [by apply list_elem_of_In|].
      apply checkStatus_not_OK. intros Heq. by rewrite Heq in Hst.
    + intros (t & Ht & Hst). exists t. split; [by apply list_elem_of_In|].
      apply checkStatus_not_OK in Hst. by destruct (checkStatus _ _).
  - unfold p, processRacerTimes. simpl.
    intros [->| ->]; [done|]. by rewrite andb_false_r.
Qed.

Lemma processRacerTimes_no_run1 times raceType :
  p_run1 (processRacerTimes times raceType) = None ->
  p_totalTime (processRacerTimes times raceType) = None.
Proof.
  unfold processRacerTimes. simpl. intros ->. by destruct (_ && _).
Qed.

Lemma parseTime_null tok : parseTime tok = None <-> tok = "" \/ tok ∈ markers.
Proof.
  unfold parseTime, markers.
  destruct (String.eqb_spec tok "") as [->|H0]; simpl; [tauto|].
  destruct (String.eqb_spec tok "DNF") as [->|H1]; simpl.
  { split; [intros _; right; in_list | done]. }
  destruct (String.eqb_spec tok "DNS") as [->|H2]; simpl.
  { split; [intros _; right; in_list | done]. }
  destruct (String.eqb_spec tok "DSQ") as [->|H3]; simpl.
  { split; [intros _; right; in_list | done]. }
  destruct (String.eqb_spec tok "DQ") as [->|H4]; simpl.
  { split; [intros _; right; in_list | done]. }
  split; [done|]. intros [H|H]; [done|].
  repeat (apply elem_of_cons in H as [H|H]; [done|]). by apply elem_of_nil in H.
Qed.

(** ** C4: racers that are dnf or dsq *)

(** C4.  A racer whose time entries hold a DNF, DNS, DSQ or DQ token or a
    status code 2 or 3 is dnf or dsq, and its total time is null whatever
    the run times parsed to.  Individual scoring gives a racer that is
    dnf or dsq no place and no points: a racer of the scored gender ends
    with place null and 0 points, a racer of the other gender is not
    written at all. *)
Theorem dnf_dsq_never_placed (times : list timeEntry) (raceType : Z)
    (s : store) (racers : list ref) (g : string) (c : option string) (l : ref) :
  let p := processRacerTimes times raceType in
  (p_dnf p = true \/ p_dsq p = true
   <-> exists t, t ∈ times
                 /\ (time t ∈ markers \/ XMLParser.status t = "2"
                      \/ XMLParser.status t = "3"))
  /\ (p_dnf p = true \/ p_dsq p = true -> p_totalTime p = None)
  /\ ((l < length s)%nat -> l ∈ racers ->
      dnf (info (get s l)) = true \/ dsq (info (get s l)) = true ->
      let s' := fst (calculateIndividualResults s racers g c) in
      (genderOf s l = g -> placeOf s' l = Null /\ pointsOf s' l = Some 0%Z)
      /\ (genderOf s l <> g -> get s' l = get s l))
  /\ (let e' := fst (calculateIndividualResults dnfExample [0; 1]%nat "M" None) in
      map (fun r => (run1 (info r), run2 (info r), totalTime (info r), dnf (info r)))
          dnfExample
      = [(Some (Fin 30000), Some (Fin 31000), None, true);
         (Some (Fin 70000), None, Some (Fin 70000), false)]
      /\ map (fun r => (place (derived r), points (derived r))) e'
         = [(Null, Some 0%Z); (Place 1, Some 2%Z)]).
Proof.
  intros p. destruct (processRacerTimes_flags times raceType) as [Hfl Htot].
  split; [exact Hfl|]. split; [exact Htot|]. split; [|by vm_compute].
  intros Hl Hin Hd s'. split.
  - intros Hg. apply (individual_unplaced s racers g c l Hl).
    + by apply elem_of_genderRacers.
    + left. unfold finished. destruct Hd as [-> | ->]; [|by rewrite andb_false_r].
      by rewrite andb_false_r.
  - intros Hg. apply (only_writes_get _ _ _ _ (individual_only_writes s racers g c)).
    rewrite elem_of_genderRacers. tauto.
Qed.

Lemma dnf_dsq_never_placed_witness :
  let s' := fst (calculateIndividualResults dnfExample [0; 1]%nat "M" None) in
  dnf (info (get dnfExample 0%nat)) = true
  /\ totalTime (info (get dnfExample 0%nat)) = None
  /\ placeOf s' 0%nat = Null /\ pointsOf s' 0%nat = Some 0%Z.
Proof.
  intros s'.
  destruct (dnf_dsq_never_placed
              [mkTime "" 0 "30.00" "1"; mkTime "" 1 "31.00" "2"] 0
              dnfExample [0; 1]%nat "M" None 0%nat) as (_ & Htot & Hsc & _).
  assert (dnf (info (get dnfExample 0%nat)) = true) as Hd by (by vm_compute).
  split; [exact Hd|]. split.
  - apply Htot. left. by vm_compute.
  - apply Hsc.
    + vm_compute. lia.
    + in_list.
    + left. exact Hd.
    + by vm_compute.
Defined.

(** ** C5: missing and unparseable time tokens *)

(** C5 does not hold as stated.  A token outside the time grammar is not
    normalised to null: with four parts it is the time 0, and the racer
    wins the race; a word is NaN, and the racer is placed.  A racer whose
    second run has no token still finishes, on the first run alone. *)
Lemma unparseable_time_is_placed :
  (spec_timeGrammar "1:2:3:4" = false
   /\ parseTime "1:2:3:4" = Some (Fin 0)
   /\ let s' := fst (calculateIndividualResults fourPartExample [0; 1]%nat "M" None) in
      timeOf s' 0%nat = Some (Fin 0)
      /\ placeOf s' 0%nat = Place 1 /\ pointsOf s' 0%nat = Some 2%Z)
  /\ (spec_timeGrammar "abc" = false
      /\ parseTime "abc" = Some NaN
      /\ let s' := fst (calculateIndividualResults wordExample [0]%nat "M" None) in
         placeOf s' 0%nat = Place 1 /\ pointsOf s' 0%nat = Some 1%Z)
  /\ (parseTime "" = None
      /\ let s' := fst (calculateIndividualResults missingRunExample [0; 1]%nat "M" None) in
         run2 (info (get s' 0%nat)) = None
         /\ timeOf s' 0%nat = Some (Fin 50000)
         /\ placeOf s' 0%nat = Place 2 /\ pointsOf s' 0%nat = Some 1%Z).
Proof. by vm_compute. Qed.

(** A racer without a run-2 time, not flagged, has its run-1 time as
    total time. *)
Lemma processRacerTimes_no_run2 times raceType :
  let p := processRacerTimes times raceType in
  p_run2 p = None -> p_dnf p = false -> p_dsq p = false -> p_totalTime p = p_run1 p.
Proof.
  unfold processRacerTimes. cbn [p_run1 p_run2 p_dnf p_dsq p_totalTime].
  intros -> -> ->. cbn [negb andb]. by destruct (a_run1 _).
Qed.

(** The second of two time entries of a race on one course has no time
    token. *)
Lemma processRacerTimes_missing_run2 course1 course2 token1 code1 code2 raceType :
  raceType <> 1%Z ->
  checkStatus token1 code1 = OK -> checkStatus "" code2 = OK ->
  let p := processRacerTimes [mkTime course1 0 token1 code1; mkTime course2 1 "" code2]
                             raceType in
  p_run2 p = None /\ p_totalTime p = parseTime token1.
Proof.
  intros Hrt H1 H2. apply Z.eqb_neq in Hrt.
  unfold processRacerTimes. rewrite Hrt.
  cbn [foldl step_single runIndex time XMLParser.status Z.eqb].
  rewrite H1, H2.
  cbn [note_status acc0 set_run1 set_run2 a_run1 a_run2 a_dnf a_dsq a_status
       p_run2 p_totalTime negb andb].
  split; [reflexivity|]. rewrite (proj2 (parseTime_null "")) by (by left).
  by destruct (parseTime token1).
Qed.

(** A finisher of a scoring team is placed and has points. *)
Lemma individual_finisher_placed s racers g c l :
  NoDup racers -> Forall (fun l => (l < length s)%nat) racers ->
  l ∈ racers -> genderOf s l = g -> isScoringTeam (teamOf s l) = true ->
  finished (get s l) = true ->
  let s' := fst (calculateIndividualResults s racers g c) in
  let fs := Z.of_nat (length (scoringTeamRacers s racers g)) in
  exists p, placeOf s' l = Place p /\ (1 <= p <= fs)%Z
            /\ pointsOf s' l = Some (fs - p + 1)%Z.
Proof.
  intros Hnd Hval Hin Hg Hteam Hfin s' fs.
  assert (l ∈ scoringFinishers s racers g) as HF.
  { apply elem_of_scoringFinishers. split; [|done].
    by apply elem_of_scoringTeamRacers. }
  apply list_elem_of_lookup in HF as [i Hi].
  destruct (tieRule_bounds _ _ _ _ (individual_tieRule s racers g c Hnd Hval) i l Hi)
    as (p & Hplace & Hp & Hpts).
  pose proof (length_scoringFinishers s racers g) as Hlen.
  apply lookup_lt_Some in Hi.
  exists p. fold s' in Hplace, Hpts. fold fs in Hpts.
  split; [done|]. split; [unfold fs; lia|].
  rewrite Hpts. f_equal. apply getPointsForPlace_in_field. unfold fs. lia.
Qed.

(** C5, amended.  [parseTime] yields null for a missing (empty) token and
    for the markers DNF, DNS, DSQ and DQ, and for no other token.  A racer
    without a first run time has a null total time.  A racer of the scored
    gender whose total time is null is a non-finisher: place null and 0
    points.  A racer whose run-2 token is missing still finishes on run 1
    alone: without a run-2 time and without a flag the total time is the
    run-1 time, as it is for two time entries on one course of which the
    second has no token; and a racer of the scored gender and of a scoring
    team whose total time is not null and who is not flagged has a place
    within the field and the points of that place, at least 1.  All
    functions are total: nothing is thrown. *)
Theorem null_time_not_placed (token : string) (times : list timeEntry) (raceType : Z)
    (s : store) (racers : list ref) (g : string) (c : option string) (l : ref) :
  (parseTime token = None <-> token = "" \/ token ∈ markers)
  /\ (p_run1 (processRacerTimes times raceType) = None ->
      p_totalTime (processRacerTimes times raceType) = None)
  /\ ((l < length s)%nat -> l ∈ racers -> genderOf s l = g -> timeOf s l = None ->
      let s' := fst (calculateIndividualResults s racers g c) in
      placeOf s' l = Null /\ pointsOf s' l = Some 0%Z)
  /\ (let p := processRacerTimes times raceType in
      p_run2 p = None -> p_dnf p = false -> p_dsq p = false ->
      p_totalTime p = p_run1 p)
  /\ (forall course1 course2 token1 code1 code2,
        raceType <> 1%Z ->
        checkStatus token1 code1 = OK -> checkStatus "" code2 = OK ->
        let p := processRacerTimes
                   [mkTime course1 0 token1 code1; mkTime course2 1 "" code2] raceType in
        p_run2 p = None /\ p_totalTime p = parseTime token1)
  /\ (NoDup racers -> Forall (fun l => (l < length s)%nat) racers ->
      l ∈ racers -> genderOf s l = g -> isScoringTeam (teamOf s l) = true ->
      finished (get s l) = true ->
      let s' := fst (calculateIndividualResults s racers g c) in
      let fs := Z.of_nat (length (scoringTeamRacers s racers g)) in
      exists p, placeOf s' l = Place p /\ (1 <= p <= fs)%Z
                /\ pointsOf s' l = Some (fs - p + 1)%Z /\ (1 <= fs - p + 1)%Z).
Proof.
  split; [apply parseTime_null|]. split; [apply processRacerTimes_no_run1|].
  split; [|split; [apply processRacerTimes_no_run2|split]].
  - intros Hl Hin Hg Ht s'.
    apply (individual_unplaced s racers g c l Hl).
    + by apply elem_of_genderRacers.
    + left. unfold finished. unfold timeOf in Ht. by rewrite Ht.
  - intros course1 course2 token1 code1 code2.
    apply processRacerTimes_missing_run2.
  - intros Hnd Hval Hin Hg Hteam Hfin s' fs.
    destruct (individual_finisher_placed s racers g c l Hnd Hval Hin Hg Hteam Hfin)
      as (p & Hplace & Hp & Hpts).
    exists p. split; [done|]. split; [done|]. split; [done|]. fold fs in Hp. lia.
Qed.

Lemma null_time_not_placed_witness :
  let s' := fst (calculateIndividualResults noTimeExample [0; 1]%nat "M" None) in
  let p := processRacerTimes [mkTime "" 0 "50.00" "1"; mkTime "" 1 "" "1"] 0 in
  let s2 := fst (calculateIndividualResults missingRunExample [0; 1]%nat "M" None) in
  (parseTime "" = None
   /\ timeOf noTimeExample 0%nat = None
   /\ placeOf s' 0%nat = Null /\ pointsOf s' 0%nat = Some 0%Z)
  /\ (p_run2 p = None /\ p_totalTime p = Some (Fin 50000))
  /\ (timeOf missingRunExample 0%nat = Some (Fin 50000)
      /\ exists q, placeOf s2 0%nat = Place q /\ (1 <= q <= 2)%Z
                   /\ pointsOf s2 0%nat = Some (2 - q + 1)%Z).
Proof.
  intros s' p s2.
  destruct (null_time_not_placed "" [mkTime "" 0 "" "1"] 0
              noTimeExample [0; 1]%nat "M" None 0%nat) as (Hnull & Htot & Hsc & _).
  destruct (null_time_not_placed "" [] 0
              missingRunExample [0; 1]%nat "M" None 0%nat)
    as (_ & _ & _ & _ & Hmiss & Hplaced).
  split; [|split].
  - split; [apply Hnull; by left|]. split.
    + apply Htot. by vm_compute.
    + apply Hsc.
      * vm_compute. lia.
      * in_list.
      * by vm_compute.
      * by vm_compute.
  - destruct (Hmiss "" "" "50.00" "1" "1") as [H2 Ht]; [done| by vm_compute..|].
    fold p in H2, Ht. split; [exact H2|]. rewrite Ht. by vm_compute.
  - split; [by vm_compute|].
    assert (Z.of_nat (length (scoringTeamRacers missingRunExample [0; 1]%nat "M")) = 2%Z)
      as Hfs by (by vm_compute).
    destruct Hplaced as (q & Hq & Hb & Hpts & _).
    + by apply NoDup_cons_2; [intros ?%list_elem_of_singleton | apply NoDup_singleton].
    + repeat constructor.
    + in_list.
    + by vm_compute.
    + by vm_compute.
    + by vm_compute.
    + rewrite Hfs in Hb, Hpts. exists q.
      split; [exact Hq|]. split; [exact Hb | exact Hpts].
Defined.

(** ** C9: a team of white space *)

Lemma lower_char_white c : is_white c = true -> lower_char c = c.
Proof. by destruct c as [[] [] [] [] [] [] [] []]. Qed.

Lemma toLowerCase_white t : onlyWhite t = true -> toLowerCase t = t.
Proof.
  induction t as [|c t IH]; [done|]. simpl.
  intros [Hc Ht]%andb_true_iff. unfold toLowerCase in *. simpl.
  by rewrite (lower_char_white c Hc), IH.
Qed.

Lemma trim_white t : onlyWhite t = true -> trim t = "".
Proof.
  unfold trim. induction t as [|c t IH]; [done|]. simpl.
  intros [-> Ht]%andb_true_iff. by apply IH.
Qed.

Lemma includes_empty t : includes t "" = true.
Proof. by destruct t. Qed.

(** C9.  For a team that is not empty and consists of white space only
    [isScoringTeam] is true, so that a racer with such a team is in the
    pool that gives the field size and earns individual points; only a
    null, undefined or empty team is rejected before the comparison. *)
Theorem white_team_is_scoring (t : string) :
  t <> "" -> onlyWhite t = true ->
  isScoringTeam (Some t) = true
  /\ isScoringTeam None = false
  /\ isScoringTeam (Some "") = false
  /\ (forall s racers g l,
        l ∈ racers -> genderOf s l = g -> teamOf s l = Some t ->
        l ∈ scoringTeamRacers s racers g)
  /\ (let s' := fst (calculateIndividualResults blankTeamExample [0; 1]%nat "M" None) in
      teamOf s' 0%nat = Some "  "
      /\ fieldSizeOf s' 0%nat = Some 1%Z
      /\ placeOf s' 0%nat = Place 1 /\ pointsOf s' 0%nat = Some 1%Z).
Proof.
  intros Hne Hw.
  assert (isScoringTeam (Some t) = true) as Hsc.
  { unfold isScoringTeam. destruct t as [|c t]; [done|].
    rewrite (toLowerCase_white _ Hw), (trim_white _ Hw).
    unfold SCORING_TEAMS. cbn [existsb]. by rewrite includes_empty, orb_true_r. }
  split; [exact Hsc|]. split; [done|]. split; [done|]. split; [|by vm_compute].
  intros s racers g l Hl Hg Ht. apply elem_of_scoringTeamRacers.
  by rewrite Ht.
Qed.

Lemma white_team_is_scoring_witness :
  isScoringTeam (Some "  ") = true
  /\ 0%nat ∈ scoringTeamRacers blankTeamExample [0; 1]%nat "M".
Proof.
  assert ("  " <> "") as Hne by discriminate.
  assert (onlyWhite "  " = true) as Hw by reflexivity.
  destruct (white_team_is_scoring "  " Hne Hw) as (Hsc & _ & _ & Hpool & _).
  split; [exact Hsc|].
  apply Hpool; [in_list | by vm_compute | by vm_compute].
Defined.

(** ** What [calculateTeamStandings] writes *)

Lemma elem_of_replace {V} (k : string) (v : V) (o : object V) (e : string * V) :
  e ∈ JS.replace k v o -> e ∈ o \/ snd e = v.
Proof.
  induction o as [|[k' v'] o IH]; simpl; [by left|].
  destruct (String.eqb k k').
  - intros [->|H]%elem_of_cons; [by right|]. left. by right.
  - intros [->|H]%elem_of_cons; [left; by left|].
    destruct (IH H) as [?|?]; [left; by right | by right].
Qed.

Lemma own_elem_of {V} (k : string) (v : V) (o : object V) :
  own k o = Some v -> exists k', (k', v) ∈ o.
Proof.
  induction o as [|[k' v'] o IH]; simpl; [done|].
  destruct (String.eqb k k').
  - intros [= ->]. exists k'. by left.
  - intros H. destruct (IH H) as [k'' ?]. exists k''. by right.
Qed.

Lemma elem_of_upsert {V} (k : string) (init : V) (f : V -> V) (o o' : object V)
    (e : string * V) :
  upsert k init f o = Some o' -> e ∈ o' ->
  e ∈ o \/ snd e = f init \/ exists k' v, (k', v) ∈ o /\ snd e = f v.
Proof.
  unfold upsert. destruct (own k o) as [v|] eqn:Hown.
  - intros [= <-] [H|H]%elem_of_replace; [by left|].
    right. right. destruct (own_elem_of _ _ _ Hown) as [k' ?]. by exists k', v.
  - destruct (inherited k); [done|]. intros [= <-] [H|H]%elem_of_app; [by left|].
    apply list_elem_of_singleton in H. subst e. right. by left.
Qed.

Lemma entries_perm {V} (o : object V) : entries o ≡ₚ o.
Proof.
  unfold entries. rewrite sort_perm.
  rewrite (list_filter_iff (fun e : string * V => is_index e = false)
             (fun e => ~ is_index e = true)).
  - apply filter_app_complement.
  - intros e. by destruct (is_index e).
Qed.

Lemma elem_of_values {V} (o : object V) (v : V) :
  v ∈ values o <-> exists k, (k, v) ∈ o.
Proof.
  unfold values. rewrite list_elem_of_fmap. setoid_rewrite entries_perm.
  split.
  - intros ([k v'] & -> & H). by exists k.
  - intros [k H]. by exists (k, v).
Qed.

(** The racers of the teams are racers that were grouped. *)
Lemma groupRacer_members s L teams :
  forEach (groupRacer s) L (Some []) = Some teams ->
  forall t r, t ∈ values teams -> r ∈ t_racers t -> r ∈ L.
Proof.
  intros Hgr.
  assert (match forEach (groupRacer s) L (Some []) with
          | Some tm => forall e r, e ∈ tm -> r ∈ t_racers (snd e) -> r ∈ L
          | None => True
          end) as Hinv.
  { apply (forEach_invariant
             (fun o => match o with
                       | Some tm => forall e r, e ∈ tm -> r ∈ t_racers (snd e) -> r ∈ L
                       | None => True
                       end)).
    - intros e r He. by apply elem_of_nil in He.
    - intros [tm|] x j Hx Htm; [|done]. unfold groupRacer.
      destruct (team (info (get s x))) as [[|c0 c]|]; [done| |done].
      destruct (upsert _ _ _ tm) as [tm'|] eqn:Hup; [|done].
      intros e r He Hr.
      destruct (elem_of_upsert _ _ _ _ _ e Hup He) as [H|[H|(k' & v & H & Hv)]].
      + by apply (Htm e r).
      + rewrite H in Hr. simpl in Hr. apply list_elem_of_singleton in Hr. by subst.
      + rewrite Hv in Hr. simpl in Hr. apply elem_of_app in Hr as [Hr|Hr].
        * by apply (Htm (k', v) r).
        * apply list_elem_of_singleton in Hr. by subst. }
  rewrite Hgr in Hinv. intros t r [k Ht]%elem_of_values Hr.
  by apply (Hinv (k, t) r).
Qed.

Lemma teamPlaceFinisher_only_writes F fs st x i :
  only_writes [x] (fst st) (fst (teamPlaceFinisher F fs st x i)).
Proof.
  destruct st as [s k]. unfold teamPlaceFinisher. simpl.
  assert (x ∈ [x]) by apply list_elem_of_here.
  destruct (_ && _); simpl; writes.
Qed.

Lemma teamPlaceNone_only_writes fs s x i :
  only_writes [x] s (teamPlaceNone fs s x i).
Proof.
  unfold teamPlaceNone. assert (x ∈ [x]) by apply list_elem_of_here. writes.
Qed.

Lemma scoreTeam_only_writes topN st t i :
  only_writes (t_racers t) (fst st) (fst (scoreTeam topN st t i)).
Proof.
  destruct st as [s scored]. unfold scoreTeam. cbn [fst].
  apply (forEach_only_writes (fun s => s)). intros s' x j Hx.
  apply write_only_writes.
  apply elem_of_take in Hx as (n & Hn & _).
  assert (x ∈ filter (fun r => isPositive (teamPoints (derived (get s r))) = true)
                (sort (byTeamPoints s) (t_racers t))) as Hx
    by (apply list_elem_of_lookup; eauto).
  apply list_elem_of_filter in Hx as [_ Hx].
  by apply elem_of_sort in Hx.
Qed.

(** Only racers of the argument are written. *)
Lemma calculateTeamStandings_only_writes s racers g rc topN :
  only_writes racers s (fst (calculateTeamStandings s racers g rc topN)).
Proof.
  unfold calculateTeamStandings.
  set (filtered := filter _ racers).
  set (finishers := sort (byTotalTime s) _).
  set (s1 := fst (forEach (teamPlaceFinisher finishers _) finishers (s, 1%Z))).
  set (nonFinishers := filter _ filtered).
  set (s2 := forEach (teamPlaceNone _) nonFinishers s1).
  assert (forall l, l ∈ filtered -> l ∈ racers) as Hfil
    by (intros l [_ Hl]%list_elem_of_filter; done).
  assert (forall l, l ∈ finishers -> l ∈ racers) as Hfin.
  { intros l Hl. apply elem_of_sort in Hl. apply list_elem_of_filter in Hl as [_ Hl].
    by apply Hfil. }
  assert (forall l, l ∈ nonFinishers -> l ∈ racers) as Hnon
    by (intros l [_ Hl]%list_elem_of_filter; by apply Hfil).
  assert (only_writes racers s s2) as H2.
  { apply (only_writes_trans _ _ s1).
    - apply (forEach_only_writes fst (teamPlaceFinisher finishers _) finishers racers
               (s, 1%Z)).
      intros st x i Hx.
      eapply only_writes_mono; [|apply teamPlaceFinisher_only_writes].
      apply singleton_subset. by apply Hfin.
    - apply (forEach_only_writes (fun s => s)). intros st x i Hx.
      eapply only_writes_mono; [|apply teamPlaceNone_only_writes].
      apply singleton_subset. by apply Hnon. }
  destruct (forEach (groupRacer s2) (finishers ++ nonFinishers) (Some []))
    as [teams|] eqn:Hgr; [|done].
  pose proof (groupRacer_members s2 _ teams Hgr) as Hmem.
  assert (only_writes racers s2
            (fst (forEach (scoreTeam topN) (values teams) (s2, [])))) as H3.
  { apply (forEach_only_writes fst (scoreTeam topN) (values teams) racers (s2, [])).
    intros st t i Ht.
    eapply only_writes_mono; [|apply scoreTeam_only_writes].
    intros l Hl. specialize (Hmem t l Ht Hl).
    apply elem_of_app in Hmem as [?|?]; auto. }
  destruct (forEach (scoreTeam topN) (values teams) (s2, [])) as [s3 scored].
  cbn [fst] in *. by eapply only_writes_trans.
Qed.

(** ** C10: the season standings leave the caller's racers alone *)

Lemma unchanged_refl s : unchanged s s.
Proof. by intros l r. Qed.

Lemma unchanged_trans s1 s2 s3 : unchanged s1 s2 -> unchanged s2 s3 -> unchanged s1 s3.
Proof. intros H1 H2 l r Hl. by apply H2, H1. Qed.

Lemma unchanged_length s s' : unchanged s s' -> (length s <= length s')%nat.
Proof.
  intros H. destruct (decide (length s = 0)%nat) as [->|Hne]; [lia|].
  destruct (lookup_lt_is_Some_2 s (length s - 1)) as [r Hr]; [lia|].
  apply H, lookup_lt_Some in Hr. lia.
Qed.

Lemma unchanged_app s ext : unchanged s (s ++ ext).
Proof. intros l r Hl. by apply lookup_app_l_Some. Qed.

(** Writes to objects that [s] does not hold leave [s] unchanged. *)
Lemma only_writes_unchanged L s s1 s2 :
  unchanged s s1 -> only_writes L s1 s2 ->
  Forall (fun l => (length s <= l)%nat) L -> unchanged s s2.
Proof.
  intros H1 (_ & _ & Ho) HL l r Hl.
  rewrite Ho; [by apply H1|].
  intros Hin. rewrite Forall_forall in HL. apply HL in Hin.
  apply lookup_lt_Some in Hl. lia.
Qed.

(** The copies are new objects. *)
Lemma copyRacers_fresh s ev :
  unchanged s (fst (copyRacers s ev))
  /\ Forall (fun l => (length s <= l)%nat) (snd (copyRacers s ev)).
Proof.
  unfold copyRacers.
  apply (forEach_invariant
           (fun st : list racer * list nat =>
              unchanged s (fst st) /\ Forall (fun l => (length s <= l)%nat) (snd st))).
  - split; [apply unchanged_refl | constructor].
  - intros st rc j _ Hst.
    apply (forEach_invariant
             (fun st : list racer * list nat =>
                unchanged s (fst st) /\ Forall (fun l => (length s <= l)%nat) (snd st)));
      [done|].
    intros [s0 all] x i _ [Hu Hall]. cbn [copy fst snd] in *. split.
    + eapply unchanged_trans; [done|]. apply unchanged_app.
    + apply Forall_app. split; [done|]. repeat constructor.
      by apply unchanged_length.
Qed.

Lemma processEvent_unchanged s g c st ev i :
  unchanged s (fst st) -> unchanged s (fst (processEvent g c st ev i)).
Proof.
  intros Hu. unfold processEvent. destruct (snd st) as [totals|]; [|done].
  destruct (copyRacers_fresh (fst st) ev) as [Hc Hall].
  destruct (copyRacers (fst st) ev) as [s1 all]. cbn [fst snd] in *.
  assert (Forall (fun l => (length s <= l)%nat) all) as Hall'.
  { eapply Forall_impl; [exact Hall|]. intros l Hl. cbn beta in Hl.
    pose proof (unchanged_length _ _ Hu). lia. }
  pose proof (individual_only_writes s1 all g c) as Hw2.
  destruct (calculateIndividualResults s1 all g c) as [s2 res]. cbn [fst] in Hw2.
  assert (unchanged s s2) as Hu2.
  { eapply only_writes_unchanged; [by eapply unchanged_trans|exact Hw2|].
    rewrite Forall_forall in *. intros l [Hl _]%elem_of_genderRacers. by apply Hall'. }
  destruct (forEach (addIndividual s2 ev) res _) as [ind|]; [|done].
  match goal with
  | |- context [calculateTeamStandings s2 all g ?cl 4] =>
      pose proof (calculateTeamStandings_only_writes s2 all g cl 4) as Hw3;
      destruct (calculateTeamStandings s2 all g cl 4) as [s3 [standings|]]
  end; cbn [fst] in Hw3.
  - assert (unchanged s s3) by (by eapply only_writes_unchanged).
    by destruct (forEach (addTeam ev) standings _).
  - by eapply only_writes_unchanged.
Qed.

(** C10.  [calculateSeasonStandings] scores shallow copies: whatever the
    events, the genders and the outcome of the call, every racer object of
    the caller is afterwards what it was before, with no place, points,
    rank, field size or team-scoring property attached.  A direct call of
    [calculateIndividualResults] or [calculateTeamStandings] writes these
    properties into the caller's objects. *)
Theorem season_leaves_racers_unchanged (s : store) (events : list event)
    (g : string) (c : option string) :
  unchanged s (fst (calculateSeasonStandings s events g c))
  /\ (let s' := fst (calculateSeasonStandings tieExample tieSeason "M" None) in
      take 4 s' = tieExample
      /\ map (fun r => (place (derived r), points (derived r), teamPlace (derived r)))
             (drop 4 s')
         = [(Place 4, Some 1%Z, Place 4); (Place 1, Some 4%Z, Place 1);
            (Place 3, Some 2%Z, Place 3); (Place 1, Some 4%Z, Place 1)])
  /\ (let s' := fst (calculateIndividualResults tieExample [0; 1; 2; 3]%nat "M" None) in
      map (fun r => (place (derived r), points (derived r), fieldSize (derived r))) s'
      = [(Place 4, Some 1%Z, Some 4%Z); (Place 1, Some 4%Z, Some 4%Z);
         (Place 3, Some 2%Z, Some 4%Z); (Place 1, Some 4%Z, Some 4%Z)])
  /\ (let s' := fst (calculateTeamStandings tieExample [0; 1; 2; 3]%nat "M" "Varsity" 4) in
      map (fun r => (teamPlace (derived r), teamPoints (derived r), isScoring (derived r))) s'
      = [(Place 4, Some 1%Z, true); (Place 1, Some 4%Z, true);
         (Place 3, Some 2%Z, true); (Place 1, Some 4%Z, true)]).
Proof.
  split; [|by vm_compute].
  unfold calculateSeasonStandings.
  assert (unchanged s
            (fst (forEach (processEvent g c) events (s, Some (mkTotals [] []))))) as H.
  { apply (forEach_invariant (fun st => unchanged s (fst st))).
    - apply unchanged_refl.
    - intros st ev j _. apply processEvent_unchanged. }
  by destruct (forEach (processEvent g c) events _) as [s' [totals|]].
Qed.

(** ** When the season standings are returned *)

Lemma upsert_safe {V} (k : string) (init : V) (f : V -> V) (o : object V) :
  inherited k = false -> exists o', upsert k init f o = Some o'.
Proof.
  intros Hk. unfold upsert. destruct (own k o); [by eexists|].
  rewrite Hk. by eexists.
Qed.

Lemma afterUnderscore_spec a r :
  r ∈ afterUnderscore (a ++ "_" ++ r)%string.
Proof.
  induction a as [|c a IH]; simpl.
  - apply list_elem_of_here.
  - apply elem_of_app. by right.
Qed.

Lemma inherited_spec k : inherited k = true <-> k ∈ inheritedNames.
Proof.
  unfold inherited. rewrite existsb_exists. split.
  - intros (n & Hn & ->%String.eqb_eq). by apply list_elem_of_In.
  - intros Hk. exists k. split; [by apply list_elem_of_In | apply String.eqb_refl].
Qed.

(** The key of a racer of a scoring team is no inherited name: the team
    would be what follows the second underscore of such a name, and none of
    these texts matches the allow-list. *)
Lemma key_not_inherited r :
  isScoringTeam (team r) = true -> inherited (individualKey r) = false.
Proof.
  intros Hsc. destruct (inherited (individualKey r)) eqn:Hin; [|done].
  apply inherited_spec in Hin.
  destruct (team r) as [t|] eqn:Ht; [|done].
  assert (forallb (fun n =>
            forallb (fun m => forallb (fun t => negb (isScoringTeam (Some t)))
                                      (afterUnderscore m))
                    (afterUnderscore n))
            inheritedNames = true) as Hall by (by vm_compute).
  rewrite forallb_forall in Hall. specialize (Hall _ (proj1 (list_elem_of_In _ _) Hin)).
  rewrite forallb_forall in Hall.
  unfold individualKey in Hall. rewrite Ht in Hall.
  specialize (Hall _ (proj1 (list_elem_of_In _ _) (afterUnderscore_spec _ _))).
  rewrite forallb_forall in Hall.
  specialize (Hall _ (proj1 (list_elem_of_In _ _) (afterUnderscore_spec _ _))).
  by rewrite Hsc in Hall.
Qed.

Lemma addIndividual_total s ev results i totals :
  (forall l, l ∈ results -> scoresPoints s l = true ->
             inherited (individualKey (info (get s l))) = false) ->
  exists totals', forEach_from (addIndividual s ev) i results (Some totals) = Some totals'.
Proof.
  revert i totals. induction results as [|x results IH]; intros i totals Hkeys; simpl.
  - by eexists.
  - assert (forall l, l ∈ results -> scoresPoints s l = true ->
                      inherited (individualKey (info (get s l))) = false) as Hrest
      by (intros l Hl; apply Hkeys; by right).
    pose proof (Hkeys x (list_elem_of_here _ _)) as Hx.
    unfold scoresPoints, pointsOf in Hx.
    destruct (points (derived (get s x))) as [p|]; [|by apply IH].
    destruct (p =? 0)%Z; [by apply IH|].
    match goal with
    | |- context [upsert ?k ?init ?f ?o] =>
        destruct (upsert_safe k init f o) as [o' ->]; [by apply Hx|]
    end.
    by apply IH.
Qed.

Lemma addTeam_total ev standings i totals :
  (forall t, t ∈ standings -> inherited (t_name t) = false) ->
  exists totals', forEach_from (addTeam ev) i standings (Some totals) = Some totals'.
Proof.
  revert i totals. induction standings as [|t standings IH]; intros i totals Hn; simpl.
  - by eexists.
  - match goal with
    | |- context [upsert ?k ?init ?f ?o] =>
        destruct (upsert_safe k init f o) as [o' ->];
          [apply Hn; apply list_elem_of_here|]
    end.
    apply IH. intros t' Ht'. apply Hn. by right.
Qed.

Lemma groupRacers_total s L :
  (forall l, l ∈ L -> safeTeam (get s l)) ->
  exists teams,
    forEach (groupRacer s) L (Some []) = Some teams
    /\ forall e, e ∈ teams -> inherited (t_name (snd e)) = false.
Proof.
  intros Hsafe.
  apply (forEach_invariant
           (fun o => exists teams,
                       o = Some teams
                       /\ forall e, e ∈ teams -> inherited (t_name (snd e)) = false)).
  - exists []. split; [done|]. intros e He. by apply elem_of_nil in He.
  - intros o x j Hx (teams & -> & Hnames). unfold groupRacer.
    destruct (team (info (get s x))) as [[|c0 c]|] eqn:Ht; [by exists teams| |by exists teams].
    pose proof (Hsafe x Hx _ Ht) as Hkey.
    match goal with
    | |- context [upsert ?k ?init ?f ?o] =>
        destruct (upsert_safe k init f o Hkey) as [o' Hup]
    end.
    exists o'. split; [done|]. intros e He.
    destruct (elem_of_upsert _ _ _ _ _ e Hup He) as [H|[H|(k' & v & H & Hv)]].
    + by apply Hnames.
    + by rewrite H.
    + rewrite Hv. simpl. by apply (Hnames (k', v)).
Qed.

Lemma scoreTeam_names topN ts i s scored :
  map t_name (snd (forEach_from (scoreTeam topN) i ts (s, scored)))
  = map t_name scored ++ map t_name ts.
Proof.
  revert i s scored. induction ts as [|t ts IH]; intros i s scored;
    cbn [forEach_from].
  - simpl. by rewrite app_nil_r.
  - assert (map t_name (snd (scoreTeam topN (s, scored) t i))
            = map t_name scored ++ [t_name t]) as Hstep.
    { unfold scoreTeam. cbn [snd]. by rewrite map_app. }
    destruct (scoreTeam topN (s, scored) t i) as [s' scored'].
    cbn [snd] in Hstep. rewrite IH, Hstep. simpl. by rewrite <- app_assoc.
Qed.

Lemma imap_names (f : nat -> team_t -> team_t) (l : list team_t) :
  (forall i t, t_name (f i t) = t_name t) -> map t_name (imap f l) = map t_name l.
Proof.
  revert f. induction l as [|t l IH]; intros f Hf; [done|].
  simpl. rewrite Hf. f_equal. apply IH. intros i t'. apply Hf.
Qed.

(** With safe teams the team standings are returned, and no team of the
    standings has an inherited name. *)
Lemma calculateTeamStandings_total s racers g rc topN :
  (forall l, l ∈ racers -> safeTeam (get s l)) ->
  exists standings,
    snd (calculateTeamStandings s racers g rc topN) = Some standings
    /\ forall t, t ∈ standings -> inherited (t_name t) = false.
Proof.
  intros Hsafe. unfold calculateTeamStandings.
  set (filtered := filter _ racers).
  set (finishers := sort (byTotalTime s) _).
  set (s1 := fst (forEach (teamPlaceFinisher finishers _) finishers (s, 1%Z))).
  set (nonFinishers := filter _ filtered).
  set (s2 := forEach (teamPlaceNone _) nonFinishers s1).
  assert (forall l, l ∈ filtered -> l ∈ racers) as Hfil
    by (intros l [_ Hl]%list_elem_of_filter; done).
  assert (forall l, info (get s2 l) = info (get s l)) as Hinfo.
  { intros l. unfold s2.
    destruct (forEach_only_writes (fun s => s) (teamPlaceNone (Z.of_nat (length filtered)))
                nonFinishers nonFinishers s1) as (_ & -> & _).
    { intros st x i Hx. eapply only_writes_mono; [|apply teamPlaceNone_only_writes].
      by apply singleton_subset. }
    unfold s1.
    destruct (forEach_only_writes fst (teamPlaceFinisher finishers (Z.of_nat (length filtered)))
                finishers finishers (s, 1%Z)) as (_ & -> & _); [|done].
    intros st x i Hx. eapply only_writes_mono; [|apply teamPlaceFinisher_only_writes].
    by apply singleton_subset. }
  destruct (groupRacers_total s2 (finishers ++ nonFinishers)) as (teams & -> & Hnames).
  { intros l Hl t. rewrite Hinfo. apply Hsafe.
    apply elem_of_app in Hl as [Hl|Hl].
    - apply elem_of_sort in Hl. apply list_elem_of_filter in Hl as [_ Hl]. by apply Hfil.
    - apply list_elem_of_filter in Hl as [_ Hl]. by apply Hfil. }
  pose proof (scoreTeam_names topN (values teams) 0 s2 []) as Hsn.
  fold (forEach (scoreTeam topN) (values teams) (s2, [])) in Hsn.
  destruct (forEach (scoreTeam topN) (values teams) (s2, [])) as [s3 scored].
  cbn [snd] in *. eexists. split; [done|].
  intros t Ht.
  assert (t_name t ∈ map t_name (values teams)) as Hin.
  { rewrite <- (app_nil_l (map t_name (values teams))).
    change (@nil string) with (map t_name (@nil team_t)). rewrite <- Hsn.
    rewrite <- (sort_perm byTeamTotal scored).
    rewrite <- (imap_names
                  (fun index t =>
                     mkTeam (t_name t) (t_racers t) (t_totalPoints t)
                       (t_scoringRacers t) (Some (Z.of_nat index + 1)%Z))) by done.
    apply list_elem_of_fmap. by exists t. }
  apply list_elem_of_fmap in Hin as (t0 & -> & [k Hk]%elem_of_values).
  by apply (Hnames (k, t0)).
Qed.

Lemma unchanged_get s s' l : unchanged s s' -> (l < length s)%nat -> get s' l = get s l.
Proof.
  intros Hu Hl. destruct (lookup_lt_is_Some_2 s l Hl) as [r Hr].
  unfold get. by rewrite (list_lookup_total_correct _ _ _ Hr),
    (list_lookup_total_correct _ _ _ (Hu _ _ Hr)).
Qed.

(** The copies of the racers of an event: new, distinct objects, each
    equal to a racer of the event. *)
Lemma copyRacers_copies s ev :
  (forall rc l, rc ∈ races ev -> l ∈ racers rc -> (l < length s)%nat) ->
  NoDup (snd (copyRacers s ev))
  /\ forall l', l' ∈ snd (copyRacers s ev) ->
       (l' < length (fst (copyRacers s ev)))%nat
       /\ exists rc l, rc ∈ races ev /\ l ∈ racers rc
                       /\ get (fst (copyRacers s ev)) l' = get s l.
Proof.
  intros Hval. unfold copyRacers.
  set (Inv := fun st : list racer * list nat =>
                unchanged s (fst st)
                /\ NoDup (snd st)
                /\ forall l', l' ∈ snd st ->
                     (l' < length (fst st))%nat
                     /\ exists rc l, rc ∈ races ev /\ l ∈ racers rc
                                     /\ get (fst st) l' = get s l).
  assert (Inv (forEach (fun st rc _ =>
                  forEach (fun (st : list racer * list nat) racer _ =>
                             let '(s, l) := copy (fst st) racer in (s, snd st ++ [l]))
                          (racers rc) st)
                (races ev) (s, []))) as (_ & Hnd & Hall); [|by split].
  apply (forEach_invariant Inv).
  - split; [apply unchanged_refl|]. split; [constructor|].
    intros l' Hl'. by apply elem_of_nil in Hl'.
  - intros st rc j Hrc Hst. apply (forEach_invariant Inv); [done|].
    intros [s0 all] x i Hx (Hu & Hnd & Hall). cbn [copy fst snd] in *.
    pose proof (unchanged_length _ _ Hu) as Hlen.
    split; [|split].
    + eapply unchanged_trans; [done|]. apply unchanged_app.
    + apply NoDup_app. split; [done|]. split; [|apply NoDup_singleton].
      intros l' Hl' Heq%list_elem_of_singleton. subst l'.
      apply Hall in Hl' as [Hl' _]. lia.
    + intros l' [Hl'|Heq%list_elem_of_singleton]%elem_of_app; [|subst l'].
      * destruct (Hall l' Hl') as (Hlt & rc' & l & H1 & H2 & H3).
        cbn [fst]. rewrite length_app. simpl. split; [lia|]. exists rc', l.
        split; [done|]. split; [done|]. rewrite <- H3. unfold get.
        by apply lookup_total_app_l.
      * cbn [fst]. rewrite length_app. simpl. split; [lia|]. exists rc, x.
        split; [done|]. split; [done|]. unfold get at 1.
        rewrite lookup_total_app_r by lia. rewrite Nat.sub_diag. simpl.
        apply unchanged_get; [done|]. by apply (Hval rc).
Qed.

(** Every racer of the gender has its points assigned when
    [calculateIndividualResults] returns. *)
Lemma individual_points_assigned s racers g c l :
  NoDup racers -> Forall (fun l => (l < length s)%nat) racers ->
  l ∈ genderRacers s racers g ->
  is_Some (pointsOf (fst (calculateIndividualResults s racers g c)) l).
Proof.
  intros Hnd Hval Hg.
  assert (l < length s)%nat as Hl.
  { rewrite Forall_forall in Hval. apply Hval.
    by apply elem_of_genderRacers in Hg as [? _]. }
  destruct (gender_racer_cases _ _ _ _ Hg) as [HF|[HN|HX]].
  - apply list_elem_of_lookup in HF as [i Hi].
    destruct (tieRule_bounds _ _ _ _ (individual_tieRule s racers g c Hnd Hval) i l Hi)
      as (p & _ & _ & ->). by eexists.
  - apply elem_of_scoringNonFinishers in HN as [_ HN].
    destruct (individual_unplaced s racers g c l Hl Hg (or_introl HN)) as [_ Hp].
    unfold pointsOf. rewrite Hp. by eexists.
  - apply elem_of_nonScoringRacers in HX as [_ HX].
    destruct (individual_unplaced s racers g c l Hl Hg (or_intror HX)) as [_ Hp].
    unfold pointsOf. rewrite Hp. by eexists.
Qed.

(** A racer that scored points is a racer of a scoring team. *)
Lemma points_imply_scoring_team s racers g c l :
  (l < length s)%nat -> l ∈ genderRacers s racers g ->
  scoresPoints (fst (calculateIndividualResults s racers g c)) l = true ->
  isScoringTeam (teamOf s l) = true.
Proof.
  intros Hl Hg Hsc. destruct (isScoringTeam (teamOf s l)) eqn:Hteam; [done|].
  destruct (individual_unplaced s racers g c l Hl Hg (or_intror Hteam)) as [_ Hp].
  unfold scoresPoints, pointsOf in Hsc. by rewrite Hp in Hsc.
Qed.

(** In [calculateSeasonStandings] every result that the accumulation
    loop visits has its points assigned. *)
Lemma copied_results_have_points s ev g c :
  (forall rc l, rc ∈ races ev -> l ∈ racers rc -> (l < length s)%nat) ->
  let '(s1, allRacers) := copyRacers s ev in
  let '(s2, individualResults) := calculateIndividualResults s1 allRacers g c in
  forall l, l ∈ individualResults -> is_Some (pointsOf s2 l).
Proof.
  intros Hval. destruct (copyRacers_copies s ev Hval) as [Hnd Hcopies].
  destruct (copyRacers s ev) as [s1 all]. cbn [fst snd] in *.
  assert (Forall (fun l => (l < length s1)%nat) all) as Hall.
  { apply Forall_forall. intros l Hl. by destruct (Hcopies l Hl). }
  pose proof (individual_results_perm s1 all g c) as Hperm.
  pose proof (fun l => individual_points_assigned s1 all g c l Hnd Hall) as Hpts.
  destruct (calculateIndividualResults s1 all g c) as [s2 res]. cbn [fst snd] in *.
  intros l Hl. apply Hpts. rewrite Hperm in Hl. by apply elem_of_classFilter in Hl.
Qed.

Lemma processEvent_total s g c st ev i :
  unchanged s (fst st) ->
  (forall rc l, rc ∈ races ev -> l ∈ racers rc ->
                (l < length s)%nat /\ safeTeam (get s l)) ->
  is_Some (snd st) -> is_Some (snd (processEvent g c st ev i)).
Proof.
  intros Hu Hsafe [totals Ht]. unfold processEvent. rewrite Ht.
  pose proof (unchanged_length _ _ Hu) as Hlen.
  destruct (copyRacers_copies (fst st) ev) as [Hnd Hcopies].
  { intros rc l Hrc Hl. destruct (Hsafe rc l Hrc Hl). lia. }
  destruct (copyRacers (fst st) ev) as [s1 all]. cbn [fst snd] in *.
  assert (forall l', l' ∈ all -> (l' < length s1)%nat /\ safeTeam (get s1 l')) as Hall.
  { intros l' Hl'. destruct (Hcopies l' Hl') as (Hlt & rc & l & Hrc & Hl & ->).
    split; [done|]. destruct (Hsafe rc l Hrc Hl) as [Hls Hst].
    by rewrite (unchanged_get _ _ _ Hu Hls). }
  pose proof (individual_results_perm s1 all g c) as Hperm.
  pose proof (individual_info s1 all g c) as Hinfo.
  pose proof (fun l => points_imply_scoring_team s1 all g c l) as Hpts.
  destruct (calculateIndividualResults s1 all g c) as [s2 res]. cbn [fst snd] in *.
  destruct (addIndividual_total s2 ev res 0 (individualTotals totals)) as [ind Hind].
  { intros l Hl Hsc. rewrite Hperm in Hl. apply elem_of_classFilter in Hl.
    pose proof Hl as [Hla _]%elem_of_genderRacers.
    apply key_not_inherited. rewrite Hinfo.
    apply Hpts; [by destruct (Hall l Hla) | done | done]. }
  fold (forEach (addIndividual s2 ev) res (Some (individualTotals totals))) in Hind.
  rewrite Hind.
  match goal with
  | |- context [calculateTeamStandings s2 all g ?cl 4] =>
      destruct (calculateTeamStandings_total s2 all g cl 4) as (standings & Hst & Hnames);
        [intros l Hl t; rewrite Hinfo; by destruct (Hall l Hl) as [_ Hs]; apply Hs|];
      destruct (calculateTeamStandings s2 all g cl 4) as [s3 o]
  end.
  cbn [snd] in Hst. subst o.
  destruct (addTeam_total ev standings 0 (teamTotals totals) Hnames) as [tt Htt].
  fold (forEach (addTeam ev) standings (Some (teamTotals totals))) in Htt.
  rewrite Htt. by eexists.
Qed.

(** When every racer of the events is an object of the store whose team
    is no inherited property name, the season standings are returned. *)
Lemma season_returns s events g c :
  safeEvents s events -> is_Some (snd (calculateSeasonStandings s events g c)).
Proof.
  intros Hsafe. unfold calculateSeasonStandings.
  assert (unchanged s (fst (forEach (processEvent g c) events (s, Some (mkTotals [] []))))
          /\ is_Some (snd (forEach (processEvent g c) events (s, Some (mkTotals [] [])))))
    as [_ [totals Ht]].
  { apply (forEach_invariant (fun st => unchanged s (fst st) /\ is_Some (snd st))).
    - split; [apply unchanged_refl | by eexists].
    - intros st ev j Hev [Hu Hs]. split.
      + by apply processEvent_unchanged.
      + apply (processEvent_total s); [done| |done].
        intros rc l Hrc Hl. by apply (Hsafe ev rc l). }
  destruct (forEach (processEvent g c) events _) as [s' o]. cbn [snd] in Ht. subst o.
  by eexists.
Qed.

(** ** The last two phases of [calculateSeasonStandings] *)

(** The standings, when they are returned, are the ranked totals of the
    accumulators. *)
Lemma season_standings s events g c r :
  snd (calculateSeasonStandings s events g c) = Some r ->
  exists totals,
    teams r = rank (map (withDrop (Z.of_nat (length events))) (values (teamTotals totals)))
    /\ individuals r
       = rank (map (withDrop (Z.of_nat (length events)))
                   (values (individualTotals totals))).
Proof.
  unfold calculateSeasonStandings.
  destruct (forEach (processEvent g c) events _) as [s' [totals|]]; [|done].
  cbn [snd]. intros [= <-]. by exists totals.
Qed.

Lemma gt_byTotalDesc {I} (a b : seasonEntry I) :
  gt byTotalDesc a b = (totalPoints a <? totalPoints b)%Z.
Proof.
  unfold gt, byTotalDesc. simpl.
  destruct (Z.ltb_spec 0 (totalPoints b - totalPoints a));
    destruct (Z.ltb_spec (totalPoints a) (totalPoints b)); lia.
Qed.

Lemma totalsOf_imap {I} (f : nat -> seasonEntry I -> seasonEntry I) k :
  (forall i e, totalPoints (f i e) = totalPoints e) ->
  totalsOf (imap f k) = totalsOf k.
Proof.
  revert f. induction k as [|e k IH]; intros f Hf; [done|].
  unfold totalsOf in *. simpl. rewrite Hf. f_equal. apply IH.
  intros i e'. apply Hf.
Qed.

Lemma totalsOf_rank {I} (l : list (seasonEntry I)) :
  totalsOf (rank l) = totalsOf (sort byTotalDesc l).
Proof. unfold rank. by apply totalsOf_imap. Qed.

Lemma rank_descending {I} (l : list (seasonEntry I)) : descending (totalsOf (rank l)).
Proof.
  rewrite totalsOf_rank. unfold totalsOf, descending.
  apply (Sorted_fmap _ (fun a b => gt byTotalDesc a b = false)).
  - intros a b. rewrite gt_byTotalDesc. intros H%Z.ltb_ge. lia.
  - apply sort_inOrder. intros a b _ _. rewrite !gt_byTotalDesc.
    intros H%Z.ltb_lt. apply Z.ltb_ge. lia.
Qed.

Lemma rank_place {I} (l : list (seasonEntry I)) i e :
  rank l !! i = Some e -> place_ e = Some (Z.of_nat i + 1)%Z.
Proof.
  unfold rank. rewrite list_lookup_imap.
  destruct (sort byTotalDesc l !! i); [|done]. by intros [= <-].
Qed.

(** ** C8: places in the season standings *)

(** C8 does not hold as stated.  Two athletes, and two teams, with equal
    total points do not share a place: they get the places 1 and 2. *)
Lemma equal_totals_get_distinct_places :
  match snd (calculateSeasonStandings deadHeatExample deadHeatSeason "M" None) with
  | Some r =>
      map (fun e => (a_firstName (ident e), totalPoints e, place_ e)) (individuals r)
      = [("A", 2%Z, Some 1%Z); ("B", 2%Z, Some 2%Z)]
      /\ map (fun e => (ident e, totalPoints e, place_ e)) (teams r)
         = [("Brainerd", 2%Z, Some 1%Z); ("Annandale", 2%Z, Some 2%Z)]
  | None => False
  end.
Proof. by vm_compute. Qed.

(** C8, amended.  Teams and individuals are ranked separately, each list
    descending by total points, and the place of an entry is its 1-based
    position in its list; entries with equal totals have consecutive
    places.  The standings are returned whenever the racers of the events
    are objects of the store and no team has an inherited property name. *)
Theorem season_place_is_position (s : store) (events : list event) (g : string)
    (c : option string) :
  (safeEvents s events -> is_Some (snd (calculateSeasonStandings s events g c)))
  /\ forall r, snd (calculateSeasonStandings s events g c) = Some r ->
       descending (totalsOf (teams r))
       /\ descending (totalsOf (individuals r))
       /\ (forall i e, teams r !! i = Some e -> place_ e = Some (Z.of_nat i + 1)%Z)
       /\ (forall i e, individuals r !! i = Some e ->
                       place_ e = Some (Z.of_nat i + 1)%Z).
Proof.
  split; [apply season_returns|].
  intros r (totals & -> & ->)%season_standings.
  repeat split; try apply rank_descending; intros i e; apply rank_place.
Qed.

Lemma deadHeat_safe : safeEvents deadHeatExample deadHeatSeason.
Proof.
  intros ev rc l Hev Hrc Hl.
  apply list_elem_of_singleton in Hev. subst ev.
  apply list_elem_of_singleton in Hrc. subst rc.
  cbn [racers] in Hl.
  repeat (apply elem_of_cons in Hl as [->|Hl];
          [split; [vm_compute; lia | by intros t [= <-]]|]).
  by apply elem_of_nil in Hl.
Qed.

Lemma season_place_is_position_witness :
  exists r,
    snd (calculateSeasonStandings deadHeatExample deadHeatSeason "M" None) = Some r
    /\ totalsOf (individuals r) = [2; 2]%Z
    /\ (forall i e, individuals r !! i = Some e -> place_ e = Some (Z.of_nat i + 1)%Z).
Proof.
  destruct (season_place_is_position deadHeatExample deadHeatSeason "M" None)
    as [Hret Hrank].
  destruct (Hret deadHeat_safe) as [r E].
  exists r. split; [exact E|].
  destruct (Hrank r E) as (_ & _ & _ & Hind).
  split; [|exact Hind].
  vm_compute in E. injection E as <-. reflexivity.
Defined.

(** ** The drop rule of an entry *)

Lemma gt_byPointsDesc a b : gt byPointsDesc a b = (e_points a <? e_points b)%Z.
Proof.
  unfold gt, byPointsDesc. simpl.
  destruct (Z.ltb_spec 0 (e_points b - e_points a));
    destruct (Z.ltb_spec (e_points a) (e_points b)); lia.
Qed.

Lemma sumPoints_from (l : list eventResult) (z : Z) :
  foldl (fun sum r => (sum + e_points r)%Z) z l = (z + sumPoints l)%Z.
Proof.
  unfold sumPoints. revert z. induction l as [|r l IH]; intros z; simpl; [lia|].
  rewrite IH, (IH (0 + e_points r)%Z). lia.
Qed.

Lemma sumPoints_cons r l : sumPoints (r :: l) = (e_points r + sumPoints l)%Z.
Proof. unfold sumPoints at 1. simpl. by rewrite sumPoints_from. Qed.

Lemma sumPoints_app l1 l2 : sumPoints (l1 ++ l2) = (sumPoints l1 + sumPoints l2)%Z.
Proof.
  induction l1 as [|r l1 IH]; simpl; [done|]. rewrite !sumPoints_cons, IH. lia.
Qed.

Lemma sumPoints_perm l1 l2 : l1 ≡ₚ l2 -> sumPoints l1 = sumPoints l2.
Proof.
  induction 1 as [|r l1 l2 _ IH|r1 r2 l|l1 l2 l3 _ IH1 _ IH2];
    rewrite ?sumPoints_cons; lia.
Qed.

(** Where the last element of a list comes from when [x] is inserted. *)
Lemma insert_last {A} (cmp : A -> A -> number) x S front d :
  JS.insert cmp x S = front ++ [d] ->
  (d = x /\ forall y, y ∈ S -> gt cmp x y = true)
  \/ exists front', S = front' ++ [d].
Proof.
  revert front. induction S as [|y S IH]; intros front; simpl.
  - intros H. left. destruct front as [|a [|b front]]; simplify_eq/=.
    split; [done|]. intros y Hy. by apply elem_of_nil in Hy.
  - fold (gt cmp x y). destruct (gt cmp x y) eqn:Hxy.
    + destruct front as [|a front]; simpl; intros H.
      { injection H as _ H. destruct S as [|z S]; simpl in H; [done|].
        by destruct (positive (cmp x z)). }
      injection H as <- H. destruct (IH _ H) as [[-> Hall]|[front' ->]].
      * left. split; [done|]. intros z [->|Hz]%elem_of_cons; auto.
      * right. by exists (y :: front').
    + intros H. right.
      destruct front as [|a front]; simplify_eq/=. by exists front.
Qed.

(** Stability at the low end: the last row of the sorted list stands in
    the original list before rows of strictly more points only. *)
Lemma sort_last_is_last_minimum rows front d :
  sort byPointsDesc rows = front ++ [d] ->
  exists before after,
    rows = before ++ d :: after
    /\ forall r, r ∈ after -> (e_points d < e_points r)%Z.
Proof.
  revert front. induction rows as [|x rows IH]; intros front H.
  - by destruct front.
  - change (JS.insert byPointsDesc x (sort byPointsDesc rows) = front ++ [d]) in H.
    destruct (insert_last _ _ _ _ _ H) as [[-> Hall]|[front' Hs]].
    + exists [], rows. split; [done|]. intros r Hr.
      rewrite <- (elem_of_sort byPointsDesc) in Hr.
      specialize (Hall r Hr). rewrite gt_byPointsDesc in Hall. by apply Z.ltb_lt.
    + destruct (IH _ Hs) as (before & after & -> & Hafter).
      by exists (x :: before), after.
Qed.

Lemma sort_byPointsDesc_descending rows :
  descending (map e_points (sort byPointsDesc rows)).
Proof.
  apply (Sorted_fmap _ (fun a b => gt byPointsDesc a b = false)).
  - intros a b. rewrite gt_byPointsDesc. intros H%Z.ltb_ge. lia.
  - apply sort_inOrder. intros a b _ _. rewrite !gt_byPointsDesc.
    intros H%Z.ltb_lt. apply Z.ltb_ge. lia.
Qed.

(** The last element of a descending list is a minimum. *)
Lemma descending_last_minimum (front : list eventResult) d :
  descending (map e_points (front ++ [d])) ->
  forall r, r ∈ front ++ [d] -> (e_points d <= e_points r)%Z.
Proof.
  intros Hs r Hr. unfold descending in Hs.
  assert (Transitive (fun a b : Z => (b <= a)%Z)) as Htr
    by (intros a b c' ? ?; lia).
  apply (Sorted_StronglySorted (fun a b : Z => (b <= a)%Z)) in Hs.
  rewrite map_app in Hs. apply StronglySorted_app in Hs as (Hcross & _ & _).
  apply elem_of_app in Hr as [Hr|Hr].
  - apply (Hcross (e_points r) (e_points d)).
    + apply list_elem_of_fmap. by exists r.
    + simpl. apply list_elem_of_here.
  - apply list_elem_of_singleton in Hr. subst. lia.
Qed.

Lemma slice_but_last_snoc {A} (front : list A) d : slice_but_last (front ++ [d]) = front.
Proof.
  unfold slice_but_last. rewrite length_app. simpl.
  replace (length front + 1 - 1)%nat with (length front) by lia.
  by rewrite take_app_length.
Qed.

Lemma snoc_cases {A} (l : list A) : l = [] \/ exists front d, l = front ++ [d].
Proof. destruct l as [|x l _] using rev_ind; [by left|]. right. by exists l, x. Qed.

Lemma withDrop_dropRule {I} (n : Z) (e : I * list eventResult) :
  dropRule n (withDrop n e).
Proof.
  unfold dropRule, withDrop. cbn [eventResults eventCount totalEventsInSeason
    droppedResult countedResults totalPoints].
  rewrite !length_sort.
  set (sorted := sort byPointsDesc (snd e)).
  assert (sorted ≡ₚ snd e) as Hperm by apply sort_perm.
  split; [done|]. split; [done|].
  exists sorted. split; [done|]. split; [apply sort_byPointsDesc_descending|].
  destruct ((n <=? Z.of_nat (length (snd e)))%Z && (1 <? n)%Z) eqn:Hdrop.
  - apply andb_true_iff in Hdrop as [Hn%Z.leb_le H1%Z.ltb_lt].
    destruct (snoc_cases sorted) as [Hnil|(front & d & Hs)].
    { apply (f_equal length) in Hnil. unfold sorted in Hnil.
      rewrite length_sort in Hnil. simpl in Hnil. lia. }
    exists d. rewrite Hs, slice_but_last_snoc, last_snoc.
    split; [done|]. split; [done|]. split; [|split].
    + rewrite <- (sumPoints_perm _ _ Hperm), Hs, sumPoints_app, sumPoints_cons.
      unfold sumPoints at 3. simpl. lia.
    + intros r Hr. rewrite <- Hperm, Hs in Hr.
      apply (descending_last_minimum front d); [|done].
      rewrite <- Hs. apply sort_byPointsDesc_descending.
    + by apply (sort_last_is_last_minimum _ front).
  - split; [done|]. split; [done|]. by apply sumPoints_perm.
Qed.

Lemma rank_dropRule {I} (n : Z) (l : list (seasonEntry I)) e :
  (forall e0, e0 ∈ l -> dropRule n e0) -> e ∈ rank l -> dropRule n e.
Proof.
  intros Hl He. unfold rank in He.
  apply elem_of_lookup_imap in He as (i & e0 & -> & Hi).
  assert (e0 ∈ l) as He0.
  { rewrite <- (elem_of_sort byTotalDesc). apply list_elem_of_lookup. eauto. }
  exact (Hl e0 He0).
Qed.

Lemma dropRule_dropped {I} (n : Z) (e : seasonEntry I) :
  dropRule n e ->
  (is_Some (droppedResult e)
   <-> (n <= Z.of_nat (length (eventResults e)))%Z /\ (1 < n)%Z).
Proof.
  intros (_ & _ & sorted & _ & _ & Hif).
  destruct (_ && _) eqn:Hc.
  - destruct Hif as (d & -> & _). apply andb_true_iff in Hc as [?%Z.leb_le ?%Z.ltb_lt].
    split; [done|]. intros _. by eexists.
  - destruct Hif as (-> & _). split; [by intros [? ?]|].
    intros [?%Z.leb_le ?%Z.ltb_lt]. apply andb_false_iff in Hc as [Hc|Hc]; congruence.
Qed.

Lemma fiveEvent_safe : safeEvents fiveEventStore fiveEventSeason.
Proof.
  intros ev rc l Hev Hrc Hl.
  assert (l = 0 \/ l = 1)%nat as Hcases.
  { unfold fiveEventSeason in Hev.
    repeat (apply elem_of_cons in Hev as [->|Hev];
            [apply list_elem_of_singleton in Hrc; subst rc; cbn [racers] in Hl;
             repeat (apply elem_of_cons in Hl as [->|Hl]; [auto|]);
             by apply elem_of_nil in Hl|]).
    by apply elem_of_nil in Hev. }
  destruct Hcases as [-> | ->]; (split; [vm_compute; lia | by intros t [= <-]]).
Qed.

(** ** C7: the key of the individual accumulation *)

Lemma own_replace {V} (k k' : string) (v : V) (o : object V) :
  own k' (JS.replace k v o)
  = if String.eqb k' k then (match own k o with Some _ => Some v | None => None end)
    else own k' o.
Proof.
  induction o as [|[k0 v0] o IH]; simpl.
  - by destruct (String.eqb k' k).
  - destruct (String.eqb_spec k k0) as [->|Hk]; simpl.
    + destruct (String.eqb_spec k' k0) as [->|Hk']; [done|]. done.
    + rewrite IH. destruct (String.eqb_spec k' k0) as [->|Hk'].
      * destruct (String.eqb_spec k0 k); [congruence|done].
      * done.
Qed.

Lemma own_snoc {V} (k k' : string) (v : V) (o : object V) :
  own k' (o ++ [(k, v)])
  = match own k' o with
    | Some v' => Some v'
    | None => if String.eqb k' k then Some v else None
    end.
Proof.
  induction o as [|[k0 v0] o IH]; simpl; [done|].
  by destruct (String.eqb k' k0).
Qed.

Lemma rowsOf_upsert {I} (k k' : string) (init : I) (row : eventResult)
    (o o' : object (I * list eventResult)) :
  upsert k (init, []) (fun e => (fst e, snd e ++ [row])) o = Some o' ->
  rowsOf k' o' = if String.eqb k' k then rowsOf k' o ++ [row] else rowsOf k' o.
Proof.
  unfold upsert, rowsOf. destruct (own k o) as [e|] eqn:Hown.
  - intros [= <-]. rewrite own_replace, Hown.
    destruct (String.eqb_spec k' k) as [->|Hne]; [|done]. by rewrite Hown.
  - destruct (inherited k); [done|]. intros [= <-]. rewrite own_snoc.
    destruct (String.eqb_spec k' k) as [->|Hne].
    + by rewrite Hown.
    + by destruct (own k' o).
Qed.

Lemma forEach_from_thrown {A B} (body : option B -> A -> nat -> option B) i L :
  (forall x j, body None x j = None) -> forEach_from body i L None = None.
Proof.
  intros Hb. revert i. induction L as [|x L IH]; intros i; simpl; [done|].
  by rewrite Hb.
Qed.

(** The rows that the results of one event add under each key. *)
Lemma addIndividual_rows s ev results i totals totals' k :
  forEach_from (addIndividual s ev) i results (Some totals) = Some totals' ->
  rowsOf k totals'
  = rowsOf k totals
    ++ map (rowFor s ev)
           (filter (fun l => scoresPoints s l
                             && String.eqb k (individualKey (info (get s l))) = true)
                   results).
Proof.
  revert i totals. induction results as [|x results IH]; intros i totals; simpl.
  - intros [= <-]. by rewrite app_nil_r.
  - assert (scoresPoints s x
            = match points (derived (get s x)) with
              | Some p => negb (p =? 0)%Z
              | None => false
              end) as Hsc by reflexivity.
    destruct (points (derived (get s x))) as [p|] eqn:Hp;
      [destruct (Z.eqb_spec p 0) as [->|Hne]|].
    + rewrite filter_cons_False by (rewrite Hsc; simpl; auto). apply IH.
    + destruct (upsert _ _ _ totals) as [o1|] eqn:Hup;
        [|by rewrite forEach_from_thrown].
      intros H. rewrite (IH _ _ H). rewrite (rowsOf_upsert _ k _ _ _ _ Hup).
      destruct (String.eqb_spec k (individualKey (info (get s x)))) as [Hk|Hk].
      * rewrite filter_cons_True
          by (rewrite Hsc; simpl; by apply String.eqb_eq).
        simpl. rewrite <- app_assoc. simpl.
        do 3 f_equal. unfold rowFor, pointsOf, placeOf, fieldSizeOf. by rewrite Hp.
      * rewrite filter_cons_False; [done|].
        rewrite Hsc. simpl. intros Heq%String.eqb_eq. done.
    + rewrite filter_cons_False by (rewrite Hsc; simpl; auto). apply IH.
Qed.

Lemma key_split a a' r r' :
  noUnderscore a = true -> noUnderscore a' = true ->
  (a ++ "_" ++ r = a' ++ "_" ++ r')%string -> a = a' /\ r = r'.
Proof.
  revert a'. induction a as [|c a IH]; intros [|c' a'] Ha Ha'; simpl in *.
  - by intros [= ->].
  - intros [= <- _]. by rewrite Ascii.eqb_refl in Ha'.
  - intros [= -> _]. by rewrite Ascii.eqb_refl in Ha.
  - apply andb_true_iff in Ha as [_ Ha]. apply andb_true_iff in Ha' as [_ Ha'].
    intros [= -> H]. destruct (IH a' Ha Ha' H) as [-> ->]. done.
Qed.

Lemma append_inj_r (a x y : string) : (a ++ x = a ++ y)%string -> x = y.
Proof. induction a as [|c a IH]; simpl; [done|]. intros [= H]. by apply IH. Qed.

(** C7 does not hold as stated.  Two results whose first name, last name
    and team agree after trimming are kept apart when the teams differ in
    white space around the name; and two results with different names are
    merged when the underscores of the key fall together. *)
Lemma key_is_not_the_trimmed_triple :
  (let a := info (get spaceStore 0%nat) in
   let b := info (get spaceStore 1%nat) in
   trim (firstName a) = trim (firstName b)
   /\ trim (lastName a) = trim (lastName b)
   /\ option_map trim (team a) = option_map trim (team b)
   /\ match snd (calculateSeasonStandings spaceStore twoEventSeason "M" None) with
      | Some r =>
          map (fun e => (a_team (ident e), map eventName (eventResults e))) (individuals r)
          = [(Some "Brainerd", ["E1"]); (Some "Brainerd ", ["E2"])]
      | None => False
      end)
  /\ (let a := info (get underscoreStore 0%nat) in
      let b := info (get underscoreStore 1%nat) in
      trim (firstName a) <> trim (firstName b)
      /\ trim (lastName a) <> trim (lastName b)
      /\ match snd (calculateSeasonStandings underscoreStore twoEventSeason "M" None) with
         | Some r =>
             map (fun e => (a_firstName (ident e), a_lastName (ident e),
                            map eventName (eventResults e))) (individuals r)
             = [("Ann_Mae", "Lee", ["E1"; "E2"])]
         | None => False
         end).
Proof. split; vm_compute; repeat split; discriminate. Qed.

(** C7, amended.  The individual results are accumulated under the key
    made of the trimmed first name, the trimmed last name and the team as
    it is stored, joined by underscores.  Results with the same trimmed
    names and the same team have the same key; the same names with
    another team have another key, so that a name match in another team is
    another athlete; and when the trimmed names hold no underscore,
    results with the same key have the same trimmed names and the same
    team.  The results of an event add, under each key, one row for
    every result with that key whose points are not 0, and nothing for a
    result with 0 points; the accumulation goes through when the results
    with points are racers of scoring teams, as they are in
    [calculateSeasonStandings]. *)
Theorem individual_accumulation_key (r1 r2 : racerInfo) (t1 t2 : string)
    (s : store) (ev : event) (results : list ref)
    (totals totals' : object (athlete * list eventResult)) (k : string) :
  (trim (firstName r1) = trim (firstName r2) ->
   trim (lastName r1) = trim (lastName r2) ->
   team r1 = team r2 ->
   individualKey r1 = individualKey r2)
  /\ (team r1 = Some t1 -> team r2 = Some t2 ->
      noUnderscore (trim (firstName r1)) = true ->
      noUnderscore (trim (lastName r1)) = true ->
      noUnderscore (trim (firstName r2)) = true ->
      noUnderscore (trim (lastName r2)) = true ->
      individualKey r1 = individualKey r2 ->
      trim (firstName r1) = trim (firstName r2)
      /\ trim (lastName r1) = trim (lastName r2)
      /\ t1 = t2)
  /\ (team r1 = Some t1 -> team r2 = Some t2 ->
      trim (firstName r1) = trim (firstName r2) ->
      trim (lastName r1) = trim (lastName r2) ->
      t1 <> t2 ->
      individualKey r1 <> individualKey r2)
  /\ (forEach (addIndividual s ev) results (Some totals) = Some totals' ->
      rowsOf k totals'
      = rowsOf k totals
        ++ map (rowFor s ev)
               (filter (fun l => scoresPoints s l
                                 && String.eqb k (individualKey (info (get s l))) = true)
                       results))
  /\ ((forall l, l ∈ results -> scoresPoints s l = true ->
                  isScoringTeam (teamOf s l) = true) ->
      is_Some (forEach (addIndividual s ev) results (Some totals))).
Proof.
  split; [|split; [|split; [|split]]].
  - unfold individualKey. by intros -> -> ->.
  - unfold individualKey. intros -> -> Hf1 Hl1 Hf2 Hl2 Hkey.
    apply key_split in Hkey as [Hf Hkey]; [|done..].
    apply key_split in Hkey as [Hl Hkey]; [|done..]. done.
  - unfold individualKey. intros -> -> -> -> Hne Hkey.
    apply append_inj_r in Hkey. injection Hkey as Hkey.
    apply append_inj_r in Hkey. by injection Hkey.
  - apply addIndividual_rows.
  - intros Hteams.
    destruct (addIndividual_total s ev results 0 totals) as [totals'' H]; [|by eexists].
    intros l Hl Hsc. apply key_not_inherited. by apply Hteams.
Qed.

Lemma individual_accumulation_key_witness :
  let a := info (get tieExample 1%nat) in
  let b := info (get tieExample 3%nat) in
  let s' := fst (calculateIndividualResults tieExample [0; 1; 2; 3]%nat "M" None) in
  individualKey a <> individualKey b
  /\ exists totals',
       forEach (addIndividual s' (mkEvent "E1" "2024-01-05" []))
               [1; 3; 2; 0]%nat (Some []) = Some totals'
       /\ map e_points (rowsOf (individualKey a) totals') = [4%Z].
Proof.
  intros a b s'.
  destruct (forEach (addIndividual s' (mkEvent "E1" "2024-01-05" []))
                    [1; 3; 2; 0]%nat (Some [])) as [totals'|] eqn:E;
    [|by vm_compute in E].
  destruct (individual_accumulation_key a b "Brainerd" "Brainerd" s'
              (mkEvent "E1" "2024-01-05" []) [1; 3; 2; 0]%nat [] totals'
              (individualKey a)) as (_ & Hinj & _ & Hrows & _).
  split.
  - intros Hkey.
    destruct Hinj as (Hf & _); [reflexivity..|exact Hkey|].
    by vm_compute in Hf.
  - exists totals'. split; [reflexivity|].
    rewrite (Hrows E). by vm_compute.
Defined.

(** * Further properties of the code *)

(** ** Classes and divisions *)

(** X1.  [matchesClass] with the filter of a division and
    [getClassCategory] agree: a class matches the filter Varsity, or JV,
    exactly when that is its category; no class matches both; and every
    category is the class of a division of [getDivisions]. *)
Theorem class_category_agrees (c : option string) :
  (matchesClass c "Varsity" = true <-> getClassCategory c = Some "Varsity")
  /\ (matchesClass c "JV" = true <-> getClassCategory c = Some "JV")
  /\ (matchesClass c "Varsity" = true -> matchesClass c "JV" = false)
  /\ (forall k, getClassCategory c = Some k ->
        exists d, d ∈ getDivisions /\ d_class d = k /\ matchesClass c (d_class d) = true).
Proof.
  unfold matchesClass, getClassCategory.
  destruct c as [[|c0 c]|].
  1, 3: repeat split; try done; intros; discriminate.
  set (n := trim (toUpperCase (String c0 c))).
  change (trim (toUpperCase "Varsity")) with "VARSITY".
  change (trim (toUpperCase "JV")) with "JV".
  cbn [String.eqb Ascii.eqb Bool.eqb andb].
  destruct (String.eqb_spec n "V") as [->|?];
    [repeat split; try done; intros k [= <-]; exists (mkDivision "M" "Varsity" "Boys Varsity");
     repeat split; in_list|].
  destruct (String.eqb_spec n "VM") as [->|?];
    [repeat split; try done; intros k [= <-]; exists (mkDivision "M" "Varsity" "Boys Varsity");
     repeat split; in_list|].
  destruct (String.eqb_spec n "VF") as [->|?];
    [repeat split; try done; intros k [= <-]; exists (mkDivision "M" "Varsity" "Boys Varsity");
     repeat split; in_list|].
  destruct (String.eqb_spec n "VARSITY") as [->|?];
    [repeat split; try done; intros k [= <-]; exists (mkDivision "M" "Varsity" "Boys Varsity");
     repeat split; in_list|].
  cbn [orb].
  destruct (String.eqb_spec n "JV") as [->|?];
    [repeat split; try done; intros k [= <-]; exists (mkDivision "M" "JV" "Boys JV");
     repeat split; in_list|].
  destruct (String.eqb_spec n "JVM") as [->|?];
    [repeat split; try done; intros k [= <-]; exists (mkDivision "M" "JV" "Boys JV");
     repeat split; in_list|].
  destruct (String.eqb_spec n "JVF") as [->|?];
    [repeat split; try done; intros k [= <-]; exists (mkDivision "M" "JV" "Boys JV");
     repeat split; in_list|].
  repeat split; try done.
Qed.

(** X2.  The class filter of [calculateIndividualResults] is for display
    only: the store the call leaves, and so every place, point count and
    field size, is the one of the call without a class, and the racers
    returned are those of the call without a class that match it, in the
    same order. *)
Theorem class_filter_is_display_only (s : store) (racers : list ref) (g : string)
    (c : option string) :
  let '(s0, all) := calculateIndividualResults s racers g None in
  calculateIndividualResults s racers g c = (s0, classFilter s0 c all).
Proof.
  destruct (individual_phases s racers g c) as (s1 & rc & Hrr & Hc).
  destruct (individual_phases s racers g None) as (s1' & rc' & Hrr' & Hn).
  rewrite Hrr in Hrr'. injection Hrr' as <- <-.
  cbv zeta in Hc, Hn. rewrite Hn, Hc. reflexivity.
Qed.

(** ** Ranking loops *)

(** The three ranking loops of [scoring.js] have one shape: a racer
    whose time equals its predecessor's takes the predecessor's value,
    any other racer the value of the loop counter. *)
Section RankLoop.
Context (F : list ref) (body : store * Z -> ref -> nat -> store * Z).
Context {V : Type} (valueOf : racer -> V) (fresh : Z -> V).
Context (key : racerInfo -> option number).

Hypothesis body_writes :
  forall st x i, only_writes [x] (fst st) (fst (body st x i)).
Hypothesis body_step :
  forall s k x i, (x < length s)%nat ->
    valueOf (get (fst (body (s, k) x i)) x)
    = (if (0 <? i)%nat
          && time_eq (key (info (get s x))) (key (info (get s (F !!! (i - 1)%nat))))
       then valueOf (get s (F !!! (i - 1)%nat)) else fresh k)
    /\ snd (body (s, k) x i) = (Z.of_nat i + 2)%Z.

Lemma rankLoop_prefix s n :
  NoDup F -> Forall (fun l => (l < length s)%nat) F -> (n <= length F)%nat ->
  let st := forEach body (take n F) (s, 1%Z) in
  snd st = (Z.of_nat n + 1)%Z
  /\ only_writes (take n F) s (fst st)
  /\ ranked F valueOf fresh key s (fst st) n.
Proof.
  intros Hnd Hval. induction n as [|n IH]; intros Hn.
  - cbv zeta. simpl. split; [done|]. split; [apply only_writes_refl|].
    intros i l; lia.
  - destruct (lookup_lt_is_Some_2 F n) as [x Hx]; [lia|].
    cbv zeta. rewrite (take_S_r _ _ _ Hx), forEach_snoc, length_take_le by lia.
    destruct IH as (Hk & Hw & Hch); [lia|].
    destruct (forEach body (take n F) (s, 1%Z)) as [sn kn].
    cbn [fst snd] in Hk, Hw, Hch. subst kn.
    assert (x < length sn)%nat as Hxn.
    { destruct Hw as (-> & _). rewrite Forall_forall in Hval. apply Hval.
      apply list_elem_of_lookup. eauto. }
    pose proof (body_step sn (Z.of_nat n + 1) x n Hxn) as [Hv Hk'].
    pose proof (body_writes (sn, (Z.of_nat n + 1)%Z) x n) as Hwx.
    destruct (body (sn, (Z.of_nat n + 1)%Z) x n) as [s' k'].
    cbn [fst snd] in *.
    assert (forall j y, (j < n)%nat -> F !! j = Some y -> get s' y = get sn y) as Hold.
    { intros j y Hj Hy. apply (only_writes_get [x]); [done|].
      rewrite list_elem_of_singleton. intros ->.
      assert (j = n) by (eapply NoDup_lookup; eauto). lia. }
    assert (forall l, info (get sn l) = info (get s l)) as Hinfo
      by (by destruct Hw as (_ & ? & _)).
    split; [lia|]. split.
    + eapply only_writes_trans.
      * eapply only_writes_mono; [|exact Hw]. intros l Hl.
        apply elem_of_app. by left.
      * eapply only_writes_mono; [|exact Hwx]. intros l Hl.
        apply elem_of_app. by right.
    + intros i l Hi Hl.
      destruct (decide (i = n)) as [->|Hne].
      * assert (l = x) by congruence. subst l.
        rewrite !Hinfo in Hv. rewrite Hv.
        destruct ((0 <? n)%nat && _) eqn:Htie; [|done].
        apply andb_true_iff in Htie as [Hpos%Nat.ltb_lt _].
        destruct (lookup_lt_is_Some_2 F (n - 1)) as [p Hp]; [lia|].
        rewrite (lookup_total_Some _ _ _ Hp).
        by rewrite (Hold (n - 1)%nat p) by (done || lia).
      * assert (i < n)%nat as Hlt by lia.
        rewrite (Hold i l Hlt Hl), (Hch i l Hlt Hl).
        destruct ((0 <? i)%nat && _) eqn:Htie; [|done].
        apply andb_true_iff in Htie as [Hpos%Nat.ltb_lt _].
        destruct (lookup_lt_is_Some_2 F (i - 1)) as [p Hp]; [lia|].
        rewrite (lookup_total_Some _ _ _ Hp).
        by rewrite (Hold (i - 1)%nat p) by (done || lia).
Qed.

Lemma rankLoop_rule s :
  NoDup F -> Forall (fun l => (l < length s)%nat) F ->
  let s' := fst (forEach body F (s, 1%Z)) in
  only_writes F s s' /\ ranked F valueOf fresh key s s' (length F).
Proof.
  intros Hnd Hval.
  destruct (rankLoop_prefix s (length F) Hnd Hval (le_n _)) as (_ & Hw & Hr).
  rewrite firstn_all in *. by split.
Qed.
End RankLoop.

(** ** Competition ranking *)

Lemma Sorted_le_lookup (ts : list Z) i j x y :
  Sorted Z.le ts -> (i <= j)%nat -> ts !! i = Some x -> ts !! j = Some y -> (x <= y)%Z.
Proof.
  intros Hs. apply Sorted_StronglySorted in Hs; [|intros a b c; lia].
  revert i j. induction Hs as [|a ts Hs IH Hall]; intros i j Hij Hx Hy; [done|].
  destruct i as [|i], j as [|j]; simpl in *; try lia.
  - assert (x = y) by congruence. lia.
  - injection Hx as <-. rewrite Forall_forall in Hall. apply Hall.
    apply list_elem_of_lookup. eauto.
  - apply (IH i j); [lia|done..].
Qed.

Lemma filter_all {A} (P : A -> Prop) `{forall x, Decision (P x)} (l : list A) :
  (forall x, x ∈ l -> P x) -> filter P l = l.
Proof.
  induction l as [|x l IH]; intros Hall; [done|].
  rewrite filter_cons_True by (apply Hall; left). f_equal.
  apply IH. intros y Hy. apply Hall. by right.
Qed.

Lemma filter_none {A} (P : A -> Prop) `{forall x, Decision (P x)} (l : list A) :
  (forall x, x ∈ l -> ~ P x) -> filter P l = [].
Proof.
  induction l as [|x l IH]; intros Hall; [done|].
  rewrite filter_cons_False by (apply Hall; left).
  apply IH. intros y Hy. apply Hall. by right.
Qed.

(** In an ascending list the elements below the one at index [i] are the
    first [i], when its predecessor is below it. *)
Lemma count_below_sorted {A} (f : A -> Z) (F : list A) i l :
  Sorted Z.le (map f F) -> F !! i = Some l ->
  (forall p, (0 < i)%nat -> F !! (i - 1)%nat = Some p -> (f p < f l)%Z) ->
  length (filter (fun x => (f x <? f l)%Z = true) F) = i.
Proof.
  intros Hs Hl Hprev.
  assert (forall j x, F !! j = Some x -> ((f x <? f l)%Z = true <-> (j < i)%nat)) as Hiff.
  { intros j x Hx. rewrite Z.ltb_lt. split.
    - intros Hlt. destruct (decide (j < i)%nat) as [|Hge]; [done|].
      assert (f l <= f x)%Z; [|lia].
      apply (Sorted_le_lookup (map f F) i j); [done|lia|..];
        rewrite list_lookup_fmap; [by rewrite Hl | by rewrite Hx].
    - intros Hji.
      destruct (lookup_lt_is_Some_2 F (i - 1)) as [p Hp];
        [apply lookup_lt_Some in Hl; lia|].
      assert (f x <= f p)%Z.
      { apply (Sorted_le_lookup (map f F) j (i - 1)); [done|lia|..];
          rewrite list_lookup_fmap; [by rewrite Hx | by rewrite Hp]. }
      assert (0 < i)%nat as Hpos by lia. specialize (Hprev p Hpos Hp). lia. }
  rewrite <- (take_drop i F) at 1. rewrite filter_app, length_app.
  assert (filter (fun x => (f x <? f l)%Z = true) (take i F) = take i F) as ->.
  { apply filter_all. intros x Hx.
    apply elem_of_take in Hx as (j & Hj & Hji). by apply (Hiff j). }
  assert (filter (fun x => (f x <? f l)%Z = true) (drop i F) = []) as ->.
  { apply filter_none. intros x Hx.
    apply list_elem_of_lookup in Hx as [j Hj]. rewrite lookup_drop in Hj.
    rewrite (Hiff _ _ Hj). lia. }
  rewrite length_take_le; [simpl; lia|]. apply lookup_lt_Some in Hl. lia.
Qed.

Lemma below_ms t k z : k = Some (Fin z) -> below t k = (ms k <? t)%Z.
Proof. by intros ->. Qed.

Lemma filter_ext_in {A} (P Q : A -> Prop) `{forall x, Decision (P x)}
    `{forall x, Decision (Q x)} (l : list A) :
  (forall x, x ∈ l -> (P x <-> Q x)) -> filter P l = filter Q l.
Proof.
  induction l as [|x l IH]; intros Hext; [done|].
  assert (filter P l = filter Q l) as Hrest
    by (apply IH; intros y Hy; apply Hext; by right).
  destruct (decide (P x)) as [HP|HP].
  - rewrite !filter_cons_True; [by rewrite Hrest | by apply (Hext x); [left|] | done].
  - rewrite !filter_cons_False; [done | by rewrite <- (Hext x) by left | done].
Qed.

(** From the rule of the loop to the count: along a list in ascending
    order of integer times, the value of a racer is that of the counter at
    1 + the number of racers with a smaller time. *)
Lemma ranked_counts (F : list ref) {V} (valueOf : racer -> V) (fresh : Z -> V)
    (key : racerInfo -> option number) (s s' : store) :
  ranked F valueOf fresh key s s' (length F) ->
  (forall l, l ∈ F -> exists z, key (info (get s l)) = Some (Fin z)) ->
  Sorted Z.le (map (fun l => ms (key (info (get s l)))) F) ->
  forall l, l ∈ F ->
    valueOf (get s' l)
    = fresh (1 + fasterThan (fun x => key (info (get s x)))
                   (ms (key (info (get s l)))) F).
Proof.
  intros Hr Hfin Hs. unfold ranked in Hr.
  set (f := fun l => ms (key (info (get s l)))) in *.
  assert (forall t, fasterThan (fun x => key (info (get s x))) t F
                    = Z.of_nat (length (filter (fun x => (f x <? t)%Z = true) F)))
    as Hcount.
  { intros t. unfold fasterThan. f_equal. f_equal. apply filter_ext_in.
    intros x Hx. destruct (Hfin x Hx) as [z Hz]. unfold f.
    by rewrite (below_ms t _ z Hz). }
  assert (forall i l, F !! i = Some l ->
            valueOf (get s' l)
            = fresh (1 + Z.of_nat (length (filter (fun x => (f x <? f l)%Z = true) F))))
    as Hall.
  { induction i as [|i IH]; intros l Hl.
    - rewrite (Hr 0%nat l) by (done || (apply lookup_lt_Some in Hl; lia)). simpl.
      rewrite (count_below_sorted f F 0 l Hs Hl) by (intros; lia). done.
    - destruct (lookup_lt_is_Some_2 F i) as [p Hp];
        [apply lookup_lt_Some in Hl; lia|].
      rewrite (Hr (S i) l) by (done || (apply lookup_lt_Some in Hl; lia)).
      replace (S i - 1)%nat with i by lia.
      rewrite (lookup_total_Some _ _ _ Hp).
      destruct (Hfin l) as [z Hz]; [apply list_elem_of_lookup; eauto|].
      destruct (Hfin p) as [z' Hz']; [apply list_elem_of_lookup; eauto|].
      assert (f l = z) as Hfl by (unfold f; by rewrite Hz).
      assert (f p = z') as Hfp by (unfold f; by rewrite Hz').
      rewrite Hz, Hz'. simpl. destruct (Z.eqb_spec z z') as [Heq|Hne].
      + rewrite (IH p Hp). by rewrite Hfl, Hfp, Heq.
      + rewrite (count_below_sorted f F (S i) l Hs Hl).
        * f_equal. lia.
        * intros q _. replace (S i - 1)%nat with i by lia. rewrite Hp.
          intros [= <-].
          assert (f p <= f l)%Z; [|lia].
          apply (Sorted_le_lookup (map f F) i (S i)); [done|lia|..];
            rewrite list_lookup_fmap; [by rewrite Hp | by rewrite Hl]. }
  intros l Hl. apply list_elem_of_lookup in Hl as [i Hi].
  rewrite Hcount. by apply (Hall i).
Qed.

(** The comparator [a.time - b.time] sorts integer times in ascending
    order. *)
Lemma sort_by_time_sorted (key : ref -> option number) (L : list ref) :
  (forall l, l ∈ L -> exists z, key l = Some (Fin z)) ->
  Sorted Z.le (map (fun l => ms (key l))
                   (sort (fun a b => sub (num (key a)) (num (key b))) L)).
Proof.
  intros Hfin. set (cmp := fun a b => sub (num (key a)) (num (key b))).
  assert (forall x y, x ∈ L -> y ∈ L ->
                      gt cmp x y = (0 <? ms (key x) - ms (key y))%Z) as Hgt.
  { intros x y Hx Hy. unfold gt, cmp.
    destruct (Hfin x Hx) as [zx ->], (Hfin y Hy) as [zy ->]. simpl.
    apply positive_norm. }
  apply (Sorted_fmap _ (fun x y => (ms (key x) <= ms (key y))%Z)); [done|].
  apply (Sorted_members_impl (fun x y => gt cmp x y = false)).
  - intros x y Hx%elem_of_sort Hy%elem_of_sort. rewrite (Hgt x y Hx Hy).
    intros H%Z.ltb_ge. lia.
  - apply sort_inOrder. intros x y Hx Hy.
    rewrite (Hgt x y Hx Hy), (Hgt y x Hy Hx).
    intros H%Z.ltb_lt. apply Z.ltb_ge. lia.
Qed.

Lemma fasterThan_bounds key t L l :
  l ∈ L -> below t (key l) = false -> (0 <= fasterThan key t L < Z.of_nat (length L))%Z.
Proof.
  intros Hl Hb. unfold fasterThan.
  assert (~ below t (key l) = true) as Hn by (by rewrite Hb).
  pose proof (length_filter_lt (fun x => below t (key x) = true) L l Hl Hn). lia.
Qed.

(** A racer with a smaller time has fewer racers ahead. *)
Lemma fasterThan_lt key t t' L l :
  l ∈ L -> key l = Some (Fin t) -> (t < t')%Z ->
  (fasterThan key t L < fasterThan key t' L)%Z.
Proof.
  intros Hl Hk Hlt. unfold fasterThan.
  assert (filter (fun x => below t (key x) = true) L
          = filter (fun x => below t (key x) = true)
              (filter (fun x => below t' (key x) = true) L)) as ->.
  { rewrite list_filter_filter. apply filter_ext_in. intros x _.
    unfold below. destruct (key x) as [[| |z|]|]; try (split; [done|tauto]).
    rewrite !Z.ltb_lt. lia. }
  apply inj_lt.
  apply (length_filter_lt _ _ l).
  - apply list_elem_of_filter. split; [|done]. rewrite Hk. simpl. by apply Z.ltb_lt.
  - rewrite Hk. simpl. rewrite Z.ltb_irrefl. done.
Qed.

(** ** Places in individual scoring *)

(** X3.  Individual places are competition ranks.  For distinct racer
    objects with integer total times, the place of a finisher of a scoring
    team is 1 + the number of such finishers with a smaller total time, and
    the points are the field size less that number.  So equal times share
    a place, and a smaller time has a smaller place. *)
Theorem individual_place_counts_faster (s : store) (racers : list ref) (g : string)
    (c : option string) :
  NoDup racers ->
  Forall (fun l => (l < length s)%nat) racers ->
  finiteTimes s racers ->
  let s' := fst (calculateIndividualResults s racers g c) in
  let F := scoringFinishers s racers g in
  let fs := Z.of_nat (length (scoringTeamRacers s racers g)) in
  let ahead := fun l => fasterThan (timeOf s) (msOf s l) F in
  (forall l, l ∈ F ->
     (0 <= ahead l < fs)%Z
     /\ placeOf s' l = Place (1 + ahead l)
     /\ pointsOf s' l = Some (fs - ahead l)%Z)
  /\ (forall l l', l ∈ F -> l' ∈ F ->
        (msOf s l = msOf s l' -> ahead l = ahead l')
        /\ (msOf s l < msOf s l' -> ahead l < ahead l')%Z).
Proof.
  intros Hnd Hval Hfin s' F fs ahead.
  pose proof (individual_tieRule s racers g c Hnd Hval) as Hrule.
  cbv zeta in Hrule. fold s' F fs in Hrule.
  assert (forall l, l ∈ F -> timeOf s l = Some (Fin (msOf s l))) as Htime
    by (intros l Hl; by apply (finisher_time s racers g)).
  assert (ranked F (fun r => (place (derived r), points (derived r)))
            (fun k => (Place k, Some (getPointsForPlace k fs))) totalTime
            s s' (length F)) as Hranked.
  { intros i l _ Hl. specialize (Hrule i l Hl). unfold tieRule in Hrule.
    unfold timeOf, placeOf, pointsOf in Hrule.
    destruct (_ && _); destruct Hrule as [-> ->]; done. }
  split.
  - intros l Hl.
    pose proof (ranked_counts F _ _ totalTime s s' Hranked) as Hc.
    specialize (Hc ltac:(intros x Hx; eexists; by apply Htime)
                   (scoringFinishers_sorted s racers g Hfin) l Hl).
    cbn beta in Hc.
    change (fasterThan _ _ F) with (ahead l) in Hc.
    assert (0 <= ahead l < Z.of_nat (length F))%Z as Hb.
    { apply (fasterThan_bounds _ _ _ l Hl). rewrite (Htime l Hl). simpl.
      apply Z.ltb_irrefl. }
    pose proof (length_scoringFinishers s racers g) as HF. fold F in HF.
    split; [unfold fs; lia|].
    injection Hc as Hp Hq. unfold placeOf, pointsOf. rewrite Hp, Hq.
    split; [done|]. f_equal.
    rewrite getPointsForPlace_in_field by (unfold fs; lia). lia.
  - intros l l' Hl Hl'. split.
    + intros Heq. unfold ahead. by rewrite Heq.
    + intros Hlt. apply (fasterThan_lt _ _ _ _ l); [done| |done]. by apply Htime.
Qed.

Lemma individual_place_counts_faster_witness :
  let s := tieExample in
  let racers := [0; 1; 2; 3]%nat in
  let s' := fst (calculateIndividualResults s racers "M" None) in
  let F := scoringFinishers s racers "M" in
  F = [1; 3; 2; 0]%nat
  /\ placeOf s' 2%nat = Place (1 + fasterThan (timeOf s) (msOf s 2%nat) F)
  /\ fasterThan (timeOf s) (msOf s 2%nat) F = 2%Z.
Proof.
  intros s racers s' F.
  assert (NoDup racers) as Hnd by compute_done.
  assert (Forall (fun l => (l < length s)%nat) racers) as Hval
    by (repeat constructor).
  assert (finiteTimes s racers) as Hfin.
  { intros x Hx. right. unfold racers in Hx.
    repeat (apply elem_of_cons in Hx as [->|Hx]; [by eexists; vm_compute|]).
    by apply elem_of_nil in Hx. }
  assert (F = [1; 3; 2; 0]%nat) as HF by (by vm_compute).
  destruct (individual_place_counts_faster s racers "M" None Hnd Hval Hfin) as [H _].
  split; [exact HF|]. split; [|by vm_compute].
  apply (H 2%nat). fold F. rewrite HF. in_list.
Defined.

(** ** Run rankings *)

Lemma fasterThan_perm key t L L' : L ≡ₚ L' -> fasterThan key t L = fasterThan key t L'.
Proof. intros H. unfold fasterThan. by rewrite H. Qed.

(** Racers without a time are never counted. *)
Lemma fasterThan_not_null key t L :
  fasterThan key t (filter (fun l => not_null (key l) = true) L) = fasterThan key t L.
Proof.
  unfold fasterThan. rewrite list_filter_filter. f_equal. f_equal.
  apply list_filter_iff. intros x. unfold below, not_null.
  destruct (key x); [tauto | split; [tauto|done]].
Qed.

Section RankRun.
Context (runOf : racerInfo -> option number) (rankOf : scoring -> option Z).
Context (setRank : option Z -> scoring -> scoring).
Hypothesis rank_set : forall v d, rankOf (setRank v d) = v.

Lemma rankRun_count gr s :
  snd (rankRun runOf rankOf setRank gr s) = Z.of_nat (length (runRacers runOf s gr)).
Proof. reflexivity. Qed.

Lemma rankRun_ranked gr s :
  NoDup gr -> Forall (fun l => (l < length s)%nat) gr ->
  let R := runRacers runOf s gr in
  ranked R (fun r => rankOf (derived r)) Some runOf s
    (fst (rankRun runOf rankOf setRank gr s)) (length R).
Proof.
  intros Hnd Hval R. unfold rankRun. fold (runRacers runOf s gr). fold R. cbn [fst].
  apply rankLoop_rule.
  - intros [s0 k] x i. cbn [fst].
    assert (x ∈ [x]) by apply list_elem_of_here.
    destruct (_ && _); writes.
  - intros s0 k x i Hx. cbn [fst snd]. split; [|done].
    destruct (_ && _); rewrite derived_write; case_decide; try tauto; apply rank_set.
  - apply NoDup_sort. by apply NoDup_filter.
  - rewrite Forall_forall in *. intros l Hl%elem_of_sort.
    apply list_elem_of_filter in Hl as [_ Hl]. by apply Hval.
Qed.

(** The rank of a racer with an integer run time, among racers whose run
    times are null or integers. *)
Lemma rankRun_counts gr s l t :
  NoDup gr -> Forall (fun l => (l < length s)%nat) gr ->
  (forall x, x ∈ gr -> finite (runOf (info (get s x)))) ->
  l ∈ gr -> runOf (info (get s l)) = Some (Fin t) ->
  rankOf (derived (get (fst (rankRun runOf rankOf setRank gr s)) l))
  = Some (1 + fasterThan (fun x => runOf (info (get s x))) t gr)%Z.
Proof.
  intros Hnd Hval Hfin Hl Ht.
  pose proof (rankRun_ranked gr s Hnd Hval) as Hr. cbv zeta in Hr.
  assert (forall x, x ∈ runRacers runOf s gr ->
                    exists z, runOf (info (get s x)) = Some (Fin z)) as HfinR.
  { intros x Hx%elem_of_sort. apply list_elem_of_filter in Hx as [Hnn Hx].
    destruct (Hfin x Hx) as [Hn|Hz]; [|done]. by rewrite Hn in Hnn. }
  rewrite (ranked_counts _ _ _ _ _ _ Hr HfinR).
  - rewrite Ht. simpl. f_equal. f_equal. unfold runRacers.
    rewrite (fasterThan_perm _ _ _ _ (sort_perm _ _)).
    apply (fasterThan_not_null (fun x => runOf (info (get s x)))).
  - apply (sort_by_time_sorted (fun x => runOf (info (get s x)))).
    intros x Hx. apply HfinR. unfold runRacers. by apply elem_of_sort.
  - apply elem_of_sort, list_elem_of_filter. split; [by rewrite Ht | done].
Qed.

(** A racer without that run time is not visited. *)
Lemma rankRun_skips gr s l :
  runOf (info (get s l)) = None ->
  get (fst (rankRun runOf rankOf setRank gr s)) l = get s l.
Proof.
  intros Hn. apply (only_writes_get (runRacers runOf s gr)).
  - unfold rankRun. fold (runRacers runOf s gr). cbn [fst].
    apply (forEach_only_writes fst). intros [s0 k] x i Hx. cbn [fst].
    destruct (_ && _); writes.
  - intros Hl%elem_of_sort. apply list_elem_of_filter in Hl as [Hnn _].
    by rewrite Hn in Hnn.
Qed.

(** A property that the setter leaves alone is as before. *)
Lemma rankRun_frame {B} (proj : scoring -> B) gr s l :
  (forall v d, proj (setRank v d) = proj d) ->
  proj (derived (get (fst (rankRun runOf rankOf setRank gr s)) l))
  = proj (derived (get s l)).
Proof.
  intros Hproj. unfold rankRun. cbn [fst].
  apply (forEach_invariant
           (fun st : list racer * Z =>
              proj (derived (get (fst st) l)) = proj (derived (get s l)))); [done|].
  intros [s0 k] x i _ Hst. cbn [fst] in *.
  destruct (_ && _); rewrite derived_write; case_decide; by rewrite ?Hproj.
Qed.
End RankRun.

Lemma fasterThan_ext key key' t L :
  (forall x, key x = key' x) -> fasterThan key t L = fasterThan key' t L.
Proof.
  intros Hext. unfold fasterThan. f_equal. f_equal.
  apply list_filter_iff. intros x. by rewrite Hext.
Qed.

(** X4.  Run ranks are competition ranks among all racers of the gender,
    whatever their team and whether or not they finished.  For distinct
    racer objects whose run times are null or integers, a racer with a
    run-1 time has as [run1Rank] 1 + the number of racers of the gender
    with a smaller run-1 time, a racer without one is not assigned a
    [run1Rank], and [run1Count] is the number of racers of the gender with
    a run-1 time; likewise for run 2. *)
Theorem run_ranks_count_faster (s : store) (racers : list ref) (g : string) :
  NoDup racers ->
  Forall (fun l => (l < length s)%nat) racers ->
  finiteRuns s racers ->
  let G := genderRacers s racers g in
  let timed := fun (runOf : racerInfo -> option number) =>
    Z.of_nat (length (filter (fun l => not_null (runOf (info (get s l))) = true) G)) in
  let '(s', (run1Count, run2Count)) := calculateRunRankings s racers g in
  run1Count = timed run1 /\ run2Count = timed run2
  /\ forall l, l ∈ G ->
       (forall t, run1 (info (get s l)) = Some (Fin t) ->
          run1Rank (derived (get s' l))
          = Some (1 + fasterThan (fun x => run1 (info (get s x))) t G)%Z)
       /\ (run1 (info (get s l)) = None ->
           run1Rank (derived (get s' l)) = run1Rank (derived (get s l)))
       /\ (forall t, run2 (info (get s l)) = Some (Fin t) ->
             run2Rank (derived (get s' l))
             = Some (1 + fasterThan (fun x => run2 (info (get s x))) t G)%Z)
       /\ (run2 (info (get s l)) = None ->
           run2Rank (derived (get s' l)) = run2Rank (derived (get s l))).
Proof.
  intros Hnd Hval Hfin G timed. unfold calculateRunRankings.
  change (filter _ racers) with G.
  assert (NoDup G) as HndG by (by apply NoDup_filter).
  assert (forall x, x ∈ G -> x ∈ racers) as Hsub
    by (by intros x [? _]%elem_of_genderRacers).
  pose proof (rankRun_count run1 run1Rank set_run1Rank G s) as Hc1.
  pose proof (rankRun_only_writes run1 run1Rank set_run1Rank G s) as Hw1.
  pose proof (fun (l : nat) (t : Z) => rankRun_counts run1 run1Rank set_run1Rank
                           ltac:(done) G s l t) as Hr1.
  pose proof (fun l : nat => rankRun_skips run1 run1Rank set_run1Rank G s l) as Hs1.
  pose proof (fun l : nat => rankRun_frame run1 run1Rank set_run1Rank run2Rank G s l
                         ltac:(done)) as Hf1.
  destruct (rankRun run1 run1Rank set_run1Rank G s) as [s1 c1]. cbn [fst snd] in *.
  destruct Hw1 as (Hlen1 & Hinfo1 & _).
  pose proof (rankRun_count run2 run2Rank set_run2Rank G s1) as Hc2.
  pose proof (fun (l : nat) (t : Z) => rankRun_counts run2 run2Rank set_run2Rank
                           ltac:(done) G s1 l t) as Hr2.
  pose proof (fun l : nat => rankRun_skips run2 run2Rank set_run2Rank G s1 l) as Hs2.
  pose proof (fun l : nat => rankRun_frame run2 run2Rank set_run2Rank run1Rank G s1 l
                         ltac:(done)) as Hf2.
  destruct (rankRun run2 run2Rank set_run2Rank G s1) as [s2 c2]. cbn [fst snd] in *.
  assert (Forall (fun l => (l < length s)%nat) G) as HvalG.
  { rewrite Forall_forall in *. intros x Hx. by apply Hval, Hsub. }
  assert (forall runOf, runRacers runOf s1 G = runRacers runOf s G) as HR.
  { intros runOf. unfold runRacers. rewrite (sort_ext _
      (fun a b => sub (num (runOf (info (get s a)))) (num (runOf (info (get s b))))))
      by (intros; by rewrite !Hinfo1).
    f_equal. apply list_filter_iff. intros x. by rewrite Hinfo1. }
  split; [|split].
  - rewrite Hc1. unfold runRacers, timed. by rewrite length_sort.
  - rewrite Hc2, HR. unfold runRacers, timed. by rewrite length_sort.
  - intros l Hl. split; [|split; [|split]].
    + intros t Ht. rewrite Hf2. apply Hr1; try done.
      intros x Hx. by apply Hfin, Hsub.
    + intros Hn. by rewrite Hf2, Hs1.
    + intros t Ht. rewrite Hr2 with (t := t); try done.
      * f_equal. f_equal. apply fasterThan_ext. intros x. by rewrite Hinfo1.
      * by rewrite Hlen1.
      * intros x Hx. rewrite Hinfo1. by apply Hfin, Hsub.
      * by rewrite Hinfo1.
    + intros Hn. rewrite Hs2 by (by rewrite Hinfo1). apply Hf1.
Qed.

Lemma run_ranks_count_faster_witness :
  let s := dnfExample in
  let racers := [0; 1]%nat in
  let s' := fst (calculateRunRankings s racers "M") in
  dnf (info (get s 0%nat)) = true
  /\ run1Rank (derived (get s' 0%nat)) = Some 1%Z
  /\ run1Rank (derived (get s' 1%nat)) = Some 2%Z
  /\ run2Rank (derived (get s' 1%nat)) = None.
Proof.
  intros s racers s'.
  assert (NoDup racers) as Hnd by compute_done.
  assert (Forall (fun l => (l < length s)%nat) racers) as Hval
    by (repeat constructor).
  assert (finiteRuns s racers) as Hfin.
  { intros x Hx. unfold racers in Hx.
    repeat (apply elem_of_cons in Hx as [->|Hx];
            [split; (by left; vm_compute) || (by right; eexists; vm_compute)|]).
    by apply elem_of_nil in Hx. }
  pose proof (run_ranks_count_faster s racers "M" Hnd Hval Hfin) as H.
  cbv zeta in H. subst s'.
  destruct (calculateRunRankings s racers "M") as [s' [c1 c2]]. cbn [fst].
  destruct H as (_ & _ & H).
  assert (genderRacers s racers "M" = [0; 1]%nat) as HG by (by vm_compute).
  rewrite HG in H.
  split; [by vm_compute|].
  destruct (H 0%nat ltac:(in_list)) as (H0 & _).
  destruct (H 1%nat ltac:(in_list)) as (H1 & _ & _ & H2).
  rewrite (H0 30000%Z) by (by vm_compute).
  rewrite (H1 70000%Z) by (by vm_compute).
  rewrite H2 by (by vm_compute).
  split; [by vm_compute|]. split; by vm_compute.
Defined.

(** ** Team standings of a race *)

Lemma teamPlaceFinishers_only_writes F fs s k :
  only_writes F s (fst (forEach (teamPlaceFinisher F fs) F (s, k))).
Proof.
  apply (forEach_only_writes fst). intros st x i Hx.
  eapply only_writes_mono; [by apply singleton_subset|].
  apply teamPlaceFinisher_only_writes.
Qed.

Lemma teamPlaceNones_only_writes fs L s :
  only_writes L s (forEach (teamPlaceNone fs) L s).
Proof.
  apply (forEach_only_writes id). intros st x i Hx.
  eapply only_writes_mono; [by apply singleton_subset|].
  apply teamPlaceNone_only_writes.
Qed.

(** The stores between the phases of [calculateTeamStandings]: after the
    finishers got their team places, after the non-finishers, and after
    the teams were scored. *)
Lemma team_phases s racers g rc topN :
  let F := classFinishers s racers g rc in
  let N := classNonFinishers s racers g rc in
  let fs := Z.of_nat (length (classRacers s racers g rc)) in
  let s1 := fst (forEach (teamPlaceFinisher F fs) F (s, 1%Z)) in
  let s2 := forEach (teamPlaceNone fs) N s1 in
  calculateTeamStandings s racers g rc topN
  = match forEach (groupRacer s2) (F ++ N) (Some []) with
    | None => (s2, None)
    | Some teams =>
        let '(s3, scored) := forEach (scoreTeam topN) (values teams) (s2, []) in
        (s3, Some (withPlaces (sort byTeamTotal scored)))
    end.
Proof.
  intros F N fs s1 s2. unfold calculateTeamStandings.
  change (filter _ racers) with (classRacers s racers g rc).
  change (sort (byTotalTime s) _) with F. fold fs. fold s1.
  pose proof (teamPlaceFinishers_only_writes F fs s 1%Z) as (_ & Hi1 & _).
  fold s1 in Hi1.
  assert (filter (fun r => notFinished (get s1 r) = true) (classRacers s racers g rc) = N)
    as ->.
  { apply list_filter_iff. intros l.
    by rewrite (notFinished_info (get s1 l) (get s l) (Hi1 l)). }
  reflexivity.
Qed.

Lemma elem_of_classRacers s racers g rc l :
  l ∈ classRacers s racers g rc
  <-> l ∈ racers /\ genderOf s l = g /\ matchesClass (class (info (get s l))) rc = true.
Proof.
  unfold classRacers. rewrite list_elem_of_filter, andb_true_iff, String.eqb_eq. tauto.
Qed.

Lemma elem_of_classFinishers s racers g rc l :
  l ∈ classFinishers s racers g rc
  <-> l ∈ classRacers s racers g rc /\ finished (get s l) = true.
Proof. unfold classFinishers. rewrite elem_of_sort, list_elem_of_filter. tauto. Qed.

Lemma elem_of_classNonFinishers s racers g rc l :
  l ∈ classNonFinishers s racers g rc
  <-> l ∈ classRacers s racers g rc /\ finished (get s l) = false.
Proof.
  unfold classNonFinishers.
  rewrite list_elem_of_filter, notFinished_finished, negb_true_iff. tauto.
Qed.

(** Scoring the teams assigns [isScoring] only. *)
Lemma scoreTeams_frame {B} (proj : scoring -> B) topN ts st l :
  (forall v d, proj (set_isScoring v d) = proj d) ->
  proj (derived (get (fst (forEach (scoreTeam topN) ts st)) l))
  = proj (derived (get (fst st) l)).
Proof.
  intros Hproj.
  apply (forEach_invariant
           (fun st' : list racer * list team_t =>
              proj (derived (get (fst st') l)) = proj (derived (get (fst st) l)))); [done|].
  intros [s0 scored] t i _ Hst. unfold scoreTeam. cbn [fst] in *.
  rewrite <- Hst.
  apply (forEach_invariant
           (fun s' => proj (derived (get s' l)) = proj (derived (get s0 l)))); [done|].
  intros s' x j _ Hs'. rewrite derived_write. case_decide; by rewrite ?Hproj.
Qed.

Lemma teamPlaceNone_derived fs s x i l :
  derived (get (teamPlaceNone fs s x i) l)
  = if decide (x = l /\ (x < length s)%nat)
    then set_teamFieldSize (Some fs)
           (set_teamPoints (Some 0%Z) (set_teamPlace Null (derived (get s l))))
    else derived (get s l).
Proof.
  unfold teamPlaceNone. rewrite !derived_write, !length_write. by case_decide.
Qed.

Lemma teamPlaceNone_length fs s x i : length (teamPlaceNone fs s x i) = length s.
Proof. unfold teamPlaceNone. by rewrite !length_write. Qed.

Lemma teamPlaceFinisher_length F fs st x i :
  length (fst (teamPlaceFinisher F fs st x i)) = length (fst st).
Proof. by destruct (teamPlaceFinisher_only_writes F fs st x i) as (? & _). Qed.

Lemma teamPlaceFinisher_derived F fs s k x i l :
  exists v p,
    derived (get (fst (teamPlaceFinisher F fs (s, k) x i)) l)
    = if decide (x = l /\ (x < length s)%nat)
      then set_teamFieldSize (Some fs)
             (set_teamPoints p (set_teamPlace v (derived (get s l))))
      else derived (get s l).
Proof.
  unfold teamPlaceFinisher. destruct (_ && _); simpl;
    eexists _, _; rewrite !derived_write, !length_write; by case_decide.
Qed.

Lemma teamPlaceFinisher_step F fs s k x i :
  (x < length s)%nat ->
  (let r := get (fst (teamPlaceFinisher F fs (s, k) x i)) x in
   (teamPlace (derived r), teamPoints (derived r)))
  = (if (0 <? i)%nat
        && time_eq (totalTime (info (get s x)))
                   (totalTime (info (get s (F !!! (i - 1)%nat))))
     then (let p := get s (F !!! (i - 1)%nat) in
           (teamPlace (derived p), teamPoints (derived p)))
     else (Place k, Some (getPointsForPlace k fs)))
  /\ snd (teamPlaceFinisher F fs (s, k) x i) = (Z.of_nat i + 2)%Z.
Proof.
  intros Hx. unfold teamPlaceFinisher.
  destruct (_ && _); simpl; rewrite !derived_write, !length_write;
    repeat case_decide; try tauto; simpl; split; try done.
  all: naive_solver.
Qed.

(** The team places of the finishers after the first loop. *)
Lemma teamPlaceFinishers_ranked F fs s :
  NoDup F -> Forall (fun l => (l < length s)%nat) F ->
  ranked F (fun r => (teamPlace (derived r), teamPoints (derived r)))
    (fun k => (Place k, Some (getPointsForPlace k fs))) totalTime s
    (fst (forEach (teamPlaceFinisher F fs) F (s, 1%Z))) (length F).
Proof.
  intros Hnd Hval.
  apply (rankLoop_rule F (teamPlaceFinisher F fs)); [| |done|done].
  - intros st x i. apply teamPlaceFinisher_only_writes.
  - intros s0 k x i Hx. by apply teamPlaceFinisher_step.
Qed.

Lemma teamPlaceFinishers_fieldSize F fs s k l :
  l ∈ F -> (l < length s)%nat ->
  teamFieldSizeOf (fst (forEach (teamPlaceFinisher F fs) F (s, k))) l = Some fs.
Proof.
  intros Hl Hs.
  apply (forEach_from_establishes fst (teamPlaceFinisher F fs)
           (fun r => teamFieldSize (derived r) = Some fs) l id).
  - intros. apply teamPlaceFinisher_length.
  - intros [s0 k0] x i.
    destruct (teamPlaceFinisher_derived F fs s0 k0 x i l) as (v & p & ->).
    by case_decide.
  - intros [s0 k0] x i Hx Hlen. unfold id in *. subst x.
    destruct (teamPlaceFinisher_derived F fs s0 k0 l i l) as (v & p & ->).
    case_decide as H; [done|]. simpl in *. tauto.
  - by rewrite map_id.
  - done.
Qed.

Lemma teamPlaceNones_unplaced fs L s l :
  l ∈ L -> (l < length s)%nat ->
  let r := get (forEach (teamPlaceNone fs) L s) l in
  teamPlace (derived r) = Null /\ teamPoints (derived r) = Some 0%Z
  /\ teamFieldSize (derived r) = Some fs.
Proof.
  intros Hl Hs.
  apply (forEach_from_establishes id (teamPlaceNone fs)
           (fun r => teamPlace (derived r) = Null /\ teamPoints (derived r) = Some 0%Z
                     /\ teamFieldSize (derived r) = Some fs) l id).
  - intros. apply teamPlaceNone_length.
  - intros s0 x i. unfold id. rewrite !teamPlaceNone_derived. by case_decide.
  - intros s0 x i Hx Hlen. unfold id in *. subst x. rewrite !teamPlaceNone_derived.
    case_decide as H; [done|]. tauto.
  - by rewrite map_id.
  - done.
Qed.

(** The team places, points and field sizes that the call leaves are
    those after the two place loops. *)
Lemma team_fields_final s racers g rc topN l :
  let F := classFinishers s racers g rc in
  let N := classNonFinishers s racers g rc in
  let fs := Z.of_nat (length (classRacers s racers g rc)) in
  let s2 := forEach (teamPlaceNone fs) N (fst (forEach (teamPlaceFinisher F fs) F (s, 1%Z))) in
  let s' := fst (calculateTeamStandings s racers g rc topN) in
  teamPlaceOf s' l = teamPlaceOf s2 l /\ teamPointsOf s' l = teamPointsOf s2 l
  /\ teamFieldSizeOf s' l = teamFieldSizeOf s2 l.
Proof.
  intros F N fs s2 s'. subst s'. rewrite team_phases. fold F N fs s2.
  destruct (forEach (groupRacer s2) (F ++ N) (Some [])) as [teams|]; [|done].
  pose proof (fun B (proj : scoring -> B) =>
                scoreTeams_frame proj topN (values teams) (s2, []) l) as Hfr.
  destruct (forEach (scoreTeam topN) (values teams) (s2, [])) as [s3 scored].
  cbn [fst] in *. unfold teamPlaceOf, teamPointsOf, teamFieldSizeOf.
  by rewrite (Hfr _ teamPlace), (Hfr _ teamPoints), (Hfr _ teamFieldSize).
Qed.

Lemma length_classFinishers s racers g rc :
  (length (classFinishers s racers g rc) <= length (classRacers s racers g rc))%nat.
Proof. unfold classFinishers. rewrite length_sort. apply length_filter. Qed.

(** X5.  Team places are competition ranks in the field of the gender
    and class, whatever the teams.  For distinct racer objects with integer
    total times, [teamFieldSize] is the number of racers of the gender
    that match the class; the [teamPlace] of a finisher among them is 1 +
    the number of such finishers with a smaller total time and the
    [teamPoints] are the field size less that number; a racer among them
    that did not finish has [teamPlace] null and 0 [teamPoints]. *)
Theorem team_place_counts_faster (s : store) (racers : list ref) (g rc : string)
    (topN : nat) :
  NoDup racers ->
  Forall (fun l => (l < length s)%nat) racers ->
  finiteTimes s racers ->
  let s' := fst (calculateTeamStandings s racers g rc topN) in
  let F := classFinishers s racers g rc in
  let fs := Z.of_nat (length (classRacers s racers g rc)) in
  let ahead := fun l => fasterThan (timeOf s) (msOf s l) F in
  (forall l, l ∈ F ->
     (0 <= ahead l < fs)%Z
     /\ teamPlaceOf s' l = Place (1 + ahead l)
     /\ teamPointsOf s' l = Some (fs - ahead l)%Z
     /\ teamFieldSizeOf s' l = Some fs)
  /\ (forall l, l ∈ classNonFinishers s racers g rc ->
        teamPlaceOf s' l = Null /\ teamPointsOf s' l = Some 0%Z
        /\ teamFieldSizeOf s' l = Some fs).
Proof.
  intros Hnd Hval Hfin s' F fs ahead.
  set (N := classNonFinishers s racers g rc).
  set (s1 := fst (forEach (teamPlaceFinisher F fs) F (s, 1%Z))).
  set (s2 := forEach (teamPlaceNone fs) N s1).
  assert (forall l, teamPlaceOf s' l = teamPlaceOf s2 l
                    /\ teamPointsOf s' l = teamPointsOf s2 l
                    /\ teamFieldSizeOf s' l = teamFieldSizeOf s2 l) as Hfinal
    by (intros l; apply team_fields_final).
  assert (forall l, l ∈ classRacers s racers g rc -> (l < length s)%nat) as Hlt.
  { intros l [Hl _]%elem_of_classRacers. rewrite Forall_forall in Hval. by apply Hval. }
  assert (NoDup F) as HndF by (apply NoDup_sort; by do 2 apply NoDup_filter).
  assert (Forall (fun l => (l < length s)%nat) F) as HvalF.
  { apply Forall_forall. intros l [Hl _]%elem_of_classFinishers. by apply Hlt. }
  assert (length s1 = length s) as Hlen1
    by (by destruct (teamPlaceFinishers_only_writes F fs s 1%Z) as (? & _)).
  split.
  - intros l Hl.
    assert (get s2 l = get s1 l) as Hs2.
    { apply (only_writes_get N); [apply teamPlaceNones_only_writes|].
      apply elem_of_classFinishers in Hl as [_ Hf].
      intros [_ Hn]%elem_of_classNonFinishers. congruence. }
    assert (forall x, x ∈ F -> timeOf s x = Some (Fin (msOf s x))) as Htime.
    { intros x [[Hx _]%elem_of_classRacers Hf]%elem_of_classFinishers.
      unfold msOf. destruct (Hfin x Hx) as [Hn|[z Hz]]; [|by rewrite Hz].
      unfold finished, timeOf in *. by rewrite Hn in Hf. }
    pose proof (ranked_counts F _ _ totalTime s s1
                  (teamPlaceFinishers_ranked F fs s HndF HvalF)) as Hc.
    specialize (Hc ltac:(intros x Hx; eexists; by apply Htime)).
    assert (Sorted Z.le (map (fun l => ms (totalTime (info (get s l)))) F)) as Hsorted.
    { apply (sort_by_time_sorted (fun x => totalTime (info (get s x)))).
      intros x Hx. eexists. apply Htime. unfold F, classFinishers.
      by apply elem_of_sort. }
    specialize (Hc Hsorted l Hl).
    cbn beta in Hc. change (fasterThan _ _ F) with (ahead l) in Hc.
    assert (0 <= ahead l < Z.of_nat (length F))%Z as Hb.
    { apply (fasterThan_bounds _ _ _ l Hl). rewrite (Htime l Hl). simpl.
      apply Z.ltb_irrefl. }
    pose proof (length_classFinishers s racers g rc) as HF. fold F in HF.
    split; [unfold fs; lia|].
    destruct (Hfinal l) as (-> & -> & ->).
    unfold teamPlaceOf, teamPointsOf, teamFieldSizeOf. rewrite Hs2.
    injection Hc as Hp Hq. rewrite Hp, Hq.
    split; [done|]. split.
    + f_equal. rewrite getPointsForPlace_in_field by (unfold fs; lia). lia.
    + apply (teamPlaceFinishers_fieldSize F fs s 1%Z l Hl).
      rewrite Forall_forall in HvalF. by apply HvalF.
  - intros l Hl. destruct (Hfinal l) as (-> & -> & ->).
    apply teamPlaceNones_unplaced; [done|]. rewrite Hlen1. apply Hlt.
    by apply elem_of_classNonFinishers in Hl as [? _].
Qed.

Lemma team_place_counts_faster_witness :
  let s := fieldExample in
  let racers := [0; 1; 2; 3; 4; 5; 6; 7; 8; 9]%nat in
  let s' := fst (calculateTeamStandings s racers "M" "Varsity" 4) in
  (teamPlaceOf s' 0%nat = Place 2 /\ teamPlaceOf s' 8%nat = Place 2
   /\ teamPointsOf s' 8%nat = Some 9%Z /\ teamFieldSizeOf s' 8%nat = Some 10%Z)
  /\ (teamPlaceOf s' 4%nat = Null /\ teamPointsOf s' 4%nat = Some 0%Z).
Proof.
  intros s racers s'.
  assert (NoDup racers) as Hnd by compute_done.
  assert (Forall (fun l => (l < length s)%nat) racers) as Hval
    by (repeat constructor).
  assert (finiteTimes s racers) as Hfin.
  { intros x Hx. unfold racers in Hx.
    repeat (apply elem_of_cons in Hx as [->|Hx];
            [(by left; vm_compute) || (by right; eexists; vm_compute)|]).
    by apply elem_of_nil in Hx. }
  destruct (team_place_counts_faster s racers "M" "Varsity" 4 Hnd Hval Hfin) as [HF HN].
  assert (classFinishers s racers "M" "Varsity" = [1; 0; 8; 2; 3; 5; 6; 9]%nat) as HcF
    by (by vm_compute).
  assert (classNonFinishers s racers "M" "Varsity" = [4; 7]%nat) as HcN
    by (by vm_compute).
  rewrite HcF in HF. rewrite HcN in HN.
  destruct (HF 0%nat ltac:(in_list)) as (_ & H0 & _).
  destruct (HF 8%nat ltac:(in_list)) as (_ & H8 & H8' & H8'').
  destruct (HN 4%nat ltac:(in_list)) as (H4 & H4' & _).
  split; [split; [|split; [|split]]|split].
  - etransitivity; [exact H0 | by vm_compute].
  - etransitivity; [exact H8 | by vm_compute].
  - etransitivity; [exact H8' | by vm_compute].
  - etransitivity; [exact H8'' | by vm_compute].
  - exact H4.
  - exact H4'.
Defined.

(** ** Grouping the racers by team *)

Lemma own_None_keys {V} (k : string) (o : object V) : own k o = None <-> k ∉ map fst o.
Proof.
  induction o as [|[k' v] o IH]; simpl.
  - split; [intros _ H; by apply elem_of_nil in H | done].
  - rewrite not_elem_of_cons. destruct (String.eqb_spec k k') as [->|Hne].
    + split; [done | tauto].
    + rewrite IH. tauto.
Qed.

Lemma own_elem_of_iff {V} (k : string) (v : V) (o : object V) :
  NoDup (map fst o) -> ((k, v) ∈ o <-> own k o = Some v).
Proof.
  induction o as [|[k' v'] o IH]; simpl; intros Hnd.
  - split; [intros H; by apply elem_of_nil in H | done].
  - apply NoDup_cons in Hnd as [Hk' Hnd]. rewrite elem_of_cons, (IH Hnd).
    destruct (String.eqb_spec k k') as [->|Hne].
    + split; [|intros [= ->]; by left].
      intros [[= ->]|Hown]; [done|].
      apply own_None_keys in Hk'. congruence.
    + split; [intros [[= -> ->]|?]; [done|done] | by right].
Qed.

Lemma keys_replace {V} (k : string) (v : V) (o : object V) :
  map fst (JS.replace k v o) = map fst o.
Proof.
  induction o as [|[k' v'] o IH]; simpl; [done|].
  destruct (String.eqb k k'); simpl; by rewrite ?IH.
Qed.

Lemma upsert_keys {V} (k : string) (init : V) (f : V -> V) (o o' : object V) :
  upsert k init f o = Some o' -> NoDup (map fst o) -> NoDup (map fst o').
Proof.
  unfold upsert. destruct (own k o) eqn:Hown.
  - intros [= <-]. by rewrite keys_replace.
  - destruct (inherited k); [done|]. intros [= <-] Hnd.
    rewrite map_app. simpl. apply NoDup_app. split; [done|]. split.
    + intros x Hx ->%list_elem_of_singleton. by apply own_None_keys in Hown.
    + apply NoDup_singleton.
Qed.

Lemma own_upsert {V} (k k' : string) (init : V) (f : V -> V) (o o' : object V) :
  upsert k init f o = Some o' ->
  own k' o' = if String.eqb k' k then Some (f (default init (own k o))) else own k' o.
Proof.
  unfold upsert. destruct (own k o) as [v|] eqn:Hown.
  - intros [= <-]. rewrite own_replace, Hown. done.
  - destruct (inherited k); [done|]. intros [= <-]. rewrite own_snoc.
    destruct (String.eqb_spec k' k) as [->|Hne].
    + by rewrite Hown.
    + by destruct (own k' o).
Qed.

Lemma teamMembers_snoc s k L x :
  teamMembers s k (L ++ [x])
  = teamMembers s k L ++ (if teamIs k (teamOf s x) then [x] else []).
Proof.
  unfold teamMembers. rewrite filter_app. f_equal.
  destruct (teamIs k (teamOf s x)) eqn:E.
  - by rewrite filter_cons_True.
  - rewrite filter_cons_False; [done|]. by rewrite E.
Qed.

(** After the grouping loop the object holds, under each team name, the
    racers of that team in the order of the loop. *)
Lemma groupRacers_spec s L teams :
  forEach (groupRacer s) L (Some []) = Some teams ->
  NoDup (map fst teams) /\ forall k, own k teams = groupOf s k L.
Proof.
  revert teams. induction L as [|x L IH] using rev_ind; intros teams.
  - intros [= <-]. split; [constructor|]. intros k. unfold groupOf. simpl.
    by destruct k.
  - rewrite forEach_snoc.
    destruct (forEach (groupRacer s) L (Some [])) as [o|]; [|done].
    destruct (IH o eq_refl) as [Hnd Hown]. unfold groupRacer.
    assert (forall k t, teamOf s x = t -> (forall c0 c, t <> Some (String c0 c)) ->
                        groupOf s k (L ++ [x]) = groupOf s k L) as Hskip.
    { intros k t Ht Hne. unfold groupOf.
      destruct k as [|k0 k]; [done|]. rewrite teamMembers_snoc.
      assert (teamIs (String k0 k) (teamOf s x) = false) as ->; [|by rewrite app_nil_r].
      rewrite Ht. destruct t as [t'|]; [|done]. simpl.
      apply String.eqb_neq. intros ->. by apply (Hne k0 k). }
    fold (teamOf s x). destruct (teamOf s x) as [[|c0 c]|] eqn:Ht.
    + intros [= <-]. split; [done|]. intros k. rewrite Hown. symmetry.
      by apply (Hskip k (Some "")).
    + intros Hup. split; [by apply (upsert_keys _ _ _ _ _ Hup)|].
      intros k. rewrite (own_upsert _ k _ _ _ _ Hup), !Hown.
      destruct (String.eqb_spec k (String c0 c)) as [->|Hne].
      * unfold groupOf. rewrite teamMembers_snoc, Ht. cbn [teamIs].
        rewrite String.eqb_refl.
        destruct (teamMembers s (String c0 c) L) as [|m ms]; simpl; done.
      * unfold groupOf. destruct k as [|k0 k]; [done|].
        rewrite teamMembers_snoc, Ht. cbn [teamIs].
        assert (String.eqb (String c0 c) (String k0 k) = false) as ->
          by (apply String.eqb_neq; congruence).
        by rewrite app_nil_r.
    + intros [= <-]. split; [done|]. intros k. rewrite Hown. symmetry.
      by apply (Hskip k None).
Qed.

(** ** Scoring the teams *)

Lemma markScoring_frame {B} (proj : scoring -> B) L s l :
  (forall v d, proj (set_isScoring v d) = proj d) ->
  proj (derived (get (forEach (fun s r (_ : nat) => write (set_isScoring true) r s) L s) l))
  = proj (derived (get s l)).
Proof.
  intros Hproj.
  apply (forEach_invariant
           (fun s' => proj (derived (get s' l)) = proj (derived (get s l)))); [done|].
  intros s' x j _ Hs'. rewrite derived_write. case_decide; by rewrite ?Hproj.
Qed.

Lemma scoreTeam_scored topN s0 s scored t i :
  (forall l, teamPointsOf s l = teamPointsOf s0 l) ->
  snd (scoreTeam topN (s, scored) t i) = scored ++ [scoredTeam s0 topN t]
  /\ forall l, teamPointsOf (fst (scoreTeam topN (s, scored) t i)) l = teamPointsOf s0 l.
Proof.
  intros Hpts. unfold scoreTeam, scoredTeam. cbn [fst snd].
  assert (sort (byTeamPoints s) (t_racers t) = sort (byTeamPoints s0) (t_racers t)) as ->.
  { apply sort_ext. intros a b. unfold byTeamPoints.
    fold (teamPointsOf s a) (teamPointsOf s b). by rewrite !Hpts. }
  assert (filter (fun r => isPositive (teamPoints (derived (get s r))) = true)
            (sort (byTeamPoints s0) (t_racers t))
          = filter (fun r => isPositive (teamPointsOf s0 r) = true)
              (sort (byTeamPoints s0) (t_racers t))) as ->.
  { apply list_filter_iff. intros r. fold (teamPointsOf s r). by rewrite Hpts. }
  set (top := take topN _).
  assert (forall l, teamPointsOf
                      (forEach (fun s r (_ : nat) => write (set_isScoring true) r s) top s) l
                    = teamPointsOf s0 l) as Hpts'.
  { intros l. unfold teamPointsOf. rewrite (markScoring_frame teamPoints) by done.
    apply Hpts. }
  set (S := forEach _ top s) in *. clearbody S.
  split; [|done]. do 2 f_equal. unfold sumTeamPoints, teamScore.
  assert (forall L z,
            foldl (fun sum r => (sum + orZero (teamPoints (derived (get S r))))%Z) z L
            = foldl (fun sum r => (sum + orZero (teamPointsOf s0 r))%Z) z L) as Hsum.
  { induction L as [|r L IH]; intros z; simpl; [done|].
    fold (teamPointsOf S r). rewrite Hpts'. apply IH. }
  by rewrite Hsum.
Qed.

Lemma scoreTeams_scored topN s0 ts i s scored :
  (forall l, teamPointsOf s l = teamPointsOf s0 l) ->
  snd (forEach_from (scoreTeam topN) i ts (s, scored))
  = scored ++ map (scoredTeam s0 topN) ts.
Proof.
  revert i s scored. induction ts as [|t ts IH]; intros i s scored Hpts;
    cbn [forEach_from].
  - simpl. by rewrite app_nil_r.
  - destruct (scoreTeam_scored topN s0 s scored t i Hpts) as [Hsnd Hfst].
    destruct (scoreTeam topN (s, scored) t i) as [s1 scored1]. cbn [fst snd] in *.
    rewrite (IH _ _ _ Hfst), Hsnd. simpl. by rewrite <- app_assoc.
Qed.

(** The standings that are returned: the teams of the grouping loop,
    scored in the store after the place loops, sorted and ranked. *)
Lemma team_standings_scored s racers g rc topN s' standings :
  calculateTeamStandings s racers g rc topN = (s', Some standings) ->
  let F := classFinishers s racers g rc in
  let N := classNonFinishers s racers g rc in
  let fs := Z.of_nat (length (classRacers s racers g rc)) in
  let s2 := forEach (teamPlaceNone fs) N (fst (forEach (teamPlaceFinisher F fs) F (s, 1%Z))) in
  exists teams,
    forEach (groupRacer s2) (F ++ N) (Some []) = Some teams
    /\ standings = withPlaces (sort byTeamTotal (map (scoredTeam s2 topN) (values teams)))
    /\ (forall l, teamPointsOf s' l = teamPointsOf s2 l)
    /\ (forall l, info (get s2 l) = info (get s l))
    /\ s' = fst (forEach (scoreTeam topN) (values teams) (s2, []))
    /\ length s2 = length s.
Proof.
  intros Hcall F N fs s2. rewrite team_phases in Hcall. fold F N fs s2 in Hcall.
  destruct (forEach (groupRacer s2) (F ++ N) (Some [])) as [teams|]; [|done].
  exists teams. split; [done|].
  pose proof (scoreTeams_scored topN s2 (values teams) 0 s2 [] ltac:(done)) as Hsc.
  pose proof (fun l => scoreTeams_frame teamPoints topN (values teams) (s2, []) l
                         ltac:(done)) as Hfr.
  fold (forEach (scoreTeam topN) (values teams) (s2, [])) in Hsc.
  destruct (forEach (scoreTeam topN) (values teams) (s2, [])) as [s3 scored].
  cbn [fst snd] in *. injection Hcall as <- <-. rewrite Hsc. simpl.
  split; [done|]. split; [done|].
  assert (only_writes (F ++ N) s s2) as (Hlen & Hinfo & _).
  { eapply only_writes_trans.
    - eapply only_writes_mono; [|apply (teamPlaceFinishers_only_writes F fs s 1%Z)].
      intros l Hl. apply elem_of_app. by left.
    - eapply only_writes_mono; [|apply teamPlaceNones_only_writes].
      intros l Hl. apply elem_of_app. by right. }
  done.
Qed.

Lemma markScoring_marks L s l :
  l ∈ L -> (l < length s)%nat ->
  isScoring (derived (get (forEach (fun s r (_ : nat) => write (set_isScoring true) r s) L s) l))
  = true.
Proof.
  intros Hl Hs.
  apply (forEach_from_establishes id
           (fun s r (_ : nat) => write (set_isScoring true) r s)
           (fun r => isScoring (derived r) = true) l id).
  - intros. unfold id. apply length_write.
  - intros s0 x i. unfold id. rewrite derived_write. by case_decide.
  - intros s0 x i Hx Hlen. unfold id in *. subst x. rewrite derived_write.
    case_decide as H; [done|]. tauto.
  - by rewrite map_id.
  - done.
Qed.

Lemma markScoring_keeps L s l :
  isScoring (derived (get s l)) = true ->
  isScoring (derived (get (forEach (fun s r (_ : nat) => write (set_isScoring true) r s) L s) l))
  = true.
Proof.
  apply (forEach_from_preserves id
           (fun s r (_ : nat) => write (set_isScoring true) r s)
           (fun r => isScoring (derived r) = true) l).
  intros s0 x i. unfold id. rewrite derived_write. by case_decide.
Qed.

Lemma markScoring_length L s :
  length (forEach (fun s r (_ : nat) => write (set_isScoring true) r s) L s) = length s.
Proof.
  apply (forEach_from_length id (fun s r (_ : nat) => write (set_isScoring true) r s)).
  intros. unfold id. apply length_write.
Qed.

(** The scoring racers of every team are flagged [isScoring] when the
    loop over the teams ends. *)
Lemma scoreTeams_marks topN s0 ts l :
  forall i s scored,
    (forall x, teamPointsOf s x = teamPointsOf s0 x) ->
    (l < length s)%nat ->
    isScoring (derived (get s l)) = true
    \/ (exists t, t ∈ ts /\ l ∈ t_scoringRacers (scoredTeam s0 topN t)) ->
    isScoring (derived (get (fst (forEach_from (scoreTeam topN) i ts (s, scored))) l)) = true.
Proof.
  induction ts as [|t ts IH]; intros i s scored Hpts Hl Hcase; cbn [forEach_from].
  - destruct Hcase as [H|(t & Ht & _)]; [done | by apply elem_of_nil in Ht].
  - destruct (scoreTeam_scored topN s0 s scored t i Hpts) as [Hsnd Hfst].
    assert (length (fst (scoreTeam topN (s, scored) t i)) = length s) as Hlen
      by (by destruct (scoreTeam_only_writes topN (s, scored) t i) as (? & _)).
    assert (isScoring (derived (get s l)) = true
            \/ l ∈ t_scoringRacers (scoredTeam s0 topN t) ->
            isScoring (derived (get (fst (scoreTeam topN (s, scored) t i)) l)) = true)
      as Hstep.
    { unfold scoreTeam, scoredTeam. cbn [fst t_scoringRacers].
      intros [H|H]; [by apply markScoring_keeps|].
      apply markScoring_marks; [|done].
      assert (sort (byTeamPoints s) (t_racers t) = sort (byTeamPoints s0) (t_racers t))
        as ->.
      { apply sort_ext. intros a b. unfold byTeamPoints.
        fold (teamPointsOf s a) (teamPointsOf s b). by rewrite !Hpts. }
      rewrite (list_filter_iff _ (fun r => isPositive (teamPointsOf s0 r) = true)); [done|].
      intros r. fold (teamPointsOf s r). by rewrite Hpts. }
    destruct (scoreTeam topN (s, scored) t i) as [s1 scored1]. cbn [fst snd] in *.
    apply IH; [done|lia|].
    destruct Hcase as [H|(t' & [->|Ht']%elem_of_cons & Hin)].
    + left. apply Hstep. by left.
    + left. apply Hstep. by right.
    + right. by exists t'.
Qed.

Lemma withPlaces_lookup L i t :
  withPlaces L !! i = Some t ->
  exists t0, L !! i = Some t0 /\ t_name t = t_name t0 /\ t_racers t = t_racers t0
             /\ t_totalPoints t = t_totalPoints t0
             /\ t_scoringRacers t = t_scoringRacers t0
             /\ t_place t = Some (Z.of_nat i + 1)%Z.
Proof.
  unfold withPlaces. rewrite list_lookup_imap.
  destruct (L !! i) as [t0|]; [|done]. intros [= <-]. by exists t0.
Qed.

Lemma map_imap_same {A B} (proj : A -> B) (f : nat -> A -> A) (l : list A) :
  (forall i x, proj (f i x) = proj x) -> map proj (imap f l) = map proj l.
Proof.
  revert f. induction l as [|x l IH]; intros f Hf; [done|].
  simpl. rewrite Hf. f_equal. apply IH. intros i y. apply Hf.
Qed.

Lemma withPlaces_names L : map t_name (withPlaces L) = map t_name L.
Proof. unfold withPlaces. by apply map_imap_same. Qed.

Lemma withPlaces_totals L : map t_totalPoints (withPlaces L) = map t_totalPoints L.
Proof. unfold withPlaces. by apply map_imap_same. Qed.

Lemma gt_byTeamTotal a b : gt byTeamTotal a b = (t_totalPoints a <? t_totalPoints b)%Z.
Proof.
  unfold gt, byTeamTotal. simpl.
  destruct (Z.ltb_spec 0 (t_totalPoints b - t_totalPoints a));
    destruct (Z.ltb_spec (t_totalPoints a) (t_totalPoints b)); lia.
Qed.

Lemma sort_byTeamTotal_descending L : descending (map t_totalPoints (sort byTeamTotal L)).
Proof.
  apply (Sorted_fmap _ (fun a b => gt byTeamTotal a b = false)).
  - intros a b. rewrite gt_byTeamTotal. intros H%Z.ltb_ge. lia.
  - apply sort_inOrder. intros a b _ _. rewrite !gt_byTeamTotal.
    intros H%Z.ltb_lt. apply Z.ltb_ge. lia.
Qed.

(** The racers that are grouped are the racers of the gender and class. *)
Lemma class_arrays_perm s racers g rc :
  classFinishers s racers g rc ++ classNonFinishers s racers g rc
  ≡ₚ classRacers s racers g rc.
Proof.
  unfold classFinishers, classNonFinishers. rewrite sort_perm.
  rewrite (list_filter_iff (fun r => notFinished (get s r) = true)
             (fun r => ~ finished (get s r) = true)).
  - apply filter_app_complement.
  - intros l. rewrite notFinished_finished. by destruct (finished (get s l)).
Qed.

Lemma teamMembers_info s s' k L :
  (forall l, info (get s' l) = info (get s l)) -> teamMembers s' k L = teamMembers s k L.
Proof.
  intros Hi. unfold teamMembers. apply list_filter_iff. intros l. unfold teamOf.
  by rewrite Hi.
Qed.

Lemma elem_of_teamMembers s k L r :
  r ∈ teamMembers s k L <-> r ∈ L /\ teamOf s r = Some k.
Proof.
  unfold teamMembers. rewrite list_elem_of_filter. unfold teamIs.
  destruct (teamOf s r) as [t|].
  - rewrite String.eqb_eq. split; intros [? ?]; split; congruence.
  - split; intros [? ?]; done.
Qed.

(** The teams of the grouping loop, as the values of the object. *)
Lemma grouped_values s L teams :
  forEach (groupRacer s) L (Some []) = Some teams ->
  NoDup (map t_name (values teams))
  /\ forall t, t ∈ values teams
       <-> t_name t <> "" /\ teamMembers s (t_name t) L <> []
           /\ t = mkTeam (t_name t) (teamMembers s (t_name t) L) 0%Z [] None.
Proof.
  intros Hgr. destruct (groupRacers_spec s L teams Hgr) as [Hnd Hown].
  assert (forall k t, (k, t) ∈ teams
            <-> k <> "" /\ teamMembers s k L <> []
                /\ t = mkTeam k (teamMembers s k L) 0%Z [] None) as Hmem.
  { intros k t. rewrite (own_elem_of_iff k t teams Hnd), Hown. unfold groupOf.
    destruct k as [|k0 k]; [split; [done | by intros [? _]]|].
    destruct (teamMembers s (String k0 k) L) as [|m ms].
    - split; [done | by intros (_ & ? & _)].
    - split; [by intros [= <-] | by intros (_ & _ & ->)]. }
  assert (forall e, e ∈ teams -> t_name (snd e) = fst e) as Hname.
  { intros [k t] (_ & _ & ->)%Hmem. done. }
  split.
  - unfold values.
    assert (map t_name (map snd (entries teams)) = map fst (entries teams)) as ->.
    { rewrite map_map. apply map_ext_in. intros e He%list_elem_of_In. apply Hname.
      by rewrite <- (entries_perm teams). }
    by rewrite entries_perm.
  - intros t. rewrite elem_of_values. split.
    + intros [k Hk]. apply Hmem in Hk as (Hk1 & Hk2 & ->). done.
    + intros (H1 & H2 & H3). exists (t_name t). apply Hmem. done.
Qed.

(** X6.  The team standings of a race, when they are returned: one team
    for every non-empty team name among the racers of the gender and
    class, each name once; the racers of a team are the racers of the
    gender and class with that team name; the teams are in descending
    order of their total points and the place of a team is its 1-based
    position, whether or not totals are equal. *)
Theorem team_standings_grouping (s : store) (racers : list ref) (g rc : string)
    (topN : nat) (s' : store) (standings : list team_t) :
  calculateTeamStandings s racers g rc topN = (s', Some standings) ->
  let C := classRacers s racers g rc in
  NoDup (map t_name standings)
  /\ (forall k, k ∈ map t_name standings
        <-> k <> "" /\ exists r, r ∈ C /\ teamOf s r = Some k)
  /\ (forall t, t ∈ standings -> t_racers t ≡ₚ teamMembers s (t_name t) C)
  /\ descending (map t_totalPoints standings)
  /\ (forall i t, standings !! i = Some t -> t_place t = Some (Z.of_nat i + 1)%Z).
Proof.
  intros Hcall C.
  destruct (team_standings_scored s racers g rc topN s' standings Hcall)
    as (teams & Hgr & -> & _ & Hinfo & _).
  set (F := classFinishers s racers g rc) in *.
  set (N := classNonFinishers s racers g rc) in *.
  set (s2 := forEach _ N _) in *.
  destruct (grouped_values s2 (F ++ N) teams Hgr) as [Hnd Hval].
  assert (forall k, teamMembers s2 k (F ++ N) ≡ₚ teamMembers s k C) as Hmem.
  { intros k. rewrite (teamMembers_info s s2 k _ Hinfo). unfold teamMembers.
    unfold F, N. by rewrite (class_arrays_perm s racers g rc). }
  assert (map t_name (sort byTeamTotal (map (scoredTeam s2 topN) (values teams)))
          ≡ₚ map t_name (values teams)) as Hnames.
  { rewrite sort_perm, map_map. done. }
  split; [|split; [|split; [|split]]].
  - by rewrite withPlaces_names, Hnames.
  - intros k. rewrite withPlaces_names, Hnames, list_elem_of_fmap. split.
    + intros (t & -> & (Hne & Hm & _)%Hval). split; [done|].
      destruct (teamMembers s2 (t_name t) (F ++ N)) as [|r m] eqn:E; [done|].
      exists r. apply elem_of_teamMembers. rewrite <- Hmem, E. by left.
    + intros (Hne & r & Hr & Ht).
      exists (mkTeam k (teamMembers s2 k (F ++ N)) 0%Z [] None). split; [done|].
      apply Hval. split; [done|]. split; [|done]. simpl.
      intros Hnil. assert (r ∈ teamMembers s2 k (F ++ N)) as Hin
        by (rewrite Hmem; by apply elem_of_teamMembers).
      rewrite Hnil in Hin. by apply elem_of_nil in Hin.
  - intros t [i Hi]%list_elem_of_lookup.
    destruct (withPlaces_lookup _ _ _ Hi) as (t0 & Ht0 & -> & -> & _).
    assert (t0 ∈ map (scoredTeam s2 topN) (values teams)) as Hin
      by (rewrite <- (sort_perm byTeamTotal); apply list_elem_of_lookup; eauto).
    apply list_elem_of_fmap in Hin as (t1 & -> & (_ & _ & Ht1)%Hval).
    simpl. rewrite sort_perm. rewrite Ht1 at 1. simpl. apply Hmem.
  - rewrite withPlaces_totals. apply sort_byTeamTotal_descending.
  - intros i t Hi. by destruct (withPlaces_lookup _ _ _ Hi) as (t0 & _ & _ & _ & _ & _ & ?).
Qed.

Lemma gt_byTeamPoints s a b : gt (byTeamPoints s) a b = (teamScore s a <? teamScore s b)%Z.
Proof.
  unfold gt, byTeamPoints, teamScore, teamPointsOf. simpl.
  destruct (Z.ltb_spec 0 (orZero (teamPoints (derived (get s b)))
                          - orZero (teamPoints (derived (get s a)))));
    destruct (Z.ltb_spec (orZero (teamPoints (derived (get s a))))
                (orZero (teamPoints (derived (get s b))))); lia.
Qed.

(** X7.  The score of a team in the standings of a race: the racers of
    the team are listed in descending order of their team points; the
    scoring racers are the first [topN] of them with positive team points
    and are flagged [isScoring]; the total is the sum of the team points of
    the scoring racers. *)
Theorem team_score_is_top_n (s : store) (racers : list ref) (g rc : string)
    (topN : nat) (s' : store) (standings : list team_t) :
  calculateTeamStandings s racers g rc topN = (s', Some standings) ->
  Forall (fun l => (l < length s)%nat) racers ->
  forall t, t ∈ standings ->
    descending (map (teamScore s') (t_racers t))
    /\ t_scoringRacers t
       = take topN (filter (fun r => isPositive (teamPointsOf s' r) = true) (t_racers t))
    /\ (length (t_scoringRacers t) <= topN)%nat
    /\ t_totalPoints t = sumTeamPoints s' (t_scoringRacers t)
    /\ (forall r, r ∈ t_scoringRacers t -> isScoring (derived (get s' r)) = true).
Proof.
  intros Hcall Hvalid t Ht.
  destruct (team_standings_scored s racers g rc topN s' standings Hcall)
    as (teams & Hgr & -> & Hpts & Hinfo & Hs' & Hlen).
  set (F := classFinishers s racers g rc) in *.
  set (N := classNonFinishers s racers g rc) in *.
  set (s2 := forEach _ N _) in *.
  destruct (grouped_values s2 (F ++ N) teams Hgr) as [_ Hval].
  apply list_elem_of_lookup in Ht as [i Hi].
  destruct (withPlaces_lookup _ _ _ Hi) as (t0 & Ht0 & _ & -> & -> & -> & _).
  assert (t0 ∈ map (scoredTeam s2 topN) (values teams)) as Hin
    by (rewrite <- (sort_perm byTeamTotal); apply list_elem_of_lookup; eauto).
  apply list_elem_of_fmap in Hin as (t1 & -> & Ht1).
  assert (forall r, teamScore s' r = teamScore s2 r) as Hscore
    by (intros r; unfold teamScore; by rewrite Hpts).
  cbn [scoredTeam t_racers t_scoringRacers t_totalPoints].
  set (sorted := sort (byTeamPoints s2) (t_racers t1)).
  assert (filter (fun r => isPositive (teamPointsOf s' r) = true) sorted
          = filter (fun r => isPositive (teamPointsOf s2 r) = true) sorted) as Hfil.
  { apply list_filter_iff. intros r. by rewrite Hpts. }
  split; [|split; [|split; [|split]]].
  - rewrite (map_ext _ _ Hscore).
    apply (Sorted_fmap _ (fun a b => gt (byTeamPoints s2) a b = false)).
    + intros a b. rewrite gt_byTeamPoints. intros H%Z.ltb_ge. lia.
    + apply sort_inOrder. intros a b _ _. rewrite !gt_byTeamPoints.
      intros H%Z.ltb_lt. apply Z.ltb_ge. lia.
  - by rewrite Hfil.
  - rewrite length_take. lia.
  - unfold sumTeamPoints. generalize 0%Z.
    induction (take topN _) as [|r L IH]; intros z; simpl; [done|].
    by rewrite Hscore, IH.
  - intros r Hr. rewrite Hs'. apply (scoreTeams_marks topN s2); [done| |].
    + rewrite Hlen. rewrite Forall_forall in Hvalid. apply Hvalid.
      apply elem_of_take in Hr as (j & Hj & _).
      assert (r ∈ sorted) as Hrs.
      { assert (r ∈ filter (fun r => isPositive (teamPointsOf s2 r) = true) sorted) as H
          by (apply list_elem_of_lookup; eauto).
        by apply list_elem_of_filter in H as [_ H]. }
      apply elem_of_sort in Hrs. apply Hval in Ht1 as (_ & _ & Ht1).
      rewrite Ht1 in Hrs. simpl in Hrs.
      apply elem_of_teamMembers in Hrs as [Hrs _].
      assert (r ∈ classRacers s racers g rc) as HC
        by (rewrite <- (class_arrays_perm s racers g rc); exact Hrs).
      by apply elem_of_classRacers in HC as [? _].
    + right. exists t1. split; [done|]. exact Hr.
Qed.

Lemma teamExample_call :
  let call := calculateTeamStandings teamExample [0; 1; 2; 3; 4; 5; 6]%nat "M" "Varsity" 4 in
  call = (fst call, Some teamExampleStandings).
Proof.
  intros call. rewrite (surjective_pairing call) at 1. f_equal.
Qed.

Lemma team_standings_grouping_witness :
  let s := teamExample in
  let racers := [0; 1; 2; 3; 4; 5; 6]%nat in
  NoDup (map t_name teamExampleStandings)
  /\ [0; 1; 3; 4; 5]%nat
     ≡ₚ teamMembers s "Brainerd" (classRacers s racers "M" "Varsity").
Proof.
  intros s racers.
  destruct (team_standings_grouping s racers "M" "Varsity" 4 _ _ teamExample_call)
    as (Hnd & _ & Hmem & _).
  split; [exact Hnd|].
  apply (Hmem (mkTeam "Brainerd" [0; 1; 3; 4; 5]%nat 20 [0; 1; 3; 4]%nat (Some 1%Z))).
  unfold teamExampleStandings. in_list.
Defined.

Lemma team_score_is_top_n_witness :
  let s := teamExample in
  let racers := [0; 1; 2; 3; 4; 5; 6]%nat in
  let s' := fst (calculateTeamStandings s racers "M" "Varsity" 4) in
  20%Z = sumTeamPoints s' [0; 1; 3; 4]%nat
  /\ isScoring (derived (get s' 4%nat)) = true
  /\ isScoring (derived (get s' 5%nat)) = false.
Proof.
  intros s racers s'.
  assert (Forall (fun l => (l < length s)%nat) racers) as Hval
    by (repeat constructor).
  destruct (team_score_is_top_n s racers "M" "Varsity" 4 _ _ teamExample_call Hval
              (mkTeam "Brainerd" [0; 1; 3; 4; 5]%nat 20 [0; 1; 3; 4]%nat (Some 1%Z)))
    as (_ & _ & _ & Hsum & Hmark).
  { unfold teamExampleStandings. in_list. }
  split; [exact Hsum|]. split; [|by vm_compute].
  apply Hmark. simpl. in_list.
Defined.

(** ** When [calculateTeamStandings] throws *)

Lemma upsert_None {V} (k : string) (init : V) (f : V -> V) (o : object V) :
  upsert k init f o = None <-> own k o = None /\ inherited k = true.
Proof.
  unfold upsert. destruct (own k o); [split; [done | by intros [? _]]|].
  destruct (inherited k); split; try done. by intros [_ ?].
Qed.

(** The grouping loop throws at a racer whose team has an inherited
    name, and only there. *)
Lemma groupRacers_thrown s L :
  forEach (groupRacer s) L (Some []) = None
  <-> exists r k, r ∈ L /\ teamOf s r = Some k /\ inherited k = true.
Proof.
  induction L as [|x L IH] using rev_ind.
  - split; [done|]. intros (r & k & Hr & _). by apply elem_of_nil in Hr.
  - rewrite forEach_snoc.
    destruct (forEach (groupRacer s) L (Some [])) as [o|] eqn:Hgr.
    + assert (forall k, inherited k = true -> own k o = None) as Hkeys.
      { intros k Hk. destruct (groupRacers_spec s L o Hgr) as [_ Hown].
        rewrite Hown. unfold groupOf. destruct k as [|k0 k]; [done|].
        destruct (teamMembers s (String k0 k) L) as [|m ms] eqn:Hm; [done|].
        exfalso. assert (m ∈ teamMembers s (String k0 k) L) as Hin
          by (rewrite Hm; by left).
        apply elem_of_teamMembers in Hin as [Hin Ht].
        assert (Some o = None) as Hnone; [|done].
        apply IH. by exists m, (String k0 k). }
      unfold groupRacer. fold (teamOf s x).
      assert (forall r k, r ∈ L -> teamOf s r = Some k -> inherited k = false) as Hsafe.
      { intros r k Hr Ht. destruct (inherited k) eqn:Hk; [|done].
        assert (Some o = None) as Hnone; [|done].
        apply IH. by exists r, k. }
      destruct (teamOf s x) as [[|c0 c]|] eqn:Ht.
      * split; [done|]. intros (r & k & [Hr|Hr]%elem_of_app & Hk & Hin).
        -- by rewrite (Hsafe r k Hr Hk) in Hin.
        -- apply list_elem_of_singleton in Hr. subst r.
           rewrite Ht in Hk. injection Hk as <-. done.
      * rewrite upsert_None. split.
        -- intros [_ Hin]. exists x, (String c0 c). split; [|done].
           apply elem_of_app. right. by left.
        -- intros (r & k & [Hr|Hr]%elem_of_app & Hk & Hin).
           ++ by rewrite (Hsafe r k Hr Hk) in Hin.
           ++ apply list_elem_of_singleton in Hr. subst r.
              rewrite Ht in Hk. injection Hk as <-. split; [|done]. by apply Hkeys.
      * split; [done|]. intros (r & k & [Hr|Hr]%elem_of_app & Hk & Hin).
        -- by rewrite (Hsafe r k Hr Hk) in Hin.
        -- apply list_elem_of_singleton in Hr. subst r. by rewrite Ht in Hk.
    + split; [|done]. intros _.
      destruct (proj1 IH eq_refl) as (r & k & Hr & Hk).
      exists r, k. split; [|done]. apply elem_of_app. by left.
Qed.

(** X8.  [calculateTeamStandings] ends in a TypeError exactly when a
    racer of the gender and class has a team whose name is a property that
    every object inherits, such as "constructor" or "toString". *)
Theorem team_standings_type_error (s : store) (racers : list ref) (g rc : string)
    (topN : nat) :
  snd (calculateTeamStandings s racers g rc topN) = None
  <-> exists r k, r ∈ classRacers s racers g rc /\ teamOf s r = Some k
                  /\ inherited k = true.
Proof.
  rewrite team_phases. cbv zeta.
  set (F := classFinishers s racers g rc).
  set (N := classNonFinishers s racers g rc).
  set (s2 := forEach _ N _).
  assert (forall l, info (get s2 l) = info (get s l)) as Hinfo.
  { intros l. unfold s2.
    destruct (teamPlaceNones_only_writes
                (Z.of_nat (length (classRacers s racers g rc))) N
                (fst (forEach (teamPlaceFinisher F
                                 (Z.of_nat (length (classRacers s racers g rc)))) F
                        (s, 1%Z)))) as (_ & -> & _).
    by destruct (teamPlaceFinishers_only_writes F
                   (Z.of_nat (length (classRacers s racers g rc))) s 1%Z)
      as (_ & -> & _). }
  assert ((exists r k, r ∈ F ++ N /\ teamOf s2 r = Some k /\ inherited k = true)
          <-> exists r k, r ∈ classRacers s racers g rc /\ teamOf s r = Some k
                          /\ inherited k = true) as <-.
  { unfold F, N. setoid_rewrite (class_arrays_perm s racers g rc).
    unfold teamOf. by setoid_rewrite Hinfo. }
  rewrite <- groupRacers_thrown.
  destruct (forEach (groupRacer s2) (F ++ N) (Some [])) as [teams|]; [|done].
  by destruct (forEach (scoreTeam topN) (values teams) (s2, [])).
Qed.

(** ** Individual scoring and team scoring do not interfere *)

Lemma placeNones_frame {B} (proj : scoring -> B) fs rc L s l :
  (forall v1 v2 v3 v4 v5 d,
     proj (set_run2Count v5 (set_run1Count v4 (set_fieldSize v3
             (set_points v2 (set_place v1 d))))) = proj d) ->
  proj (derived (get (forEach (placeNone fs rc) L s) l)) = proj (derived (get s l)).
Proof.
  intros Hproj.
  apply (forEach_invariant
           (fun s' => proj (derived (get s' l)) = proj (derived (get s l)))); [done|].
  intros s' x j _ Hs'. rewrite placeNone_derived. case_decide; by rewrite ?Hproj.
Qed.

Lemma placeFinishers_frame {B} (proj : scoring -> B) F fs rc st l :
  (forall v1 v2 v3 v4 v5 d,
     proj (set_run2Count v5 (set_run1Count v4 (set_fieldSize v3
             (set_points v2 (set_place v1 d))))) = proj d) ->
  proj (derived (get (fst (forEach (placeFinisher F fs rc) F st)) l))
  = proj (derived (get (fst st) l)).
Proof.
  intros Hproj.
  apply (forEach_invariant
           (fun st' : list racer * Z =>
              proj (derived (get (fst st') l)) = proj (derived (get (fst st) l)))); [done|].
  intros [s' k] x j _ Hs'. cbn [fst] in *.
  destruct (placeFinisher_derived F fs rc s' k x j l) as (v & p & ->).
  case_decide; by rewrite ?Hproj.
Qed.

Lemma teamPlaceNones_frame {B} (proj : scoring -> B) fs L s l :
  (forall v1 v2 v3 d,
     proj (set_teamFieldSize v3 (set_teamPoints v2 (set_teamPlace v1 d))) = proj d) ->
  proj (derived (get (forEach (teamPlaceNone fs) L s) l)) = proj (derived (get s l)).
Proof.
  intros Hproj.
  apply (forEach_invariant
           (fun s' => proj (derived (get s' l)) = proj (derived (get s l)))); [done|].
  intros s' x j _ Hs'. rewrite teamPlaceNone_derived. case_decide; by rewrite ?Hproj.
Qed.

Lemma teamPlaceFinishers_frame {B} (proj : scoring -> B) F fs st l :
  (forall v1 v2 v3 d,
     proj (set_teamFieldSize v3 (set_teamPoints v2 (set_teamPlace v1 d))) = proj d) ->
  proj (derived (get (fst (forEach (teamPlaceFinisher F fs) F st)) l))
  = proj (derived (get (fst st) l)).
Proof.
  intros Hproj.
  apply (forEach_invariant
           (fun st' : list racer * Z =>
              proj (derived (get (fst st') l)) = proj (derived (get (fst st) l)))); [done|].
  intros [s' k] x j _ Hs'. cbn [fst] in *.
  destruct (teamPlaceFinisher_derived F fs s' k x j l) as (v & p & ->).
  case_decide; by rewrite ?Hproj.
Qed.

(** X9.  Individual scoring and team scoring assign different
    properties: [calculateIndividualResults] leaves [teamPlace],
    [teamPoints], [teamFieldSize] and [isScoring] of every racer as they
    were, and [calculateTeamStandings] leaves the run ranks, [place],
    [points], [fieldSize] and the run counts as they were, whatever its
    outcome. *)
Theorem scorings_do_not_interfere (s : store) (racers : list ref) (g : string)
    (c : option string) (rc : string) (topN : nat) (l : ref) :
  teamPart (derived (get (fst (calculateIndividualResults s racers g c)) l))
  = teamPart (derived (get s l))
  /\ individualPart (derived (get (fst (calculateTeamStandings s racers g rc topN)) l))
     = individualPart (derived (get s l)).
Proof.
  split.
  - destruct (individual_phases s racers g c) as (s1 & rc' & Hrr & ->). cbn [fst].
    rewrite !(placeNones_frame teamPart) by done.
    rewrite (placeFinishers_frame teamPart) by done. cbn [fst].
    unfold calculateRunRankings in Hrr.
    pose proof (fun gr s0 => rankRun_frame run1 run1Rank set_run1Rank teamPart gr s0 l
                               ltac:(done)) as H1.
    pose proof (fun gr s0 => rankRun_frame run2 run2Rank set_run2Rank teamPart gr s0 l
                               ltac:(done)) as H2.
    destruct (rankRun run1 run1Rank set_run1Rank _ s) as [sa ca] eqn:Ea.
    destruct (rankRun run2 run2Rank set_run2Rank _ sa) as [sb cb] eqn:Eb.
    injection Hrr as <- _.
    match type of Eb with
    | rankRun _ _ _ ?gr _ = _ => specialize (H2 gr sa); specialize (H1 gr s)
    end.
    rewrite Eb in H2. rewrite Ea in H1.
    cbn [fst] in *. by rewrite H2, H1.
  - rewrite team_phases. cbv zeta.
    set (F := classFinishers s racers g rc).
    set (N := classNonFinishers s racers g rc).
    set (fs := Z.of_nat (length (classRacers s racers g rc))).
    set (s2 := forEach (teamPlaceNone fs) N _).
    assert (individualPart (derived (get s2 l)) = individualPart (derived (get s l))) as H2.
    { unfold s2. rewrite (teamPlaceNones_frame individualPart) by done.
      by rewrite (teamPlaceFinishers_frame individualPart) by done. }
    destruct (forEach (groupRacer s2) (F ++ N) (Some [])) as [teams|]; [|done].
    pose proof (scoreTeams_frame individualPart topN (values teams) (s2, []) l
                  ltac:(done)) as H3.
    destruct (forEach (scoreTeam topN) (values teams) (s2, [])) as [s3 scored].
    cbn [fst] in *. by rewrite H3.
Qed.

(** ** The status of a racer *)

Lemma default_last_cons {A} (d d' : A) x l :
  default d (last (x :: l)) = default d' (last (x :: l)).
Proof.
  revert x. induction l as [|y l IH]; intros x; [done|].
  rewrite !last_cons_cons. apply IH.
Qed.

Section StatusLoop.
Context (step : acc -> timeEntry -> acc).
Hypothesis step_status :
  forall a t,
    let a' := note_status a (entryStatus t) in
    a_status (step a t) = a_status a' /\ a_dnf (step a t) = a_dnf a'
    /\ a_dsq (step a t) = a_dsq a'.

Lemma foldl_status times a :
  let a' := foldl step a times in
  let sts := map entryStatus times in
  a_status a' = default (a_status a) (last (filter (fun st => Status_eqb st OK = false) sts))
  /\ a_dnf a' = a_dnf a || existsb (fun st => Status_eqb st DNF) sts
  /\ a_dsq a' = a_dsq a || existsb (fun st => Status_eqb st DSQ) sts.
Proof.
  revert a. induction times as [|t times IH]; intros a; cbn [foldl map].
  - cbn. by rewrite !orb_false_r.
  - destruct (IH (step a t)) as (H1 & H2 & H3).
    destruct (step_status a t) as (S1 & S2 & S3).
    cbv zeta in *. rewrite H1, H2, H3, S1, S2, S3. clear.
    cbn [existsb].
    set (rest := filter _ (map entryStatus times)).
    destruct (entryStatus t), a as [r1 r2 d q st]; cbn [note_status a_status a_dnf a_dsq Status_eqb].
    + rewrite filter_cons_False by (cbn; congruence). fold rest. by rewrite !orb_false_l.
    + rewrite filter_cons_True by done. fold rest.
      rewrite orb_true_r, orb_false_l. split; [|by destruct d].
      destruct rest as [|x rest']; [done|].
      rewrite last_cons_cons. apply default_last_cons.
    + rewrite filter_cons_True by done. fold rest.
      rewrite orb_true_r, orb_false_l. split; [|by destruct q].
      destruct rest as [|x rest']; [done|].
      rewrite last_cons_cons. apply default_last_cons.
Qed.
End StatusLoop.

Lemma step_dual_status a t :
  let a' := note_status a (entryStatus t) in
  a_status (step_dual a t) = a_status a' /\ a_dnf (step_dual a t) = a_dnf a'
  /\ a_dsq (step_dual a t) = a_dsq a'.
Proof.
  unfold step_dual. fold (entryStatus t).
  by destruct (float_is _ 0); [|destruct (float_is _ 1)].
Qed.

Lemma step_single_status a t :
  let a' := note_status a (entryStatus t) in
  a_status (step_single a t) = a_status a' /\ a_dnf (step_single a t) = a_dnf a'
  /\ a_dsq (step_single a t) = a_dsq a'.
Proof.
  unfold step_single. fold (entryStatus t).
  by destruct (runIndex t =? 0)%Z; [|destruct (runIndex t =? 1)%Z].
Qed.

Lemma existsb_Status st sts : existsb (fun x => Status_eqb x st) sts = true <-> st ∈ sts.
Proof.
  rewrite existsb_exists. split.
  - intros (x & Hx%list_elem_of_In & Heq). by destruct x, st.
  - intros Hin. exists st. split; [by apply list_elem_of_In | by destruct st].
Qed.

Lemma lastStatus_OK sts :
  default OK (last (filter (fun st => Status_eqb st OK = false) sts)) = OK
  <-> existsb (fun st => Status_eqb st DNF) sts = false
      /\ existsb (fun st => Status_eqb st DSQ) sts = false.
Proof.
  assert (filter (fun st => Status_eqb st OK = false) sts = []
          <-> existsb (fun st => Status_eqb st DNF) sts = false
              /\ existsb (fun st => Status_eqb st DSQ) sts = false) as <-.
  { induction sts as [|st sts IH]; [done|]. cbn [existsb].
    destruct st; cbn [Status_eqb].
    - rewrite filter_cons_False by (cbn; congruence). by rewrite !orb_false_l.
    - rewrite filter_cons_True by done. split; [done | by intros [? _]].
    - rewrite filter_cons_True by done. split; [done | by intros [_ ?]]. }
  destruct (last (filter _ sts)) as [x|] eqn:E.
  - apply last_Some in E as [l' E]. simpl. split.
    + intros ->. assert (OK ∈ filter (fun st => Status_eqb st OK = false) sts) as Hin
        by (rewrite E; apply elem_of_app; right; by left).
      by apply list_elem_of_filter in Hin as [? _].
    + intros Hnil. rewrite Hnil in E. by destruct l'.
  - apply last_None in E. by rewrite E.
Qed.

(** X10.  The status that [processRacerTimes] reports, whatever the race
    type and the run times: [dnf] is set exactly when an entry has status
    DNF and [dsq] exactly when an entry has status DSQ, so both can be
    set; [status] is the status of the last entry that is not OK, and is
    OK exactly when neither flag is set; a racer with a total time has
    status OK and a run-1 time. *)
Theorem racer_status_is_last_not_OK (times : list timeEntry) (raceType : Z) :
  let p := processRacerTimes times raceType in
  p_status p = lastStatus times
  /\ (p_dnf p = true <-> DNF ∈ map entryStatus times)
  /\ (p_dsq p = true <-> DSQ ∈ map entryStatus times)
  /\ (p_status p = OK <-> p_dnf p = false /\ p_dsq p = false)
  /\ (p_totalTime p <> None -> p_status p = OK /\ p_run1 p <> None).
Proof.
  intros p.
  assert (p_status p = lastStatus times
          /\ p_dnf p = existsb (fun st => Status_eqb st DNF) (map entryStatus times)
          /\ p_dsq p = existsb (fun st => Status_eqb st DSQ) (map entryStatus times))
    as (Hst & Hdnf & Hdsq).
  { unfold p, processRacerTimes, lastStatus. cbn [p_status p_dnf p_dsq].
    destruct (raceType =? 1)%Z.
    - apply (foldl_status step_dual step_dual_status times acc0).
    - apply (foldl_status step_single step_single_status times acc0). }
  assert (p_status p = OK <-> p_dnf p = false /\ p_dsq p = false) as HOK.
  { rewrite Hst, Hdnf, Hdsq. apply lastStatus_OK. }
  split; [done|]. split; [by rewrite Hdnf, existsb_Status|].
  split; [by rewrite Hdsq, existsb_Status|]. split; [done|].
  intros Htot. rewrite HOK. revert Htot. unfold p, processRacerTimes.
  cbn [p_totalTime p_dnf p_dsq p_run1].
  destruct (a_dnf _), (a_dsq _); cbn [negb andb]; try done.
  destruct (a_run1 _); done.
Qed.

(** ** Time tokens *)

Lemma digits_app p rest acc :
  digitsOnly p = true ->
  match rest with String c _ => is_digit c = false | EmptyString => True end ->
  digits acc (p ++ rest)%string = (numeral_from acc p, String.length p, rest).
Proof.
  intros Hp Hrest. revert acc. induction p as [|c p IH]; intros acc; simpl.
  - destruct rest as [|c r]; [done|]. simpl. by rewrite Hrest.
  - simpl in Hp. apply andb_true_iff in Hp as [Hc Hp]. by rewrite Hc, (IH Hp).
Qed.

Lemma append_empty_r (p : string) : (p ++ "")%string = p.
Proof. induction p as [|c p IH]; simpl; [done | by rewrite IH]. Qed.

Lemma digits_all p acc :
  digitsOnly p = true -> digits acc p = (numeral_from acc p, String.length p, "").
Proof.
  intros Hp. pose proof (digits_app p "" acc Hp I) as H.
  by rewrite append_empty_r in H.
Qed.

Lemma allDigits_spec p : allDigits p = true <-> p <> "" /\ digitsOnly p = true.
Proof.
  unfold allDigits. split.
  - intros H. split; [by intros ->|].
    assert (forall acc q, match digits acc q with (_, _, EmptyString) => True | _ => False end ->
                          digitsOnly q = true) as Hgen.
    { intros acc q. revert acc. induction q as [|c q IH]; intros acc; simpl; [done|].
      destruct (is_digit c) eqn:Hc; [|done].
      specialize (IH (10 * acc + digit_value c)%Z).
      destruct (digits (10 * acc + digit_value c) q) as [[v n] r]. by destruct r. }
    apply (Hgen 0%Z). by destruct (digits 0 p) as [[v [|n]] [|c r]].
  - intros [Hne Hp]. rewrite (digits_all p 0 Hp).
    destruct p; [done|]. done.
Qed.

Lemma numeral_from_bounds p acc :
  digitsOnly p = true -> (0 <= acc)%Z ->
  (acc * 10 ^ Z.of_nat (String.length p) <= numeral_from acc p
   < (acc + 1) * 10 ^ Z.of_nat (String.length p))%Z.
Proof.
  intros Hp. revert acc. induction p as [|c p IH]; intros acc Hacc.
  - simpl. lia.
  - simpl in Hp. apply andb_true_iff in Hp as [Hc Hp].
    assert (0 <= digit_value c <= 9)%Z as Hd.
    { unfold is_digit in Hc. apply andb_true_iff in Hc as [H1%Nat.leb_le H2%Nat.leb_le].
      unfold digit_value. lia. }
    cbn [numeral_from String.length].
    specialize (IH Hp (10 * acc + digit_value c)%Z ltac:(lia)).
    rewrite Nat2Z.inj_succ, Z.pow_succ_r by lia.
    assert (0 < 10 ^ Z.of_nat (String.length p))%Z by (apply Z.pow_pos_nonneg; lia).
    nia.
Qed.

Lemma numeral_from_split p acc :
  numeral_from acc p = (acc * 10 ^ Z.of_nat (String.length p) + numeral p)%Z.
Proof.
  unfold numeral. revert acc. induction p as [|c p IH]; intros acc.
  - simpl. lia.
  - cbn [numeral_from String.length]. rewrite IH, (IH (10 * 0 + digit_value c)%Z).
    rewrite Nat2Z.inj_succ, Z.pow_succ_r by lia. lia.
Qed.

Lemma digit_is_plain c :
  is_digit c = true ->
  is_white c = false /\ Ascii.eqb c ":" = false /\ Ascii.eqb c "." = false
  /\ Ascii.eqb c "-" = false /\ Ascii.eqb c "+" = false /\ Ascii.eqb "I" c = false
  /\ Ascii.eqb "x" c = false /\ Ascii.eqb "X" c = false.
Proof. destruct c as [[] [] [] [] [] [] [] []]; by vm_compute. Qed.

Lemma digitsOnly_without p : digitsOnly p = true -> without ":" p = true.
Proof.
  induction p as [|c p IH]; [done|]. simpl. intros [Hc Hp]%andb_true_iff.
  destruct (digit_is_plain c Hc) as (_ & -> & _). by rewrite IH.
Qed.

Lemma without_app c a b : without c (a ++ b)%string = without c a && without c b.
Proof. induction a as [|x a IH]; simpl; [done|]. by rewrite IH, andb_assoc. Qed.

Lemma split_without sep a : without sep a = true -> split sep a = [a].
Proof.
  induction a as [|c a IH]; [done|]. simpl. intros [Hc Ha]%andb_true_iff.
  apply negb_true_iff in Hc. by rewrite Hc, (IH Ha).
Qed.

Lemma split_app sep a b :
  without sep a = true -> split sep (a ++ String sep b)%string = a :: split sep b.
Proof.
  induction a as [|c a IH]; simpl.
  - intros _. by rewrite Ascii.eqb_refl.
  - intros [Hc Ha]%andb_true_iff. apply negb_true_iff in Hc. by rewrite Hc, (IH Ha).
Qed.

Lemma trimEnd_digits p : digitsOnly p = true -> trimEnd p = p.
Proof.
  induction p as [|c p IH]; [done|]. simpl. intros [Hc Hp]%andb_true_iff.
  rewrite (IH Hp). destruct p; [|done].
  by destruct (digit_is_plain c Hc) as (-> & _).
Qed.

Lemma trimEnd_app a b : trimEnd b <> "" -> trimEnd (a ++ b)%string = (a ++ trimEnd b)%string.
Proof.
  intros Hb. induction a as [|c a IH]; [done|]. simpl. rewrite IH.
  destruct (a ++ trimEnd b)%string eqn:E; [|done].
  destruct a; [|done]. simpl in E. done.
Qed.

(** A token that starts with a digit and ends on a run of digits is left
    as it is by [trim]. *)
Lemma trim_token c a p :
  is_digit c = true -> digitsOnly p = true -> p <> "" ->
  trim (String c (a ++ p)) = String c (a ++ p).
Proof.
  intros Hc Hp Hne. unfold trim. cbn [trimStart].
  destruct (digit_is_plain c Hc) as (-> & _).
  change (String c (a ++ p)) with (String c a ++ p)%string.
  rewrite trimEnd_app; by rewrite (trimEnd_digits p Hp).
Qed.

(** Rationals far below the overflow bound. *)
Lemma fnorm_tame A D :
  (0 <= A < 10 ^ 40)%Z -> fnorm (Qmake A D) = FFin (Qmake A D).
Proof.
  intros HA. unfold fnorm, Qle_bool. cbn [Qnum Qden inject_Z].
  assert (10 ^ 40 < overflow_bound)%Z as HB by (by vm_compute).
  rewrite (proj2 (Z.leb_gt _ _)) by nia.
  rewrite (proj2 (Z.leb_gt _ _)) by nia. done.
Qed.

Lemma fmul_tame A D C E :
  (0 <= A * C < 10 ^ 40)%Z ->
  fmul (FFin (Qmake A D)) (FFin (Qmake C E)) = FFin (Qmake (A * C) (D * E)).
Proof. intros H. cbn [fmul]. by apply fnorm_tame. Qed.

Lemma fadd_tame A D C E :
  (0 <= A * Zpos E + C * Zpos D < 10 ^ 40)%Z ->
  fadd (FFin (Qmake A D)) (FFin (Qmake C E))
  = FFin (Qmake (A * Zpos E + C * Zpos D) (D * E)).
Proof. intros H. cbn [fadd]. by apply fnorm_tame. Qed.

(** Rounding a rational that is an integer. *)
Lemma Math_round_integer N D : Math_round (FFin (Qmake (N * Zpos D) D)) = Fin N.
Proof.
  unfold Math_round, Qfloor, Qplus. cbn [Qnum Qden]. f_equal.
  symmetry. apply (Z.div_unique _ _ _ (Zpos D)); lia.
Qed.

Lemma numeral_bounds p :
  digitsOnly p = true -> (String.length p <= 9)%nat -> (0 <= numeral p < 10 ^ 9)%Z.
Proof.
  intros Hp Hlen. pose proof (numeral_from_bounds p 0 Hp ltac:(lia)) as H.
  fold (numeral p) in H.
  assert (10 ^ Z.of_nat (String.length p) <= 10 ^ 9)%Z
    by (apply Z.pow_le_mono_r; lia).
  lia.
Qed.

Lemma parseInt_digits p :
  p <> "" -> digitsOnly p = true -> (String.length p <= 9)%nat ->
  parseInt p = FFin (Qmake (numeral p) 1).
Proof.
  intros Hne Hp Hlen. pose proof (numeral_bounds p Hp Hlen) as Hb.
  destruct p as [|c p]; [done|]. unfold parseInt.
  pose proof Hp as [Hc Hp']%andb_true_iff.
  destruct (digit_is_plain c Hc) as (Hw & _ & _ & Hm & Hpl & _ & Hx & HX).
  cbn [trimStart]. rewrite Hw.
  assert (sign (String c p) = (false, String c p)) as ->.
  { unfold sign. destruct (Ascii.eqb_spec c "-") as [->|?]; [done|].
    destruct (Ascii.eqb_spec c "+") as [->|?]; [done|].
    by destruct c as [[] [] [] [] [] [] [] []]. }
  assert (startsWith "0x" (String c p) || startsWith "0X" (String c p) = false) as ->.
  { cbn [startsWith]. destruct p as [|c' p]; [by rewrite !andb_false_r|].
    pose proof Hp' as [Hc' _]%andb_true_iff.
    destruct (digit_is_plain c' Hc') as (_ & _ & _ & _ & _ & _ & -> & ->).
    by rewrite !andb_false_r. }
  rewrite (digits_all _ 0 Hp). fold (numeral (String c p)).
  cbn [String.length signed]. unfold inject_Z. apply fnorm_tame. lia.
Qed.

Lemma parseFloat_sign c p :
  is_digit c = true -> sign (trimStart (String c p)) = (false, String c p)
                       /\ startsWith "Infinity" (String c p) = false.
Proof.
  intros Hc. destruct (digit_is_plain c Hc) as (Hw & _ & _ & Hm & Hpl & HI & _).
  cbn [trimStart startsWith]. rewrite Hw, HI. split; [|done].
  unfold sign. destruct (Ascii.eqb_spec c "-") as [->|?]; [done|].
  destruct (Ascii.eqb_spec c "+") as [->|?]; [done|].
  by destruct c as [[] [] [] [] [] [] [] []].
Qed.

Lemma parseFloat_digits p :
  p <> "" -> digitsOnly p = true -> (String.length p <= 9)%nat ->
  parseFloat p = FFin (Qmake (numeral p * 1) 1).
Proof.
  intros Hne Hp Hlen. pose proof (numeral_bounds p Hp Hlen) as Hb.
  destruct p as [|c p]; [done|]. unfold parseFloat.
  pose proof Hp as [Hc Hp']%andb_true_iff.
  destruct (parseFloat_sign c p Hc) as [-> ->].
  rewrite (digits_all _ 0 Hp). fold (numeral (String c p)).
  cbn [String.length exponent signed Z.of_nat Z.sub Z.opp decimal Z.leb Z.compare Z.pow Z.pow_pos
       Pos.iter Z.mul Pos.mul].
  unfold inject_Z. apply fnorm_tame. lia.
Qed.

Lemma parseFloat_fraction p f :
  p <> "" -> digitsOnly p = true -> (String.length p <= 9)%nat ->
  f <> "" -> digitsOnly f = true -> (String.length f <= 3)%nat ->
  parseFloat (p ++ "." ++ f)
  = FFin (Qmake (numeral p * 10 ^ Z.of_nat (String.length f) + numeral f)
                (Z.to_pos (10 ^ Z.of_nat (String.length f)))).
Proof.
  intros Hne Hp Hlen Hnf Hf Hlf.
  pose proof (numeral_bounds p Hp Hlen) as Hb.
  pose proof (numeral_from_bounds f 0 Hf ltac:(lia)) as Hbf. fold (numeral f) in Hbf.
  assert (10 ^ Z.of_nat (String.length f) <= 10 ^ 3)%Z as Hpow
    by (apply Z.pow_le_mono_r; lia).
  destruct p as [|c p]; [done|]. unfold parseFloat.
  pose proof Hp as [Hc Hp']%andb_true_iff.
  cbn [append]. destruct (parseFloat_sign c (p ++ String "." f) Hc) as [-> ->].
  change (String c (p ++ String "." f)) with (String c p ++ String "." f)%string.
  rewrite (digits_app (String c p) (String "." f) 0 Hp) by done.
  fold (numeral (String c p)).
  rewrite (digits_all f _ Hf), numeral_from_split.
  destruct f as [|cf f]; [done|].
  cbn [String.length exponent signed].
  assert (Z.of_nat (S (String.length f)) > 0)%Z as Hk by lia.
  unfold decimal.
  rewrite (proj2 (Z.leb_gt _ _)) by lia.
  replace (- (0 - Z.of_nat (S (String.length f))))%Z
    with (Z.of_nat (S (String.length f))) by lia.
  apply fnorm_tame. cbn [String.length] in *. nia.
Qed.

Lemma round_ms A D N : (A = N * Zpos D)%Z -> Math_round (FFin (Qmake A D)) = Fin N.
Proof. intros ->. apply Math_round_integer. Qed.

Lemma parseTime_guard c t :
  is_digit c = true ->
  String.eqb (String c t) "" || String.eqb (String c t) "DNF"
  || String.eqb (String c t) "DNS" || String.eqb (String c t) "DSQ"
  || String.eqb (String c t) "DQ" = false.
Proof.
  intros Hc. cbn [String.eqb].
  assert (Ascii.eqb c "D" = false) as ->; [|done].
  by destruct c as [[] [] [] [] [] [] [] []].
Qed.

(** The seconds part of a token, with or without a fraction: what
    [parseFloat] makes of it, and the milliseconds it stands for. *)
Lemma seconds_part s f :
  allDigits s = true -> allDigits f = true ->
  (String.length s <= 9)%nat -> (String.length f <= 3)%nat ->
  (exists A D,
     parseFloat s = FFin (Qmake A D) /\ (A * 1000 = 1000 * numeral s * Zpos D)%Z
     /\ (0 <= A < 10 ^ 13)%Z /\ (Zpos D <= 1000)%Z)
  /\ (exists A D,
        parseFloat (s ++ String "." f) = FFin (Qmake A D)
        /\ (A * 1000 = (1000 * numeral s + thousandths f) * Zpos D)%Z
        /\ (0 <= A < 10 ^ 13)%Z /\ (Zpos D <= 1000)%Z).
Proof.
  intros [Hs0 Hs]%allDigits_spec [Hf0 Hf]%allDigits_spec Hls Hlf.
  pose proof (numeral_bounds s Hs Hls) as Hb.
  pose proof (numeral_from_bounds f 0 Hf ltac:(lia)) as Hbf. fold (numeral f) in Hbf.
  split.
  - exists (numeral s * 1)%Z, 1%positive.
    split; [by apply parseFloat_digits|]. lia.
  - exists (numeral s * 10 ^ Z.of_nat (String.length f) + numeral f)%Z,
           (Z.to_pos (10 ^ Z.of_nat (String.length f))).
    split; [by apply (parseFloat_fraction s f)|].
    set (k := Z.of_nat (String.length f)) in *.
    assert (0 <= k <= 3)%Z as Hk by lia.
    assert (0 < 10 ^ k)%Z as Hpos by (apply Z.pow_pos_nonneg; lia).
    assert (10 ^ k <= 10 ^ 3)%Z as Hle by (apply Z.pow_le_mono_r; lia).
    assert (10 ^ (3 - k) * 10 ^ k = 1000)%Z as Hprod
      by (rewrite <- Z.pow_add_r by lia; by replace (3 - k + k)%Z with 3%Z by lia).
    rewrite Z2Pos.id by done. unfold thousandths. fold k.
    split; [nia|]. split; [nia|]. lia.
Qed.

Lemma plainSeconds_cases s f :
  allDigits s = true -> allDigits f = true ->
  plainSeconds s /\ plainSeconds (s ++ String "." f).
Proof.
  intros [Hs0 Hs]%allDigits_spec [Hf0 Hf]%allDigits_spec.
  destruct s as [|c s]; [done|]. pose proof Hs as [Hc Hs']%andb_true_iff.
  split.
  - split; [done|]. split; [by apply trimEnd_digits | by apply digitsOnly_without].
  - cbn [append plainSeconds]. split; [done|]. split.
    + change (String c (s ++ String "." f)) with (String c s ++ String "." f)%string.
      assert (trimEnd (String "." f) = String "." f) as Hdot.
      { cbn [trimEnd]. rewrite (trimEnd_digits f Hf). by destruct f. }
      rewrite trimEnd_app; by rewrite Hdot.
    + change (String c (s ++ String "." f)) with (String c s ++ String "." f)%string.
      rewrite without_app, (digitsOnly_without _ Hs). cbn [without].
      by rewrite (digitsOnly_without _ Hf).
Qed.

Lemma trim_plain pre sec :
  plainSeconds sec ->
  match (pre ++ sec)%string with String c _ => is_digit c = true | EmptyString => False end ->
  trim (pre ++ sec) = (pre ++ sec)%string.
Proof.
  intros Hsec Hfirst. unfold trim.
  assert (trimStart (pre ++ sec) = (pre ++ sec)%string) as ->.
  { destruct (pre ++ sec)%string as [|c t]; [done|]. cbn [trimStart].
    by destruct (digit_is_plain c Hfirst) as (-> & _). }
  destruct sec as [|c sec]; [done|]. destruct Hsec as (_ & Ht & _).
  rewrite trimEnd_app; by rewrite Ht.
Qed.

Lemma append_cons (a : string) c b :
  (a ++ String c b)%string = ((a ++ String c "") ++ b)%string.
Proof. induction a as [|x a IH]; simpl; [done | by rewrite IH]. Qed.

Lemma append_assoc (a b c : string) : ((a ++ b) ++ c)%string = (a ++ (b ++ c))%string.
Proof. induction a as [|x a IH]; simpl; [done | by rewrite IH]. Qed.

Lemma trim_after pre c sec :
  plainSeconds sec ->
  match pre with String d _ => is_digit d = true | EmptyString => False end ->
  trim (pre ++ String c sec) = (pre ++ String c sec)%string.
Proof.
  intros Hsec Hpre. rewrite append_cons. apply trim_plain; [done|].
  destruct pre as [|d pre]; [done|]. done.
Qed.

Section Formats.
Context (sec : string) (A : Z) (D : BinNums.positive) (N : Z).
Hypothesis sec_plain : plainSeconds sec.
Hypothesis sec_value : parseFloat sec = FFin (Qmake A D).
Hypothesis sec_ms : (A * 1000 = N * Zpos D)%Z.
Hypothesis sec_bounds : (0 <= A < 10 ^ 13)%Z /\ (Zpos D <= 1000)%Z.

Lemma parseTime_seconds : parseTime sec = Some (Fin N).
Proof.
  pose proof (trim_plain "" sec sec_plain) as Htrim. cbn [append] in Htrim.
  destruct sec as [|c t] eqn:E; [done|]. destruct sec_plain as (Hc & _ & Hcolon).
  unfold parseTime. rewrite (parseTime_guard c t Hc), (Htrim Hc).
  rewrite (split_without _ _ Hcolon), sec_value.
  unfold fint, inject_Z. rewrite fmul_tame by lia.
  f_equal. apply round_ms. lia.
Qed.

Lemma parseTime_minutes m :
  allDigits m = true -> (String.length m <= 9)%nat ->
  parseTime (m ++ String ":" sec) = Some (Fin (60000 * numeral m + N)).
Proof.
  intros [Hm0 Hm]%allDigits_spec Hlm.
  pose proof (numeral_bounds m Hm Hlm) as Hb.
  assert (split ":" (m ++ String ":" sec) = [m; sec]) as Hsplit.
  { rewrite (split_app _ _ _ (digitsOnly_without _ Hm)).
    destruct sec as [|c t]; [done|]. destruct sec_plain as (_ & _ & Hcolon).
    by rewrite (split_without _ _ Hcolon). }
  destruct m as [|c m']; [done|]. pose proof Hm as [Hc _]%andb_true_iff.
  pose proof (trim_after (String c m') ":" sec sec_plain Hc) as Htrim.
  unfold parseTime. cbn [append] in *. rewrite (parseTime_guard c _ Hc).
  rewrite Htrim, Hsplit, sec_value.
  rewrite (parseInt_digits (String c m')) by done.
  unfold fint, inject_Z.
  rewrite !fmul_tame by lia. rewrite fadd_tame by nia.
  f_equal. apply round_ms. nia.
Qed.

Lemma parseTime_hours h m :
  allDigits h = true -> (String.length h <= 9)%nat ->
  allDigits m = true -> (String.length m <= 9)%nat ->
  parseTime (h ++ String ":" (m ++ String ":" sec))
  = Some (Fin (3600000 * numeral h + 60000 * numeral m + N)).
Proof.
  intros [Hh0 Hh]%allDigits_spec Hlh [Hm0 Hm]%allDigits_spec Hlm.
  pose proof (numeral_bounds h Hh Hlh) as Hbh.
  pose proof (numeral_bounds m Hm Hlm) as Hbm.
  assert (split ":" (h ++ String ":" (m ++ String ":" sec)) = [h; m; sec]) as Hsplit.
  { rewrite (split_app _ _ _ (digitsOnly_without _ Hh)).
    rewrite (split_app _ _ _ (digitsOnly_without _ Hm)).
    destruct sec as [|c t]; [done|]. destruct sec_plain as (_ & _ & Hcolon).
    by rewrite (split_without _ _ Hcolon). }
  destruct h as [|c h']; [done|]. pose proof Hh as [Hc _]%andb_true_iff.
  assert (trim (String c h' ++ String ":" (m ++ String ":" sec))
          = (String c h' ++ String ":" (m ++ String ":" sec))%string) as Htrim.
  { rewrite (append_cons m ":" sec).
    change (String ":" ((m ++ String ":" "") ++ sec))
      with (String ":" (m ++ String ":" "") ++ sec)%string.
    rewrite <- append_assoc. by apply trim_plain. }
  unfold parseTime. cbn [append] in *. rewrite (parseTime_guard c _ Hc).
  rewrite Htrim, Hsplit, sec_value.
  rewrite (parseInt_digits (String c h')), (parseInt_digits m) by done.
  unfold fint, inject_Z.
  rewrite !fmul_tame by lia. rewrite !fadd_tame by nia.
  f_equal. apply round_ms. nia.
Qed.
End Formats.

(** X11.  [parseTime] reads the three formats of the time normaliser.
    For runs of at most nine digits [h], [m], [s] and at most three
    fraction digits [f], the tokens [s], [s.f], [m:s], [m:s.f], [h:m:s] and
    [h:m:s.f] parse to the milliseconds they denote, 3600000 h + 60000 m
    + 1000 s + the thousandths of [f].  Minutes and seconds are not
    limited to 59. *)
Theorem parseTime_reads_the_formats (h m s f : string) :
  allDigits h = true -> allDigits m = true -> allDigits s = true -> allDigits f = true ->
  (String.length h <= 9)%nat -> (String.length m <= 9)%nat ->
  (String.length s <= 9)%nat -> (String.length f <= 3)%nat ->
  let hours := (3600000 * numeral h)%Z in
  let minutes := (60000 * numeral m)%Z in
  let seconds := (1000 * numeral s)%Z in
  parseTime s = Some (Fin seconds)
  /\ parseTime (s ++ "." ++ f) = Some (Fin (seconds + thousandths f))
  /\ parseTime (m ++ ":" ++ s) = Some (Fin (minutes + seconds))
  /\ parseTime (m ++ ":" ++ s ++ "." ++ f)
     = Some (Fin (minutes + (seconds + thousandths f)))
  /\ parseTime (h ++ ":" ++ m ++ ":" ++ s) = Some (Fin (hours + minutes + seconds))
  /\ parseTime (h ++ ":" ++ m ++ ":" ++ s ++ "." ++ f)
     = Some (Fin (hours + minutes + (seconds + thousandths f))).
Proof.
  intros Hh Hm Hs Hf Hlh Hlm Hls Hlf hours minutes seconds.
  destruct (plainSeconds_cases s f Hs Hf) as [Hp1 Hp2].
  destruct (seconds_part s f Hs Hf Hls Hlf)
    as [(A1 & D1 & Hv1 & Hms1 & Hb1) (A2 & D2 & Hv2 & Hms2 & Hb2)].
  repeat split.
  - by apply (parseTime_seconds s A1 D1).
  - by apply (parseTime_seconds (s ++ String "." f) A2 D2).
  - by apply (parseTime_minutes s A1 D1).
  - by apply (parseTime_minutes (s ++ String "." f) A2 D2).
  - by apply (parseTime_hours s A1 D1).
  - by apply (parseTime_hours (s ++ String "." f) A2 D2).
Qed.

Lemma parseTime_reads_the_formats_witness :
  parseTime "83.45" = Some (Fin 83450)
  /\ parseTime "1:23.45" = Some (Fin 83450)
  /\ parseTime "1:75.5" = Some (Fin 135500)
  /\ parseTime "1:02:03.004" = Some (Fin 3723004).
Proof.
  assert (allDigits "1" = true /\ allDigits "02" = true /\ allDigits "03" = true
          /\ allDigits "004" = true /\ allDigits "23" = true /\ allDigits "45" = true
          /\ allDigits "75" = true /\ allDigits "5" = true /\ allDigits "83" = true)
    as (H1 & H02 & H03 & H004 & H23 & H45 & H75 & H5 & H83) by (by vm_compute).
  destruct (parseTime_reads_the_formats "1" "1" "83" "45" H1 H1 H83 H45)
    as (_ & Ha & _); [simpl; lia..|].
  destruct (parseTime_reads_the_formats "1" "1" "23" "45" H1 H1 H23 H45)
    as (_ & _ & _ & Hb & _); [simpl; lia..|].
  destruct (parseTime_reads_the_formats "1" "1" "75" "5" H1 H1 H75 H5)
    as (_ & _ & _ & Hc & _); [simpl; lia..|].
  destruct (parseTime_reads_the_formats "1" "02" "03" "004" H1 H02 H03 H004)
    as (_ & _ & _ & _ & _ & Hd); [simpl; lia..|].
  split; [exact Ha|]. split; [exact Hb|]. split; [exact Hc | exact Hd].
Defined.

(** ** Reading the competitors *)

Lemma timeEntries_from elems :
  forall i acc k,
    fst (forEach_from (fun (st : list timeEntry * Z) time (_ : nat) =>
                         let '(times, runIndex) := st in
                         ((times ++ [mkTime (getElementText (Some time) "Course") runIndex
                                       (getElementText (Some time) "Result")
                                       (getElementText (Some time) "Status")])%list,
                          (runIndex + 1)%Z))
                      i elems (acc, k))
    = acc ++ entriesFrom k elems.
Proof.
  induction elems as [|t elems IH]; intros i acc k; cbn [forEach_from entriesFrom].
  - by rewrite app_nil_r.
  - rewrite IH. by rewrite <- app_assoc.
Qed.

Lemma timeEntries_spec elems : timeEntries elems = entriesFrom 0 elems.
Proof. unfold timeEntries, forEach. by rewrite timeEntries_from. Qed.

(** Entries numbered from 2 on leave the run times alone. *)
Lemma foldl_single_later elems k a :
  (2 <= k)%Z ->
  a_run1 (foldl step_single a (entriesFrom k elems)) = a_run1 a
  /\ a_run2 (foldl step_single a (entriesFrom k elems)) = a_run2 a.
Proof.
  revert k a. induction elems as [|t elems IH]; intros k a Hk; [done|].
  cbn [entriesFrom foldl].
  destruct (IH (k + 1)%Z (step_single a (mkTime (getElementText (Some t) "Course") k
                                          (getElementText (Some t) "Result")
                                          (getElementText (Some t) "Status"))))
    as [-> ->]; [lia|].
  unfold step_single. cbn [runIndex].
  destruct (Z.eqb_spec k 0); [lia|]. destruct (Z.eqb_spec k 1); [lia|].
  by destruct (checkStatus _ _).
Qed.

(** X12.  In a race that is not dual-course the run times go by the
    position of the [Time] elements of the competitor: run 1 is the time
    of the first element, run 2 the time of the second, null where the
    element is missing or holds no time, and further elements change
    neither. *)
Theorem run_times_go_by_position (timeElements : list node) (raceType : Z) :
  raceType <> 1%Z ->
  let p := processRacerTimes (timeEntries timeElements) raceType in
  p_run1 p = resultOf timeElements 0 /\ p_run2 p = resultOf timeElements 1.
Proof.
  intros Hrt p. unfold p, processRacerTimes. cbn [p_run1 p_run2].
  apply Z.eqb_neq in Hrt. rewrite Hrt, timeEntries_spec. unfold resultOf.
  destruct timeElements as [|t0 [|t1 rest]]; [done| |].
  - cbn [entriesFrom foldl lookup list_lookup]. unfold step_single. cbn [runIndex Z.eqb].
    by destruct (checkStatus _ _).
  - cbn [entriesFrom]. cbn [foldl].
    destruct (foldl_single_later rest (0 + 1 + 1)%Z
                (step_single
                   (step_single acc0
                      (mkTime (getElementText (Some t0) "Course") 0
                         (getElementText (Some t0) "Result")
                         (getElementText (Some t0) "Status")))
                   (mkTime (getElementText (Some t1) "Course") (0 + 1)
                      (getElementText (Some t1) "Result")
                      (getElementText (Some t1) "Status")))) as [-> ->]; [lia|].
    unfold step_single. cbn [runIndex Z.eqb Z.add Pos.add].
    cbn [lookup list_lookup].
    by destruct (checkStatus _ _), (checkStatus _ _).
Qed.

Lemma run_times_go_by_position_witness :
  let p := processRacerTimes (timeEntries exampleTimeElements) 0 in
  p_run1 p = Some (Fin 31200) /\ p_run2 p = Some (Fin 30800)
  /\ p_totalTime p = Some (Fin 62000).
Proof.
  intros p.
  destruct (run_times_go_by_position exampleTimeElements 0 ltac:(discriminate)) as [H1 H2].
  fold p in H1, H2. rewrite H1, H2. by vm_compute.
Defined.

(** ** The texts of a parsed competitor *)

Lemma trimStart_head s :
  match trimStart s with String c _ => is_white c = false | EmptyString => True end.
Proof.
  induction s as [|c s IH]; [done|]. cbn [trimStart].
  destruct (is_white c) eqn:Hc; [done|]. done.
Qed.

Lemma trimEnd_idem s : trimEnd (trimEnd s) = trimEnd s.
Proof.
  induction s as [|c s IH]; [done|]. cbn [trimEnd].
  destruct (trimEnd s) as [|d t] eqn:E.
  - destruct (is_white c) eqn:Hc; [done|]. cbn [trimEnd]. by rewrite Hc.
  - cbn [trimEnd] in *. by rewrite IH.
Qed.

Lemma trimEnd_head c s :
  is_white c = false -> exists t, trimEnd (String c s) = String c t.
Proof.
  intros Hc. cbn [trimEnd]. destruct (trimEnd s); rewrite ?Hc; by eexists.
Qed.

(** [trim] leaves a trimmed string as it is. *)
Lemma trim_idem s : trim (trim s) = trim s.
Proof.
  unfold trim. pose proof (trimStart_head s) as Hh.
  destruct (trimStart s) as [|c u]; [done|].
  destruct (trimEnd_head c u Hh) as [t Ht]. rewrite Ht.
  cbn [trimStart]. rewrite Hh, <- Ht. apply trimEnd_idem.
Qed.

Lemma getElementText_trimmed parent tag :
  trim (getElementText parent tag) = getElementText parent tag.
Proof.
  unfold getElementText. destruct parent as [p|]; [|done].
  destruct (querySelector p tag); [apply trim_idem | done].
Qed.

(** X13.  The racers that [parseCompetitors] returns.  Their bib, names,
    class and team are trimmed texts, so the key of the individual
    accumulation is first name, last name and team as they stand, joined
    by underscores; two parsed racers whose names hold no underscore have
    the same key exactly when they agree in first name, last name and team.
    A parsed racer is not yet scored, and it is a finisher for the scoring
    functions exactly when its total time is not null. *)
Theorem parsed_racers_are_trimmed (xml1 xml2 : node) (raceType1 raceType2 : Z)
    (r1 r2 : racer) :
  r1 ∈ parseCompetitors xml1 raceType1 ->
  r2 ∈ parseCompetitors xml2 raceType2 ->
  let first := fun r => firstName (info r) in
  let last := fun r => lastName (info r) in
  (exists t c,
     team (info r1) = Some t /\ class (info r1) = Some c
     /\ trim (bib (info r1)) = bib (info r1)
     /\ trim (first r1) = first r1 /\ trim (last r1) = last r1
     /\ trim t = t /\ trim c = c
     /\ individualKey (info r1) = (first r1 ++ "_" ++ last r1 ++ "_" ++ t)%string)
  /\ derived r1 = unscored
  /\ finished r1 = not_null (totalTime (info r1))
  /\ (noUnderscore (first r1) = true -> noUnderscore (last r1) = true ->
      noUnderscore (first r2) = true -> noUnderscore (last r2) = true ->
      (individualKey (info r1) = individualKey (info r2)
       <-> first r1 = first r2 /\ last r1 = last r2 /\ team (info r1) = team (info r2))).
Proof.
  unfold parseCompetitors.
  intros (c1 & -> & _)%list_elem_of_fmap (c2 & -> & _)%list_elem_of_fmap.
  cbn [info derived firstName lastName team class bib totalTime].
  split; [|split; [|split]].
  - eexists _, _. split; [done|]. split; [done|].
    unfold individualKey. cbn [bib firstName lastName team].
    rewrite ?trim_idem.
    rewrite ?(getElementText_trimmed (Some c1) "FirstName"),
      ?(getElementText_trimmed (Some c1) "LastName"),
      ?(getElementText_trimmed (Some c1) "Bib"),
      ?(getElementText_trimmed (Some c1) "Team"),
      ?(getElementText_trimmed (Some c1) "Class").
    done.
  - done.
  - unfold finished. cbn [info totalTime dnf dsq].
    unfold processRacerTimes. cbn [p_totalTime p_dnf p_dsq].
    destruct (a_dnf _), (a_dsq _); cbn [negb andb]; try done.
    by rewrite !andb_true_r.
  - unfold individualKey. cbn [info firstName lastName team].
    rewrite ?trim_idem.
    rewrite ?(getElementText_trimmed (Some c1) "FirstName"),
      ?(getElementText_trimmed (Some c1) "LastName"),
      ?(getElementText_trimmed (Some c2) "FirstName"),
      ?(getElementText_trimmed (Some c2) "LastName").
    intros Ha1 Hb1 Ha2 Hb2. split.
    + intros Hkey. apply key_split in Hkey as [Ha Hkey]; [|done..].
      apply key_split in Hkey as [Hb Ht]; [|done..].
      split; [exact Ha|]. split; [exact Hb|]. f_equal. exact Ht.
    + intros (Ha & Hb & Ht).
      assert (getElementText (Some c1) "Team" = getElementText (Some c2) "Team") as Ht'
        by congruence.
      by rewrite Ha, Hb, Ht'.
Qed.

Lemma parsed_racers_are_trimmed_witness :
  let racers := parseCompetitors exampleDocument 0 in
  map (fun r => individualKey (info r)) racers = ["Ann_Lee_Brainerd"; "Bo_Ray_Annandale"]
  /\ map (fun r => gender (info r)) racers = ["F"; "M"]
  /\ map finished racers = [true; false]
  /\ exists r1 r2, racers = [r1; r2] /\ derived r1 = unscored
                   /\ finished r1 = not_null (totalTime (info r1)).
Proof.
  intros racers.
  split; [by vm_compute|]. split; [by vm_compute|]. split; [by vm_compute|].
  destruct racers as [|r1 [|r2 [|r3 rest]]] eqn:E; try by vm_compute in E.
  exists r1, r2. split; [done|].
  assert (r1 ∈ parseCompetitors exampleDocument 0) as H1
    by (fold racers; rewrite E; in_list).
  assert (r2 ∈ parseCompetitors exampleDocument 0) as H2
    by (fold racers; rewrite E; in_list).
  destruct (parsed_racers_are_trimmed exampleDocument exampleDocument 0 0 r1 r2 H1 H2)
    as (_ & Hd & Hf & _).
  by split.
Defined.

(** ** The racers of an event *)

Lemma forEach_nested {St A B} (inner : St -> B -> nat -> St) (sub : A -> list B)
    (P : list B -> St -> Prop) (l : list A) (st : St) :
  P [] st ->
  (forall done_ st x j, P done_ st -> P (done_ ++ [x]) (inner st x j)) ->
  P (concat (map sub l))
    (forEach (fun st a (_ : nat) => forEach inner (sub a) st) l st).
Proof.
  intros H0 Hstep.
  assert (forall pre st', P pre st' -> forall i,
            P (pre ++ concat (map sub l))
              (forEach_from (fun st a (_ : nat) => forEach inner (sub a) st) i l st'))
    as Hgen.
  { induction l as [|a l IH]; intros pre st' Hpre i; cbn [forEach_from map concat].
    - by rewrite app_nil_r.
    - rewrite app_assoc. apply IH.
      assert (forall k pre' st'', P pre' st'' ->
                P (pre' ++ sub a) (forEach_from inner k (sub a) st'')) as Hin.
      { induction (sub a) as [|b bs IHb]; intros k pre' st'' H; cbn [forEach_from].
        - by rewrite app_nil_r.
        - rewrite (cons_middle b), app_assoc. apply IHb. by apply Hstep. }
      apply Hin. exact Hpre. }
  apply (Hgen [] st H0 0%nat).
Qed.

Lemma existsb_eqb k (seen : list string) : existsb (String.eqb k) seen = true <-> k ∈ seen.
Proof.
  rewrite existsb_exists. split.
  - intros (x & Hx%list_elem_of_In & ->%String.eqb_eq). done.
  - intros Hin. exists k. split; [by apply list_elem_of_In | apply String.eqb_refl].
Qed.

(** X14.  [getEventRacers] keeps, of the racers of all races of the
    event, the first racer of every key bib_firstName_lastName_team: the
    racers returned are racers of the event in their order, no two of them
    have the same key, every racer of the event has its key among them,
    and a racer before which no racer has the same key is returned. *)
Theorem event_racers_are_first_of_key (s : store) (ev : event) :
  let R := getEventRacers s ev in
  let all := eventRacers ev in
  R `sublist_of` all
  /\ NoDup (map (keyOf s) R)
  /\ (forall l, l ∈ all -> keyOf s l ∈ map (keyOf s) R)
  /\ (forall i l, all !! i = Some l ->
        (forall j l', (j < i)%nat -> all !! j = Some l' -> keyOf s l' <> keyOf s l) ->
        l ∈ R).
Proof.
  intros R all. unfold R, getEventRacers, all, eventRacers.
  set (inner := fun (st : list nat * list string) racer (_ : nat) =>
                  let '(allRacers, seen) := st in
                  let key := racerKey (info (get s racer)) in
                  if existsb (String.eqb key) seen then st
                  else (allRacers ++ [racer], seen ++ [key])).
  enough (let st := forEach (fun st rc (_ : nat) => forEach inner (racers rc) st)
                            (races ev) ([], []) in
          fst st `sublist_of` concat (map racers (races ev))
          /\ NoDup (map (keyOf s) (fst st))
          /\ (forall l, l ∈ concat (map racers (races ev)) ->
                keyOf s l ∈ map (keyOf s) (fst st))
          /\ (forall i l, concat (map racers (races ev)) !! i = Some l ->
                (forall j l', (j < i)%nat -> concat (map racers (races ev)) !! j = Some l' ->
                              keyOf s l' <> keyOf s l) ->
                l ∈ fst st)
          /\ snd st = map (keyOf s) (fst st)) as (H1 & H2 & H3 & H4 & _); [done|].
  apply (forEach_nested inner racers
           (fun done_ st =>
              fst st `sublist_of` done_
              /\ NoDup (map (keyOf s) (fst st))
              /\ (forall l, l ∈ done_ -> keyOf s l ∈ map (keyOf s) (fst st))
              /\ (forall i l, done_ !! i = Some l ->
                    (forall j l', (j < i)%nat -> done_ !! j = Some l' ->
                                  keyOf s l' <> keyOf s l) ->
                    l ∈ fst st)
              /\ snd st = map (keyOf s) (fst st))).
  - cbn. repeat split; try done; try constructor.
    + intros l Hl. by apply elem_of_nil in Hl.
  - intros done_ [Rk seen] x j (Hsub & Hnd & Hall & Hfirst & Hseen).
    cbn [fst snd] in *. subst seen. unfold inner.
    fold (keyOf s x).
    destruct (existsb (String.eqb (keyOf s x)) (map (keyOf s) Rk)) eqn:Hex; cbn [fst snd].
    + apply existsb_eqb in Hex.
      split; [by apply sublist_inserts_r|]. split; [done|]. split; [|split; [|done]].
      * intros l [Hl|Hl%list_elem_of_singleton]%elem_of_app; [by apply Hall|].
        by subst l.
      * intros i l Hi Hno.
        destruct (decide (i < length done_)%nat) as [Hlt|Hge].
        -- rewrite lookup_app_l in Hi by done. apply (Hfirst i l Hi).
           intros j' l' Hj' Hl'. apply (Hno j' l' Hj').
           by rewrite lookup_app_l by lia.
        -- exfalso. rewrite lookup_app_r in Hi by lia.
           apply list_lookup_singleton_Some in Hi as [Hi ->].
           apply list_elem_of_fmap in Hex as (y & Hy & HyR).
           assert (y ∈ done_) as Hyd by (by eapply elem_of_sublist).
           apply list_elem_of_lookup in Hyd as [jy Hjy].
           apply (Hno jy y); [apply lookup_lt_Some in Hjy; lia| |done].
           by rewrite lookup_app_l by (by eapply lookup_lt_Some).
    + assert (keyOf s x ∉ map (keyOf s) Rk) as Hnew
        by (intros Hin%existsb_eqb; congruence).
      split; [by apply sublist_app|]. rewrite map_app. cbn [map].
      split; [|split; [|split; [|done]]].
      * apply NoDup_app. split; [done|]. split; [|apply NoDup_singleton].
        intros k Hk ->%list_elem_of_singleton. done.
      * intros l [Hl|Hl%list_elem_of_singleton]%elem_of_app.
        -- apply elem_of_app. left. by apply Hall.
        -- subst l. apply elem_of_app. right. by left.
      * intros i l Hi Hno.
        destruct (decide (i < length done_)%nat) as [Hlt|Hge].
        -- rewrite lookup_app_l in Hi by done. apply elem_of_app. left.
           apply (Hfirst i l Hi).
           intros j' l' Hj' Hl'. apply (Hno j' l' Hj').
           by rewrite lookup_app_l by lia.
        -- rewrite lookup_app_r in Hi by lia.
           apply list_lookup_singleton_Some in Hi as [Hi ->].
           apply elem_of_app. right. by left.
Qed.

(** ** The gender prefix of an event name *)

Lemma matchWord_lower (w s : string) :
  matchWord (toLowerCase w) (w ++ s) = Some s.
Proof.
  induction w as [|c w IH]; [done|].
  cbn [toLowerCase map_string append matchWord].
  rewrite Ascii.eqb_refl. exact IH.
Qed.

Lemma trimStart_white_app (ws rest : string) :
  onlyWhite ws = true -> trimStart (ws ++ rest) = trimStart rest.
Proof.
  induction ws as [|c ws IH]; [done|].
  cbn [onlyWhite append trimStart]. intros [-> Hw]%andb_true_iff. by apply IH.
Qed.

Lemma trimStart_idem (s : string) : trimStart (trimStart s) = trimStart s.
Proof.
  pose proof (trimStart_head s) as Hh.
  destruct (trimStart s) as [|c u]; [done|]. cbn [trimStart]. by rewrite Hh.
Qed.

Lemma afterWord_lower (w ws rest : string) :
  onlyWhite ws = true -> ws <> "" ->
  afterWord (toLowerCase w) (w ++ ws ++ rest) = Some (trimStart rest).
Proof.
  intros Hw Hne. unfold afterWord. rewrite matchWord_lower.
  destruct ws as [|c ws]; [done|]. cbn [append].
  cbn [onlyWhite] in Hw. apply andb_true_iff in Hw as [Hc Hw].
  rewrite Hc. cbn [trimStart]. rewrite Hc. by rewrite trimStart_white_app.
Qed.

(** X15.  [stripGenderFromName] removes a leading "Boys" or "Girls",
    written in any mix of upper and lower case and followed by white
    space, together with that white space, and trims what is left. *)
Theorem gender_prefix_is_stripped (w ws rest : string) :
  toLowerCase w = "boys" \/ toLowerCase w = "girls" ->
  onlyWhite ws = true -> ws <> "" ->
  stripGenderFromName (w ++ ws ++ rest) = trim rest.
Proof.
  intros Hword Hw Hne.
  pose proof (afterWord_lower w ws rest Hw Hne) as Hafter.
  assert (trim (trimStart rest) = trim rest) as Htrim
    by (unfold trim; by rewrite trimStart_idem).
  unfold stripGenderFromName.
  destruct w as [|c w]; [by destruct Hword|].
  cbn [append]. cbn [append] in Hafter.
  destruct Hword as [Hword|Hword]; rewrite Hword in Hafter.
  - by rewrite Hafter.
  - assert (afterWord "boys" (String c (w ++ ws ++ rest)) = None) as ->.
    { cbn [toLowerCase map_string] in Hword. injection Hword as Hc _.
      unfold afterWord. cbn [matchWord]. by rewrite Hc. }
    by rewrite Hafter.
Qed.

Lemma gender_prefix_is_stripped_witness :
  stripGenderFromName ("GiRLS" ++ "  " ++ "Giant Slalom ") = "Giant Slalom".
Proof.
  rewrite (gender_prefix_is_stripped "GiRLS" "  " "Giant Slalom ");
    [reflexivity | by right | reflexivity | discriminate].
Defined.

(** ** The accumulation of the season *)

(** One iteration of the loop over the events that does not throw, in
    its steps. *)
Lemma processEvent_Some g c s0 totals ev i s1 totals' :
  processEvent g c (s0, Some totals) ev i = (s1, Some totals') ->
  exists sA all sB res standings,
    copyRacers s0 ev = (sA, all)
    /\ calculateIndividualResults sA all g c = (sB, res)
    /\ forEach (addIndividual sB ev) res (Some (individualTotals totals))
       = Some (individualTotals totals')
    /\ calculateTeamStandings sB all g (effectiveClass c) 4 = (s1, Some standings)
    /\ forEach (addTeam ev) standings (Some (teamTotals totals))
       = Some (teamTotals totals').
Proof.
  unfold processEvent. cbn [fst snd].
  destruct (copyRacers s0 ev) as [sA all] eqn:Hcopy.
  destruct (calculateIndividualResults sA all g c) as [sB res] eqn:Hres.
  destruct (forEach (addIndividual sB ev) res _) as [ind|] eqn:Hind; [|done].
  fold (effectiveClass c).
  destruct (calculateTeamStandings sB all g (effectiveClass c) 4)
    as [sC [standings|]] eqn:Hteam; [|done].
  destruct (forEach (addTeam ev) standings _) as [tt|] eqn:Htt; [|done].
  intros [= <- <-]. by exists sA, all, sB, res, standings.
Qed.

(** The loop over the events, when it does not throw, did not throw for
    the events before the last. *)
Lemma processEvents_snoc g c s events ev s' totals' :
  forEach (processEvent g c) (events ++ [ev]) (s, Some (mkTotals [] [])) = (s', Some totals') ->
  exists s1 totals,
    forEach (processEvent g c) events (s, Some (mkTotals [] [])) = (s1, Some totals)
    /\ processEvent g c (s1, Some totals) ev (length events) = (s', Some totals').
Proof.
  rewrite forEach_snoc.
  destruct (forEach (processEvent g c) events _) as [s1 [totals|]]; [by eauto|].
  done.
Qed.

(** *** The rows of the teams *)

Lemma addTeams_Some ev standings i :
  forEach_from (addTeam ev) i standings None = None.
Proof. by apply forEach_from_thrown. Qed.

Lemma addTeams_keys ev standings i totals totals' :
  forEach_from (addTeam ev) i standings (Some totals) = Some totals' ->
  NoDup (map fst totals) -> NoDup (map fst totals').
Proof.
  revert i totals. induction standings as [|t standings IH]; intros i totals; simpl.
  - by intros [= <-].
  - destruct (upsert _ _ _ totals) as [o|] eqn:Hup; [|by rewrite addTeams_Some].
    intros H Hnd. apply (IH _ _ H). by apply (upsert_keys _ _ _ _ _ Hup).
Qed.

(** The entry of a key after the teams of an event were added. *)
Lemma addTeams_own ev standings totals totals' k :
  forEach (addTeam ev) standings (Some totals) = Some totals' ->
  own k totals'
  = match filter (fun t => String.eqb k (t_name t) = true) standings with
    | [] => own k totals
    | ts => Some (fst (default (k, []) (own k totals)),
                  snd (default (k, []) (own k totals)) ++ map (teamRowFor ev) ts)
    end.
Proof.
  revert totals'. induction standings as [|t standings IH] using rev_ind; intros totals'.
  - by intros [= <-].
  - rewrite forEach_snoc.
    destruct (forEach (addTeam ev) standings (Some totals)) as [mid|]; [|done].
    cbn [addTeam]. intros Hup. rewrite (own_upsert _ k _ _ _ _ Hup).
    specialize (IH mid eq_refl). rewrite filter_app.
    destruct (String.eqb_spec k (t_name t)) as [->|Hne].
    + rewrite (filter_cons_True _ t []) by apply String.eqb_refl.
      rewrite filter_nil, IH.
      destruct (filter _ standings) as [|t0 ts]; cbn [app].
      * destruct (own (t_name t) totals) as [[id rows]|]; done.
      * cbn [default fst snd]. rewrite app_comm_cons, map_app, app_assoc. done.
    + rewrite (filter_cons_False _ t [])
        by (intros Heq%String.eqb_eq; done).
      rewrite filter_nil, app_nil_r. exact IH.
Qed.

Lemma filter_key_NoDup {A} (key : A -> string) (k : string) (l : list A) :
  NoDup (map key l) ->
  filter (fun t => String.eqb k (key t) = true) l = []
  \/ exists t, filter (fun t => String.eqb k (key t) = true) l = [t]
               /\ t ∈ l /\ key t = k.
Proof.
  induction l as [|x l IH]; [by left|]. cbn [map]. intros [Hx Hnd]%NoDup_cons.
  destruct (String.eqb_spec k (key x)) as [->|Hne].
  - right. exists x. rewrite filter_cons_True by apply String.eqb_refl.
    split; [|split; [by left | done]]. f_equal.
    destruct (IH Hnd) as [H|(t & _ & Ht & Hk)]; [done|].
    exfalso. apply Hx. rewrite <- Hk. apply list_elem_of_fmap. by exists t.
  - rewrite filter_cons_False by (intros Heq%String.eqb_eq; done).
    destruct (IH Hnd) as [H|(t & H & Ht & Hk)]; [by left|].
    right. exists t. split; [done|]. split; [by right | done].
Qed.

Lemma sumTeamPoints_nonneg s L :
  Forall (fun r => (0 <= teamScore s r)%Z) L -> (0 <= sumTeamPoints s L)%Z.
Proof.
  unfold sumTeamPoints. intros HL.
  enough (forall z, (0 <= z)%Z
            -> (0 <= foldl (fun sum r => (sum + teamScore s r)%Z) z L)%Z) as H
    by (apply H; lia).
  induction L as [|r L IH]; intros z Hz; simpl; [done|].
  apply Forall_cons in HL as [Hr HL]. apply IH; [done | lia].
Qed.

(** The teams of the standings of a race: every name once and not empty,
    a place from 1 on and a total that is not negative. *)
Lemma team_standings_rows s racers g rc topN s' standings :
  calculateTeamStandings s racers g rc topN = (s', Some standings) ->
  NoDup (map t_name standings)
  /\ forall t, t ∈ standings ->
       t_name t <> "" /\ (0 <= t_totalPoints t)%Z
       /\ exists n, t_place t = Some n /\ (1 <= n)%Z.
Proof.
  intros Hcall.
  destruct (team_standings_scored s racers g rc topN s' standings Hcall)
    as (teams & Hgr & -> & _).
  set (F := classFinishers s racers g rc) in *.
  set (N := classNonFinishers s racers g rc) in *.
  set (s2 := forEach _ N _) in *.
  destruct (grouped_values s2 (F ++ N) teams Hgr) as [Hnd Hval].
  split.
  - rewrite withPlaces_names.
    assert (map t_name (sort byTeamTotal (map (scoredTeam s2 topN) (values teams)))
            ≡ₚ map t_name (values teams)) as ->
      by (rewrite sort_perm, map_map; done).
    done.
  - intros t [i Hi]%list_elem_of_lookup.
    destruct (withPlaces_lookup _ _ _ Hi) as (t0 & Ht0 & -> & _ & -> & _ & ->).
    assert (t0 ∈ map (scoredTeam s2 topN) (values teams)) as Hin
      by (rewrite <- (sort_perm byTeamTotal); apply list_elem_of_lookup; eauto).
    apply list_elem_of_fmap in Hin as (t1 & -> & (Hne & _)%Hval).
    split; [done|]. split; [|exists (Z.of_nat i + 1)%Z; split; [done | lia]].
    cbn [scoredTeam t_totalPoints]. apply sumTeamPoints_nonneg.
    apply Forall_forall. intros r Hr%elem_of_take.
    destruct Hr as (j & Hj & _).
    assert (r ∈ filter (fun r => isPositive (teamPointsOf s2 r) = true)
                       (sort (byTeamPoints s2) (t_racers t1))) as Hf
      by (apply list_elem_of_lookup; eauto).
    apply list_elem_of_filter in Hf as [Hpos _]. unfold teamScore.
    destruct (teamPointsOf s2 r) as [z|]; [|done]. simpl in *.
    apply Z.ltb_lt in Hpos. lia.
Qed.

Lemma teamRowFor_teamRow ev t :
  (0 <= t_totalPoints t)%Z -> (exists n, t_place t = Some n /\ (1 <= n)%Z) ->
  teamRow (teamRowFor ev t).
Proof.
  intros Hp (n & Hn & Hle). unfold teamRow, teamRowFor. cbn. rewrite Hn.
  split; [done|]. split; [done|]. by exists n.
Qed.

Lemma addTeams_entries done_ ev standings tt tt' :
  teamEntries done_ tt ->
  NoDup (map t_name standings) ->
  (forall t, t ∈ standings ->
     t_name t <> "" /\ (0 <= t_totalPoints t)%Z
     /\ exists n, t_place t = Some n /\ (1 <= n)%Z) ->
  forEach (addTeam ev) standings (Some tt) = Some tt' ->
  teamEntries (done_ ++ [ev]) tt'.
Proof.
  intros [Hkeys Hent] Hnd Hteams Hloop. split.
  - by apply (addTeams_keys ev standings 0 tt tt' Hloop).
  - intros k v. rewrite (addTeams_own ev standings tt tt' k Hloop).
    rewrite map_app. cbn [map].
    destruct (filter_key_NoDup t_name k standings Hnd) as [->|(t & -> & Ht & Hk)].
    + intros (H1 & H2 & H3 & H4 & H5)%Hent. repeat split; try done.
      by apply sublist_inserts_r.
    + intros [= <-]. cbn [fst snd map].
      destruct (Hteams t Ht) as (Hne & Hpts & Hplace). rewrite Hk in Hne.
      destruct (own k tt) as [[id rows]|] eqn:Hown; cbn [default fst snd].
      * destruct (Hent k _ Hown) as (H1 & H2 & H3 & H4 & H5). cbn [fst snd] in *.
        split; [done|]. split; [done|]. split; [by destruct rows|].
        split.
        -- rewrite map_app. by apply sublist_app.
        -- apply Forall_app. split; [done|]. apply Forall_singleton.
           by apply teamRowFor_teamRow.
      * split; [done|]. split; [done|]. split; [done|]. split.
        -- cbn [app map]. apply sublist_inserts_l. by constructor.
        -- apply Forall_singleton. by apply teamRowFor_teamRow.
Qed.

Lemma season_teamEntries g c s events s' totals :
  forEach (processEvent g c) events (s, Some (mkTotals [] [])) = (s', Some totals) ->
  teamEntries events (teamTotals totals).
Proof.
  revert s' totals. induction events as [|ev events IH] using rev_ind; intros s' totals.
  - intros [= <- <-]. split; [constructor | done].
  - intros (s1 & totals1 & Hloop & Hev)%processEvents_snoc.
    apply processEvent_Some in Hev
      as (sA & all & sB & res & standings & _ & _ & _ & Hteam & Hadd).
    destruct (team_standings_rows _ _ _ _ _ _ _ Hteam) as [Hnd Hrows].
    by apply (addTeams_entries events ev standings (teamTotals totals1)); [apply (IH s1)|..].
Qed.

Lemma elem_of_rank {I} (l : list (seasonEntry I)) e :
  e ∈ rank l ->
  exists e0, e0 ∈ l /\ ident e = ident e0 /\ eventResults e = eventResults e0
             /\ eventCount e = eventCount e0.
Proof.
  unfold rank. intros (i & e0 & -> & Hi)%elem_of_lookup_imap.
  exists e0. split; [|done].
  rewrite <- (elem_of_sort byTotalDesc). apply list_elem_of_lookup. eauto.
Qed.

Lemma idents_rank {I} (l : list (seasonEntry I)) : map ident (rank l) ≡ₚ map ident l.
Proof.
  unfold rank. rewrite (map_imap_same ident) by done. by rewrite sort_perm.
Qed.

(** The standings, when they are returned, with the accumulators they
    are made of. *)
Lemma season_totals s events g c r :
  snd (calculateSeasonStandings s events g c) = Some r ->
  exists s' totals,
    forEach (processEvent g c) events (s, Some (mkTotals [] [])) = (s', Some totals)
    /\ teams r = rank (map (withDrop (Z.of_nat (length events))) (values (teamTotals totals)))
    /\ individuals r
       = rank (map (withDrop (Z.of_nat (length events)))
                   (values (individualTotals totals))).
Proof.
  unfold calculateSeasonStandings.
  destruct (forEach (processEvent g c) events _) as [s' [totals|]]; [|done].
  cbn [snd]. intros [= <-]. by exists s', totals.
Qed.

(** X16.  The teams of the season standings, when the standings are
    returned: every team name once and none empty; a team has at most one
    row for an event, its rows follow the order of the events, and so it
    has between 1 and as many rows as the season has events; its worst
    result is dropped exactly when it has a row for every event of a
    season of more than one event; every row has a place from 1 on,
    points that are not negative and no field size. *)
Theorem season_team_rows (s : store) (events : list event) (g : string)
    (c : option string) (r : seasonStandings) :
  snd (calculateSeasonStandings s events g c) = Some r ->
  let n := Z.of_nat (length events) in
  NoDup (map ident (teams r))
  /\ forall e, e ∈ teams r ->
       ident e <> ""
       /\ map rowEvent (eventResults e) `sublist_of` map eventId events
       /\ (1 <= eventCount e <= n)%Z
       /\ (is_Some (droppedResult e) <-> eventCount e = n /\ (1 < n)%Z)
       /\ Forall teamRow (eventResults e).
Proof.
  intros Hret n.
  destruct (season_totals s events g c r Hret) as (s' & totals & Hloop & Hteams & _).
  destruct (season_teamEntries g c s events s' totals Hloop) as [Hkeys Hent].
  assert (forall v, v ∈ values (teamTotals totals) ->
            exists k, own k (teamTotals totals) = Some v) as Hown.
  { intros v [k Hk]%elem_of_values. exists k. by apply own_elem_of_iff. }
  split.
  - rewrite Hteams, idents_rank, map_map. cbn [withDrop ident].
    assert (map (fun v : string * list eventResult => fst v) (values (teamTotals totals))
            = map fst (entries (teamTotals totals))) as ->.
    { unfold values. rewrite map_map. apply map_ext_in.
      intros [k v] Hin%list_elem_of_In. rewrite entries_perm in Hin.
      apply (own_elem_of_iff k v _ Hkeys) in Hin.
      by destruct (Hent k v Hin) as [Hid _]. }
    by rewrite entries_perm.
  - intros e He.
    assert (dropRule n e) as Hrule.
    { rewrite Hteams in He. apply (rank_dropRule n _ e) in He; [done|].
      intros e0 (x & -> & _)%list_elem_of_fmap. apply withDrop_dropRule. }
    pose proof (dropRule_dropped n e Hrule) as Hdrop.
    destruct Hrule as (Hcount & _).
    rewrite Hteams in He. apply elem_of_rank in He as (e0 & He0 & -> & Hrows & _).
    apply list_elem_of_fmap in He0 as (v & -> & Hv).
    cbn [withDrop ident eventResults] in *.
    destruct (Hown v Hv) as [k Hk].
    destruct (Hent k v Hk) as (H1 & H2 & H3 & H4 & H5).
    rewrite Hrows in *.
    pose proof (sublist_length _ _ H4) as Hlen. rewrite !length_map in Hlen.
    split; [by rewrite H1|]. split; [done|].
    assert (1 <= length (snd v))%nat by (destruct (snd v); [done | simpl; lia]).
    split; [lia|]. split; [|done].
    rewrite Hdrop. unfold n. lia.
Qed.

(** *** The rows of the individuals *)

Lemma elem_of_classFilter_shown s c L l :
  l ∈ classFilter s c L -> classShown c (class (info (get s l))).
Proof.
  unfold classFilter, classShown. destruct c as [[|c0 c]|]; [done| |done].
  by intros [H _]%list_elem_of_filter.
Qed.

(** A result with points, after [calculateIndividualResults]: the racer
    is of the gender and of a scoring team and is shown by the class
    filter, and its row has a place within the field and the points of
    that place. *)
Lemma scoring_result s racers g c ev l :
  NoDup racers -> Forall (fun l => (l < length s)%nat) racers ->
  let s' := fst (calculateIndividualResults s racers g c) in
  l ∈ snd (calculateIndividualResults s racers g c) ->
  scoresPoints s' l = true ->
  gender (info (get s' l)) = g
  /\ isScoringTeam (team (info (get s' l))) = true
  /\ classShown c (class (info (get s' l)))
  /\ individualRow (rowFor s' ev l).
Proof.
  intros Hnd Hval s' Hres Hsc.
  rewrite (individual_results_perm s racers g c) in Hres.
  pose proof (elem_of_classFilter_shown _ _ _ _ Hres) as Hshown.
  apply elem_of_classFilter in Hres.
  pose proof Hres as [Hin Hg]%elem_of_genderRacers.
  assert (l < length s)%nat as Hl by (rewrite Forall_forall in Hval; by apply Hval).
  unfold s'. rewrite individual_info. fold s'.
  split; [done|].
  split; [by apply (points_imply_scoring_team s racers g c l)|].
  split; [done|].
  destruct (gender_racer_cases _ _ _ _ Hres) as [HF|[HN|HX]].
  - apply list_elem_of_lookup in HF as [i Hi].
    destruct (tieRule_bounds _ _ _ _ (individual_tieRule s racers g c Hnd Hval) i l Hi)
      as (p & Hplace & Hp & Hpts).
    pose proof (individual_fieldSize_attached s racers g c l Hl Hres) as Hfs.
    pose proof (length_scoringFinishers s racers g) as Hlen.
    apply lookup_lt_Some in Hi.
    set (fs := Z.of_nat (length (scoringTeamRacers s racers g))) in *.
    exists p, fs. unfold rowFor. cbn [e_place e_fieldSize e_points].
    fold s' in Hplace, Hpts, Hfs. rewrite Hplace, Hpts, Hfs. cbn [default].
    split; [done|]. split; [done|]. split; [unfold fs; lia|].
    apply getPointsForPlace_in_field. unfold fs. lia.
  - exfalso. apply elem_of_scoringNonFinishers in HN as [_ HN].
    destruct (individual_unplaced s racers g c l Hl Hres (or_introl HN)) as [_ Hp].
    unfold scoresPoints, pointsOf in Hsc. fold s' in Hp. by rewrite Hp in Hsc.
  - exfalso. apply elem_of_nonScoringRacers in HX as [_ HX].
    destruct (individual_unplaced s racers g c l Hl Hres (or_intror HX)) as [_ Hp].
    unfold scoresPoints, pointsOf in Hsc. fold s' in Hp. by rewrite Hp in Hsc.
Qed.

Lemma addIndividuals_entries g c events s ev results i totals totals' :
  ev ∈ events ->
  (forall l, l ∈ results -> scoresPoints s l = true ->
     gender (info (get s l)) = g
     /\ isScoringTeam (team (info (get s l))) = true
     /\ classShown c (class (info (get s l)))
     /\ individualRow (rowFor s ev l)) ->
  (forall e, e ∈ totals -> individualEntry g c events (snd e)) ->
  forEach_from (addIndividual s ev) i results (Some totals) = Some totals' ->
  forall e, e ∈ totals' -> individualEntry g c events (snd e).
Proof.
  intros Hev. revert i totals.
  induction results as [|x results IH]; intros i totals Hres Hent; simpl.
  - by intros [= <-].
  - assert (forall l, l ∈ results -> scoresPoints s l = true ->
              gender (info (get s l)) = g
              /\ isScoringTeam (team (info (get s l))) = true
              /\ classShown c (class (info (get s l)))
              /\ individualRow (rowFor s ev l)) as Hres'
      by (intros l Hl; apply Hres; by right).
    assert (scoresPoints s x
            = match points (derived (get s x)) with
              | Some p => negb (p =? 0)%Z
              | None => false
              end) as Hsc by reflexivity.
    destruct (points (derived (get s x))) as [p|] eqn:Hp;
      [destruct (Z.eqb_spec p 0) as [->|Hne]|]; [by apply IH| |by apply IH].
    destruct (upsert _ _ _ totals) as [o1|] eqn:Hup;
      [|by rewrite forEach_from_thrown].
    apply IH; [done|].
    destruct (Hres x) as (Hg & Hteam & Hshown & Hrow);
      [by left | rewrite Hsc; by destruct (Z.eqb_spec p 0) |].
    assert (mkEventResult (name ev) (date ev) p (place (derived (get s x)))
              (fieldSize (derived (get s x))) = rowFor s ev x) as Hrf
      by (unfold rowFor, pointsOf, placeOf, fieldSizeOf; by rewrite Hp).
    rewrite Hrf in Hup.
    assert (individualRow (rowFor s ev x)
            /\ exists ev', ev' ∈ events /\ rowEvent (rowFor s ev x) = eventId ev')
      as Hnew by (split; [done | by exists ev]).
    intros e He.
    destruct (elem_of_upsert _ _ _ _ _ _ Hup He) as [Hold|[->|(k' & v & Hv & ->)]].
    + by apply Hent.
    + split; [|split; [done | by apply Forall_singleton]].
      cbn [fst]. unfold seasonAthlete.
      cbn [a_gender a_team a_class a_firstName a_lastName].
      by rewrite !trim_idem.
    + destruct (Hent _ Hv) as (Ha & Hne' & Hrows). cbn [snd] in *.
      split; [done|]. split; [by destruct (snd v)|].
      apply Forall_app. split; [done | by apply Forall_singleton].
Qed.

Lemma processEvent_individuals s g c events st ev i :
  (forall rc l, rc ∈ races ev -> l ∈ racers rc -> (l < length s)%nat) ->
  ev ∈ events ->
  unchanged s (fst st) ->
  (forall totals, snd st = Some totals ->
     forall e, e ∈ individualTotals totals -> individualEntry g c events (snd e)) ->
  forall totals', snd (processEvent g c st ev i) = Some totals' ->
    forall e, e ∈ individualTotals totals' -> individualEntry g c events (snd e).
Proof.
  intros Hval Hev Hu Hent totals' Hret.
  destruct st as [s0 [totals|]]; [|done].
  destruct (processEvent g c (s0, Some totals) ev i) as [s1 o] eqn:Hstep.
  cbn [snd] in Hret. subst o.
  apply processEvent_Some in Hstep
    as (sA & all & sB & res & standings & Hcopy & Hres & Hadd & _).
  cbn [fst snd] in *.
  assert (forall rc l, rc ∈ races ev -> l ∈ racers rc -> (l < length s0)%nat) as Hval0.
  { intros rc l Hrc Hl. pose proof (Hval rc l Hrc Hl).
    pose proof (unchanged_length _ _ Hu). lia. }
  destruct (copyRacers_copies s0 ev Hval0) as [Hnd Hcopies].
  rewrite Hcopy in Hnd, Hcopies. cbn [fst snd] in *.
  assert (Forall (fun l => (l < length sA)%nat) all) as Hall.
  { apply Forall_forall. intros l Hl. by destruct (Hcopies l Hl). }
  apply (addIndividuals_entries g c events sB ev res 0 (individualTotals totals));
    [done| |by apply Hent|exact Hadd].
  intros l Hl Hsc.
  pose proof (scoring_result sA all g c ev l Hnd Hall) as H.
  rewrite Hres in H. cbn [fst snd] in H. by apply H.
Qed.

(** X17.  The individuals of the season standings, when the standings
    are returned and the racers of the events are objects of the store:
    every athlete is of the gender asked for and of a scoring team, is
    shown by the class filter and has trimmed names; every athlete has at
    least one row, and every row is for an event of the season and holds a
    place within the field of that event and the points of the place,
    field size - place + 1, so at least 1 point. *)
Theorem season_individual_rows (s : store) (events : list event) (g : string)
    (c : option string) (r : seasonStandings) :
  (forall ev rc l, ev ∈ events -> rc ∈ races ev -> l ∈ racers rc -> (l < length s)%nat) ->
  snd (calculateSeasonStandings s events g c) = Some r ->
  forall e, e ∈ individuals r ->
    seasonAthlete g c (ident e)
    /\ (1 <= eventCount e)%Z
    /\ Forall (fun row => (exists ev, ev ∈ events /\ rowEvent row = eventId ev)
                          /\ individualRow row /\ (1 <= e_points row)%Z)
              (eventResults e).
Proof.
  intros Hval Hret e He.
  destruct (season_totals s events g c r Hret) as (s' & totals & Hloop & _ & Hinds).
  assert (unchanged s (fst (forEach (processEvent g c) events (s, Some (mkTotals [] []))))
          /\ forall totals',
               snd (forEach (processEvent g c) events (s, Some (mkTotals [] [])))
               = Some totals' ->
               forall e, e ∈ individualTotals totals' ->
                 individualEntry g c events (snd e)) as [_ Hent].
  { apply (forEach_invariant
             (fun st => unchanged s (fst st)
                        /\ forall totals', snd st = Some totals' ->
                             forall e, e ∈ individualTotals totals' ->
                               individualEntry g c events (snd e))).
    - split; [apply unchanged_refl|]. intros totals' [= <-] e0 He0.
      by apply elem_of_nil in He0.
    - intros st ev j Hev [Hu Hst]. split; [by apply processEvent_unchanged|].
      apply (processEvent_individuals s); [|done..].
      intros rc l. by apply Hval. }
  rewrite Hloop in Hent. specialize (Hent totals eq_refl).
  assert (dropRule (Z.of_nat (length events)) e) as (Hcount & _).
  { rewrite Hinds in He. apply (rank_dropRule (Z.of_nat (length events)) _ e) in He; [done|].
    intros e0 (x & -> & _)%list_elem_of_fmap. apply withDrop_dropRule. }
  rewrite Hinds in He. apply elem_of_rank in He as (e0 & He0 & -> & Hrows & _).
  apply list_elem_of_fmap in He0 as (v & -> & [k Hv]%elem_of_values).
  cbn [withDrop ident eventResults] in *.
  destruct (Hent _ Hv) as (Ha & Hne & Hall). cbn [snd] in *.
  rewrite Hrows in *.
  split; [done|]. split; [destruct (snd v); [done | simpl in Hcount; lia]|].
  eapply Forall_impl; [exact Hall|].
  intros row [Hrow Hev]. split; [done|]. split; [done|].
  destruct Hrow as (p & fs & _ & _ & Hp & ->). lia.
Qed.

Lemma season_team_rows_witness :
  exists r,
    snd (calculateSeasonStandings fiveEventStore fiveEventSeason "M" None) = Some r
    /\ map (fun e => (ident e, map eventName (eventResults e), eventCount e,
                      option_map eventName (droppedResult e)))
           (teams r)
       = [("Brainerd", ["E1"; "E2"; "E3"; "E4"; "E5"], 5%Z, Some "E3");
          ("Annandale", ["E1"; "E2"; "E4"; "E5"], 4%Z, None)]
    /\ NoDup (map ident (teams r))
    /\ forall e, e ∈ teams r ->
         ident e <> ""
         /\ map rowEvent (eventResults e) `sublist_of` map eventId fiveEventSeason
         /\ (1 <= eventCount e <= 5)%Z
         /\ (is_Some (droppedResult e) <-> eventCount e = 5%Z /\ (1 < 5)%Z)
         /\ Forall teamRow (eventResults e).
Proof.
  destruct (season_returns fiveEventStore fiveEventSeason "M" None fiveEvent_safe)
    as [r E].
  exists r. split; [exact E|].
  assert (r = match snd (calculateSeasonStandings fiveEventStore fiveEventSeason "M" None)
              with Some r => r | None => r end) as Hr by (by rewrite E).
  split; [rewrite Hr; by vm_compute|].
  exact (season_team_rows fiveEventStore fiveEventSeason "M" None r E).
Defined.

Lemma season_individual_rows_witness :
  exists r,
    snd (calculateSeasonStandings fiveEventStore fiveEventSeason "M" None) = Some r
    /\ map (fun e => (a_firstName (ident e), a_team (ident e),
                      map (fun row => (e_place row, e_fieldSize row, e_points row))
                          (eventResults e)))
           (individuals r)
       = [("A", Some "Brainerd",
           [(Place 1, Some 2, 2); (Place 1, Some 2, 2); (Place 1, Some 1, 1);
            (Place 1, Some 2, 2); (Place 1, Some 2, 2)]%Z);
          ("B", Some "Annandale",
           [(Place 2, Some 2, 1); (Place 2, Some 2, 1); (Place 2, Some 2, 1);
            (Place 2, Some 2, 1)]%Z)]
    /\ forall e, e ∈ individuals r ->
         seasonAthlete "M" None (ident e)
         /\ (1 <= eventCount e)%Z
         /\ Forall (fun row => (exists ev, ev ∈ fiveEventSeason /\ rowEvent row = eventId ev)
                               /\ individualRow row /\ (1 <= e_points row)%Z)
                   (eventResults e).
Proof.
  destruct (season_returns fiveEventStore fiveEventSeason "M" None fiveEvent_safe)
    as [r E].
  exists r. split; [exact E|].
  assert (r = match snd (calculateSeasonStandings fiveEventStore fiveEventSeason "M" None)
              with Some r => r | None => r end) as Hr by (by rewrite E).
  split; [rewrite Hr; by vm_compute|].
  apply (season_individual_rows fiveEventStore fiveEventSeason "M" None r); [|exact E].
  intros ev rc l Hev Hrc Hl. by destruct (fiveEvent_safe ev rc l Hev Hrc Hl).
Defined.

(** ** The runs of a dual-course race *)

Lemma lastOnCourse_snoc k times t :
  lastOnCourse k (times ++ [t])
  = if onCourse k t then parseTime (time t) else lastOnCourse k times.
Proof.
  unfold lastOnCourse. rewrite filter_app.
  destruct (onCourse k t) eqn:E.
  - rewrite (filter_cons_True _ t []) by done. by rewrite filter_nil, last_snoc.
  - rewrite (filter_cons_False _ t []) by (by rewrite E).
    by rewrite filter_nil, app_nil_r.
Qed.

Lemma course_number_digits (k : Z) (t : timeEntry) :
  course t <> "" -> digitsOnly (course t) = true -> (String.length (course t) <= 9)%nat ->
  onCourse k t = (numeral (course t) =? k)%Z.
Proof.
  intros Hne Hd Hlen. unfold onCourse. rewrite (parseInt_digits _ Hne Hd Hlen).
  unfold float_is, inject_Z, Qeq_bool. cbn [Qnum Qden].
  by rewrite !Z.mul_1_r.
Qed.

Lemma step_dual_runs (a : acc) (t : timeEntry) :
  a_run1 (step_dual a t) = (if onCourse 0 t then parseTime (time t) else a_run1 a)
  /\ a_run2 (step_dual a t) = (if onCourse 1 t then parseTime (time t) else a_run2 a).
Proof.
  unfold step_dual. fold (onCourse 0 t) (onCourse 1 t).
  assert (a_run1 (note_status a (checkStatus (time t) (XMLParser.status t))) = a_run1 a
          /\ a_run2 (note_status a (checkStatus (time t) (XMLParser.status t))) = a_run2 a)
    as [Hn1 Hn2] by (by destruct (checkStatus _ _)).
  assert (onCourse 0 t = true -> onCourse 1 t = false) as Hexcl.
  { unfold onCourse, float_is. destruct (parseInt (course t)) as [| |q|]; try done.
    intros Hq0%Qeq_bool_iff. destruct (Qeq_bool q (inject_Z 1)) eqn:Hq1; [|done].
    apply Qeq_bool_iff in Hq1. rewrite Hq0 in Hq1. done. }
  destruct (onCourse 0 t) eqn:E0.
  - rewrite (Hexcl eq_refl). cbn [set_run1 a_run1 a_run2]. by rewrite Hn2.
  - destruct (onCourse 1 t) eqn:E1; cbn [set_run2 a_run1 a_run2];
      by rewrite ?Hn1, ?Hn2.
Qed.

(** X18.  In a dual-course race the course number of a time entry
    selects the run: run 1 is the time of the last entry on course 0 and
    run 2 the time of the last entry on course 1, null without such an
    entry; entries on other courses set no run.  A course text of up to
    nine digits is on the course whose number it denotes.  A racer with no
    run-1 time has no total time, whatever the run-2 time. *)
Theorem dual_course_runs_go_by_course (times : list timeEntry) :
  let p := processRacerTimes times 1 in
  p_run1 p = lastOnCourse 0 times
  /\ p_run2 p = lastOnCourse 1 times
  /\ (p_run1 p = None -> p_totalTime p = None)
  /\ (forall k t, course t <> "" -> digitsOnly (course t) = true ->
        (String.length (course t) <= 9)%nat ->
        onCourse k t = (numeral (course t) =? k)%Z).
Proof.
  intros p.
  assert (a_run1 (foldl step_dual acc0 times) = lastOnCourse 0 times
          /\ a_run2 (foldl step_dual acc0 times) = lastOnCourse 1 times) as [H1 H2].
  { induction times as [|t times IH] using rev_ind; [done|].
    rewrite foldl_app, !lastOnCourse_snoc. cbn [foldl].
    destruct IH as [IH1 IH2].
    destruct (step_dual_runs (foldl step_dual acc0 times) t) as [-> ->].
    by rewrite IH1, IH2. }
  unfold p, processRacerTimes. cbn [Z.eqb Pos.eqb p_run1 p_run2 p_totalTime].
  split; [done|]. split; [done|]. split.
  - intros ->. by destruct (_ && _).
  - apply course_number_digits.
Qed.

Lemma dual_course_runs_go_by_course_witness :
  let p := processRacerTimes dualExample 1 in
  p_run1 p = Some (Fin 32500) /\ p_run2 p = Some (Fin 30000)
  /\ p_totalTime p = Some (Fin 62500).
Proof.
  intros p.
  destruct (dual_course_runs_go_by_course dualExample) as (H1 & H2 & _).
  fold p in H1, H2. rewrite H1, H2. by vm_compute.
Defined.

(** ** The racers that a scoring function writes *)

(** X19.  Scoring a division writes to the racers of that division
    only.  [calculateIndividualResults] for a gender leaves every racer of
    another gender as it was, [calculateTeamStandings] every racer outside
    the gender and class, whatever the outcome of the call; neither
    changes a parsed property of any racer, and neither creates a racer
    object. *)
Theorem scoring_writes_only_its_division (s : store) (racers : list ref) (g : string)
    (c : option string) (rc : string) (topN : nat) :
  only_writes (genderRacers s racers g) s (fst (calculateIndividualResults s racers g c))
  /\ only_writes (classRacers s racers g rc) s
       (fst (calculateTeamStandings s racers g rc topN)).
Proof.
  split; [apply individual_only_writes|].
  rewrite team_phases. cbv zeta.
  set (C := classRacers s racers g rc).
  set (F := classFinishers s racers g rc).
  set (N := classNonFinishers s racers g rc).
  set (fs := Z.of_nat (length C)).
  set (s1 := fst (forEach (teamPlaceFinisher F fs) F (s, 1%Z))).
  set (s2 := forEach (teamPlaceNone fs) N s1).
  assert (forall l, l ∈ F ++ N -> l ∈ C) as Hsub
    by (intros l; unfold F, N, C; by rewrite (class_arrays_perm s racers g rc)).
  assert (only_writes C s s2) as H2.
  { apply (only_writes_trans _ _ s1).
    - eapply only_writes_mono; [|apply teamPlaceFinishers_only_writes].
      intros l Hl. apply Hsub, elem_of_app. by left.
    - eapply only_writes_mono; [|apply teamPlaceNones_only_writes].
      intros l Hl. apply Hsub, elem_of_app. by right. }
  destruct (forEach (groupRacer s2) (F ++ N) (Some [])) as [teams|] eqn:Hgr; [|done].
  pose proof (groupRacer_members s2 _ teams Hgr) as Hmem.
  assert (only_writes C s2 (fst (forEach (scoreTeam topN) (values teams) (s2, [])))) as H3.
  { apply (forEach_only_writes fst (scoreTeam topN) (values teams) C (s2, [])).
    intros st t i Ht.
    eapply only_writes_mono; [|apply scoreTeam_only_writes].
    intros l Hl. by apply Hsub, (Hmem t l Ht). }
  destruct (forEach (scoreTeam topN) (values teams) (s2, [])) as [s3 scored].
  cbn [fst] in *. by eapply only_writes_trans.
Qed.

(** * C3: the drop rule *)


(** ** The rule by rows *)



(** ** The rule by events *)












